(** * SIMPL-2021 compiler (simplc): a shallow embedding and its properties

    The development follows the units of the C sources:
    - [valtypes.h]      value types as a bit set,
    - [hashtable.c]     the chained hash table,
    - [symboltable.c]   the two-scope symbol table built on it,
    - [scanner.c]       the lexer,
    - [simplc.c]        the recursive-descent parser, type checker and
                        code emitter driver.

    C integers are modelled as [Z]; where a width matters (the hash
    value, the slot counter, the number scanner) the wrap-around or the
    overflow check is written out.  Operations whose C behaviour is
    undefined (dereferencing a null or freed table, reading past an
    array) yield [None] or an [Undef] result. *)

From Stdlib Require Import ZArith String Ascii List Bool Lia DecimalString.
From stdpp Require Import base list.
Import ListNotations.

Local Open Scope string_scope.
Local Open Scope list_scope.
Local Open Scope Z_scope.

(** ** valtypes.h *)

Definition ValType := Z.

Definition TYPE_NONE     : ValType := 0.
Definition TYPE_ARRAY    : ValType := 1.
Definition TYPE_BOOLEAN  : ValType := 2.
Definition TYPE_INTEGER  : ValType := 4.
Definition TYPE_CALLABLE : ValType := 8.

(** C truth value of an integer expression. *)
Definition truthy (z : Z) : bool := negb (z =? 0).

Definition IS_ARRAY_TYPE (type : ValType) : bool := truthy (Z.land type TYPE_ARRAY).
Definition IS_BOOLEAN_TYPE (type : ValType) : bool := truthy (Z.land type TYPE_BOOLEAN).
Definition IS_CALLABLE_TYPE (type : ValType) : bool := truthy (Z.land type TYPE_CALLABLE).
Definition IS_INTEGER_TYPE (type : ValType) : bool := truthy (Z.land type TYPE_INTEGER).
Definition IS_ARRAY (type : ValType) : bool :=
  IS_ARRAY_TYPE type && negb (IS_CALLABLE_TYPE type).
Definition IS_PROCEDURE (type : ValType) : bool :=
  negb (truthy (Z.lxor type TYPE_CALLABLE)).
Definition IS_FUNCTION (type : ValType) : bool :=
  IS_CALLABLE_TYPE type && negb (IS_PROCEDURE type).
Definition IS_VARIABLE (type : ValType) : bool := (2 <=? type) && (type <=? 5).

(** [SET_RETURN_TYPE(type)] is [type &= ~TYPE_CALLABLE]. *)
Definition SET_RETURN_TYPE (type : ValType) : ValType :=
  Z.land type (Z.lnot TYPE_CALLABLE).

(** ** symboltable.h: identifier properties

    The header is not among the sources; the fields are the four that
    [make_idprop] in simplc.c fills in. *)

Record IDprop := mk_idprop {
  ip_type    : ValType;
  ip_offset  : Z;
  ip_nparams : Z;
  ip_params  : list ValType
}.

Definition make_idprop (type : ValType) (offset nparams : Z)
    (params : list ValType) : IDprop :=
  mk_idprop type offset nparams params.

Definition with_offset (p : IDprop) (off : Z) : IDprop :=
  mk_idprop (ip_type p) off (ip_nparams p) (ip_params p).

(** ** C strings *)

(** [strcmp]: bytes compare as unsigned characters; only the sign of the
    result is used by the callers. *)
Definition strcmp (a b : string) : Z :=
  match String.compare a b with
  | Eq => 0
  | Lt => -1
  | Gt => 1
  end.

(** A [char] promoted to [int]; plain [char] is taken as signed.  Names
    produced by the scanner are ASCII, below 128. *)
Definition char_to_int (c : ascii) : Z :=
  let n := Z.of_N (N_of_ascii c) in
  if n <? 128 then n else n - 256.

Definition UINT_WRAP : Z := 2 ^ 32.
Definition INT_MAX : Z := 2147483647.

(** ** hashtable.c

    The table is generic in C (void pointers, a hash and a comparison
    function, a float load factor).  The compiler instantiates it once,
    with string keys, [shift_hash], [key_strcmp] and the load factor
    [0.75f]; the model is that instance.  A bucket chain is a list whose
    head is the most recently linked entry.  Allocation is assumed to
    succeed. *)

Record HTentry := mk_entry {
  key   : string;
  value : IDprop
}.

Record HashTab := mk_hashtab {
  ht_table       : list (list HTentry);
  ht_size        : Z;
  ht_num_entries : Z;
  ht_idx         : Z
}.

Inductive ht_status :=
  | EXIT_SUCCESS
  | EXIT_FAILURE
  | HASH_TABLE_KEY_VALUE_PAIR_EXISTS
  | HASH_TABLE_NO_SPACE_FOR_NODE.

Definition INITIAL_DELTA_INDEX : Z := 4.

Definition delta : list Z :=
  [0; 0; 1; 1; 3; 1; 3; 1; 5; 3; 3; 9; 3; 1; 3; 19; 15;
   1; 5; 1; 3; 9; 3; 15; 3; 39; 5; 39; 57; 3; 35; 1].

(** [delta[i]]; [None] past either end of the array. *)
Definition delta_at (i : Z) : option Z :=
  if 0 <=? i then delta !! Z.to_nat i else None.

(** symboltable.c, [shift_hash]: a cyclic shift by five bits on a 32-bit
    unsigned value, then the character is added.  [None] is the division
    by zero of [hash % size]. *)
Fixpoint shift_hash_loop (keystr : string) (hash : Z) : Z :=
  match keystr with
  | EmptyString => hash
  | String c rest =>
      let hash1 := Z.lor (Z.shiftl hash 5 mod UINT_WRAP) (Z.shiftr hash 27) in
      let hash2 := (hash1 + char_to_int c) mod UINT_WRAP in
      shift_hash_loop rest hash2
  end.

Definition shift_hash (keystr : string) (size : Z) : option Z :=
  if size =? 0 then None else Some (shift_hash_loop keystr 0 mod size).

Definition key_strcmp (v1 v2 : string) : Z := strcmp v1 v2.

(** The walk along one chain: the first entry whose key compares equal. *)
Fixpoint chain_search (p : list HTentry) (k : string) : option IDprop :=
  match p with
  | [] => None
  | e :: next_ptr =>
      if key_strcmp k (key e) =? 0 then Some (value e)
      else chain_search next_ptr k
  end.

Definition ht_init : option HashTab :=
  d ← delta_at INITIAL_DELTA_INDEX;
  let i := Z.shiftl 1 INITIAL_DELTA_INDEX - d in
  Some (mk_hashtab (replicate (Z.to_nat i) []) i 0 INITIAL_DELTA_INDEX).

(** [ht_search]: the inner option is the pair (found, [*value]): [Some v]
    when the key is found and [*value] written, [None] when it is not and
    [*value] is left alone. *)
Definition ht_search (ht : HashTab) (k : string) : option (option IDprop) :=
  i ← shift_hash k (ht_size ht);
  p ← ht_table ht !! Z.to_nat i;
  Some (chain_search p k).

Definition getsize (ht : HashTab) : option Z :=
  d0 ← delta_at (ht_idx ht);
  d1 ← delta_at (ht_idx ht + 1);
  let i := ht_size ht + d0 in
  if i * 2 <=? INT_MAX then Some (i * 2 - d1) else None.

(** Link entry [p] at the head of bucket [k]. *)
Definition link_head (tbl : list (list HTentry)) (k : Z) (p : HTentry)
    : option (list (list HTentry)) :=
  q ← tbl !! Z.to_nat k;
  Some (<[Z.to_nat k := p :: q]> tbl).

Definition rehash_entry (new_size : Z) (acc : option (list (list HTentry)))
    (p : HTentry) : option (list (list HTentry)) :=
  new_table ← acc;
  k ← shift_hash (key p) new_size;
  link_head new_table k p.

Definition rehash (ht : HashTab) : option HashTab :=
  new_size ← getsize ht;
  new_table ← fold_left (fun acc bucket => fold_left (rehash_entry new_size) bucket acc)
                 (ht_table ht) (Some (replicate (Z.to_nat new_size) []));
  Some (mk_hashtab new_table new_size (ht_num_entries ht) (ht_idx ht + 1)).

(** The test [num_entries >= max_loadfactor * size] is on C floats; with
    the load factor 0.75 the product is exact while [3 * size < 2^24],
    where it is the integer comparison below. *)
Definition over_load (ht : HashTab) : bool :=
  3 * ht_size ht <=? 4 * ht_num_entries ht.

Definition ht_insert (ht : HashTab) (k : string) (v : IDprop)
    : option (ht_status * HashTab) :=
  i ← shift_hash k (ht_size ht);
  q ← ht_table ht !! Z.to_nat i;
  match chain_search q k with
  | Some _ => Some (HASH_TABLE_KEY_VALUE_PAIR_EXISTS, ht)
  | None =>
      let ht1 := mk_hashtab (ht_table ht) (ht_size ht) (ht_num_entries ht + 1) (ht_idx ht) in
      if over_load ht1 then
        ht2 ← rehash ht1;
        if ht_size ht2 <? ht_num_entries ht2 then
          Some (HASH_TABLE_NO_SPACE_FOR_NODE, ht2)
        else
          i2 ← shift_hash k (ht_size ht2);
          tbl ← link_head (ht_table ht2) i2 (mk_entry k v);
          Some (EXIT_SUCCESS, mk_hashtab tbl (ht_size ht2) (ht_num_entries ht2) (ht_idx ht2))
      else
        tbl ← link_head (ht_table ht1) i (mk_entry k v);
        Some (EXIT_SUCCESS, mk_hashtab tbl (ht_size ht1) (ht_num_entries ht1) (ht_idx ht1))
  end.

(** All entries of a table, bucket by bucket. *)
Definition ht_entries (ht : HashTab) : list HTentry := concat (ht_table ht).
Definition ht_keys (ht : HashTab) : list string := key <$> ht_entries ht.

(** ** codegen.h and codegen.c

    Neither file is among the sources.  The opcode names are the ones
    simplc.c passes to the emitter; the emitter itself is modelled from
    section 4.5 of the specification. *)

Inductive Bytecode :=
  | JVM_ALOAD | JVM_ARETURN | JVM_ASTORE | JVM_GOTO | JVM_IADD | JVM_IALOAD
  | JVM_IAND | JVM_IASTORE | JVM_IDIV | JVM_IFEQ
  | JVM_IF_ICMPEQ | JVM_IF_ICMPGE | JVM_IF_ICMPGT | JVM_IF_ICMPLE
  | JVM_IF_ICMPLT | JVM_IF_ICMPNE
  | JVM_ILOAD | JVM_IMUL | JVM_INEG | JVM_IOR | JVM_IREM | JVM_IRETURN
  | JVM_ISTORE | JVM_ISUB | JVM_IXOR | JVM_LDC | JVM_RETURN.

Inductive JVMatype := T_BOOLEAN | T_INT.

Definition Label := Z.

(** One entry of the instruction buffer: what one call of the emitter
    interface appends. *)
Inductive Instr :=
  | Op1 (op : Bytecode)
  | Op2 (op : Bytecode) (operand : Z)
  | Op2Label (op : Bytecode) (target : Label)
  | LabelDef (l : Label)
  | NewArray (atype : JVMatype)
  | Call (id : string) (prop : IDprop)
  | Print (type : ValType)
  | PrintString (str : string)
  | Read (type : ValType).

Record Subroutine := mk_sub {
  sub_name   : string;
  sub_prop   : option IDprop;
  sub_code   : list Instr;
  sub_width  : Z
}.

Record CodeGen := mk_cg {
  class_name  : option string;
  next_label  : Z;
  sub_open    : option (string * option IDprop);
  code        : list Instr;
  string_pool : list string;
  subroutines : list Subroutine
}.

(** Modelled from the spec: [init_code_generation] of codegen.c is
    missing; the emitter starts with no class name, no instructions, no
    strings, no closed subroutine, and a label counter at its origin. *)
Definition init_code_generation : CodeGen := mk_cg None 0 None [] [] [].

Definition cg_emit (i : Instr) (g : CodeGen) : CodeGen :=
  mk_cg (class_name g) (next_label g) (sub_open g) (code g ++ [i])
        (string_pool g) (subroutines g).

(** Modelled from the spec: [set_class_name] of codegen.c is missing; the
    identifier after [program] becomes the output class name. *)
Definition set_class_name (name : string) (g : CodeGen) : CodeGen :=
  mk_cg (Some name) (next_label g) (sub_open g) (code g) (string_pool g) (subroutines g).

(** Modelled from the spec: [get_label] of codegen.c is missing; it is a
    monotone counter that yields fresh labels. *)
Definition get_label (g : CodeGen) : Label * CodeGen :=
  (next_label g,
   mk_cg (class_name g) (next_label g + 1) (sub_open g) (code g)
         (string_pool g) (subroutines g)).

(** Modelled from the spec: [gen_1] of codegen.c is missing; [emit(op)]
    appends one instruction in stack-machine order. *)
Definition gen_1 (op : Bytecode) (g : CodeGen) : CodeGen := cg_emit (Op1 op) g.

(** Modelled from the spec: [gen_2] of codegen.c is missing; [emit(op, arg)]
    appends one instruction with its operand. *)
Definition gen_2 (op : Bytecode) (operand : Z) (g : CodeGen) : CodeGen :=
  cg_emit (Op2 op operand) g.

(** Modelled from the spec: [gen_2_label] of codegen.c is missing; it
    appends one branch instruction with its target label. *)
Definition gen_2_label (op : Bytecode) (l : Label) (g : CodeGen) : CodeGen :=
  cg_emit (Op2Label op l) g.

(** Modelled from the spec: [gen_label] of codegen.c is missing; it places
    a label at the current end of the instruction buffer. *)
Definition gen_label (l : Label) (g : CodeGen) : CodeGen := cg_emit (LabelDef l) g.

(** Modelled from the spec: [gen_cmp] of codegen.c is missing; it lowers an
    integer comparison to a two-branch sequence that leaves 0 or 1 on
    the stack. *)
Definition gen_cmp (cond : Bytecode) (g : CodeGen) : CodeGen :=
  let '(l1, g1) := get_label g in
  let '(l2, g2) := get_label g1 in
  gen_label l2
    (gen_2 JVM_LDC 1
       (gen_label l1
          (gen_2_label JVM_GOTO l2
             (gen_2 JVM_LDC 0
                (gen_2_label cond l1 g2))))).

(** Modelled from the spec: [gen_newarray] of codegen.c is missing; it
    allocates a one-dimensional array whose length is on top of the
    stack. *)
Definition gen_newarray (atype : JVMatype) (g : CodeGen) : CodeGen :=
  cg_emit (NewArray atype) g.

(** Modelled from the spec: [gen_call] of codegen.c is missing; it emits an
    invocation that honours the callee's parameter list and return
    kind. *)
Definition gen_call (id : string) (prop : IDprop) (g : CodeGen) : CodeGen :=
  cg_emit (Call id prop) g.

(** Modelled from the spec: [gen_print] of codegen.c is missing; it emits a
    type-directed print. *)
Definition gen_print (type : ValType) (g : CodeGen) : CodeGen := cg_emit (Print type) g.

(** Modelled from the spec: [gen_print_string] of codegen.c is missing; it
    emits a string print and keeps the string in a deduplicated pool. *)
Definition gen_print_string (str : string) (g : CodeGen) : CodeGen :=
  let pool := if existsb (String.eqb str) (string_pool g) then string_pool g
              else (string_pool g ++ [str])%list in
  cg_emit (PrintString str)
    (mk_cg (class_name g) (next_label g) (sub_open g) (code g) pool (subroutines g)).

(** Modelled from the spec: [gen_read] of codegen.c is missing; it emits
    the read primitive of the given base type. *)
Definition gen_read (type : ValType) (g : CodeGen) : CodeGen := cg_emit (Read type) g.

(** Modelled from the spec: [init_subroutine_codegen] of codegen.c is
    missing; it opens a subroutine with an empty instruction buffer. *)
Definition init_subroutine_codegen (name : string) (prop : option IDprop)
    (g : CodeGen) : CodeGen :=
  mk_cg (class_name g) (next_label g) (Some (name, prop)) []
        (string_pool g) (subroutines g).

(** Modelled from the spec: [close_subroutine_codegen] of codegen.c is
    missing; it records the frame width and appends the closed
    subroutine to the ordered output list. *)
Definition close_subroutine_codegen (width : Z) (g : CodeGen) : CodeGen :=
  match sub_open g with
  | Some (name, prop) =>
      mk_cg (class_name g) (next_label g) None []
            (string_pool g) (subroutines g ++ [mk_sub name prop (code g) width])
  | None => g
  end.

(** ** symboltable.c

    [table] and [saved_table] are pointers to hash tables.  After
    [close_subroutine] both name the same table (the assignment
    [saved_table = NULL] is commented out in the source), so the tables
    live in a store and the two variables hold addresses into it.  A
    freed table leaves [None] at its address. *)

Definition ptr := nat.

Record SymTab := mk_symtab {
  heap        : list (option HashTab);
  table       : option ptr;
  saved_table : option ptr;
  curr_offset : Z
}.

(** The state before [init_symbol_table]: zero-initialised statics. *)
Definition symtab_zero : SymTab := mk_symtab [] None None 0.

(** Dereference a table pointer; [None] for [NULL] or a freed table. *)
Definition load (h : list (option HashTab)) (p : option ptr) : option HashTab :=
  q ← p; mjoin (h !! q).

Definition store (h : list (option HashTab)) (q : ptr) (ht : HashTab)
    : list (option HashTab) :=
  <[q := Some ht]> h.

Definition init_symbol_table (st : SymTab) : option SymTab :=
  ht ← ht_init;
  Some (mk_symtab (heap st ++ [Some ht]) (Some (length (heap st))) None 1).

Definition find_name (id : string) (st : SymTab) : option (bool * option IDprop) :=
  t ← load (heap st) (table st);
  found ← ht_search t id;
  match found with
  | Some v => Some (true, Some v)
  | None =>
      match saved_table st with
      | None => Some (false, None)
      | Some q =>
          g ← load (heap st) (Some q);
          found2 ← ht_search g id;
          match found2 with
          | Some v =>
              if negb (IS_CALLABLE_TYPE (ip_type v)) then Some (false, Some v)
              else Some (true, Some v)
          | None => Some (false, None)
          end
      end
  end.

(** [open_subroutine]: the callable goes into the table that is current
    at the call, that table becomes [saved_table], and a fresh table
    becomes current. *)
Definition open_subroutine (id : string) (prop : IDprop) (st : SymTab)
    : option (bool * SymTab) :=
  p ← table st;
  t ← load (heap st) (Some p);
  '(rc, t') ← ht_insert t id prop;
  let h1 := store (heap st) p t' in
  match rc with
  | EXIT_SUCCESS =>
      fresh ← ht_init;
      Some (true, mk_symtab (h1 ++ [Some fresh]) (Some (length h1)) (Some p) 1)
  | _ => Some (false, mk_symtab h1 (table st) (saved_table st) (curr_offset st))
  end.

(** [close_subroutine]: [ht_free] walks and releases the current table,
    then [table = saved_table]; [freeprop] does nothing. *)
Definition close_subroutine (st : SymTab) : option SymTab :=
  p ← table st;
  _ ← load (heap st) (Some p);
  Some (mk_symtab (<[p := None]> (heap st)) (saved_table st) (saved_table st)
          (curr_offset st)).

(** [insert_name].  The table stores the pointer [prop], and the offset is
    written through that pointer after the entry is linked; the stored
    entry and the caller's [*prop] are one object.  The model returns the
    object as it is after the call and links that same value.  The
    counter is an [unsigned int]. *)
Definition insert_name (id : string) (prop : IDprop) (st : SymTab)
    : option (bool * IDprop * SymTab) :=
  '(found, _) ← find_name id st;
  if (found : bool) then Some (false, prop, st)
  else
    p ← table st;
    t ← load (heap st) (Some p);
    let prop' := if IS_VARIABLE (ip_type prop)
                 then with_offset prop (curr_offset st) else prop in
    '(rc, t') ← ht_insert t id prop';
    let h1 := store (heap st) p t' in
    match rc with
    | EXIT_SUCCESS =>
        if IS_VARIABLE (ip_type prop) then
          Some (true, prop',
                mk_symtab h1 (table st) (saved_table st)
                  ((curr_offset st + 1) mod UINT_WRAP))
        else
          Some (true, prop', mk_symtab h1 (table st) (saved_table st) (curr_offset st))
    | _ => Some (false, prop, mk_symtab h1 (table st) (saved_table st) (curr_offset st))
    end.

Definition get_variables_width (st : SymTab) : Z := curr_offset st.

Definition release_symbol_table (st : SymTab) : option SymTab :=
  p ← table st;
  _ ← load (heap st) (Some p);
  Some (mk_symtab (<[p := None]> (heap st)) None (saved_table st) (curr_offset st)).

(** ** Results and the state-and-error monad

    Every diagnostic of the compiler is fatal ([leprintf] reports at the
    global [position] and terminates); [Fatal] carries that position and
    the message.  [Undef] marks C undefined behaviour, [OutOfFuel] a
    recursion or loop bound of the model that was too small. *)

Record SourcePos := mk_pos { line : Z; col : Z }.

Inductive Failure :=
  | Message (msg : string)
  | Incompatible (expected found : ValType) (context : string).

Inductive Result (S A : Type) :=
  | Ok (a : A) (s : S)
  | Fatal (pos : SourcePos) (f : Failure)
  | Undef (what : string)
  | OutOfFuel.

Arguments Ok {S A} a s.
Arguments Fatal {S A} pos f.
Arguments Undef {S A} what.
Arguments OutOfFuel {S A}.

Definition M (S A : Type) : Type := S -> Result S A.

Definition ret {S A} (a : A) : M S A := fun s => Ok a s.

Definition bind {S A B} (m : M S A) (f : A -> M S B) : M S B :=
  fun s =>
    match m s with
    | Ok a s' => f a s'
    | Fatal pos e => Fatal pos e
    | Undef w => Undef w
    | OutOfFuel => OutOfFuel
    end.

Notation "'let*' x ':=' m 'in' k" := (bind m (fun x => k))
  (at level 10, x name, m at level 100, k at level 200).
Notation "'let*' ' pat ':=' m 'in' k" :=
  (bind m (fun x => match x with pat => k end))
  (at level 10, pat pattern, m at level 100, k at level 200).
Notation "m >> k" := (bind m (fun _ => k)) (at level 90, right associativity).

Definition gets {S A} (f : S -> A) : M S A := fun s => Ok (f s) s.
Definition modify {S} (f : S -> S) : M S unit := fun s => Ok tt (f s).
Definition undef {S A} (what : string) : M S A := fun _ => Undef what.
Definition out_of_fuel {S A} : M S A := fun _ => OutOfFuel.
Definition when {S} (c : bool) (m : M S unit) : M S unit :=
  if c then m else ret tt.

(** A C loop.  The body answers [inl a] to go round again with the loop
    variables [a], or [inr b] to leave ([break], [return], or the guard
    failing) with [b]. *)
Fixpoint loop {S A B} (n : nat) (body : A -> M S (A + B)) (a : A) : M S B :=
  match n with
  | O => out_of_fuel
  | S n' =>
      let* r := body a in
      match r with
      | inl a' => loop n' body a'
      | inr b => ret b
      end
  end.

(** [while (cond) body], with loop variables of type [A]. *)
Definition while_ {S A} (n : nat) (cond : A -> S -> bool) (body : A -> M S A)
    (a : A) : M S A :=
  loop n (fun a => let* c := gets (cond a) in
                   if (c : bool) then let* a' := body a in ret (inl a')
                   else ret (inr a)) a.

(** ** token.h and token.c

    The header is not among the sources.  The order of the enumeration
    is that of [token_names] in token.c, which the enumerators index. *)

Inductive TokenType :=
  | TOK_EOF | TOK_ID | TOK_NUM | TOK_STR
  | TOK_ARRAY | TOK_BEGIN | TOK_BOOLEAN | TOK_CHILL | TOK_DEFINE | TOK_DO
  | TOK_ELSE | TOK_ELSIF | TOK_END | TOK_EXIT | TOK_FALSE | TOK_IF
  | TOK_INTEGER | TOK_NOT | TOK_PROGRAM | TOK_READ | TOK_THEN | TOK_TRUE
  | TOK_WHILE | TOK_WRITE
  | TOK_EQ | TOK_GE | TOK_GT | TOK_LE | TOK_LT | TOK_NE
  | TOK_MINUS | TOK_OR | TOK_PLUS
  | TOK_AND | TOK_DIV | TOK_MUL | TOK_MOD
  | TOK_AMPERSAND | TOK_LBRACK | TOK_RBRACK | TOK_COMMA | TOK_GETS
  | TOK_LPAR | TOK_RPAR | TOK_SEMICOLON | TOK_TO.

(** The integer value of an enumerator. *)
Definition tok_index (t : TokenType) : Z :=
  match t with
  | TOK_EOF => 0 | TOK_ID => 1 | TOK_NUM => 2 | TOK_STR => 3
  | TOK_ARRAY => 4 | TOK_BEGIN => 5 | TOK_BOOLEAN => 6 | TOK_CHILL => 7
  | TOK_DEFINE => 8 | TOK_DO => 9 | TOK_ELSE => 10 | TOK_ELSIF => 11
  | TOK_END => 12 | TOK_EXIT => 13 | TOK_FALSE => 14 | TOK_IF => 15
  | TOK_INTEGER => 16 | TOK_NOT => 17 | TOK_PROGRAM => 18 | TOK_READ => 19
  | TOK_THEN => 20 | TOK_TRUE => 21 | TOK_WHILE => 22 | TOK_WRITE => 23
  | TOK_EQ => 24 | TOK_GE => 25 | TOK_GT => 26 | TOK_LE => 27
  | TOK_LT => 28 | TOK_NE => 29
  | TOK_MINUS => 30 | TOK_OR => 31 | TOK_PLUS => 32
  | TOK_AND => 33 | TOK_DIV => 34 | TOK_MUL => 35 | TOK_MOD => 36
  | TOK_AMPERSAND => 37 | TOK_LBRACK => 38 | TOK_RBRACK => 39
  | TOK_COMMA => 40 | TOK_GETS => 41 | TOK_LPAR => 42 | TOK_RPAR => 43
  | TOK_SEMICOLON => 44 | TOK_TO => 45
  end.

Definition token_names : list string :=
  ["end-of-file"; "identifier"; "number"; "string"; "'array'"; "'begin'";
   "'boolean'"; "'chill'"; "'define'"; "'do'"; "'else'"; "'elsif'"; "'end'";
   "'exit'"; "'false'"; "'if'"; "'integer'"; "'not'"; "'program'"; "'read'";
   "'then'"; "'true'"; "'while'"; "'write'"; "'='"; "'>='"; "'>'"; "'<='";
   "'<'"; "'#'"; "'-'"; "'or'"; "'+'"; "'and'"; "'/'"; "'*'"; "'mod'"; "'&'";
   "'['"; "']'"; "','"; "'<-'"; "'('"; "')'"; "';'"; "'->'"].

Definition get_token_string (type : TokenType) : string :=
  default "" (token_names !! Z.to_nat (tok_index type)).

Definition tok_eqb (a b : TokenType) : bool := tok_index a =? tok_index b.

(** A character array on the heap.  A cell holds the character stored
    in it, or [None] while nothing has been stored: [malloc] does not
    initialise.  Allocation is taken to succeed. *)
Definition Buffer := list (option ascii).

Definition malloc (n : nat) : Buffer := replicate n None.

(** [realloc(p, n)] with [n] at least the old size: the old cells,
    followed by new ones that hold nothing. *)
Definition realloc (p : Buffer) (n : nat) : Buffer :=
  p ++ replicate (n - length p) None.

(** The array read as a C string, up to the first NUL.  Reading a cell
    that was never written, or running off the end of the array, is not
    defined. *)
Fixpoint c_string (p : Buffer) : option string :=
  match p with
  | [] => None
  | None :: _ => None
  | Some c :: rest =>
      if N.eqb (N_of_ascii c) 0 then Some EmptyString
      else str ← c_string rest; Some (String c str)
  end.

(** Modelled from the spec: token.h is not among the sources.  A token is
    a kind and one payload: the value of a number, the lexeme of an
    identifier, or the character array of a string.  scanner.c stores
    the members [type], [value], [lexeme] and [string]; for every other
    kind of token it stores [type] alone, and the payload stays what it
    was. *)
Inductive Payload :=
  | NoPayload
  | Value (value : Z)
  | Lexeme (lexeme : string)
  | Chars (str : Buffer).

Record Token := mk_token {
  tok_type    : TokenType;
  tok_payload : Payload
}.

Definition tok_set_type (ty : TokenType) (t : Token) : Token :=
  mk_token ty (tok_payload t).
Definition tok_set_value (v : Z) (t : Token) : Token :=
  mk_token (tok_type t) (Value v).
Definition tok_set_lexeme (l : string) (t : Token) : Token :=
  mk_token (tok_type t) (Lexeme l).
Definition tok_set_string (str : Buffer) (t : Token) : Token :=
  mk_token (tok_type t) (Chars str).

(** The members [value], [lexeme] and [string] as they are read: [None]
    when the payload is not that member. *)
Definition tok_value (t : Token) : option Z :=
  match tok_payload t with
  | Value v => Some v
  | _ => None
  end.
Definition tok_lexeme (t : Token) : option string :=
  match tok_payload t with
  | Lexeme l => Some l
  | _ => None
  end.
Definition tok_string (t : Token) : option Buffer :=
  match tok_payload t with
  | Chars str => Some str
  | _ => None
  end.

(** ** scanner.c

    The scanner state: the unread part of the source file, the statics
    [ch], [column_number] and [last_read], the global [position] of
    error.h, and the token the parser passes in ([get_token] is only
    ever called on the parser's global [token]). *)

Record LexState := mk_lex {
  src           : string;
  ch            : Z;
  column_number : Z;
  last_read     : Z;
  position      : SourcePos;
  token         : Token
}.

Definition EOF : Z := -1.

Definition lex_set_position (p : SourcePos) (s : LexState) : LexState :=
  mk_lex (src s) (ch s) (column_number s) (last_read s) p (token s).
Definition lex_set_col (c : Z) (s : LexState) : LexState :=
  lex_set_position (mk_pos (line (position s)) c) s.
Definition lex_set_token (t : Token) (s : LexState) : LexState :=
  mk_lex (src s) (ch s) (column_number s) (last_read s) (position s) t.
Definition lex_set_type (ty : TokenType) (s : LexState) : LexState :=
  lex_set_token (tok_set_type ty (token s)) s.

(** ctype.h in the C locale. *)
Definition isspace (c : Z) : bool := (c =? 32) || ((9 <=? c) && (c <=? 13)).
Definition isdigit (c : Z) : bool := (48 <=? c) && (c <=? 57).
Definition isalpha (c : Z) : bool :=
  ((65 <=? c) && (c <=? 90)) || ((97 <=? c) && (c <=? 122)).
Definition isascii (c : Z) : bool := (0 <=? c) && (c <=? 127).
Definition isprint (c : Z) : bool := (32 <=? c) && (c <=? 126).

(** An [int] stored in a [char], or printed with [%c]: the value is
    taken modulo 256, so that [EOF] is the character 255. *)
Definition char_of (c : Z) : ascii := ascii_of_N (Z.to_N (c mod 256)).
Definition code_of (c : ascii) : Z := Z.of_N (N_of_ascii c).

Definition string_of_Z (z : Z) : string :=
  DecimalString.NilZero.string_of_int (Z.to_int z).

(** [leprintf]: report at the global position and terminate. *)
Definition leprintf {A} (msg : string) : M LexState A :=
  fun s => Fatal (position s) (Message msg).

Definition next_char : M LexState unit :=
  fun s =>
    match src s with
    | EmptyString =>
        Ok tt (mk_lex (src s) EOF (column_number s) (last_read s) (position s) (token s))
    | String c rest =>
        let c' := code_of c in
        let nl := last_read s =? 10 in
        let pos' := if nl then mk_pos (line (position s) + 1) (col (position s))
                    else position s in
        let column' := if nl then 0 else column_number s in
        Ok tt (mk_lex rest c' (column' + 1) c' pos' (token s))
    end.

(** A bound on the rounds of a loop that reads a character per round:
    the current character, the unread input, and the round that sees the
    end of the file. *)
Definition input_fuel (s : LexState) : nat := S (S (String.length (src s))).

(** One round of the [for] loop of [process_number]: the body and then
    [next_char()].  The product and sum [10 * num + digit] are [int]
    arithmetic; a result outside [int] is undefined behaviour and is
    reported as [Undef]. *)
Definition number_round (num : Z) : M LexState Z :=
  let* c := gets ch in
  let digit := c - 48 in
  if num >? Z.quot (INT_MAX - digit) 10 then leprintf "number too large"
  else
    let num' := 10 * num + digit in
    if (num' <=? INT_MAX) && (- INT_MAX - 1 <=? num') then
      next_char >> ret num'
    else undef "signed overflow in process_number".

Definition process_number : M LexState unit :=
  let* column := gets column_number in
  modify (lex_set_col column) >>
  let* fuel := gets input_fuel in
  let* num := while_ fuel (fun _ s => isdigit (ch s)) number_round 0 in
  modify (fun s => lex_set_token (tok_set_type TOK_NUM (tok_set_value num (token s))) s).

Definition MAX_INITIAL_STRLEN : nat := 1024.

(** [p[i] = c]; a store outside the array is undefined. *)
Definition store_char {S} (p : Buffer) (i : nat) (c : Z) : M S Buffer :=
  if (i <? length p)%nat then ret (<[i := Some (char_of c)]> p)
  else undef "character stored outside the array".

(** [process_string] over the loop variables [(i, nstring, str)].  An
    escape is stored as the backslash and the character after it; the
    second of the two stores is at [++i], with no test against
    [nstring].  Nothing is stored after the last character.  The counters
    are [size_t]; they are bounded by the length of the input and
    written as natural numbers. *)
Definition process_string : M LexState unit :=
  let* column := gets column_number in
  let* pos := gets position in
  let start_pos := mk_pos (line pos) (column - 1) in
  let* fuel := gets input_fuel in
  let* str :=
    loop fuel
      (fun v : nat * nat * Buffer =>
         let '(i, nstring0, str0) := v in
         let nstring := if (i =? nstring0)%nat then (nstring0 * 2)%nat else nstring0 in
         let str := if (i =? nstring0)%nat then realloc str0 nstring else str0 in
         let* c := gets ch in
         if c =? EOF then
           modify (lex_set_position start_pos) >> leprintf "string not closed"
         else if c =? 34 then
           next_char >> ret (inr str)
         else if c =? 92 then
           next_char >>
           let* c2 := gets ch in
           if (c2 =? 110) || (c2 =? 116) || (c2 =? 34) || (c2 =? 92) then
             let* str1 := store_char str i 92 in
             let* str2 := store_char str1 (i + 1) c2 in
             next_char >>
             ret (inl (i + 1 + 1, nstring, str2)%nat)
           else
             let* column2 := gets column_number in
             modify (lex_set_col (column2 - 1)) >>
             leprintf ("illegal escape code '\" ++ String (char_of c2) "' in string")
         else if isascii c && isprint c then
           let* str1 := store_char str i c in
           next_char >> ret (inl (i + 1, nstring, str1)%nat)
         else
           let* column2 := gets column_number in
           modify (lex_set_col column2) >>
           leprintf ("non-printable character (ASCII #" ++ string_of_Z c ++ ") in string"))
      (0%nat, MAX_INITIAL_STRLEN, malloc MAX_INITIAL_STRLEN) in
  modify (fun s => lex_set_token (tok_set_string str (tok_set_type TOK_STR (token s))) s).

(** [skip_comment]: the loop answers [true] when the closing pair was
    read (the [return] in the loop) and [false] at the end of the file. *)
Fixpoint skip_comment (n : nat) : M LexState unit :=
  match n with
  | O => out_of_fuel
  | S n' =>
      let* pos := gets position in
      let* column := gets column_number in
      let start_pos := mk_pos (line pos) (column - 2) in
      let* closed :=
        loop n'
          (fun _ : unit =>
             let* c := gets ch in
             if negb (c =? EOF) then
               if c =? 42 then
                 next_char >>
                 let* c2 := gets ch in
                 if c2 =? 41 then next_char >> ret (inr true)
                 else ret (inl tt)
               else if c =? 40 then
                 next_char >>
                 let* c2 := gets ch in
                 if c2 =? 42 then
                   next_char >> skip_comment n' >> ret (inl tt)
                 else next_char >> ret (inl tt)
               else next_char >> ret (inl tt)
             else ret (inr false))
          tt in
      if (closed : bool) then ret tt
      else modify (lex_set_position start_pos) >> leprintf "comment not closed"
  end.

Definition reserved : list (string * TokenType) :=
  [("and", TOK_AND); ("array", TOK_ARRAY); ("begin", TOK_BEGIN);
   ("boolean", TOK_BOOLEAN); ("chill", TOK_CHILL); ("define", TOK_DEFINE);
   ("do", TOK_DO); ("else", TOK_ELSE); ("elsif", TOK_ELSIF); ("end", TOK_END);
   ("exit", TOK_EXIT); ("false", TOK_FALSE); ("if", TOK_IF);
   ("integer", TOK_INTEGER); ("mod", TOK_MOD); ("not", TOK_NOT); ("or", TOK_OR);
   ("program", TOK_PROGRAM); ("read", TOK_READ); ("then", TOK_THEN);
   ("true", TOK_TRUE); ("while", TOK_WHILE); ("write", TOK_WRITE)].

Definition NUM_RESERVED_WORDS : Z := Z.of_nat (length reserved).

(** [reserved[mid]]; [None] outside the array. *)
Definition reserved_at (mid : Z) : option (string * TokenType) :=
  if 0 <=? mid then reserved !! Z.to_nat mid else None.

(** The binary search of [process_word] over the loop variables
    [(low, mid, high)]; [/] on [int] truncates towards zero. *)
Definition word_search_step (lexeme : string) (v : Z * Z * Z)
    : M LexState (Z * Z * Z + Z * Z * Z) :=
  let '(low, mid, high) := v in
  if low <=? high then
    match reserved_at mid with
    | None => undef "reserved[mid] read outside the array"
    | Some w =>
        let cmp := strcmp lexeme (fst w) in
        if cmp >? 0 then
          let low' := mid + 1 in ret (inl (low', Z.quot (low' + high) 2, high))
        else if cmp <? 0 then
          let high' := mid - 1 in ret (inl (low, Z.quot (low + high') 2, high'))
        else ret (inr (low, mid, high))
    end
  else ret (inr (low, mid, high)).

Definition word_search (lexeme : string) : M LexState (Z * Z * Z) :=
  let low := 0 in
  let high := NUM_RESERVED_WORDS in
  let mid := Z.quot (low + high) 2 in
  loop (Z.to_nat (high - low + 2)) (word_search_step lexeme) (low, mid, high).

Section Compiler.

(** scanner.h is not among the sources; the maximum identifier length is
    a parameter of the development. *)
Context (MAX_ID_LENGTH : Z).

Definition process_word : M LexState unit :=
  let* column := gets column_number in
  modify (lex_set_col column) >>
  let* fuel := gets input_fuel in
  let* '(_, lexeme) :=
    while_ fuel (fun _ s => isdigit (ch s) || isalpha (ch s) || (ch s =? 95))
      (fun '(i, lexeme) =>
         (if i =? MAX_ID_LENGTH then leprintf "identifier too long" else ret tt) >>
         let* c := gets ch in
         next_char >>
         ret (i + 1, (lexeme ++ String (char_of c) EmptyString)%string))
      (0, EmptyString) in
  let* '(low, mid, high) := word_search lexeme in
  if low >? high then
    modify (fun s => lex_set_token (tok_set_type TOK_ID (tok_set_lexeme lexeme (token s))) s)
  else
    match reserved_at mid with
    | None => undef "reserved[mid] read outside the array"
    | Some w => modify (lex_set_type (snd w))
    end.

Fixpoint get_token_fuel (n : nat) : M LexState unit :=
  match n with
  | O => out_of_fuel
  | S n' =>
      let* fuel := gets input_fuel in
      while_ fuel (fun _ s => isspace (ch s)) (fun _ => next_char) tt >>
      let* column := gets column_number in
      modify (lex_set_col column) >>
      let* c := gets ch in
      if negb (c =? EOF) then
        if isalpha c || (c =? 95) then process_word
        else if isdigit c then process_number
        else if c =? 34 then
          let* column1 := gets column_number in
          modify (lex_set_col column1) >> next_char >> process_string
        else if c =? 61 then modify (lex_set_type TOK_EQ) >> next_char
        else if c =? 62 then
          next_char >>
          let* c2 := gets ch in
          if c2 =? 61 then modify (lex_set_type TOK_GE) >> next_char
          else modify (lex_set_type TOK_GT)
        else if c =? 60 then
          next_char >>
          let* c2 := gets ch in
          if c2 =? 61 then modify (lex_set_type TOK_LE) >> next_char
          else if c2 =? 45 then modify (lex_set_type TOK_GETS) >> next_char
          else modify (lex_set_type TOK_LT)
        else if c =? 35 then modify (lex_set_type TOK_NE) >> next_char
        else if c =? 45 then
          next_char >>
          let* c2 := gets ch in
          if c2 =? 62 then modify (lex_set_type TOK_TO) >> next_char
          else modify (lex_set_type TOK_MINUS)
        else if c =? 43 then modify (lex_set_type TOK_PLUS) >> next_char
        else if c =? 47 then modify (lex_set_type TOK_DIV) >> next_char
        else if c =? 42 then modify (lex_set_type TOK_MUL) >> next_char
        else if c =? 38 then modify (lex_set_type TOK_AMPERSAND) >> next_char
        else if c =? 91 then modify (lex_set_type TOK_LBRACK) >> next_char
        else if c =? 93 then modify (lex_set_type TOK_RBRACK) >> next_char
        else if c =? 44 then modify (lex_set_type TOK_COMMA) >> next_char
        else if c =? 40 then
          next_char >>
          let* c2 := gets ch in
          if c2 =? 42 then
            next_char >>
            let* fuel2 := gets input_fuel in
            skip_comment (S fuel2) >> get_token_fuel n'
          else modify (lex_set_type TOK_LPAR)
        else if c =? 41 then modify (lex_set_type TOK_RPAR) >> next_char
        else if c =? 59 then modify (lex_set_type TOK_SEMICOLON) >> next_char
        else
          leprintf ("illegal character '" ++ String (char_of c) "' (ASCII #"
                    ++ string_of_Z c ++ ")")
      else modify (lex_set_type TOK_EOF)
  end.

Definition get_token : M LexState unit :=
  let* fuel := gets input_fuel in get_token_fuel fuel.

(** [init_scanner] on the contents of the source file. *)
Definition init_scanner (in_file : string) : M LexState unit :=
  modify (fun s => mk_lex in_file (ch s) 0 (last_read s) (mk_pos 1 0) (token s)) >>
  next_char.

(** The scanner state at program start: zero-initialised statics. *)
Definition lex_zero : LexState :=
  mk_lex EmptyString 0 0 0 (mk_pos 0 0) (mk_token TOK_EOF NoPayload).

(** ** simplc.c: global state and helpers *)

(** The compiler state: the scanner with the lookahead [token] and the
    [position], the global [return_type], the symbol table and the
    emitter. *)
Record State := mk_state {
  lex         : LexState;
  return_type : ValType;
  symtab      : SymTab;
  cg          : CodeGen
}.

Definition set_lex (l : LexState) (s : State) : State :=
  mk_state l (return_type s) (symtab s) (cg s).
Definition set_return_type (t : ValType) (s : State) : State :=
  mk_state (lex s) t (symtab s) (cg s).
Definition set_symtab (t : SymTab) (s : State) : State :=
  mk_state (lex s) (return_type s) t (cg s).
Definition set_cg (g : CodeGen) (s : State) : State :=
  mk_state (lex s) (return_type s) (symtab s) g.

(** Run a scanner action on the scanner part of the state. *)
Definition lift_lex {A} (m : M LexState A) : M State A :=
  fun s =>
    match m (lex s) with
    | Ok a l => Ok a (set_lex l s)
    | Fatal pos e => Fatal pos e
    | Undef w => Undef w
    | OutOfFuel => OutOfFuel
    end.

(** Run a symbol-table operation; [None] is a null or freed table. *)
Definition lift_sym {A} (f : SymTab -> option (A * SymTab)) : M State A :=
  fun s =>
    match f (symtab s) with
    | Some (a, t) => Ok a (set_symtab t s)
    | None => Undef "symbol table used through a null or freed pointer"
    end.

Definition lift_cg (f : CodeGen -> CodeGen) : M State unit :=
  modify (fun s => set_cg (f (cg s)) s).

Definition deref {S A} (what : string) (p : option A) : M S A :=
  match p with
  | Some a => ret a
  | None => undef what
  end.

Definition tok : M State TokenType := gets (fun s => tok_type (token (lex s))).
Definition get_position : M State SourcePos := gets (fun s => position (lex s)).
Definition set_position (p : SourcePos) : M State unit :=
  modify (fun s => set_lex (lex_set_position p (lex s)) s).
Definition next_token : M State unit := lift_lex get_token.

(** [token.value], [token.lexeme] and [token.string]: the payload of the
    lookahead token read as that member.  What a token holds under a
    member that was not stored is not defined by the sources. *)
Definition token_value : M State Z :=
  let* v := gets (fun s => tok_value (token (lex s))) in
  deref "token.value read from a token that holds no value" v.
Definition token_lexeme : M State string :=
  let* l := gets (fun s => tok_lexeme (token (lex s))) in
  deref "token.lexeme read from a token that holds no lexeme" l.
Definition token_string : M State Buffer :=
  let* p := gets (fun s => tok_string (token (lex s))) in
  deref "token.string read from a token that holds no string" p.

Definition find_name_ (id : string) : M State (bool * option IDprop) :=
  lift_sym (fun t => r ← find_name id t; Some (r, t)).
Definition insert_name_ (id : string) (prop : IDprop) : M State (bool * IDprop) :=
  lift_sym (insert_name id prop).
Definition open_subroutine_ (id : string) (prop : IDprop) : M State bool :=
  lift_sym (open_subroutine id prop).
Definition close_subroutine_ : M State unit :=
  lift_sym (fun t => t' ← close_subroutine t; Some (tt, t')).
Definition variables_width : M State Z :=
  gets (fun s => get_variables_width (symtab s)).

Definition STARTS_FACTOR (t : TokenType) : bool :=
  tok_eqb t TOK_ID || tok_eqb t TOK_NUM || tok_eqb t TOK_LPAR || tok_eqb t TOK_NOT
  || tok_eqb t TOK_TRUE || tok_eqb t TOK_FALSE.
Definition STARTS_EXPR (t : TokenType) : bool :=
  tok_eqb t TOK_ID || tok_eqb t TOK_NUM || tok_eqb t TOK_LPAR || tok_eqb t TOK_NOT
  || tok_eqb t TOK_TRUE || tok_eqb t TOK_FALSE || tok_eqb t TOK_MINUS.
Definition IS_ADDOP (t : TokenType) : bool :=
  (tok_index TOK_MINUS <=? tok_index t) && (tok_index t <=? tok_index TOK_PLUS).
Definition IS_MULOP (t : TokenType) : bool :=
  (tok_index TOK_AND <=? tok_index t) && (tok_index t <=? tok_index TOK_MOD).
Definition IS_RELOP (t : TokenType) : bool :=
  (tok_index TOK_EQ <=? tok_index t) && (tok_index t <=? tok_index TOK_NE).
Definition IS_TYPE_TOKEN (t : TokenType) : bool :=
  tok_eqb t TOK_BOOLEAN || tok_eqb t TOK_INTEGER.
Definition IS_STATEMENT (t : TokenType) : bool :=
  tok_eqb t TOK_EXIT || tok_eqb t TOK_IF || tok_eqb t TOK_ID || tok_eqb t TOK_READ
  || tok_eqb t TOK_WHILE || tok_eqb t TOK_WRITE.

(** errmsg.h is not among the sources; these are the error codes that
    simplc.c names. *)
Inductive Error :=
  | ERR_ARGUMENT_LIST_OR_VARIABLE_ASSIGNMENT_EXPECTED
  | ERR_ARRAY_ALLOCATION_OR_EXPRESSION_EXPECTED
  | ERR_EXIT_EXPRESSION_NOT_ALLOWED_FOR_PROCEDURE
  | ERR_EXPECT
  | ERR_EXPRESSION_OR_STRING_EXPECTED
  | ERR_FACTOR_EXPECTED
  | ERR_ILLEGAL_ARRAY_OPERATION
  | ERR_MISSING_EXIT_EXPRESSION_FOR_FUNCTION
  | ERR_MISSING_FUNCTION_ARGUMENT_LIST
  | ERR_MULTIPLE_DEFINITION
  | ERR_NOT_A_FUNCTION
  | ERR_NOT_A_PROCEDURE
  | ERR_NOT_A_VARIABLE
  | ERR_NOT_AN_ARRAY
  | ERR_SCALAR_VARIABLE_EXPECTED
  | ERR_STATEMENT_EXPECTED
  | ERR_TAKES_NO_ARGUMENTS
  | ERR_TOO_FEW_ARGUMENTS
  | ERR_TOO_MANY_ARGUMENTS
  | ERR_TYPE_EXPECTED
  | ERR_UNKNOWN_IDENTIFIER
  | ERR_UNREACHABLE.

(** A variadic argument of [abort_c]. *)
Inductive ErrArg :=
  | ArgStr (s : string)
  | ArgTok (t : TokenType).

Definition arg_str (args : list ErrArg) (i : nat) : option string :=
  match args !! i with
  | Some (ArgStr s) => Some s
  | _ => None
  end.

Definition arg_tok (args : list ErrArg) (i : nat) : option TokenType :=
  match args !! i with
  | Some (ArgTok t) => Some t
  | _ => None
  end.

(** [_abort_compile]: the text handed to [leprintf]; [found] is the
    lookahead token.  [None] is a [va_arg] that does not match the
    arguments passed. *)
Definition abort_message (err : Error) (args : list ErrArg) (found : TokenType)
    : option string :=
  let expstr := fun what : string =>
    ("expected " ++ what ++ ", but found " ++ get_token_string found)%string in
  match err with
  | ERR_ARGUMENT_LIST_OR_VARIABLE_ASSIGNMENT_EXPECTED =>
      Some (expstr "argument list or variable assignment")
  | ERR_ARRAY_ALLOCATION_OR_EXPRESSION_EXPECTED =>
      Some (expstr "array allocation or expression")
  | ERR_EXIT_EXPRESSION_NOT_ALLOWED_FOR_PROCEDURE =>
      Some "an exit expression is not allowed for a procedure"
  | ERR_EXPECT => t ← arg_tok args 0; Some (expstr (get_token_string t))
  | ERR_EXPRESSION_OR_STRING_EXPECTED => Some (expstr "expression or string")
  | ERR_FACTOR_EXPECTED => Some (expstr "factor")
  | ERR_ILLEGAL_ARRAY_OPERATION =>
      s ← arg_str args 0; Some (s ++ " is an illegal array operation")%string
  | ERR_MISSING_EXIT_EXPRESSION_FOR_FUNCTION =>
      Some "missing exit expression for a function"
  | ERR_MISSING_FUNCTION_ARGUMENT_LIST =>
      s ← arg_str args 0; Some ("missing argument list for function '" ++ s ++ "'")%string
  | ERR_MULTIPLE_DEFINITION =>
      s ← arg_str args 0; Some ("multiple definition of '" ++ s ++ "'")%string
  | ERR_NOT_A_FUNCTION =>
      s ← arg_str args 0; Some ("'" ++ s ++ "' is not a function")%string
  | ERR_NOT_A_PROCEDURE =>
      s ← arg_str args 0; Some ("'" ++ s ++ "' is not a procedure")%string
  | ERR_NOT_A_VARIABLE =>
      s ← arg_str args 0; Some ("'" ++ s ++ "' is not a variable")%string
  | ERR_NOT_AN_ARRAY =>
      s ← arg_str args 0; Some ("'" ++ s ++ "' is not an array")%string
  | ERR_SCALAR_VARIABLE_EXPECTED =>
      s ← arg_str args 0;
      Some ("expected scalar variable instead of '" ++ s ++ "'")%string
  | ERR_STATEMENT_EXPECTED => Some (expstr "statement")
  | ERR_TAKES_NO_ARGUMENTS =>
      s ← arg_str args 0; t ← arg_str args 1;
      Some (s ++ " '" ++ t ++ "' takes no arguments")%string
  | ERR_TOO_FEW_ARGUMENTS =>
      s ← arg_str args 0; Some ("too few arguments for call to '" ++ s ++ "'")%string
  | ERR_TOO_MANY_ARGUMENTS =>
      s ← arg_str args 0; Some ("too many arguments for call to '" ++ s ++ "'")%string
  | ERR_TYPE_EXPECTED => Some (expstr "type")
  | ERR_UNKNOWN_IDENTIFIER =>
      s ← arg_str args 0; Some ("unknown identifier '" ++ s ++ "'")%string
  | ERR_UNREACHABLE =>
      s ← arg_str args 0; Some ("unreachable: " ++ s)%string
  end.

Definition abort_c {A} (err : Error) (args : list ErrArg) : M State A :=
  fun s =>
    match abort_message err args (tok_type (token (lex s))) with
    | Some msg => Fatal (position (lex s)) (Message msg)
    | None => Undef "va_arg does not match the arguments of abort_c"
    end.

(** [position = pos; abort_c(err, ...)]. *)
Definition abort_at {A} (pos : SourcePos) (err : Error) (args : list ErrArg)
    : M State A :=
  set_position pos >> abort_c err args.

(** [check_types]: every call site passes a non-null [pos]. *)
Definition check_types (found expected : ValType) (pos : SourcePos)
    (context : string) : M State unit :=
  if negb (found =? expected) then
    fun _ => Fatal pos (Incompatible expected found context)
  else ret tt.

Definition expect (type : TokenType) : M State unit :=
  let* t := tok in
  if tok_eqb t type then next_token
  else abort_c ERR_EXPECT [ArgTok type].

Definition expect_id : M State string :=
  let* t := tok in
  if tok_eqb t TOK_ID then
    let* id := token_lexeme in
    next_token >> ret id
  else abort_c ERR_EXPECT [ArgTok TOK_ID].

Definition emit1 (op : Bytecode) : M State unit := lift_cg (gen_1 op).
Definition emit2 (op : Bytecode) (operand : Z) : M State unit := lift_cg (gen_2 op operand).
Definition emit_branch (op : Bytecode) (l : Label) : M State unit :=
  lift_cg (gen_2_label op l).
Definition emit_label (l : Label) : M State unit := lift_cg (gen_label l).
Definition new_label : M State Label :=
  fun s => let '(l, g) := get_label (cg s) in Ok l (set_cg g s).

Definition op_context (op : TokenType) : string :=
  ("for operator " ++ get_token_string op)%string.

(** [prop->params[i]]; reading past the parameter array is undefined. *)
Definition param_at (p : IDprop) (i : Z) : M State ValType :=
  deref "params[i] read outside the array"
    (if 0 <=? i then ip_params p !! Z.to_nat i else None).

(** ** simplc.c: expressions

    Each production is written over the productions it calls; the
    recursion is closed below with a fuel argument. *)

Section Expressions.

Context (parse_factor parse_term parse_simple parse_expr : M State ValType).
Context (parse_index : string -> M State unit).
Context (parse_arglist : string -> SourcePos -> M State unit).
Context (fuel : nat).

Definition parse_index_body (id : string) : M State unit :=
  let* '(_, prop) := find_name_ id in
  expect TOK_LBRACK >>
  let* pos := get_position in
  let* t := tok in
  (if tok_eqb t TOK_NUM then
     let* p := deref "prop read uninitialised" prop in
     emit2 JVM_ALOAD (ip_offset p)
   else ret tt) >>
  let* t1 := parse_simple in
  check_types t1 TYPE_INTEGER pos ("for array index of '" ++ id ++ "'") >>
  expect TOK_RBRACK.

Definition parse_arglist_body (id : string) (idpos : SourcePos) : M State unit :=
  let* '(found, prop) := find_name_ id in
  (if negb found then abort_c ERR_UNKNOWN_IDENTIFIER [ArgStr id] else ret tt) >>
  let* p := deref "prop read uninitialised" prop in
  let routine := if IS_FUNCTION (ip_type p) then "function" else "procedure" in
  expect TOK_LPAR >>
  let* t := tok in
  (if STARTS_EXPR t then
     (if ip_nparams p =? 0 then
        abort_at idpos ERR_TAKES_NO_ARGUMENTS [ArgStr id; ArgStr routine]
      else ret tt) >>
     let* pos := get_position in
     let* t1 := parse_expr in
     let* expected := param_at p 0 in
     check_types t1 expected pos
       ("for parameter " ++ string_of_Z 1 ++ " of call to '" ++ id ++ "'") >>
     let* i :=
       while_ fuel (fun _ s => tok_eqb (tok_type (token (lex s))) TOK_COMMA)
         (fun i =>
            (if ip_nparams p <=? i then abort_c ERR_TOO_MANY_ARGUMENTS [ArgStr id]
             else ret tt) >>
            next_token >>
            let* pos := get_position in
            let* t1 := parse_expr in
            let* expected := param_at p i in
            check_types t1 expected pos
              ("for parameter " ++ string_of_Z (i + 1) ++ " of call to '" ++ id ++ "'") >>
            ret (i + 1))
         1 in
     if i <? ip_nparams p then abort_c ERR_TOO_FEW_ARGUMENTS [ArgStr id]
     else ret tt
   else ret tt) >>
  expect TOK_RPAR.

Definition parse_expr_body : M State ValType :=
  let* t1 := parse_simple in
  let* op := tok in
  if IS_RELOP op then
    (if IS_ARRAY t1 then
       abort_c ERR_ILLEGAL_ARRAY_OPERATION [ArgStr (get_token_string op)]
     else ret tt) >>
    let* pos := get_position in
    next_token >>
    let* t2 := parse_simple in
    (if IS_ARRAY t2 then
       abort_at pos ERR_ILLEGAL_ARRAY_OPERATION [ArgStr (get_token_string op)]
     else ret tt) >>
    (if tok_eqb op TOK_EQ || tok_eqb op TOK_NE then
       check_types t2 t1 pos (op_context op) >>
       (if tok_eqb op TOK_EQ then lift_cg (gen_cmp JVM_IF_ICMPEQ)
        else if tok_eqb op TOK_NE then lift_cg (gen_cmp JVM_IF_ICMPNE)
        else ret tt)
     else
       check_types t1 TYPE_INTEGER pos (op_context op) >>
       check_types t2 TYPE_INTEGER pos (op_context op) >>
       (if tok_eqb op TOK_GE then lift_cg (gen_cmp JVM_IF_ICMPGE)
        else if tok_eqb op TOK_GT then lift_cg (gen_cmp JVM_IF_ICMPGT)
        else if tok_eqb op TOK_LE then lift_cg (gen_cmp JVM_IF_ICMPLE)
        else if tok_eqb op TOK_LT then lift_cg (gen_cmp JVM_IF_ICMPLT)
        else ret tt)) >>
    ret TYPE_BOOLEAN
  else ret t1.

(** One round of the [while (IS_ADDOP(token.type))] loop of
    [parse_simple]; [t0] is the type of the first term. *)
Definition addop_round (t0 : ValType) : M State unit :=
  let* op := tok in
  let* pos := get_position in
  next_token >>
  let* t1 := parse_term in
  (if IS_ARRAY t1 then
     abort_at pos ERR_ILLEGAL_ARRAY_OPERATION [ArgStr (get_token_string op)]
   else ret tt) >>
  if tok_eqb op TOK_OR then
    check_types t0 TYPE_BOOLEAN pos (op_context op) >>
    check_types t1 TYPE_BOOLEAN pos (op_context op) >>
    emit1 JVM_IOR
  else
    check_types t0 TYPE_INTEGER pos (op_context op) >>
    check_types t1 TYPE_INTEGER pos (op_context op) >>
    (if tok_eqb op TOK_PLUS then emit1 JVM_IADD
     else if tok_eqb op TOK_MINUS then emit1 JVM_ISUB
     else ret tt).

Definition parse_simple_body : M State ValType :=
  let* t := tok in
  if tok_eqb t TOK_MINUS then
    let* pos := get_position in
    next_token >>
    let* posterm := get_position in
    let* t0 := parse_term in
    emit1 JVM_INEG >>
    (if IS_ARRAY t0 then
       abort_at pos ERR_ILLEGAL_ARRAY_OPERATION [ArgStr "unary minus"]
     else ret tt) >>
    check_types t0 TYPE_INTEGER posterm "for unary minus" >>
    ret t0
  else
    let* t0 := parse_term in
    let* t2 := tok in
    (if IS_ADDOP t2 && IS_ARRAY t0 then
       abort_c ERR_ILLEGAL_ARRAY_OPERATION [ArgStr (get_token_string t2)]
     else ret tt) >>
    while_ fuel (fun _ s => IS_ADDOP (tok_type (token (lex s))))
      (fun _ => addop_round t0) tt >>
    ret t0.

(** One round of the [while (IS_MULOP(token.type))] loop of
    [parse_term]. *)
Definition mulop_round (t0 : ValType) : M State unit :=
  let* op := tok in
  let* pos := get_position in
  next_token >>
  let* t1 := parse_factor in
  (if IS_ARRAY t1 then
     abort_at pos ERR_ILLEGAL_ARRAY_OPERATION [ArgStr (get_token_string op)]
   else ret tt) >>
  if tok_eqb op TOK_AND then
    check_types t0 TYPE_BOOLEAN pos (op_context op) >>
    check_types t1 TYPE_BOOLEAN pos (op_context op) >>
    emit1 JVM_IAND
  else
    check_types t0 TYPE_INTEGER pos (op_context op) >>
    check_types t1 TYPE_INTEGER pos (op_context op) >>
    (if tok_eqb op TOK_MUL then emit1 JVM_IMUL
     else if tok_eqb op TOK_DIV then emit1 JVM_IDIV
     else if tok_eqb op TOK_MOD then emit1 JVM_IREM
     else ret tt).

Definition parse_term_body : M State ValType :=
  let* t0 := parse_factor in
  let* t2 := tok in
  (if IS_MULOP t2 && IS_ARRAY t0 then
     abort_c ERR_ILLEGAL_ARRAY_OPERATION [ArgStr (get_token_string t2)]
   else ret tt) >>
  while_ fuel (fun _ s => IS_MULOP (tok_type (token (lex s))))
    (fun _ => mulop_round t0) tt >>
  ret t0.

Definition parse_factor_body : M State ValType :=
  let* t := tok in
  match t with
  | TOK_ID =>
      let* pos := get_position in
      let* vname := expect_id in
      let* '(found, prop) := find_name_ vname in
      let* t2 := tok in
      if negb found then abort_at pos ERR_UNKNOWN_IDENTIFIER [ArgStr vname]
      else
        let* p := deref "prop read uninitialised" prop in
        if tok_eqb t2 TOK_LBRACK then
          (if negb (IS_ARRAY (ip_type p)) then
             abort_at pos ERR_NOT_AN_ARRAY [ArgStr vname]
           else ret tt) >>
          let t0 := Z.land (ip_type p) 6 in
          parse_index vname >>
          emit1 JVM_IALOAD >>
          ret t0
        else if tok_eqb t2 TOK_LPAR then
          (if negb (IS_FUNCTION (ip_type p)) then
             abort_at pos ERR_NOT_A_FUNCTION [ArgStr vname]
           else ret tt) >>
          let t0 := Z.lxor (ip_type p) TYPE_CALLABLE in
          parse_arglist vname pos >>
          lift_cg (gen_call vname p) >>
          ret t0
        else if IS_FUNCTION (ip_type p) then
          abort_at pos ERR_MISSING_FUNCTION_ARGUMENT_LIST [ArgStr vname]
        else
          let t0 := ip_type p in
          (if IS_ARRAY_TYPE t0 then emit2 JVM_ALOAD (ip_offset p)
           else emit2 JVM_ILOAD (ip_offset p)) >>
          ret t0
  | TOK_NUM =>
      let* v := token_value in
      emit2 JVM_LDC v >>
      next_token >>
      ret TYPE_INTEGER
  | TOK_NOT =>
      next_token >>
      let* pos := get_position in
      let* t0 := parse_factor in
      check_types t0 TYPE_BOOLEAN pos "for 'not'" >>
      emit2 JVM_LDC 1 >>
      emit1 JVM_IXOR >>
      ret t0
  | TOK_TRUE =>
      emit2 JVM_LDC 1 >> next_token >> ret TYPE_BOOLEAN
  | TOK_FALSE =>
      emit2 JVM_LDC 0 >> next_token >> ret TYPE_BOOLEAN
  | TOK_LPAR =>
      next_token >>
      let* t0 := parse_expr in
      expect TOK_RPAR >>
      ret t0
  | _ => abort_c ERR_FACTOR_EXPECTED [ArgTok t]
  end.

End Expressions.

Fixpoint parse_factor (n : nat) : M State ValType :=
  fun s => match n with
  | O => OutOfFuel
  | S n' => parse_factor_body (parse_factor n') (parse_expr n')
              (parse_index n') (parse_arglist n') s
  end
with parse_term (n : nat) : M State ValType :=
  fun s => match n with
  | O => OutOfFuel
  | S n' => parse_term_body (parse_factor n') n' s
  end
with parse_simple (n : nat) : M State ValType :=
  fun s => match n with
  | O => OutOfFuel
  | S n' => parse_simple_body (parse_term n') n' s
  end
with parse_expr (n : nat) : M State ValType :=
  fun s => match n with
  | O => OutOfFuel
  | S n' => parse_expr_body (parse_simple n') s
  end
with parse_index (n : nat) (id : string) : M State unit :=
  fun s => match n with
  | O => OutOfFuel
  | S n' => parse_index_body (parse_simple n') id s
  end
with parse_arglist (n : nat) (id : string) (idpos : SourcePos) : M State unit :=
  fun s => match n with
  | O => OutOfFuel
  | S n' => parse_arglist_body (parse_expr n') n' id idpos s
  end.

(** ** simplc.c: statements *)

(** [<exit> = "exit" [<expr>]]. *)
Definition parse_exit (n : nat) : M State unit :=
  let* pos := get_position in
  expect TOK_EXIT >>
  let* t := tok in
  let* rt := gets return_type in
  if STARTS_EXPR t then
    if IS_PROCEDURE rt then
      abort_c ERR_EXIT_EXPRESSION_NOT_ALLOWED_FOR_PROCEDURE []
    else if IS_FUNCTION rt then
      let* pos := get_position in
      let* t1 := parse_expr n in
      (if IS_ARRAY_TYPE rt then emit1 JVM_ARETURN else emit1 JVM_IRETURN) >>
      let t2 := SET_RETURN_TYPE rt in
      check_types t1 t2 pos "for 'exit' statement"
    else ret tt
  else if IS_FUNCTION rt then
    abort_at pos ERR_MISSING_EXIT_EXPRESSION_FOR_FUNCTION []
  else emit1 JVM_RETURN.

(** [<name> = <id> (<arglist> | [<index>] "<-" (<expr> | "array" <simple>))]. *)
Definition parse_name (n : nat) : M State unit :=
  let* idpos := get_position in
  let* id := expect_id in
  let* '(found, prop) := find_name_ id in
  (if negb found then abort_at idpos ERR_UNKNOWN_IDENTIFIER [ArgStr id] else ret tt) >>
  let* p := deref "prop read uninitialised" prop in
  let* t := tok in
  if tok_eqb t TOK_LPAR then
    (if negb (IS_PROCEDURE (ip_type p)) then
       abort_at idpos ERR_NOT_A_PROCEDURE [ArgStr id]
     else ret tt) >>
    parse_arglist n id idpos >>
    lift_cg (gen_call id p)
  else if tok_eqb t TOK_LBRACK || tok_eqb t TOK_GETS then
    (if IS_CALLABLE_TYPE (ip_type p) then
       abort_at idpos ERR_NOT_A_VARIABLE [ArgStr id]
     else ret tt) >>
    let* '(proptype, is_array, is_indexed) :=
      (if tok_eqb t TOK_LBRACK then
         (if negb (IS_ARRAY (ip_type p)) then
            abort_at idpos ERR_NOT_AN_ARRAY [ArgStr id]
          else ret tt) >>
         parse_index n id >>
         ret (Z.lxor (ip_type p) TYPE_ARRAY, false, true)
       else if IS_ARRAY (ip_type p) then ret (ip_type p, true, false)
       else ret (ip_type p, false, false)) in
    expect TOK_GETS >>
    let* pos := get_position in
    let* t3 := tok in
    if STARTS_EXPR t3 then
      let* t1 := parse_expr n in
      (if negb (IS_VARIABLE proptype) then
         abort_at idpos ERR_NOT_A_VARIABLE [ArgStr id]
       else ret tt) >>
      (if (is_array : bool) then
         check_types t1 proptype pos ("for assignment to '" ++ id ++ "'") >>
         emit2 JVM_ASTORE (ip_offset p)
       else if IS_ARRAY t1 then
         if (is_indexed : bool) then
           check_types t1 proptype pos
             ("for allocation to indexed array '" ++ id ++ "'")
         else abort_at idpos ERR_NOT_AN_ARRAY [ArgStr id]
       else check_types t1 proptype pos ("for assignment to '" ++ id ++ "'")) >>
      (if negb is_indexed && negb is_array then emit2 JVM_ISTORE (ip_offset p)
       else ret tt) >>
      (if is_indexed then emit1 JVM_IASTORE else ret tt)
    else if tok_eqb t3 TOK_ARRAY then
      (if is_indexed then
         let* here := get_position in
         check_types (ip_type p) proptype here
           ("for allocation to indexed array '" ++ id ++ "'")
       else ret tt) >>
      (if negb (IS_ARRAY (ip_type p)) then
         abort_at idpos ERR_NOT_AN_ARRAY [ArgStr id]
       else ret tt) >>
      next_token >>
      let* pos := get_position in
      let* t1 := parse_simple n in
      check_types t1 TYPE_INTEGER pos ("for array size of '" ++ id ++ "'") >>
      lift_cg (gen_newarray T_INT) >>
      emit2 JVM_ASTORE (ip_offset p)
    else abort_c ERR_ARRAY_ALLOCATION_OR_EXPRESSION_EXPECTED [ArgTok t3]
  else abort_c ERR_ARGUMENT_LIST_OR_VARIABLE_ASSIGNMENT_EXPECTED [ArgTok t].

(** [<read> = "read" <id> [<index>]]. *)
Definition parse_read (n : nat) : M State unit :=
  expect TOK_READ >>
  let* pos := get_position in
  let* vname := expect_id in
  let* '(found, prop) := find_name_ vname in
  (if negb found then abort_at pos ERR_UNKNOWN_IDENTIFIER [ArgStr vname] else ret tt) >>
  let* p := deref "prop read uninitialised" prop in
  let* t := tok in
  (if tok_eqb t TOK_LBRACK then
     (if negb (IS_ARRAY (ip_type p)) then
        abort_at pos ERR_NOT_AN_ARRAY [ArgStr vname]
      else ret tt) >>
     parse_index n vname
   else if IS_ARRAY (ip_type p) then
     abort_at pos ERR_SCALAR_VARIABLE_EXPECTED [ArgStr vname]
   else ret tt) >>
  (if IS_INTEGER_TYPE (ip_type p) then lift_cg (gen_read TYPE_INTEGER)
   else lift_cg (gen_read TYPE_BOOLEAN)) >>
  (if IS_ARRAY_TYPE (ip_type p) then emit1 JVM_IASTORE
   else emit2 JVM_ISTORE (ip_offset p)).

(** One item of [<write>]: a string or an expression; [what] names the
    operation in the array diagnostic.  [gen_print_string] takes the
    array of the token as a C string. *)
Definition write_item (n : nat) (pos : SourcePos) (what : string) : M State unit :=
  let* t := tok in
  if tok_eqb t TOK_STR then
    let* p := token_string in
    let* str := deref "token.string read beyond the characters stored" (c_string p) in
    lift_cg (gen_print_string str) >>
    next_token
  else if STARTS_EXPR t then
    let* t1 := parse_expr n in
    lift_cg (gen_print t1) >>
    (if IS_ARRAY t1 then abort_at pos ERR_ILLEGAL_ARRAY_OPERATION [ArgStr what]
     else ret tt)
  else abort_c ERR_EXPRESSION_OR_STRING_EXPECTED [ArgTok t].

(** [<write> = "write" (<string> | <expr>) {"&" (<string> | <expr>)}]. *)
Definition parse_write (n : nat) : M State unit :=
  let* pos := get_position in
  expect TOK_WRITE >>
  write_item n pos "write" >>
  while_ n (fun _ s => tok_eqb (tok_type (token (lex s))) TOK_AMPERSAND)
    (fun _ =>
       let* pos := get_position in
       next_token >>
       write_item n pos "&")
    tt.

Section Statements.

Context (parse_statement parse_statements parse_if parse_while : M State unit).
Context (fuel : nat).

(** [<statements> = "chill" | <statement> { ";" <statement> }]. *)
Definition parse_statements_body : M State unit :=
  let* t := tok in
  if tok_eqb t TOK_CHILL then next_token
  else if IS_STATEMENT t then
    parse_statement >>
    while_ fuel (fun _ s => tok_eqb (tok_type (token (lex s))) TOK_SEMICOLON)
      (fun _ => next_token >> parse_statement) tt
  else abort_c ERR_STATEMENT_EXPECTED [ArgTok t].

Definition parse_statement_body : M State unit :=
  let* t := tok in
  match t with
  | TOK_EXIT => parse_exit fuel
  | TOK_IF => parse_if
  | TOK_ID => parse_name fuel
  | TOK_READ => parse_read fuel
  | TOK_WHILE => parse_while
  | TOK_WRITE => parse_write fuel
  | _ => abort_c ERR_STATEMENT_EXPECTED [ArgTok t]
  end.

(** [<if> = "if" <expr> "then" <statements>
            {"elsif" <expr> "then" <statements>} ["else" <statements>] "end"]. *)
Definition parse_if_body : M State unit :=
  let* l1 := new_label in
  let* l2 := new_label in
  let* l3 := new_label in
  expect TOK_IF >>
  let* pos := get_position in
  let* t1 := parse_expr fuel in
  emit_branch JVM_IFEQ l1 >>
  check_types t1 TYPE_BOOLEAN pos "for 'if' guard" >>
  expect TOK_THEN >>
  parse_statements >>
  emit_branch JVM_GOTO l3 >>
  emit_label l1 >>
  while_ fuel (fun _ s => tok_eqb (tok_type (token (lex s))) TOK_ELSIF)
    (fun _ =>
       emit_label l2 >>
       next_token >>
       let* pos := get_position in
       let* t1 := parse_expr fuel in
       emit_branch JVM_IFEQ l2 >>
       check_types t1 TYPE_BOOLEAN pos "for 'elsif' guard" >>
       expect TOK_THEN >>
       parse_statements >>
       emit_branch JVM_GOTO l3)
    tt >>
  let* t := tok in
  (if tok_eqb t TOK_ELSE then next_token >> parse_statements else ret tt) >>
  emit_label l3 >>
  expect TOK_END.

(** [<while> = "while" <expr> "do" <statements> "end"]. *)
Definition parse_while_body : M State unit :=
  let* l1 := new_label in
  let* l2 := new_label in
  expect TOK_WHILE >>
  let* pos := get_position in
  emit_label l1 >>
  let* t1 := parse_expr fuel in
  emit_branch JVM_IFEQ l2 >>
  check_types t1 TYPE_BOOLEAN pos "for 'while' guard" >>
  expect TOK_DO >>
  parse_statements >>
  expect TOK_END >>
  emit_branch JVM_GOTO l1 >>
  emit_label l2.

End Statements.

Fixpoint parse_statements (n : nat) : M State unit :=
  fun s => match n with
  | O => OutOfFuel
  | S n' => parse_statements_body (parse_statement n') n' s
  end
with parse_statement (n : nat) : M State unit :=
  fun s => match n with
  | O => OutOfFuel
  | S n' => parse_statement_body (parse_if n') (parse_while n') n' s
  end
with parse_if (n : nat) : M State unit :=
  fun s => match n with
  | O => OutOfFuel
  | S n' => parse_if_body (parse_statements n') n' s
  end
with parse_while (n : nat) : M State unit :=
  fun s => match n with
  | O => OutOfFuel
  | S n' => parse_while_body (parse_statements n') n' s
  end.

(** ** simplc.c: declarations and the program *)

(** [<type> = ("boolean" | "integer") ["array"]]; [t0] is the value of
    [*t0] at the call and the result its value at the return. *)
Definition parse_type (t0 : ValType) : M State ValType :=
  let* t := tok in
  let* t1 :=
    (if tok_eqb t TOK_BOOLEAN then ret (Z.lor t0 TYPE_BOOLEAN)
     else if tok_eqb t TOK_INTEGER then ret (Z.lor t0 TYPE_INTEGER)
     else abort_c ERR_TYPE_EXPECTED [ArgTok t]) in
  next_token >>
  let* t2 := tok in
  if tok_eqb t2 TOK_ARRAY then next_token >> ret (Z.lor t1 TYPE_ARRAY)
  else ret t1.

(** The declaration of one name in [parse_vardef]. *)
Definition declare_variable (t1 : ValType) : M State unit :=
  let* pos := get_position in
  let* vname := expect_id in
  let* '(found, _) := find_name_ vname in
  (if (found : bool) then abort_at pos ERR_MULTIPLE_DEFINITION [ArgStr vname] else ret tt) >>
  let* width := variables_width in
  let prop := make_idprop t1 width 0 [] in
  let* '(inserted, _) := insert_name_ vname prop in
  if negb inserted then abort_at pos ERR_MULTIPLE_DEFINITION [ArgStr vname]
  else ret tt.

(** [<vardef> = <type> <id> { "," <id> } ";"]. *)
Definition parse_vardef (n : nat) : M State unit :=
  let* t1 := parse_type 0 in
  declare_variable t1 >>
  while_ n (fun _ s => tok_eqb (tok_type (token (lex s))) TOK_COMMA)
    (fun _ => next_token >> declare_variable t1) tt >>
  expect TOK_SEMICOLON.

(** [<body> = "begin" { <vardef> } <statements> "end"]. *)
Definition parse_body (n : nat) : M State unit :=
  expect TOK_BEGIN >>
  while_ n (fun _ s => IS_TYPE_TOKEN (tok_type (token (lex s))))
    (fun _ => parse_vardef n) tt >>
  parse_statements n >>
  expect TOK_END.

(** A node of the parameter list of [parse_funcdef]; the list is the
    chain of [next] pointers from [head]. *)
Record Variable_ := mk_var {
  var_id   : string;
  var_type : ValType;
  var_pos  : SourcePos
}.

Definition make_var (id : string) (type : ValType) (pos : SourcePos) : Variable_ :=
  mk_var id type pos.

(** One parameter [<type> <id>] of [parse_funcdef]. *)
Definition parse_param : M State Variable_ :=
  let* t1 := parse_type 0 in
  let* pos := get_position in
  let* id := expect_id in
  ret (make_var id t1 pos).

(** The loop of [parse_funcdef] that declares the parameters in the new
    scope; the result is the value of [prop] after the loop. *)
Fixpoint declare_params (head : list Variable_) (prop : IDprop) : M State IDprop :=
  match head with
  | [] => ret prop
  | temp :: next =>
      let* '(found, _) := find_name_ (var_id temp) in
      (if (found : bool) then
         abort_at (var_pos temp) ERR_MULTIPLE_DEFINITION [ArgStr (var_id temp)]
       else ret tt) >>
      let* width := variables_width in
      let prop1 := make_idprop (var_type temp) width 0 [] in
      let* '(inserted, prop2) := insert_name_ (var_id temp) prop1 in
      (if negb inserted then
         abort_at (var_pos temp) ERR_MULTIPLE_DEFINITION [ArgStr (var_id temp)]
       else ret tt) >>
      declare_params next prop2
  end.

(** [<funcdef> = "define" <id> "(" [<type> <id> {"," <type> <id>}] ")"
                 ["->" <type>] <body>]. *)
Definition parse_funcdef (n : nat) : M State unit :=
  let* funcpos := get_position in
  modify (set_return_type TYPE_NONE) >>
  expect TOK_DEFINE >>
  let* funcid := expect_id in
  expect TOK_LPAR >>
  let* t := tok in
  let* head :=
    (if IS_TYPE_TOKEN t then
       let* first := parse_param in
       while_ n (fun _ s => tok_eqb (tok_type (token (lex s))) TOK_COMMA)
         (fun vars : list Variable_ =>
            next_token >>
            let* newvar := parse_param in
            ret (vars ++ [newvar])%list)
         [first]
     else ret []) in
  expect TOK_RPAR >>
  let count := Z.of_nat (length head) in
  let params := map var_type head in
  let* t2 := tok in
  let* t1 :=
    (if tok_eqb t2 TOK_TO then next_token >> parse_type TYPE_CALLABLE
     else ret TYPE_CALLABLE) in
  modify (set_return_type t1) >>
  let* width := variables_width in
  let prop := make_idprop t1 width count params in
  let* opened := open_subroutine_ funcid prop in
  if (opened : bool) then
    let* prop' := declare_params head prop in
    lift_cg (init_subroutine_codegen funcid (Some prop')) >>
    parse_body n >>
    let* width' := variables_width in
    lift_cg (close_subroutine_codegen width') >>
    close_subroutine_ >>
    modify (set_return_type TYPE_NONE)
  else abort_at funcpos ERR_MULTIPLE_DEFINITION [ArgStr funcid].

(** [<program> = "program" <id> { <funcdef> } <body>]. *)
Definition parse_program (n : nat) : M State unit :=
  expect TOK_PROGRAM >>
  let* class := expect_id in
  lift_cg (set_class_name class) >>
  while_ n (fun _ s => tok_eqb (tok_type (token (lex s))) TOK_DEFINE)
    (fun _ => parse_funcdef n) tt >>
  lift_cg (init_subroutine_codegen "main" None) >>
  parse_body n >>
  emit1 JVM_RETURN >>
  let* width := variables_width in
  lift_cg (close_subroutine_codegen width).

(** The state at program start: zero-initialised globals. *)
Definition state_zero : State :=
  mk_state lex_zero TYPE_NONE symtab_zero init_code_generation.

(** [main], from the initialisation of the units to the end of
    [parse_program], on the contents of the source file. *)
Definition compile (source : string) (n : nat) : Result State unit :=
  (lift_lex (init_scanner source) >>
   lift_sym (fun t => t' ← init_symbol_table t; Some (tt, t')) >>
   lift_cg (fun _ => init_code_generation) >>
   next_token >>
   parse_program n) state_zero.

(** The state in which the parser meets [source] as its input, with the
    first token read: the scanner is initialised on [source] and
    everything else is at its initial value. *)
Definition parser_at (source : string) : State :=
  match (lift_lex (init_scanner source) >> next_token) state_zero with
  | Ok _ s => s
  | _ => state_zero
  end.

(** [parse_program] up to the point where the main body starts, and
    from the point where it ends. *)
Definition program_header (n : nat) : M State unit :=
  expect TOK_PROGRAM >>
  let* class := expect_id in
  lift_cg (set_class_name class) >>
  while_ n (fun _ s => tok_eqb (tok_type (token (lex s))) TOK_DEFINE)
    (fun _ => parse_funcdef n) tt >>
  lift_cg (init_subroutine_codegen "main" None).

Definition program_footer : M State unit :=
  emit1 JVM_RETURN >>
  let* width := variables_width in
  lift_cg (close_subroutine_codegen width).

(** ** The main body without a return type

    The parser of the main body as it is to be under the return type
    [TYPE_NONE]: [exit] takes its own token and, when the start of an
    expression follows, nothing more; with anything else after it the
    return of the main routine is emitted.  All other statements, and
    the statement lists inside [if] and [while], are the productions of
    simplc.c over this [exit].  The definitions serve as the other side
    of the comparison with [parse_body] and [parse_program]. *)
Definition exit_in_main : M State unit :=
  expect TOK_EXIT >>
  let* t := tok in
  if STARTS_EXPR t then ret tt else emit1 JVM_RETURN.

Definition main_statement_body (parse_if parse_while : M State unit) (fuel : nat)
    : M State unit :=
  let* t := tok in
  match t with
  | TOK_EXIT => exit_in_main
  | TOK_IF => parse_if
  | TOK_ID => parse_name fuel
  | TOK_READ => parse_read fuel
  | TOK_WHILE => parse_while
  | TOK_WRITE => parse_write fuel
  | _ => abort_c ERR_STATEMENT_EXPECTED [ArgTok t]
  end.

Fixpoint main_statements (n : nat) : M State unit :=
  fun s => match n with
  | O => OutOfFuel
  | S n' => parse_statements_body (main_statement n') n' s
  end
with main_statement (n : nat) : M State unit :=
  fun s => match n with
  | O => OutOfFuel
  | S n' => main_statement_body (main_if n') (main_while n') n' s
  end
with main_if (n : nat) : M State unit :=
  fun s => match n with
  | O => OutOfFuel
  | S n' => parse_if_body (main_statements n') n' s
  end
with main_while (n : nat) : M State unit :=
  fun s => match n with
  | O => OutOfFuel
  | S n' => parse_while_body (main_statements n') n' s
  end.

Definition main_body (n : nat) : M State unit :=
  expect TOK_BEGIN >>
  while_ n (fun _ s => IS_TYPE_TOKEN (tok_type (token (lex s))))
    (fun _ => parse_vardef n) tt >>
  main_statements n >>
  expect TOK_END.

(** [parse_program] and [compile] with the main body parsed by
    [main_body]. *)
Definition main_program (n : nat) : M State unit :=
  program_header n >> main_body n >> program_footer.

Definition compile_main (source : string) (n : nat) : Result State unit :=
  (lift_lex (init_scanner source) >>
   lift_sym (fun t => t' ← init_symbol_table t; Some (tt, t')) >>
   lift_cg (fun _ => init_code_generation) >>
   next_token >>
   main_program n) state_zero.
End Compiler.

(** ** Well-formed tables and symbol-table states

    The representation invariant of [hashtable.c], as a check that can
    be run: the size is the prime below [2^idx], the array has [size]
    buckets, every entry sits in the bucket its key hashes to, no key
    occurs twice, the count is the number of entries, and the load is
    below the rehash threshold.  The index is kept at or below 22, where
    the float product of the load test is exact. *)

Definition IDX_LIMIT : Z := 22.

Definition entry_in_bucket (sz : Z) (i : nat) (e : HTentry) : bool :=
  match shift_hash (key e) sz with
  | Some k => k =? Z.of_nat i
  | None => false
  end.

Fixpoint buckets_ok (sz : Z) (i : nat) (tbl : list (list HTentry)) : bool :=
  match tbl with
  | [] => true
  | b :: rest => forallb (entry_in_bucket sz i) b && buckets_ok sz (S i) rest
  end.

Fixpoint nodup_keys (l : list string) : bool :=
  match l with
  | [] => true
  | k :: rest => negb (existsb (String.eqb k) rest) && nodup_keys rest
  end.

Definition ht_wfb (ht : HashTab) : bool :=
  (4 <=? ht_idx ht) && (ht_idx ht <=? IDX_LIMIT)
  && match delta_at (ht_idx ht) with
     | Some d => ht_size ht =? 2 ^ ht_idx ht - d
     | None => false
     end
  && (Z.of_nat (length (ht_table ht)) =? ht_size ht)
  && (ht_num_entries ht =? Z.of_nat (length (ht_entries ht)))
  && (4 * ht_num_entries ht <? 3 * ht_size ht)
  && buckets_ok (ht_size ht) 0 (ht_table ht)
  && nodup_keys (ht_keys ht).

(** The number of entries below which an insertion never needs a table
    beyond [IDX_LIMIT]. *)
Definition HT_CAPACITY : Z := 2 ^ 21.

(** The table behind a pointer is allocated and well formed. *)
Definition table_ok (h : list (option HashTab)) (p : option ptr) : bool :=
  match load h p with
  | Some ht => ht_wfb ht
  | None => false
  end.

(** A usable symbol-table state: the current table is allocated and well
    formed, and so is the saved one when the pointer is not null. *)
Definition symtab_ok (st : SymTab) : bool :=
  table_ok (heap st) (table st)
  && match saved_table st with
     | Some q => table_ok (heap st) (Some q)
     | None => true
     end.

(** A subroutine scope is open: [saved_table] is the global table and
    [table] a different one. *)
Definition subroutine_open (st : SymTab) : bool :=
  match table st, saved_table st with
  | Some p, Some q => negb (Nat.eqb p q)
  | _, _ => false
  end.

(** The entries of the table behind a pointer; none for a null or freed
    table. *)
Definition scope_entries (h : list (option HashTab)) (p : option ptr) : list HTentry :=
  match load h p with
  | Some ht => ht_entries ht
  | None => []
  end.

Definition active_entries (st : SymTab) : list HTentry :=
  scope_entries (heap st) (table st).
Definition global_entries (st : SymTab) : list HTentry :=
  scope_entries (heap st) (saved_table st).

(** Does a name occur among the keys of a list of entries, and with
    which properties. *)
Definition has_key (n : string) (es : list HTentry) : bool :=
  existsb (fun e => String.eqb n (key e)) es.

Fixpoint entry_of (n : string) (es : list HTentry) : option IDprop :=
  match es with
  | [] => None
  | e :: rest => if String.eqb n (key e) then Some (value e) else entry_of n rest
  end.

(** A name is visible to [find_name]: it is in the current table, or it
    is a callable of the saved table. *)
Definition visible (n : string) (st : SymTab) : bool :=
  has_key n (active_entries st)
  || match entry_of n (global_entries st) with
     | Some v => IS_CALLABLE_TYPE (ip_type v)
     | None => false
     end.

(** The current table has room for [k] more entries. *)
Definition scope_room (k : nat) (st : SymTab) : bool :=
  Z.of_nat (length (active_entries st)) + Z.of_nat k <? HT_CAPACITY.

(** A run of [insert_name] calls, in order, with the outcome of each:
    the name, the result, and [*prop] after the call. *)
Fixpoint insert_names (ops : list (string * IDprop)) (st : SymTab)
    : option (list (string * bool * IDprop) * SymTab) :=
  match ops with
  | [] => Some ([], st)
  | (id, prop) :: rest =>
      '(inserted, prop', st1) ← insert_name id prop st;
      '(rs, st2) ← insert_names rest st1;
      Some ((id, inserted, prop') :: rs, st2)
  end.

(** The offsets given to the variables that a run inserted, in order. *)
Definition assigned_offsets (rs : list (string * bool * IDprop)) : list Z :=
  omap (fun r : string * bool * IDprop =>
          let '(_, inserted, prop) := r in
          if inserted && IS_VARIABLE (ip_type prop) then Some (ip_offset prop)
          else None) rs.

(** The entries that a run linked into the current table. *)
Definition linked_entries (rs : list (string * bool * IDprop)) : list HTentry :=
  omap (fun r : string * bool * IDprop =>
          let '(id, inserted, prop) := r in
          if (inserted : bool) then Some (mk_entry id prop) else None) rs.

(** Example states: a global variable [g] and an open subroutine [f]
    with the parameter [a]; and the global scope after [f] has closed. *)
Definition int_var : IDprop := make_idprop TYPE_INTEGER 0 0 [].
Definition proc_prop : IDprop := make_idprop TYPE_CALLABLE 0 0 [].

Definition example_global : option SymTab :=
  st0 ← init_symbol_table symtab_zero;
  '(_, _, st1) ← insert_name "g" int_var st0;
  Some st1.

Definition example_open : option SymTab :=
  st1 ← example_global;
  '(_, st2) ← open_subroutine "f" proc_prop st1;
  Some st2.

Definition example_in_scope : option SymTab :=
  st2 ← example_open;
  '(_, _, st3) ← insert_name "a" int_var st2;
  Some st3.

Definition example_closed : option SymTab :=
  st3 ← example_in_scope;
  close_subroutine st3.

(** A subroutine [f] opened in a new global scope; and the global
    scope after [f] has been given two parameters and closed. *)
Definition example_just_opened : option SymTab :=
  st0 ← init_symbol_table symtab_zero;
  '(_, st1) ← open_subroutine "f" proc_prop st0;
  Some st1.

Definition example_resumed : option SymTab :=
  st1 ← example_just_opened;
  '(_, _, st2) ← insert_name "a" int_var st1;
  '(_, _, st3) ← insert_name "b" int_var st2;
  close_subroutine st3.

(** A state in which a scope starts: right after [init_symbol_table], or
    right after a successful [open_subroutine] on a usable state. *)
Definition scope_start (st : SymTab) : Prop :=
  (exists st0, init_symbol_table st0 = Some st)
  \/ (exists st0 id prop,
        symtab_ok st0 = true /\ scope_room 1 st0 = true
        /\ open_subroutine id prop st0 = Some (true, st)).

(** The variables among a list of entries. *)
Definition variable_entries (es : list HTentry) : list HTentry :=
  filter (fun e => IS_VARIABLE (ip_type (value e)) = true) es.

(** ** Decimal numerals *)

(** The value of a digit string read from the left, starting from [acc]. *)
Fixpoint decimal_from (acc : Z) (digits : string) : Z :=
  match digits with
  | EmptyString => acc
  | String c rest => decimal_from (10 * acc + (code_of c - 48)) rest
  end.

Definition decimal_value (digits : string) : Z := decimal_from 0 digits.

Fixpoint all_digits (str : string) : bool :=
  match str with
  | EmptyString => true
  | String c rest => isdigit (code_of c) && all_digits rest
  end.

(** The text after a numeral: empty, or starting with a non-digit. *)
Definition ends_numeral (rest : string) : bool :=
  match rest with
  | EmptyString => true
  | String c _ => negb (isdigit (code_of c))
  end.

(** The scanner is about to read [text]: its first character is the
    current one and the remainder is the unread input. *)
Definition reading (text : string) (s : LexState) : Prop :=
  match text with
  | EmptyString => ch s = EOF /\ src s = EmptyString
  | String c rest => ch s = code_of c /\ src s = rest
  end.

(** ** What statements and expressions leave alone

    [frame s s']: from [s] to [s'] the return type and the symbol table
    are unchanged, the instruction buffer of the open subroutine has
    only grown at its end, and the closed subroutines are the same. *)
Definition frame (s s' : State) : Prop :=
  return_type s' = return_type s
  /\ symtab s' = symtab s
  /\ (exists c, code (cg s') = code (cg s) ++ c)
  /\ subroutines (cg s') = subroutines (cg s)
  /\ sub_open (cg s') = sub_open (cg s).

Definition preserves {A} (m : M State A) : Prop :=
  forall s a s', m s = Ok a s' -> frame s s'.

(** The instructions that were appended between two states. *)
Definition emitted (s s' : State) (c : list Instr) : Prop :=
  code (cg s') = code (cg s) ++ c.

(** ** Reading off a compilation *)

(** The instruction lists of the closed subroutines, in output order. *)
Definition compiled_code (r : Result State unit) : option (list (list Instr)) :=
  match r with
  | Ok _ s => Some (map sub_code (subroutines (cg s)))
  | _ => None
  end.

(** The diagnostic of a compilation that stopped with a fatal error. *)
Definition diagnostic (r : Result State unit) : option (SourcePos * string) :=
  match r with
  | Fatal pos (Message msg) => Some (pos, msg)
  | _ => None
  end.

(** After a parsing function: the result, the lookahead token and the
    instructions in the buffer. *)
Definition parsed {A} (r : Result State A) : option (A * TokenType * list Instr) :=
  match r with
  | Ok a s => Some (a, tok_type (token (lex s)), code (cg s))
  | _ => None
  end.

(** ** Invariants used by the proofs *)

(** The hash-table invariant: the prime size belongs to the index, the
    count is the number of entries, the load is under three quarters,
    every entry sits in the bucket of its hash, and keys are unique. *)
Record ht_wf (ht : HashTab) : Prop := mk_ht_wf {
  wf_idx : 4 <= ht_idx ht <= IDX_LIMIT;
  wf_size : delta_at (ht_idx ht) = Some (2 ^ ht_idx ht - ht_size ht);
  wf_len : Z.of_nat (length (ht_table ht)) = ht_size ht;
  wf_count : ht_num_entries ht = Z.of_nat (length (ht_entries ht));
  wf_load : 4 * ht_num_entries ht < 3 * ht_size ht;
  wf_buckets : forall i b e, ht_table ht !! i = Some b -> e ∈ b ->
               shift_hash (key e) (ht_size ht) = Some (Z.of_nat i);
  wf_nodup : NoDup (ht_keys ht)
}.

Definition buckets_wf (sz : Z) (tbl : list (list HTentry)) : Prop :=
  forall i b e, tbl !! i = Some b -> e ∈ b ->
    shift_hash (key e) sz = Some (Z.of_nat i).

(** The invariant of a usable symbol-table state. *)
Definition table_wf (h : list (option HashTab)) (p : option ptr) : Prop :=
  exists ht, load h p = Some ht /\ ht_wf ht.

Definition symtab_wf (st : SymTab) : Prop :=
  table_wf (heap st) (table st)
  /\ match saved_table st with
     | Some q => table_wf (heap st) (Some q)
     | None => True
     end.

(** The order of results by fuel: running out of fuel is below
    everything. *)
Definition le_res {S A} (r r' : Result S A) : Prop := r = OutOfFuel \/ r = r'.
Definition le_m {S A} (m m' : M S A) : Prop := forall s, le_res (m s) (m' s).

(** An emitter call that only appends instructions. *)
Definition appends (f : CodeGen -> CodeGen) : Prop :=
  forall g, (exists c, code (f g) = code g ++ c)
            /\ subroutines (f g) = subroutines g /\ sub_open (f g) = sub_open g.

(** What a parser action does to the current return type. *)
Definition keeps_rt {A} (m : M State A) : Prop :=
  forall s a s', m s = Ok a s' -> return_type s' = return_type s.

Definition ends_none {A} (m : M State A) : Prop :=
  forall s a s', m s = Ok a s' -> return_type s' = TYPE_NONE.

Definition keeps_none {A} (m : M State A) : Prop :=
  forall s a s', return_type s = TYPE_NONE -> m s = Ok a s' ->
                 return_type s' = TYPE_NONE.

(** Two parser actions that do the same from every state in which the
    return type is [TYPE_NONE]. *)
Definition agree {A} (m m' : M State A) : Prop :=
  forall s, return_type s = TYPE_NONE -> m s = m' s.

(** ** Example tables *)

(** The names of a list inserted in order, each as an integer variable. *)
Fixpoint ht_insert_all (ks : list string) (ht : HashTab) : option HashTab :=
  match ks with
  | [] => Some ht
  | k :: rest => '(_, ht1) ← ht_insert ht k int_var; ht_insert_all rest ht1
  end.

(** Nine names in a new table: one short of the load that makes
    [ht_insert] rehash the thirteen buckets. *)
Definition example_table : option HashTab :=
  ht ← ht_init;
  ht_insert_all ["a"; "b"; "c"; "d"; "e"; "f"; "g"; "h"; "i"] ht.

Definition ht_zero : HashTab := mk_hashtab [] 0 0 0.

(** ** Words and strings in the source text *)

(** The characters that the loop of [process_word] takes. *)
Definition is_word_char (c : Z) : bool := isdigit c || isalpha c || (c =? 95).

Fixpoint all_word_chars (str : string) : bool :=
  match str with
  | EmptyString => true
  | String c rest => is_word_char (code_of c) && all_word_chars rest
  end.

(** The text after a word: empty, or starting with another character. *)
Definition ends_word (rest : string) : bool :=
  match rest with
  | EmptyString => true
  | String c _ => negb (is_word_char (code_of c))
  end.

(** The token type of a reserved word, by a walk along the table. *)
Fixpoint assoc_word (w : string) (l : list (string * TokenType)) : option TokenType :=
  match l with
  | [] => None
  | (w', t) :: rest => if String.eqb w w' then Some t else assoc_word w rest
  end.

Definition keyword (w : string) : option TokenType := assoc_word w reserved.

(** A character that [process_string] copies as it is, and a character
    that may follow a backslash. *)
Definition is_plain_char (c : Z) : bool :=
  negb (c =? 34) && negb (c =? 92) && isascii c && isprint c.
Definition is_escape_char (c : Z) : bool :=
  (c =? 110) || (c =? 116) || (c =? 34) || (c =? 92).

(** The text of a string literal between its quotes: plain characters
    and escape pairs. *)
Fixpoint string_text (b : string) : bool :=
  match b with
  | EmptyString => true
  | String c rest =>
      if code_of c =? 92 then
        match rest with
        | String c2 rest2 => is_escape_char (code_of c2) && string_text rest2
        | EmptyString => false
        end
      else is_plain_char (code_of c) && string_text rest
  end.

(** ** Comments in the source text *)

(** The scanner after [k] more calls of [next_char]. *)
Fixpoint advance (k : nat) (s : LexState) : LexState :=
  match k with
  | O => s
  | S k' =>
      match next_char s with
      | Ok _ s' => advance k' s'
      | _ => s
      end
  end.

(** How the text behind the opening pair of a comment ends: the comment
    is closed and [rest] follows it, or the text runs out while the
    comment whose body begins [start] characters into the text is the
    innermost one still open. *)
Inductive CommentEnd :=
  | Closed (rest : string)
  | Unclosed (start : nat).

(** A scan of that text with the open comments on a stack.  [start] is
    where the body of the innermost open comment begins, [outer] holds
    the same for the comments around it, and [k] is the number of
    characters in front of [text].  An asterisk with a closing
    parenthesis behind it closes the innermost comment; an opening
    parenthesis with an asterisk behind it opens a comment; an opening
    parenthesis with any other character behind it takes that character
    along, unexamined. *)
Fixpoint comment_scan (outer : list nat) (start k : nat) (text : string)
    : CommentEnd :=
  match text with
  | EmptyString => Unclosed start
  | String c t =>
      if code_of c =? 42 then
        match t with
        | String c2 r =>
            if code_of c2 =? 41 then
              match outer with
              | [] => Closed r
              | o :: os => comment_scan os o (k + 2) r
              end
            else comment_scan outer start (k + 1) t
        | EmptyString => Unclosed start
        end
      else if code_of c =? 40 then
        match t with
        | String c2 r =>
            if code_of c2 =? 42 then comment_scan (start :: outer) (k + 2) (k + 2) r
            else comment_scan outer start (k + 2) r
        | EmptyString => Unclosed start
        end
      else comment_scan outer start (k + 1) t
  end.

(** The place of the opening pair of a comment whose body starts where
    the scanner stands. *)
Definition opening_pair (s : LexState) : SourcePos :=
  mk_pos (line (position s)) (column_number s - 2).

(** ** White space and the first character of a token *)

Fixpoint all_space (str : string) : bool :=
  match str with
  | EmptyString => true
  | String c rest => isspace (code_of c) && all_space rest
  end.

(** The characters, other than white space, with which [get_token]
    starts a token or a comment. *)
Definition starts_token (c : Z) : bool :=
  is_word_char c
  || existsb (Z.eqb c) [34; 61; 62; 60; 35; 45; 43; 47; 42; 38; 91; 93; 44; 40; 41; 59].

(** ** Example parser states *)

(** A procedure with two integer parameters, and the global scope after
    that procedure has been declared and its scope closed. *)
Definition two_param_proc : IDprop :=
  make_idprop TYPE_CALLABLE 1 2 [TYPE_INTEGER; TYPE_INTEGER].

Definition example_declared : option SymTab :=
  st0 ← init_symbol_table symtab_zero;
  '(_, st1) ← open_subroutine "f" two_param_proc st0;
  '(_, _, st2) ← insert_name "a" int_var st1;
  '(_, _, st3) ← insert_name "b" int_var st2;
  close_subroutine st3.

(** The parser in front of [source] with the symbol table [st]. *)
Definition parser_in (MAX_ID_LENGTH : Z) (st : SymTab) (source : string) : State :=
  set_symtab st (parser_at MAX_ID_LENGTH source).

(** The comparison that [parse_expr] hands to [gen_cmp] for each
    relational operator. *)
Definition relop_code (op : TokenType) : option Bytecode :=
  match op with
  | TOK_EQ => Some JVM_IF_ICMPEQ
  | TOK_NE => Some JVM_IF_ICMPNE
  | TOK_GE => Some JVM_IF_ICMPGE
  | TOK_GT => Some JVM_IF_ICMPGT
  | TOK_LE => Some JVM_IF_ICMPLE
  | TOK_LT => Some JVM_IF_ICMPLT
  | _ => None
  end.

(** The operators that share their first character: the token of the
    first character alone, and the token of a pair. *)
Definition operator_start (c : Z) : option TokenType :=
  if c =? 60 then Some TOK_LT
  else if c =? 62 then Some TOK_GT
  else if c =? 45 then Some TOK_MINUS
  else None.

Definition operator_pair (c1 c2 : Z) : option TokenType :=
  if (c1 =? 60) && (c2 =? 61) then Some TOK_LE
  else if (c1 =? 60) && (c2 =? 45) then Some TOK_GETS
  else if (c1 =? 62) && (c2 =? 61) then Some TOK_GE
  else if (c1 =? 45) && (c2 =? 62) then Some TOK_TO
  else None.

(** ** Operands in a row

    [operand_run operand op i s cs s']: from [s] on, the input is the
    operator [op] followed by an operand, any number of times.  Each
    operand is parsed by [operand], from the state after the operator
    token, with a boolean result, and is followed by the instruction
    [i].  [cs] lists the instructions of the operands in order, and
    [s'] is the state after the last of them. *)
Inductive operand_run (MAX_ID_LENGTH : Z) (operand : M State ValType)
    (op : TokenType) (i : Bytecode)
    : State -> list (list Instr) -> State -> Prop :=
  | run_end s : operand_run MAX_ID_LENGTH operand op i s [] s
  | run_step s s1 s2 c cs s' :
      tok_type (token (lex s)) = op ->
      next_token MAX_ID_LENGTH s = Ok tt s1 ->
      operand s1 = Ok TYPE_BOOLEAN s2 ->
      emitted s1 s2 c ->
      operand_run MAX_ID_LENGTH operand op i (set_cg (gen_1 i (cg s2)) s2) cs s' ->
      operand_run MAX_ID_LENGTH operand op i s (c :: cs) s'.

(** The instructions of a row of operands, each followed by [i]. *)
Definition run_code (i : Bytecode) (cs : list (list Instr)) : list Instr :=
  concat (map (fun c => c ++ [Op1 i]) cs).

(** ** Character arrays *)

(** The cells that hold the characters of a text. *)
Fixpoint cells (text : string) : Buffer :=
  match text with
  | EmptyString => []
  | String c rest => Some c :: cells rest
  end.

(** An array of [n] cells of which the first hold [text] and the others
    nothing. *)
Definition filled (n : nat) (text : string) : Buffer :=
  cells text ++ replicate (n - String.length text) None.

(** The current character of the scanner is [c]. *)
Definition reading_char (c : ascii) (s : LexState) : Prop := ch s = code_of c.

(** ** Types in the source text *)

(** The base type that a token names. *)
Definition base_type (t : TokenType) : option ValType :=
  match t with
  | TOK_BOOLEAN => Some TYPE_BOOLEAN
  | TOK_INTEGER => Some TYPE_INTEGER
  | _ => None
  end.

(** ** Tokens and their payloads *)

(** The token holds the payload of its kind: a lexeme for an identifier,
    a value for a number, a character array for a string. *)
Definition token_holds (t : Token) : Prop :=
  match tok_type t with
  | TOK_ID => exists l, tok_lexeme t = Some l
  | TOK_NUM => exists v, tok_value t = Some v
  | TOK_STR => exists p, tok_string t = Some p
  | _ => True
  end.

(** A kind of token that carries no payload. *)
Definition plain_kind (t : TokenType) : bool :=
  negb (tok_eqb t TOK_ID || tok_eqb t TOK_NUM || tok_eqb t TOK_STR).

(** A scanner action after which the token holds its payload, and one
    that leaves the token alone. *)
Definition ensures {A} (m : M LexState A) : Prop :=
  forall s a s', m s = Ok a s' -> token_holds (token s').

Definition keeps_token {A} (m : M LexState A) : Prop :=
  forall s a s', m s = Ok a s' -> token s' = token s.

(** * Properties *)

(** ** C strings *)

Lemma string_compare_refl (b : string) : String.compare b b = Eq.
Proof.
  induction b as [|c b IH]; simpl; [done|].
  assert (Hc : Ascii.compare c c = Eq) by (unfold Ascii.compare; apply N.compare_refl).
  by rewrite Hc.
Qed.

Lemma strcmp_eq a b : (strcmp a b =? 0) = true <-> a = b.
Proof.
  unfold strcmp. split.
  - destruct (String.compare a b) eqn:E; try discriminate.
    intros _. by apply String.compare_eq_iff.
  - intros ->. by rewrite string_compare_refl.
Qed.

Lemma strcmp_neq a b : (strcmp a b =? 0) = false <-> a <> b.
Proof.
  rewrite <- strcmp_eq. destruct (strcmp a b =? 0); split; congruence.
Qed.

(** ** The hash table *)

Lemma buckets_ok_spec sz tbl : forall i0,
  buckets_ok sz i0 tbl = true ->
  forall i b e, tbl !! i = Some b -> e ∈ b ->
    shift_hash (key e) sz = Some (Z.of_nat (i0 + i)).
Proof.
  induction tbl as [|b0 tbl IH]; intros i0 Hok i b e Hi He; [done|].
  simpl in Hok. apply andb_true_iff in Hok as [Hb Hrest].
  destruct i as [|i]; simpl in Hi.
  - inversion Hi; subst b. rewrite forallb_forall in Hb.
    apply list_elem_of_In in He. specialize (Hb e He).
    unfold entry_in_bucket in Hb. destruct (shift_hash (key e) sz); [|done].
    apply Z.eqb_eq in Hb. subst. f_equal. lia.
  - rewrite (IH (S i0) Hrest i b e Hi He). f_equal. lia.
Qed.

Lemma nodup_keys_spec l : nodup_keys l = true -> NoDup l.
Proof.
  induction l as [|k l IH]; simpl; [constructor|].
  intros H. apply andb_true_iff in H as [Hk Hl]. constructor; [|by apply IH].
  intros Hin. apply negb_true_iff in Hk.
  assert (existsb (String.eqb k) l = true); [|congruence].
  apply existsb_exists. exists k. split; [by apply list_elem_of_In|apply String.eqb_refl].
Qed.

(** The run-time check implies the invariant. *)
Lemma ht_wfb_sound ht : ht_wfb ht = true -> ht_wf ht.
Proof.
  unfold ht_wfb. intros H.
  repeat (apply andb_true_iff in H as [H ?]).
  destruct (delta_at (ht_idx ht)) as [d|] eqn:Hd; [|done].
  constructor.
  - unfold IDX_LIMIT in *. lia.
  - rewrite Hd. f_equal. lia.
  - lia.
  - lia.
  - lia.
  - intros i b e Hi He. exact (buckets_ok_spec _ _ 0%nat H1 i b e Hi He).
  - by apply nodup_keys_spec.
Qed.

Lemma delta_small i d :
  4 <= i -> delta_at i = Some d -> 0 <= d /\ 4 * d < 2 ^ i.
Proof.
  intros Hi H. unfold delta_at in H.
  destruct (0 <=? i) eqn:E; [|done].
  assert (Hn : i = Z.of_nat (Z.to_nat i)) by lia.
  revert H. generalize (Z.to_nat i) as n, Hn. intros n -> H. clear E.
  do 4 (destruct n as [|n]; [lia|]).
  do 28 (destruct n as [|n];
         [inversion H; subst d; split; [lia | reflexivity]|]).
  done.
Qed.

Lemma wf_size_eq ht : ht_wf ht ->
  exists d, delta_at (ht_idx ht) = Some d /\ ht_size ht = 2 ^ ht_idx ht - d
            /\ 0 <= d /\ 4 * d < 2 ^ ht_idx ht /\ 16 <= 2 ^ ht_idx ht.
Proof.
  intros W. destruct W as [Hidx Hsize _ _ _ _ _]. eexists. split; [eassumption|].
  destruct (delta_small _ _ (proj1 Hidx) Hsize) as [? ?].
  assert (2 ^ 4 <= 2 ^ ht_idx ht) by (apply Z.pow_le_mono_r; lia).
  change (2 ^ 4) with 16 in *. lia.
Qed.

Lemma wf_size_pos ht : ht_wf ht -> 12 < ht_size ht.
Proof. intros W. destruct (wf_size_eq ht W) as (d & ? & ? & ? & ? & ?). lia. Qed.

Lemma shift_hash_range k sz :
  0 < sz -> exists i, shift_hash k sz = Some i /\ 0 <= i < sz.
Proof.
  intros H. unfold shift_hash. destruct (sz =? 0) eqn:E; [lia|].
  eexists. split; [done|]. by apply Z.mod_pos_bound.
Qed.

Lemma chain_search_none b k : k ∉ (key <$> b) -> chain_search b k = None.
Proof.
  induction b as [|e b IH]; simpl; [done|]. intros Hk.
  apply not_elem_of_cons in Hk as [Hne Hk].
  unfold key_strcmp. destruct (strcmp k (key e) =? 0) eqn:E.
  - apply strcmp_eq in E. done.
  - by apply IH.
Qed.

Lemma chain_search_some b e :
  NoDup (key <$> b) -> e ∈ b -> chain_search b (key e) = Some (value e).
Proof.
  induction b as [|e0 b IH]; simpl; intros Hnd He; [by apply elem_of_nil in He|].
  apply NoDup_cons in Hnd as [Hnotin Hnd].
  unfold key_strcmp. destruct (strcmp (key e) (key e0) =? 0) eqn:E.
  - apply strcmp_eq in E. apply elem_of_cons in He as [->|He]; [done|].
    exfalso. apply Hnotin. rewrite <- E. by apply list_elem_of_fmap_2.
  - apply strcmp_neq in E. apply elem_of_cons in He as [->|He]; [done|].
    by apply IH.
Qed.

Lemma chain_search_in b k v :
  chain_search b k = Some v -> mk_entry k v ∈ b.
Proof.
  induction b as [|e b IH]; simpl; [done|].
  unfold key_strcmp. destruct (strcmp k (key e) =? 0) eqn:E.
  - apply strcmp_eq in E. intros [= <-]. subst k. destruct e. apply elem_of_cons. by left.
  - intros H. apply elem_of_cons. right. by apply IH.
Qed.

Lemma elem_of_concat {A} (x : A) (ls : list (list A)) :
  x ∈ concat ls <-> exists i l, ls !! i = Some l /\ x ∈ l.
Proof.
  rewrite list_elem_of_In, in_concat. split.
  - intros (l & Hl & Hx). apply list_elem_of_In, list_elem_of_lookup in Hl as [i Hi].
    exists i, l. split; [done|by apply list_elem_of_In].
  - intros (i & l & Hi & Hx). exists l. split; [|by apply list_elem_of_In].
    apply list_elem_of_In, list_elem_of_lookup. by exists i.
Qed.

Lemma bucket_sublist {A} (ls : list (list A)) i l :
  ls !! i = Some l -> exists l1 l2, concat ls = l1 ++ l ++ l2.
Proof.
  intros H. rewrite <- (take_drop_middle ls i l H).
  rewrite concat_app, concat_cons. eauto.
Qed.

Lemma bucket_nodup ht i b :
  ht_wf ht -> ht_table ht !! i = Some b -> NoDup (key <$> b).
Proof.
  intros W Hi. destruct (bucket_sublist _ _ _ Hi) as (l1 & l2 & Heq).
  pose proof (wf_nodup ht W) as Hnd. unfold ht_keys, ht_entries in Hnd.
  rewrite Heq, !fmap_app in Hnd.
  apply NoDup_app in Hnd as (_ & _ & Hnd). by apply NoDup_app in Hnd as (Hnd & _ & _).
Qed.

Lemma bucket_of_key ht k :
  ht_wf ht ->
  exists i b, shift_hash k (ht_size ht) = Some (Z.of_nat i) /\ ht_table ht !! i = Some b.
Proof.
  intros W. pose proof (wf_size_pos ht W).
  destruct (shift_hash_range k (ht_size ht)) as (j & Hj & Hr); [lia|].
  assert (Hlt : (Z.to_nat j < length (ht_table ht))%nat) by (pose proof (wf_len ht W); lia).
  apply lookup_lt_is_Some in Hlt as [b Hb].
  exists (Z.to_nat j), b. split; [|done]. rewrite Hj. f_equal. lia.
Qed.

(** [ht_search] finds exactly the entries of the table. *)
Lemma ht_search_found ht e :
  ht_wf ht -> e ∈ ht_entries ht -> ht_search ht (key e) = Some (Some (value e)).
Proof.
  intros W He. apply elem_of_concat in He as (i & b & Hi & He).
  unfold ht_search. rewrite (wf_buckets ht W i b e Hi He). simpl.
  rewrite Nat2Z.id, Hi. simpl. f_equal.
  apply chain_search_some; [by eapply bucket_nodup|done].
Qed.

Lemma ht_search_missing ht k :
  ht_wf ht -> k ∉ ht_keys ht -> ht_search ht k = Some None.
Proof.
  intros W Hk. destruct (bucket_of_key ht k W) as (i & b & Hh & Hb).
  unfold ht_search. rewrite Hh. simpl. rewrite Nat2Z.id, Hb. simpl. f_equal.
  apply chain_search_none. intros Hin. apply Hk.
  apply list_elem_of_fmap in Hin as (e & -> & He).
  apply list_elem_of_fmap_2. apply elem_of_concat. eauto.
Qed.

Lemma ht_search_total ht k :
  ht_wf ht -> exists r, ht_search ht k = Some r.
Proof.
  intros W. destruct (bucket_of_key ht k W) as (i & b & Hh & Hb).
  unfold ht_search. rewrite Hh. simpl. rewrite Nat2Z.id, Hb. simpl. eauto.
Qed.

Lemma ht_search_in ht k v :
  ht_wf ht -> ht_search ht k = Some (Some v) -> mk_entry k v ∈ ht_entries ht.
Proof.
  intros W. destruct (bucket_of_key ht k W) as (i & b & Hh & Hb).
  unfold ht_search. rewrite Hh. simpl. rewrite Nat2Z.id, Hb. simpl.
  intros [= H]. apply elem_of_concat. exists i, b. split; [done|].
  by apply chain_search_in.
Qed.

Lemma buckets_wf_replicate sz n : buckets_wf sz (replicate n []).
Proof.
  intros i b e Hi He. apply lookup_replicate in Hi as [-> _].
  by apply elem_of_nil in He.
Qed.

Lemma concat_insert_cons (tbl : list (list HTentry)) i p q :
  tbl !! i = Some q -> concat (<[i := p :: q]> tbl) ≡ₚ p :: concat tbl.
Proof.
  intros Hi. rewrite insert_take_drop by (by eapply lookup_lt_Some).
  rewrite <- (take_drop_middle tbl i q Hi) at 3.
  rewrite !concat_app, !concat_cons. simpl.
  by rewrite <- Permutation_middle.
Qed.

Lemma buckets_wf_insert sz (tbl : list (list HTentry)) i p q :
  buckets_wf sz tbl -> tbl !! i = Some q ->
  shift_hash (key p) sz = Some (Z.of_nat i) ->
  buckets_wf sz (<[i := p :: q]> tbl).
Proof.
  intros Hwf Hi Hp j b e Hj He.
  destruct (decide (i = j)) as [<-|Hne].
  - rewrite list_lookup_insert_eq in Hj by (by eapply lookup_lt_Some).
    inversion Hj; subst b. apply elem_of_cons in He as [->|He]; [done|].
    by apply (Hwf i q).
  - rewrite list_lookup_insert_ne in Hj by done. by apply (Hwf j b).
Qed.

Lemma link_head_ok sz tbl p :
  0 < sz -> Z.of_nat (length tbl) = sz -> buckets_wf sz tbl ->
  exists k tbl', shift_hash (key p) sz = Some k /\ link_head tbl k p = Some tbl'
    /\ Z.of_nat (length tbl') = sz /\ buckets_wf sz tbl'
    /\ concat tbl' ≡ₚ p :: concat tbl.
Proof.
  intros Hsz Hlen Hwf.
  destruct (shift_hash_range (key p) sz Hsz) as (k & Hk & Hr).
  assert (Hlt : (Z.to_nat k < length tbl)%nat) by lia.
  apply lookup_lt_is_Some in Hlt as [q Hq].
  exists k, (<[Z.to_nat k := p :: q]> tbl). split; [done|].
  unfold link_head. rewrite Hq. simpl. split; [done|].
  split; [by rewrite length_insert|]. split.
  - apply buckets_wf_insert; [done..|]. rewrite Hk. f_equal. lia.
  - by apply concat_insert_cons.
Qed.

Lemma rehash_fold sz es :
  0 < sz -> forall tbl, Z.of_nat (length tbl) = sz -> buckets_wf sz tbl ->
  exists tbl', fold_left (rehash_entry sz) es (Some tbl) = Some tbl'
    /\ Z.of_nat (length tbl') = sz /\ buckets_wf sz tbl'
    /\ concat tbl' ≡ₚ es ++ concat tbl.
Proof.
  intros Hsz. induction es as [|e es IH]; intros tbl Hlen Hwf.
  - exists tbl. by repeat split.
  - destruct (link_head_ok sz tbl e Hsz Hlen Hwf) as (k & t1 & Hk & Hl & Hlen1 & Hwf1 & Hp1).
    destruct (IH t1 Hlen1 Hwf1) as (t2 & Hf & Hlen2 & Hwf2 & Hp2).
    exists t2. cbn [fold_left].
    assert (Hstep : rehash_entry sz (Some tbl) e = Some t1).
    { unfold rehash_entry. simpl. rewrite Hk. simpl. exact Hl. }
    rewrite Hstep.
    split; [done|]. split; [done|]. split; [done|].
    rewrite Hp2, Hp1. by rewrite <- Permutation_middle.
Qed.

Lemma fold_left_concat {A B} (f : A -> B -> A) (ls : list (list B)) a :
  fold_left (fun acc l => fold_left f l acc) ls a = fold_left f (concat ls) a.
Proof.
  revert a. induction ls as [|l ls IH]; intros a; simpl; [done|].
  by rewrite fold_left_app, IH.
Qed.

(** The next size is the prime below the next power of two. *)
Lemma getsize_spec ht d0 :
  4 <= ht_idx ht < IDX_LIMIT -> delta_at (ht_idx ht) = Some d0 ->
  ht_size ht = 2 ^ ht_idx ht - d0 ->
  exists d1, delta_at (ht_idx ht + 1) = Some d1
    /\ getsize ht = Some (2 ^ (ht_idx ht + 1) - d1)
    /\ 0 <= d1 /\ 4 * d1 < 2 ^ (ht_idx ht + 1).
Proof.
  intros Hidx Hd0 Hsz. unfold IDX_LIMIT in Hidx.
  assert (Hd1 : exists d1, delta_at (ht_idx ht + 1) = Some d1).
  { unfold delta_at. destruct (0 <=? ht_idx ht + 1) eqn:E; [|lia].
    apply lookup_lt_is_Some. change (length delta) with 32%nat. lia. }
  destruct Hd1 as [d1 Hd1]. exists d1. split; [done|].
  assert (Hge : 4 <= ht_idx ht + 1) by lia.
  destruct (delta_small _ _ Hge Hd1) as [? ?].
  unfold getsize. rewrite Hd0, Hd1. simpl.
  assert (Hpow : 2 ^ (ht_idx ht + 1) = 2 * 2 ^ ht_idx ht) by (rewrite Z.pow_add_r; lia).
  assert (2 ^ ht_idx ht <= 2 ^ 21) by (apply Z.pow_le_mono_r; lia).
  change (2 ^ 21) with 2097152 in *.
  destruct ((ht_size ht + d0) * 2 <=? INT_MAX) eqn:E; [|unfold INT_MAX in E; lia].
  split; [f_equal; lia|]. done.
Qed.

Lemma rehash_spec ht d0 :
  4 <= ht_idx ht < IDX_LIMIT -> delta_at (ht_idx ht) = Some d0 ->
  ht_size ht = 2 ^ ht_idx ht - d0 ->
  exists ht2 d1, rehash ht = Some ht2
    /\ ht_idx ht2 = ht_idx ht + 1
    /\ delta_at (ht_idx ht + 1) = Some d1
    /\ 0 <= d1 /\ 4 * d1 < 2 ^ (ht_idx ht + 1)
    /\ ht_size ht2 = 2 ^ (ht_idx ht + 1) - d1
    /\ ht_num_entries ht2 = ht_num_entries ht
    /\ Z.of_nat (length (ht_table ht2)) = ht_size ht2
    /\ buckets_wf (ht_size ht2) (ht_table ht2)
    /\ ht_entries ht2 ≡ₚ ht_entries ht.
Proof.
  intros Hidx Hd0 Hsz.
  destruct (getsize_spec ht d0 Hidx Hd0 Hsz) as (d1 & Hd1 & Hgs & Hd1a & Hd1b).
  set (ns := 2 ^ (ht_idx ht + 1) - d1) in *.
  assert (Hns : 0 < ns) by (unfold ns; lia).
  destruct (rehash_fold ns (ht_entries ht) Hns (replicate (Z.to_nat ns) []))
    as (tbl' & Hf & Hlen & Hwf & Hp).
  { rewrite length_replicate. lia. }
  { apply buckets_wf_replicate. }
  eexists _, d1. unfold rehash. rewrite Hgs. simpl.
  rewrite fold_left_concat. fold (ht_entries ht). rewrite Hf. simpl.
  split; [reflexivity|]. simpl. repeat split; try done.
  unfold ht_entries at 1. simpl. rewrite Hp.
  assert (Hnil : concat (replicate (Z.to_nat ns) (@nil HTentry)) = []).
  { clear. induction (Z.to_nat ns); simpl; [done|]. done. }
  by rewrite Hnil, app_nil_r.
Qed.

Lemma ht_insert_exists ht k v :
  ht_wf ht -> k ∈ ht_keys ht ->
  ht_insert ht k v = Some (HASH_TABLE_KEY_VALUE_PAIR_EXISTS, ht).
Proof.
  intros W Hk. apply list_elem_of_fmap in Hk as (e & -> & He).
  pose proof (ht_search_found ht e W He) as Hs.
  unfold ht_search in Hs. unfold ht_insert.
  destruct (shift_hash (key e) (ht_size ht)) as [i|]; [|done]. simpl in *.
  destruct (ht_table ht !! Z.to_nat i) as [q|]; [|done]. simpl in *.
  inversion Hs as [Hc]. by rewrite Hc.
Qed.

Lemma ht_insert_fresh ht k v :
  ht_wf ht -> ht_num_entries ht < HT_CAPACITY -> k ∉ ht_keys ht ->
  exists ht', ht_insert ht k v = Some (EXIT_SUCCESS, ht')
    /\ ht_wf ht'
    /\ ht_entries ht' ≡ₚ mk_entry k v :: ht_entries ht
    /\ ht_num_entries ht' = ht_num_entries ht + 1.
Proof.
  intros W Hcap Hk.
  pose proof (ht_search_missing ht k W Hk) as Hs.
  destruct (wf_size_eq ht W) as (d0 & Hd0 & Hsz & Hd0a & Hd0b & Hp16).
  pose proof (wf_size_pos ht W) as Hpos.
  unfold ht_search in Hs. unfold ht_insert.
  destruct (shift_hash k (ht_size ht)) as [i|] eqn:Hh; [|done]. simpl in *.
  destruct (ht_table ht !! Z.to_nat i) as [q|] eqn:Hq; [|done]. simpl in *.
  inversion Hs as [Hc]. rewrite Hc. clear Hs.
  set (ht1 := mk_hashtab (ht_table ht) (ht_size ht) (ht_num_entries ht + 1) (ht_idx ht)).
  assert (Hir : 0 <= i < ht_size ht).
  { destruct (shift_hash_range k (ht_size ht)) as (j & Hj & Hr); [lia|]. congruence. }
  destruct (over_load ht1) eqn:Hol; unfold over_load in Hol; simpl in Hol.
  - (* the table is rehashed first *)
    assert (Hidx : 4 <= ht_idx ht < IDX_LIMIT).
    { pose proof (wf_idx ht W) as Hi. unfold IDX_LIMIT in *.
      destruct (decide (ht_idx ht = 22)) as [E|]; [|lia]. exfalso.
      rewrite E in *. vm_compute in Hd0. inversion Hd0; subst d0.
      unfold HT_CAPACITY in Hcap. change (2 ^ 21) with 2097152 in Hcap.
      change (2 ^ 22) with 4194304 in Hsz. lia. }
    destruct (rehash_spec ht1 d0 Hidx Hd0 Hsz)
      as (ht2 & d1 & Hr & Hi2 & Hd1 & Hd1a & Hd1b & Hs2 & Hn2 & Hl2 & Hb2 & Hp2).
    rewrite Hr. simpl in *.
    assert (Hpow : 2 ^ (ht_idx ht + 1) = 2 * 2 ^ ht_idx ht) by (rewrite Z.pow_add_r; lia).
    pose proof (wf_load ht W) as Hload.
    destruct (ht_size ht2 <? ht_num_entries ht2) eqn:Hns; [lia|].
    destruct (link_head_ok (ht_size ht2) (ht_table ht2) (mk_entry k v))
      as (k2 & tbl & Hk2 & Hlh & Hlen & Hwf & Hperm); [lia|done|done|].
    simpl in Hk2. rewrite Hk2. simpl. rewrite Hlh. simpl.
    eexists. split; [reflexivity|].
    assert (He : concat tbl ≡ₚ mk_entry k v :: ht_entries ht).
    { rewrite Hperm. apply perm_skip. exact Hp2. }
    split; [|split; [exact He|simpl; lia]].
    constructor; simpl.
    + unfold IDX_LIMIT in *. lia.
    + rewrite Hi2, Hd1. f_equal. lia.
    + lia.
    + unfold ht_entries. simpl. rewrite He. simpl. rewrite Hn2.
      pose proof (wf_count ht W). lia.
    + lia.
    + done.
    + unfold ht_keys, ht_entries. simpl. rewrite He. simpl.
      apply NoDup_cons. split; [done|apply (wf_nodup ht W)].
  - (* the entry is linked into the table as it is *)
    unfold link_head. simpl. rewrite Hq. simpl.
    eexists. split; [reflexivity|].
    assert (He : concat (<[Z.to_nat i := mk_entry k v :: q]> (ht_table ht))
                 ≡ₚ mk_entry k v :: ht_entries ht) by (by apply concat_insert_cons).
    split; [|split; [exact He|done]].
    constructor; simpl.
    + apply (wf_idx ht W).
    + apply (wf_size ht W).
    + rewrite length_insert. apply (wf_len ht W).
    + unfold ht_entries. simpl. rewrite He. simpl.
      pose proof (wf_count ht W). lia.
    + lia.
    + apply buckets_wf_insert; [exact (wf_buckets ht W)|done|].
      simpl. rewrite Hh. f_equal. lia.
    + unfold ht_keys, ht_entries. simpl. rewrite He. simpl.
      apply NoDup_cons. split; [done|apply (wf_nodup ht W)].
Qed.

Lemma ht_init_wf : exists ht, ht_init = Some ht /\ ht_wf ht /\ ht_entries ht = [].
Proof.
  eexists. split; [reflexivity|]. split; [|reflexivity].
  apply ht_wfb_sound. reflexivity.
Qed.

(** ** The symbol table *)

Arguments load : simpl never.

Lemma entry_of_none n es : entry_of n es = None <-> n ∉ (key <$> es).
Proof.
  induction es as [|e es IH]; simpl.
  - split; [intros _ H; by apply elem_of_nil in H|done].
  - destruct (String.eqb n (key e)) eqn:E.
    + apply String.eqb_eq in E. split; [done|]. intros H. exfalso. apply H.
      rewrite E. apply elem_of_cons. by left.
    + apply String.eqb_neq in E. rewrite IH. rewrite not_elem_of_cons. tauto.
Qed.

Lemma entry_of_some es e :
  NoDup (key <$> es) -> e ∈ es -> entry_of (key e) es = Some (value e).
Proof.
  induction es as [|e0 es IH]; simpl; intros Hnd He; [by apply elem_of_nil in He|].
  apply NoDup_cons in Hnd as [Hnotin Hnd].
  destruct (String.eqb (key e) (key e0)) eqn:E.
  - apply String.eqb_eq in E. apply elem_of_cons in He as [->|He]; [done|].
    exfalso. apply Hnotin. rewrite <- E. by apply list_elem_of_fmap_2.
  - apply String.eqb_neq in E. apply elem_of_cons in He as [->|He]; [done|].
    by apply IH.
Qed.

Lemma entry_of_in n es v : entry_of n es = Some v -> mk_entry n v ∈ es.
Proof.
  induction es as [|e es IH]; simpl; [done|].
  destruct (String.eqb n (key e)) eqn:E.
  - apply String.eqb_eq in E. intros [= <-]. subst n. destruct e.
    apply elem_of_cons. by left.
  - intros H. apply elem_of_cons. right. by apply IH.
Qed.

Lemma has_key_entry_of n es :
  has_key n es = match entry_of n es with Some _ => true | None => false end.
Proof.
  induction es as [|e es IH]; simpl; [done|].
  destruct (String.eqb n (key e)); simpl; [done|apply IH].
Qed.

Lemma has_key_spec n es : has_key n es = true <-> n ∈ (key <$> es).
Proof.
  rewrite has_key_entry_of. destruct (entry_of n es) eqn:E.
  - split; [intros _|done]. apply entry_of_in in E.
    by apply (list_elem_of_fmap_2 key) in E.
  - apply entry_of_none in E. split; [done|]. intros H. by apply E in H.
Qed.

(** On a well-formed table [ht_search] is the lookup among its entries. *)
Lemma ht_search_entry_of ht n :
  ht_wf ht -> ht_search ht n = Some (entry_of n (ht_entries ht)).
Proof.
  intros W. destruct (entry_of n (ht_entries ht)) as [v|] eqn:E.
  - apply entry_of_in in E. by apply (ht_search_found ht _ W) in E.
  - apply entry_of_none in E. by apply ht_search_missing.
Qed.

Lemma table_ok_sound h p : table_ok h p = true -> table_wf h p.
Proof.
  unfold table_ok, table_wf. destruct (load h p) as [ht|]; [|done].
  intros H. exists ht. split; [done|by apply ht_wfb_sound].
Qed.

Lemma symtab_ok_sound st : symtab_ok st = true -> symtab_wf st.
Proof.
  unfold symtab_ok, symtab_wf. intros H. apply andb_true_iff in H as [H1 H2].
  split; [by apply table_ok_sound|].
  destruct (saved_table st); [by apply table_ok_sound|done].
Qed.

Lemma load_Some h p ht :
  load h p = Some ht -> exists q, p = Some q /\ h !! q = Some (Some ht).
Proof.
  unfold load. destruct p as [q|]; simpl; [|done].
  destruct (h !! q) as [[t|]|] eqn:E; simpl; try done.
  intros [= ->]. eauto.
Qed.

Lemma load_store_eq h q ht ht' :
  h !! q = Some (Some ht) -> load (store h q ht') (Some q) = Some ht'.
Proof.
  intros H. unfold load, store. simpl.
  rewrite list_lookup_insert_eq by (by eapply lookup_lt_Some). done.
Qed.

Lemma load_store_ne h q q' ht' :
  q <> q' -> load (store h q ht') (Some q') = load h (Some q').
Proof.
  intros H. unfold load, store. simpl. by rewrite list_lookup_insert_ne.
Qed.

(** [find_name]: the current table first, then the callables of the
    saved one. *)
Lemma find_name_spec st n :
  symtab_wf st ->
  find_name n st =
    Some (match entry_of n (active_entries st) with
          | Some v => (true, Some v)
          | None =>
              match entry_of n (global_entries st) with
              | Some v => (IS_CALLABLE_TYPE (ip_type v), Some v)
              | None => (false, None)
              end
          end).
Proof.
  intros [(t & Ht & Wt) Hs]. unfold find_name, active_entries, global_entries, scope_entries.
  rewrite Ht. simpl. rewrite (ht_search_entry_of t n Wt). simpl.
  destruct (entry_of n (ht_entries t)) as [v|]; [done|].
  destruct (saved_table st) as [q|]; [|done].
  destruct Hs as (g & Hg & Wg). rewrite Hg. simpl.
  rewrite (ht_search_entry_of g n Wg). simpl.
  destruct (entry_of n (ht_entries g)) as [v|]; [|done].
  by destruct (IS_CALLABLE_TYPE (ip_type v)).
Qed.

Lemma find_name_visible st n :
  symtab_wf st -> exists w, find_name n st = Some (visible n st, w).
Proof.
  intros W. rewrite (find_name_spec st n W). unfold visible.
  rewrite has_key_entry_of.
  destruct (entry_of n (active_entries st)); [by eexists|]. simpl.
  destruct (entry_of n (global_entries st)); by eexists.
Qed.

Lemma symtab_wf_store st p t t' :
  symtab_wf st -> table st = Some p -> heap st !! p = Some (Some t) -> ht_wf t' ->
  forall c, symtab_wf (mk_symtab (store (heap st) p t') (Some p) (saved_table st) c).
Proof.
  intros [_ Hs] Hp Ht W' c. split; simpl.
  - exists t'. split; [by eapply load_store_eq|done].
  - destruct (saved_table st) as [q|]; [|done].
    destruct (decide (p = q)) as [<-|Hne].
    + exists t'. split; [by eapply load_store_eq|done].
    + destruct Hs as (g & Hg & Wg). exists g. split; [|done].
      by rewrite load_store_ne.
Qed.

(** One call of [insert_name] on a usable state with room for an entry. *)
Lemma insert_name_spec st n prop :
  symtab_wf st -> scope_room 1 st = true ->
  let prop' := if IS_VARIABLE (ip_type prop)
               then with_offset prop (curr_offset st) else prop in
  if visible n st then insert_name n prop st = Some (false, prop, st)
  else exists st',
    insert_name n prop st = Some (true, prop', st')
    /\ symtab_wf st'
    /\ active_entries st' ≡ₚ mk_entry n prop' :: active_entries st
    /\ table st' = table st /\ saved_table st' = saved_table st
    /\ curr_offset st' = if IS_VARIABLE (ip_type prop)
                         then (curr_offset st + 1) mod UINT_WRAP else curr_offset st.
Proof.
  intros W Hroom prop'.
  destruct (find_name_visible st n W) as [w Hf].
  destruct (visible n st) eqn:Hv.
  - unfold insert_name. rewrite Hf. done.
  - pose proof W as [(t & Ht & Wt) _].
    destruct (load_Some _ _ _ Ht) as (p & Hp & Hhp).
    assert (Hk : n ∉ ht_keys t).
    { unfold visible in Hv. apply orb_false_iff in Hv as [Hv _].
      intros Hin. apply has_key_spec in Hin.
      unfold active_entries, scope_entries in Hv. rewrite Ht in Hv. congruence. }
    assert (Hcap : ht_num_entries t < HT_CAPACITY).
    { unfold scope_room, active_entries, scope_entries in Hroom. rewrite Ht in Hroom.
      apply Z.ltb_lt in Hroom. rewrite (wf_count t Wt). lia. }
    destruct (ht_insert_fresh t n prop' Wt Hcap Hk) as (t' & Hi & Wt' & Hperm & Hn).
    assert (Ht' : load (heap st) (Some p) = Some t) by (by rewrite <- Hp).
    unfold insert_name. rewrite Hf. simpl. rewrite Hp. simpl.
    rewrite Ht'. simpl. fold prop'. rewrite Hi. simpl.
    assert (Hact : forall c,
      active_entries (mk_symtab (store (heap st) p t') (Some p) (saved_table st) c)
      ≡ₚ mk_entry n prop' :: active_entries st).
    { intros c. unfold active_entries, scope_entries. simpl. rewrite Hp.
      rewrite (load_store_eq _ _ _ _ Hhp). rewrite Ht'. done. }
    destruct (IS_VARIABLE (ip_type prop)); eexists; (split; [reflexivity|]);
      (split; [by eapply symtab_wf_store|]); (split; [apply Hact|done]).
Qed.

Lemma scope_room_step k st st' e :
  scope_room (S k) st = true ->
  active_entries st' ≡ₚ e :: active_entries st ->
  scope_room k st' = true.
Proof.
  unfold scope_room. intros H Hp. apply Z.ltb_lt in H. apply Z.ltb_lt.
  rewrite Hp. simpl length. lia.
Qed.

Lemma scope_room_weaken k st : scope_room (S k) st = true -> scope_room k st = true.
Proof. unfold scope_room. rewrite !Z.ltb_lt. lia. Qed.

Lemma scope_room_one k st : scope_room (S k) st = true -> scope_room 1 st = true.
Proof. unfold scope_room. rewrite !Z.ltb_lt. lia. Qed.

Lemma assigned_offsets_cons id (ok : bool) p rs :
  assigned_offsets ((id, ok, p) :: rs) =
    if ok && IS_VARIABLE (ip_type p) then ip_offset p :: assigned_offsets rs
    else assigned_offsets rs.
Proof. unfold assigned_offsets. simpl. by destruct (ok && IS_VARIABLE (ip_type p)). Qed.

Lemma linked_entries_cons id (ok : bool) p rs :
  linked_entries ((id, ok, p) :: rs) =
    if ok then mk_entry id p :: linked_entries rs else linked_entries rs.
Proof. unfold linked_entries. simpl. by destruct ok. Qed.

(** A run of insertions: the variables that go in receive consecutive
    offsets from the counter on, the counter ends that many higher, and
    the current table gains exactly the entries that were inserted. *)
Lemma insert_names_spec ops : forall st,
  symtab_wf st -> scope_room (length ops) st = true ->
  0 <= curr_offset st -> curr_offset st + Z.of_nat (length ops) < UINT_WRAP ->
  exists rs st',
    insert_names ops st = Some (rs, st')
    /\ symtab_wf st'
    /\ fst <$> (fst <$> rs) = fst <$> ops
    /\ assigned_offsets rs = seqZ (curr_offset st) (Z.of_nat (length (assigned_offsets rs)))
    /\ curr_offset st' = curr_offset st + Z.of_nat (length (assigned_offsets rs))
    /\ active_entries st' ≡ₚ rev (linked_entries rs) ++ active_entries st
    /\ table st' = table st /\ saved_table st' = saved_table st.
Proof.
  induction ops as [|[n prop] ops IH]; intros st W Hroom Hc0 Hc1.
  - exists [], st. simpl. split_and!; try done. lia.
  - simpl length in *.
    pose proof (insert_name_spec st n prop W (scope_room_one _ _ Hroom)) as Hstep.
    simpl in Hstep. destruct (visible n st) eqn:Hv.
    + destruct (IH st W (scope_room_weaken _ _ Hroom) Hc0 ltac:(lia))
        as (rs & st' & Hrun & W' & Hids & Hoff & Hcnt & Hent & Ht & Hs).
      exists ((n, false, prop) :: rs), st'.
      split; [simpl; rewrite Hstep; simpl; by rewrite Hrun|].
      rewrite assigned_offsets_cons, linked_entries_cons. simpl.
      split_and!; try done. f_equal. exact Hids.
    + destruct Hstep as (st1 & Hins & W1 & Hent1 & Ht1 & Hs1 & Hc).
      assert (Hc1' : 0 <= curr_offset st1 /\
                     curr_offset st1 + Z.of_nat (length ops) < UINT_WRAP).
      { rewrite Hc. destruct (IS_VARIABLE (ip_type prop)); [|lia].
        rewrite Z.mod_small; lia. }
      destruct (IH st1 W1 (scope_room_step _ _ _ _ Hroom Hent1) (proj1 Hc1') (proj2 Hc1'))
        as (rs & st' & Hrun & W' & Hids & Hoff & Hcnt & Hent & Ht & Hs).
      eexists (_ :: rs), st'.
      split; [simpl; rewrite Hins; simpl; rewrite Hrun; reflexivity|].
      split; [done|]. split; [simpl; f_equal; exact Hids|].
      rewrite assigned_offsets_cons, linked_entries_cons.
      rewrite Ht, Hs, Ht1, Hs1.
      assert (Hrest : forall e, active_entries st1 ≡ₚ e :: active_entries st ->
                active_entries st' ≡ₚ rev (e :: linked_entries rs) ++ active_entries st).
      { intros e He. rewrite Hent, He. simpl. rewrite <- !app_assoc. done. }
      set (k := length (assigned_offsets rs)) in *.
      destruct (IS_VARIABLE (ip_type prop)) eqn:Hvar; simpl.
      * rewrite Hvar. simpl. rewrite Z.mod_small in Hc by lia.
        split_and!; try done; [|lia|by apply Hrest].
        rewrite Hoff at 1. rewrite Hc, Nat2Z.inj_succ.
        rewrite (seqZ_cons (curr_offset st)) by lia.
        by rewrite Z.pred_succ.
      * rewrite Hvar. simpl.
        split_and!; try done; [|lia|by apply Hrest].
        rewrite Hoff at 1. by rewrite Hc.
Qed.

Lemma ht_insert_success ht k v ht' :
  ht_wf ht -> ht_num_entries ht < HT_CAPACITY ->
  ht_insert ht k v = Some (EXIT_SUCCESS, ht') -> ht_wf ht'.
Proof.
  intros W Hcap Hi.
  assert (Hdec : k ∈ ht_keys ht \/ k ∉ ht_keys ht).
  { destruct (has_key k (ht_entries ht)) eqn:E.
    - left. by apply has_key_spec.
    - right. intros H. apply has_key_spec in H. congruence. }
  destruct Hdec as [Hin|Hnot].
  - rewrite (ht_insert_exists ht k v W Hin) in Hi. discriminate.
  - destruct (ht_insert_fresh ht k v W Hcap Hnot) as (t' & Hi' & W' & _).
    rewrite Hi in Hi'. by inversion Hi'; subst.
Qed.

Lemma load_app_new h ht : load (h ++ [Some ht]) (Some (length h)) = Some ht.
Proof.
  unfold load. simpl. rewrite lookup_app_r by lia.
  by rewrite Nat.sub_diag.
Qed.

Lemma load_app_old h x q ht : load h (Some q) = Some ht -> load (h ++ [x]) (Some q) = Some ht.
Proof.
  unfold load. simpl. intros H.
  destruct (h !! q) as [o|] eqn:E; [|done].
  by rewrite (lookup_app_l_Some _ _ _ _ E).
Qed.

Local Opaque ht_init.

(** A scope starts in a usable state with the counter at 1. *)
Lemma scope_start_wf st : scope_start st -> symtab_wf st /\ curr_offset st = 1.
Proof.
  intros [(st0 & Hinit)|(st0 & id & prop & Hok & Hroom & Hopen)].
  - unfold init_symbol_table in Hinit.
    destruct ht_init_wf as (ht & Hht & W & _). rewrite Hht in Hinit. simpl in Hinit.
    inversion Hinit; subst st. split; [|done]. split; simpl; [|done].
    exists ht. split; [apply load_app_new|done].
  - apply symtab_ok_sound in Hok. pose proof Hok as [(t & Ht & Wt) _].
    destruct (load_Some _ _ _ Ht) as (p & Hp & Hhp).
    assert (Hcap : ht_num_entries t < HT_CAPACITY).
    { unfold scope_room, active_entries, scope_entries in Hroom. rewrite Ht in Hroom.
      apply Z.ltb_lt in Hroom. rewrite (wf_count t Wt). lia. }
    unfold open_subroutine in Hopen. rewrite Hp in Hopen. simpl in Hopen.
    rewrite <- Hp, Ht in Hopen. simpl in Hopen.
    destruct (ht_insert t id prop) as [[rc t']|] eqn:Hi; [|done]. simpl in Hopen.
    destruct rc; try done.
    destruct ht_init_wf as (ht & Hht & W & _). rewrite Hht in Hopen. simpl in Hopen.
    inversion Hopen; subst st. split; [|done]. split; simpl.
    + exists ht. split; [apply load_app_new|done].
    + rewrite Hp. exists t'. split; [|exact (ht_insert_success t id prop t' Wt Hcap Hi)].
      apply load_app_old. by eapply load_store_eq.
Qed.

Local Transparent ht_init.

(** C2.  With a subroutine scope open, [find_name] answers with the
    entry of the active scope when the name is there; otherwise with the
    entry of the global scope, and reports it found only when that entry
    is callable.  So a global callable is found, and a global variable
    that the active scope does not declare is not. *)
Theorem find_name_open_scope (st : SymTab) (n : string) :
  symtab_ok st = true -> subroutine_open st = true ->
  find_name n st =
    Some (match entry_of n (active_entries st) with
          | Some v => (true, Some v)
          | None =>
              match entry_of n (global_entries st) with
              | Some v => (IS_CALLABLE_TYPE (ip_type v), Some v)
              | None => (false, None)
              end
          end)
  /\ (forall v, entry_of n (global_entries st) = Some v ->
                IS_CALLABLE_TYPE (ip_type v) = true ->
                exists p, find_name n st = Some (true, Some p))
  /\ (forall v, entry_of n (global_entries st) = Some v ->
                IS_CALLABLE_TYPE (ip_type v) = false ->
                has_key n (active_entries st) = false ->
                exists w, find_name n st = Some (false, w)).
Proof.
  intros Hok _. apply symtab_ok_sound in Hok.
  pose proof (find_name_spec st n Hok) as Hf. split; [exact Hf|]. split.
  - intros v Hv Hc. rewrite Hf, Hv, Hc.
    destruct (entry_of n (active_entries st)); eauto.
  - intros v Hv Hc Hk. rewrite Hf, Hv, Hc.
    rewrite has_key_entry_of in Hk.
    destruct (entry_of n (active_entries st)); [done|eauto].
Qed.

Lemma find_name_open_scope_witness :
  find_name "f" (default symtab_zero example_in_scope) = Some (true, Some proc_prop)
  /\ find_name "a" (default symtab_zero example_in_scope)
     = Some (true, Some (with_offset int_var 1))
  /\ find_name "g" (default symtab_zero example_in_scope)
     = Some (false, Some (with_offset int_var 1)).
Proof.
  split; [|split].
  - exact (proj1 (find_name_open_scope (default symtab_zero example_in_scope) "f"
                    eq_refl eq_refl)).
  - exact (proj1 (find_name_open_scope (default symtab_zero example_in_scope) "a"
                    eq_refl eq_refl)).
  - exact (proj1 (find_name_open_scope (default symtab_zero example_in_scope) "g"
                    eq_refl eq_refl)).
Defined.

(** C6, as stated, fails: inside the subroutine [f] the name [f] is not in
    the active scope, yet [insert_name] reports a duplicate, because
    [find_name] sees the global callable. *)
Lemma insert_name_fresh_local_counterexample :
  symtab_ok (default symtab_zero example_open) = true
  /\ subroutine_open (default symtab_zero example_open) = true
  /\ has_key "f" (active_entries (default symtab_zero example_open)) = false
  /\ insert_name "f" int_var (default symtab_zero example_open)
     = Some (false, int_var, default symtab_zero example_open).
Proof. by vm_compute. Qed.

(** C6, amended.  [insert_name] reports a duplicate exactly when
    [find_name] sees the name: when it is in the table being inserted
    into, or when it names a callable of the saved global table.  A name
    that is fresh in an open subroutine scope goes in whatever variables
    the global scope holds, as long as no global callable has that
    name. *)
Theorem insert_name_duplicate (st : SymTab) (n : string) (prop : IDprop) :
  symtab_ok st = true -> scope_room 1 st = true ->
  (exists prop' st',
     insert_name n prop st = Some (negb (visible n st), prop', st'))
  /\ (has_key n (active_entries st) = true ->
      insert_name n prop st = Some (false, prop, st))
  /\ (has_key n (active_entries st) = false ->
      (forall v, entry_of n (global_entries st) = Some v ->
                 IS_CALLABLE_TYPE (ip_type v) = false) ->
      exists prop' st', insert_name n prop st = Some (true, prop', st')).
Proof.
  intros Hok Hroom. apply symtab_ok_sound in Hok.
  pose proof (insert_name_spec st n prop Hok Hroom) as Hstep. simpl in Hstep.
  split; [|split].
  - destruct (visible n st); [by eauto|].
    destruct Hstep as (st' & Hi & _). eauto.
  - intros Hk. unfold visible in Hstep. by rewrite Hk in Hstep.
  - intros Hk Hg. unfold visible in Hstep. rewrite Hk in Hstep. simpl in Hstep.
    destruct (entry_of n (global_entries st)) as [v|] eqn:Hv.
    + rewrite (Hg v eq_refl) in Hstep. destruct Hstep as (st' & Hi & _). eauto.
    + destruct Hstep as (st' & Hi & _). eauto.
Qed.

Lemma insert_name_duplicate_witness :
  (exists prop' st',
     insert_name "g" int_var (default symtab_zero example_in_scope)
     = Some (true, prop', st'))
  /\ insert_name "a" int_var (default symtab_zero example_in_scope)
     = Some (false, int_var, default symtab_zero example_in_scope).
Proof.
  pose proof (insert_name_duplicate (default symtab_zero example_in_scope) "g" int_var
                eq_refl eq_refl) as (_ & _ & Hfresh).
  pose proof (insert_name_duplicate (default symtab_zero example_in_scope) "a" int_var
                eq_refl eq_refl) as (_ & Hdup & _).
  split.
  - apply Hfresh; [reflexivity|].
    intros v Hv. vm_compute in Hv. inversion Hv. reflexivity.
  - apply Hdup. reflexivity.
Defined.

(** The global scope after the subroutine [f] with its two parameters
    has closed: it holds no variable, yet the width is 3 and the first
    variable declared there receives offset 3. *)
Lemma slot_offsets_global_scope_example :
  symtab_ok (default symtab_zero example_resumed) = true
  /\ variable_entries (active_entries (default symtab_zero example_resumed)) = []
  /\ get_variables_width (default symtab_zero example_resumed) = 3
  /\ (fst <$> insert_name "v" int_var (default symtab_zero example_resumed))
     = Some (true, with_offset int_var 3).
Proof. by vm_compute. Qed.

(** Up to the first [close_subroutine] the numbering is the one
    specified.  Counting from the start of a scope ([init_symbol_table]
    or a successful [open_subroutine], both of which set the counter to
    1) and as long as no scope is opened or closed in between, the i-th
    variable that [insert_name] inserts receives offset i; entries that
    are not variables and rejected insertions take no offset; the width
    is one more than the number of variables inserted since the start;
    and the table holds exactly the inserted entries with these
    offsets. *)
Lemma slot_offsets_in_scope (st : SymTab) (ops : list (string * IDprop)) :
  scope_start st -> scope_room (length ops) st = true ->
  get_variables_width st = 1
  /\ exists rs st',
       insert_names ops st = Some (rs, st')
       /\ assigned_offsets rs = seqZ 1 (Z.of_nat (length (assigned_offsets rs)))
       /\ get_variables_width st' = 1 + Z.of_nat (length (assigned_offsets rs))
       /\ active_entries st' ≡ₚ rev (linked_entries rs) ++ active_entries st.
Proof.
  intros Hstart Hroom. destruct (scope_start_wf st Hstart) as [W Hc].
  split; [exact Hc|].
  assert (Hlen : Z.of_nat (length ops) < HT_CAPACITY).
  { unfold scope_room in Hroom. apply Z.ltb_lt in Hroom. lia. }
  unfold HT_CAPACITY in Hlen. change (2 ^ 21) with 2097152 in Hlen.
  destruct (insert_names_spec ops st W Hroom) as
    (rs & st' & Hrun & _ & _ & Hoff & Hcnt & Hent & _);
    [lia|rewrite Hc; unfold UINT_WRAP; change (2 ^ 32) with 4294967296; lia|].
  exists rs, st'. rewrite Hc in *. unfold get_variables_width. done.
Qed.

Lemma close_subroutine_offset st st' :
  close_subroutine st = Some st' -> curr_offset st' = curr_offset st.
Proof.
  unfold close_subroutine. destruct (table st) as [p|]; simpl; [|done].
  destruct (load (heap st) (Some p)); simpl; [|done].
  by intros [= <-].
Qed.

Lemma close_subroutine_next_offset (st st2 st3 : SymTab)
    (ops : list (string * IDprop)) (rs : list (string * bool * IDprop))
    (v : string) (prop : IDprop) :
  scope_start st -> scope_room (length ops) st = true ->
  insert_names ops st = Some (rs, st2) ->
  close_subroutine st2 = Some st3 ->
  symtab_ok st3 = true -> scope_room 1 st3 = true ->
  visible v st3 = false -> IS_VARIABLE (ip_type prop) = true ->
  get_variables_width st2 = 1 + Z.of_nat (length (assigned_offsets rs))
  /\ get_variables_width st3 = 1 + Z.of_nat (length (assigned_offsets rs))
  /\ exists st4,
       insert_name v prop st3
       = Some (true, with_offset prop (1 + Z.of_nat (length (assigned_offsets rs))), st4).
Proof.
  intros Hstart Hroom Hrun Hclose Hok Hroom3 Hvis Hvar.
  destruct (slot_offsets_in_scope st ops Hstart Hroom)
    as (_ & rs' & st' & Hrun' & _ & Hw & _).
  rewrite Hrun in Hrun'. inversion Hrun'; subst rs' st'.
  pose proof (close_subroutine_offset st2 st3 Hclose) as Hc.
  unfold get_variables_width in *. split; [exact Hw|]. split; [congruence|].
  pose proof (insert_name_spec st3 v prop (symtab_ok_sound st3 Hok) Hroom3) as Hi.
  simpl in Hi. rewrite Hvis, Hvar in Hi. destruct Hi as (st4 & Hi & _).
  exists st4. rewrite Hi. by rewrite Hc, Hw.
Qed.

(** C7.  [close_subroutine] makes the saved table current again and
    leaves the counter at the value the subroutine brought it to;
    [init_symbol_table] and [open_subroutine] set it to 1, this switch
    of scope does not.  After a subroutine scope in which [k] variables
    were inserted has been closed, the width of the scope that is
    current again is [1 + k], whatever variables that scope holds, and
    the next variable inserted there receives offset [1 + k]: the
    offsets of the global scope do not start at 1, and the width is not
    one more than the number of its variables.  In the program, [f] has
    two parameters and the variable [v] of the main body is stored in
    slot 3. *)
Theorem slot_offsets_after_subroutine :
  (forall (st st2 st3 : SymTab) (ops : list (string * IDprop))
          (rs : list (string * bool * IDprop)) (v : string) (prop : IDprop),
     scope_start st -> scope_room (length ops) st = true ->
     insert_names ops st = Some (rs, st2) ->
     close_subroutine st2 = Some st3 ->
     symtab_ok st3 = true -> scope_room 1 st3 = true ->
     visible v st3 = false -> IS_VARIABLE (ip_type prop) = true ->
     get_variables_width st2 = 1 + Z.of_nat (length (assigned_offsets rs))
     /\ get_variables_width st3 = 1 + Z.of_nat (length (assigned_offsets rs))
     /\ exists st4,
          insert_name v prop st3
          = Some (true,
                  with_offset prop (1 + Z.of_nat (length (assigned_offsets rs))),
                  st4))
  /\ compiled_code
       (compile 32
          "program P define f(integer a, integer b) begin chill end begin integer v; v <- 7 end"
          50)
     = Some [[]; [Op2 JVM_LDC 7; Op2 JVM_ISTORE 3; Op1 JVM_RETURN]].
Proof.
  split; [apply close_subroutine_next_offset|by vm_compute].
Qed.

(** After [f] with its two parameters has closed, the global scope
    holds no variable; its width is 3 and its first variable receives
    offset 3. *)
Lemma slot_offsets_after_subroutine_witness :
  variable_entries (active_entries (default symtab_zero example_resumed)) = []
  /\ get_variables_width (default symtab_zero example_resumed) = 3
  /\ exists st4,
       insert_name "v" int_var (default symtab_zero example_resumed)
       = Some (true, with_offset int_var 3, st4).
Proof.
  split; [reflexivity|].
  assert (Hstart : scope_start (default symtab_zero example_just_opened)).
  { right. exists (default symtab_zero (init_symbol_table symtab_zero)), "f", proc_prop.
    split; [reflexivity|]. split; reflexivity. }
  assert (Hrun : exists rs st2,
            insert_names [("a", int_var); ("b", int_var)]
              (default symtab_zero example_just_opened) = Some (rs, st2)
            /\ length (assigned_offsets rs) = 2%nat
            /\ close_subroutine st2 = Some (default symtab_zero example_resumed)).
  { eexists. eexists. split; [vm_compute; reflexivity|]. split; reflexivity. }
  destruct Hrun as (rs & st2 & Hrun & Hlen & Hclose).
  destruct (proj1 slot_offsets_after_subroutine
              (default symtab_zero example_just_opened)
              st2 (default symtab_zero example_resumed)
              [("a", int_var); ("b", int_var)] rs "v" int_var
              Hstart eq_refl Hrun Hclose eq_refl eq_refl eq_refl eq_refl)
    as (_ & Hw & st4 & Hi).
  rewrite Hlen in Hw, Hi. split; [exact Hw|]. exists st4. exact Hi.
Defined.

(** ** The scanner *)

Lemma while_unfold {S A} n (cond : A -> S -> bool) (body : A -> M S A) a s :
  while_ (Datatypes.S n) cond body a s =
    if cond a s then
      match body a s with
      | Ok a' s' => while_ n cond body a' s'
      | Fatal pos e => Fatal pos e
      | Undef w => Undef w
      | OutOfFuel => OutOfFuel
      end
    else Ok a s.
Proof.
  unfold while_. simpl. unfold bind, gets.
  destruct (cond a s); [|reflexivity]. by destruct (body a s).
Qed.

Lemma isdigit_code c : isdigit (code_of c) = true -> 0 <= code_of c - 48 <= 9.
Proof. unfold isdigit. lia. Qed.

Lemma decimal_from_ge acc ds :
  all_digits ds = true -> 0 <= acc -> acc <= decimal_from acc ds.
Proof.
  revert acc. induction ds as [|c ds IH]; simpl; intros acc Hd Hacc; [lia|].
  apply andb_true_iff in Hd as [Hc Hd]. apply isdigit_code in Hc.
  specialize (IH (10 * acc + (code_of c - 48)) Hd). lia.
Qed.

Lemma next_char_reading c rest s :
  src s = String c rest ->
  exists s', next_char s = Ok tt s' /\ reading (String c rest) s'
             /\ token s' = token s.
Proof.
  intros H. unfold next_char. rewrite H. eexists. split; [reflexivity|]. by simpl.
Qed.

Lemma next_char_eof s :
  src s = EmptyString ->
  exists s', next_char s = Ok tt s' /\ reading EmptyString s' /\ token s' = token s.
Proof.
  intros H. unfold next_char. rewrite H. eexists. split; [reflexivity|]. by simpl.
Qed.

Lemma next_char_step text c s :
  reading (String c text) s ->
  exists s', next_char s = Ok tt s' /\ reading text s' /\ token s' = token s.
Proof.
  intros [_ Hsrc]. destruct text as [|c' text].
  - by apply next_char_eof.
  - by apply next_char_reading.
Qed.

Lemma quot_bound num digit :
  0 <= num -> 0 <= digit <= 9 ->
  (num >? Z.quot (INT_MAX - digit) 10) = (10 * num + digit >? INT_MAX).
Proof.
  intros Hn Hd. unfold INT_MAX.
  rewrite Z.quot_div_nonneg by lia.
  pose proof (Z.div_mod (2147483647 - digit) 10 ltac:(lia)) as Hdm.
  pose proof (Z.mod_pos_bound (2147483647 - digit) 10 ltac:(lia)) as Hmb.
  destruct (num >? (2147483647 - digit) / 10) eqn:E1;
    destruct (10 * num + digit >? 2147483647) eqn:E2; try reflexivity; lia.
Qed.

Lemma number_round_ok num c text s :
  reading (String c text) s -> isdigit (code_of c) = true ->
  0 <= num -> 10 * num + (code_of c - 48) <= INT_MAX ->
  exists s', number_round num s = Ok (10 * num + (code_of c - 48)) s'
             /\ reading text s' /\ token s' = token s.
Proof.
  intros Hr Hc Hnum Hle. pose proof (isdigit_code c Hc) as Hdig.
  destruct (next_char_step text c s Hr) as (s' & Hn & Hr' & Ht).
  destruct Hr as [Hch Hsrc].
  unfold number_round, bind, gets. cbv zeta. rewrite Hch.
  rewrite quot_bound by lia.
  assert (Hgt : (10 * num + (code_of c - 48) >? INT_MAX) = false) by lia.
  assert (Hin : (10 * num + (code_of c - 48) <=? INT_MAX) = true) by lia.
  assert (Hlow : (- INT_MAX - 1 <=? 10 * num + (code_of c - 48)) = true)
    by (unfold INT_MAX; lia).
  rewrite Hgt, Hin, Hlow. simpl. rewrite Hn. unfold ret. eauto.
Qed.

Lemma number_round_big num c text s :
  reading (String c text) s -> isdigit (code_of c) = true ->
  0 <= num -> INT_MAX < 10 * num + (code_of c - 48) ->
  number_round num s = Fatal (position s) (Message "number too large").
Proof.
  intros [Hch Hsrc] Hc Hnum Hgt. pose proof (isdigit_code c Hc) as Hdig.
  unfold number_round, bind, gets. cbv zeta. rewrite Hch.
  rewrite quot_bound by lia.
  assert (Hb : (10 * num + (code_of c - 48) >? INT_MAX) = true) by lia.
  by rewrite Hb.
Qed.

Lemma reading_stops rest s :
  ends_numeral rest = true -> reading rest s -> isdigit (ch s) = false.
Proof.
  destruct rest as [|c rest]; simpl; intros He [-> _]; [reflexivity|].
  by apply negb_true_iff.
Qed.

Lemma string_length_app (a b : string) :
  String.length (a ++ b) = (String.length a + String.length b)%nat.
Proof. induction a as [|c a IH]; simpl; [done|]. by rewrite IH. Qed.

(** The loop of [process_number] on a run of digits. *)
Lemma number_loop_spec ds : forall c rest s num fuel,
  reading (String c (ds ++ rest)) s ->
  all_digits (String c ds) = true -> ends_numeral rest = true ->
  0 <= num <= INT_MAX -> (String.length ds + 2 <= fuel)%nat ->
  if decimal_from num (String c ds) <=? INT_MAX then
    exists s', while_ fuel (fun _ s => isdigit (ch s)) number_round num s
               = Ok (decimal_from num (String c ds)) s'
               /\ reading rest s' /\ token s' = token s
  else
    exists pos, while_ fuel (fun _ s => isdigit (ch s)) number_round num s
                = Fatal pos (Message "number too large").
Proof.
  induction ds as [|c1 ds IH]; intros c rest s num fuel Hr Hd He Hnum Hfuel.
  - (* the last digit *)
    simpl in Hd. apply andb_true_iff in Hd as [Hc _].
    destruct fuel as [|[|fuel]]; simpl in Hfuel; try lia.
    simpl decimal_from.
    assert (Hcond : isdigit (ch s) = true) by (destruct Hr as [-> _]; done).
    destruct (10 * num + (code_of c - 48) <=? INT_MAX) eqn:E.
    + destruct (number_round_ok num c _ s Hr Hc ltac:(lia) ltac:(lia))
        as (s' & Hn & Hr' & Ht).
      exists s'. rewrite while_unfold, Hcond, Hn.
      rewrite while_unfold, (reading_stops rest s' He Hr'). done.
    + exists (position s). rewrite while_unfold, Hcond.
      by rewrite (number_round_big num c _ s Hr Hc) by lia.
  - (* a digit followed by more digits *)
    simpl in Hd. apply andb_true_iff in Hd as [Hc Hds].
    pose proof (isdigit_code c Hc) as Hdig.
    destruct fuel as [|fuel]; simpl in Hfuel; try lia.
    change (decimal_from num (String c (String c1 ds)))
      with (decimal_from (10 * num + (code_of c - 48)) (String c1 ds)).
    assert (Hcond : isdigit (ch s) = true) by (destruct Hr as [-> _]; done).
    destruct (10 * num + (code_of c - 48) <=? INT_MAX) eqn:E.
    + destruct (number_round_ok num c _ s Hr Hc ltac:(lia) ltac:(lia))
        as (s1 & Hn & Hr1 & Ht1).
      specialize (IH c1 rest s1 (10 * num + (code_of c - 48)) fuel Hr1 Hds He
                    ltac:(lia) ltac:(lia)).
      rewrite while_unfold, Hcond, Hn.
      destruct (decimal_from _ _ <=? INT_MAX).
      * destruct IH as (s' & Hw & Hr' & Ht'). exists s'. rewrite Ht', Ht1. eauto.
      * exact IH.
    + assert (Hbig : INT_MAX < decimal_from (10 * num + (code_of c - 48)) (String c1 ds)).
      { pose proof (decimal_from_ge (10 * num + (code_of c - 48)) (String c1 ds) Hds).
        lia. }
      destruct (decimal_from _ _ <=? INT_MAX) eqn:E2; [lia|].
      exists (position s). rewrite while_unfold, Hcond.
      by rewrite (number_round_big num c _ s Hr Hc) by lia.
Qed.

(** C8.  On a numeral followed by the end of the file or by a character
    that is not a digit, [process_number] stores a number token whose
    value is the decimal value of the digits when that value is at most
    [INT_MAX], and stops with the fatal error "number too large" when it
    is greater; no other outcome occurs, so no addition or product
    leaves the range of [int]. *)
Theorem process_number_spec (c : ascii) (ds rest : string) (s : LexState) :
  reading (String c (ds ++ rest)) s ->
  all_digits (String c ds) = true -> ends_numeral rest = true ->
  (decimal_value (String c ds) <= INT_MAX ->
   exists s', process_number s = Ok tt s'
              /\ tok_type (token s') = TOK_NUM
              /\ tok_value (token s') = Some (decimal_value (String c ds))
              /\ reading rest s')
  /\ (INT_MAX < decimal_value (String c ds) ->
      exists pos, process_number s = Fatal pos (Message "number too large")).
Proof.
  intros Hr Hd He.
  set (s1 := lex_set_col (column_number s) s).
  assert (Hr1 : reading (String c (ds ++ rest)) s1) by exact Hr.
  assert (Hfuel : (String.length ds + 2 <= input_fuel s1)%nat).
  { unfold input_fuel. destruct Hr1 as [_ ->]. rewrite string_length_app. lia. }
  pose proof (number_loop_spec ds c rest s1 0 (input_fuel s1) Hr1 Hd He
                ltac:(unfold INT_MAX; lia) Hfuel) as Hloop.
  fold (decimal_value (String c ds)) in Hloop.
  assert (Hrun : process_number s =
    match while_ (input_fuel s1) (fun _ s => isdigit (ch s)) number_round 0 s1 with
    | Ok num s2 =>
        Ok tt (lex_set_token (tok_set_type TOK_NUM (tok_set_value num (token s2))) s2)
    | Fatal pos e => Fatal pos e
    | Undef w => Undef w
    | OutOfFuel => OutOfFuel
    end) by reflexivity.
  split; intros Hv.
  - destruct (decimal_value (String c ds) <=? INT_MAX) eqn:E; [|lia].
    destruct Hloop as (s2 & Hw & Hr2 & _). rewrite Hrun, Hw.
    eexists. split; [reflexivity|]. simpl. split; [done|]. split; [done|].
    destruct rest; exact Hr2.
  - destruct (decimal_value (String c ds) <=? INT_MAX) eqn:E; [lia|].
    destruct Hloop as (pos & Hw). rewrite Hrun, Hw. eauto.
Qed.

Lemma process_number_spec_witness :
  (exists s', process_number (mk_lex "147483647;" 50 1 50 (mk_pos 1 1)
                                (mk_token TOK_EOF NoPayload)) = Ok tt s'
              /\ tok_type (token s') = TOK_NUM
              /\ tok_value (token s') = Some 2147483647
              /\ reading ";" s')
  /\ (exists pos, process_number (mk_lex "147483648;" 50 1 50 (mk_pos 1 1)
                                   (mk_token TOK_EOF NoPayload))
                  = Fatal pos (Message "number too large")).
Proof.
  split.
  - apply (proj1 (process_number_spec "2" "147483647" ";"
                    (mk_lex "147483647;" 50 1 50 (mk_pos 1 1) (mk_token TOK_EOF NoPayload))
                    (conj eq_refl eq_refl) eq_refl eq_refl)).
    vm_compute. discriminate.
  - apply (proj2 (process_number_spec "2" "147483648" ";"
                    (mk_lex "147483648;" 50 1 50 (mk_pos 1 1) (mk_token TOK_EOF NoPayload))
                    (conj eq_refl eq_refl) eq_refl eq_refl)).
    reflexivity.
Defined.

(** *** The reserved-word search *)

Lemma ascii_compare_gt_trans a b c :
  Ascii.compare a b = Gt -> Ascii.compare b c = Gt -> Ascii.compare a c = Gt.
Proof.
  unfold Ascii.compare. rewrite !N.compare_gt_iff. lia.
Qed.

Lemma ascii_compare_eq a b : Ascii.compare a b = Eq -> a = b.
Proof.
  unfold Ascii.compare. intros H%N.compare_eq.
  rewrite <- (ascii_N_embedding a), <- (ascii_N_embedding b). by rewrite H.
Qed.

Lemma string_compare_gt_trans a : forall b c,
  String.compare a b = Gt -> String.compare b c = Gt -> String.compare a c = Gt.
Proof.
  induction a as [|x a IH]; intros [|y b] [|z c]; simpl; try done.
  destruct (Ascii.compare x y) eqn:Exy; try done.
  - apply ascii_compare_eq in Exy as ->.
    destruct (Ascii.compare y z); try done. apply IH.
  - intros _. destruct (Ascii.compare y z) eqn:Eyz; try done.
    + apply ascii_compare_eq in Eyz as ->. by rewrite Exy.
    + by rewrite (ascii_compare_gt_trans _ _ _ Exy Eyz).
Qed.

Lemma strcmp_gt a b : (strcmp a b >? 0) = true <-> String.compare a b = Gt.
Proof.
  unfold strcmp. destruct (String.compare a b); split; done.
Qed.

(** One round of the search when the lexeme sorts after [reserved[mid]]. *)
Lemma word_search_step_up lexeme low mid high w (s : LexState) :
  (low <=? high) = true ->
  reserved_at mid = Some w ->
  String.compare lexeme (fst w) = Gt ->
  word_search_step lexeme (low, mid, high) s
    = Ok (inl (mid + 1, Z.quot (mid + 1 + high) 2, high)) s.
Proof.
  intros Hle Hw Hgt. unfold word_search_step. rewrite Hle, Hw.
  apply strcmp_gt in Hgt. by rewrite Hgt.
Qed.

(** C5.  For a lexeme that sorts after the last reserved word the search
    visits indices 11, 17, 20 and 22 and then reads [reserved[23]], one
    past the end of the 23-entry array. *)
Theorem word_search_past_write (lexeme : string) (s : LexState) :
  strcmp lexeme "write" > 0 ->
  word_search lexeme s = Undef "reserved[mid] read outside the array".
Proof.
  intros Hgt.
  assert (Hw : String.compare lexeme "write" = Gt).
  { apply strcmp_gt. by apply Z.gtb_lt, Z.gt_lt. }
  assert (Hup : forall w, String.compare "write" w = Gt ->
                          String.compare lexeme w = Gt).
  { intros w. by apply string_compare_gt_trans. }
  unfold word_search.
  change (Z.to_nat (NUM_RESERVED_WORDS - 0 + 2)) with 25%nat.
  change (Z.quot (0 + NUM_RESERVED_WORDS) 2) with 11.
  change NUM_RESERVED_WORDS with 23.
  do 4 (cbn [loop]; unfold bind at 1;
        erewrite word_search_step_up;
        [ | reflexivity | reflexivity | first [exact Hw | by apply Hup] ];
        cbn [fst snd Z.add Z.quot Z.quotrem]).
  reflexivity.
Qed.

Lemma word_search_past_write_witness :
  strcmp "x" "write" > 0
  /\ word_search "x" (mk_lex "" EOF 0 0 (mk_pos 1 1) (mk_token TOK_EOF NoPayload))
     = Undef "reserved[mid] read outside the array".
Proof.
  split; [reflexivity|].
  apply word_search_past_write. reflexivity.
Defined.

(** ** Fuel: more fuel never changes a result *)

Lemma le_m_refl {S A} (m : M S A) : le_m m m.
Proof. intros s. by right. Qed.

Lemma le_m_trans {S A} (m1 m2 m3 : M S A) : le_m m1 m2 -> le_m m2 m3 -> le_m m1 m3.
Proof.
  intros H1 H2 s. destruct (H1 s) as [E|E]; [by left|]. rewrite E. apply H2.
Qed.

Lemma le_m_bottom {S A} (m : M S A) : le_m (fun _ => OutOfFuel) m.
Proof. intros s. by left. Qed.

Lemma le_bind {S A B} (m m' : M S A) (f f' : A -> M S B) :
  le_m m m' -> (forall a, le_m (f a) (f' a)) -> le_m (bind m f) (bind m' f').
Proof.
  intros Hm Hf s. unfold bind. destruct (Hm s) as [-> | ->]; [by left|].
  destruct (m' s); try by right. apply Hf.
Qed.

Lemma le_loop {S A B} (body body' : A -> M S (A + B)) n n' :
  (forall a, le_m (body a) (body' a)) -> (n <= n')%nat ->
  forall a, le_m (loop n body a) (loop n' body' a).
Proof.
  intros Hb. revert n'. induction n as [|n IH]; intros n' Hn a.
  - apply le_m_bottom.
  - destruct n' as [|n']; [lia|]. simpl. apply le_bind; [apply Hb|].
    intros [a'|b]; [apply IH; lia|apply le_m_refl].
Qed.

Lemma le_while {S A} (cond : A -> S -> bool) (body body' : A -> M S A) n n' :
  (forall a, le_m (body a) (body' a)) -> (n <= n')%nat ->
  forall a, le_m (while_ n cond body a) (while_ n' cond body' a).
Proof.
  intros Hb Hn a. unfold while_. apply le_loop; [|done].
  intros a0. apply le_bind; [apply le_m_refl|]. intros [|]; [|apply le_m_refl].
  apply le_bind; [apply Hb|]. intros a'. apply le_m_refl.
Qed.

Lemma le_m_ok {S A} (m m' : M S A) s a s' :
  le_m m m' -> m s = Ok a s' -> m' s = Ok a s'.
Proof. intros H Hm. destruct (H s) as [E|E]; congruence. Qed.

(** Step through a computation whose two sides differ only in the
    recursive calls. *)
Ltac mono :=
  repeat first
    [ assumption
    | apply le_m_refl
    | apply le_bind; [|intros ?]
    | apply le_while; [intros ?|lia]
    | match goal with
      | |- le_m (if ?c then _ else _) (if ?c then _ else _) => destruct c
      | |- le_m (match ?x with _ => _ end) (match ?x with _ => _ end) => destruct x
      | H : forall a, le_m (?f a) (?g a) |- le_m (?f _) (?g _) => apply H
      | H : forall a b, le_m (?f a b) (?g a b) |- le_m (?f _ _) (?g _ _) => apply H
      end ].

Section ExpressionFuel.

Context (MAX_ID_LENGTH : Z).
Context (pf pf' pt pt' ps ps' pe pe' : M State ValType).
Context (pi pi' : string -> M State unit).
Context (pa pa' : string -> SourcePos -> M State unit).
Context (n n' : nat).
Context (Hpf : le_m pf pf') (Hpt : le_m pt pt') (Hps : le_m ps ps') (Hpe : le_m pe pe').
Context (Hpi : forall id, le_m (pi id) (pi' id)).
Context (Hpa : forall id pos, le_m (pa id pos) (pa' id pos)).
Context (Hn : (n <= n')%nat).

Lemma parse_index_body_mono id :
  le_m (parse_index_body MAX_ID_LENGTH ps id) (parse_index_body MAX_ID_LENGTH ps' id).
Proof. unfold parse_index_body. mono. Qed.

Lemma parse_arglist_body_mono id pos :
  le_m (parse_arglist_body MAX_ID_LENGTH pe n id pos)
       (parse_arglist_body MAX_ID_LENGTH pe' n' id pos).
Proof. unfold parse_arglist_body. mono. Qed.

Lemma parse_expr_body_mono :
  le_m (parse_expr_body MAX_ID_LENGTH ps) (parse_expr_body MAX_ID_LENGTH ps').
Proof. unfold parse_expr_body. mono. Qed.

Lemma addop_round_mono t0 :
  le_m (addop_round MAX_ID_LENGTH pt t0) (addop_round MAX_ID_LENGTH pt' t0).
Proof. unfold addop_round. mono. Qed.

Lemma parse_simple_body_mono :
  le_m (parse_simple_body MAX_ID_LENGTH pt n) (parse_simple_body MAX_ID_LENGTH pt' n').
Proof. unfold parse_simple_body. pose proof addop_round_mono. mono. Qed.

Lemma mulop_round_mono t0 :
  le_m (mulop_round MAX_ID_LENGTH pf t0) (mulop_round MAX_ID_LENGTH pf' t0).
Proof. unfold mulop_round. mono. Qed.

Lemma parse_term_body_mono :
  le_m (parse_term_body MAX_ID_LENGTH pf n) (parse_term_body MAX_ID_LENGTH pf' n').
Proof. unfold parse_term_body. pose proof mulop_round_mono. mono. Qed.

Lemma parse_factor_body_mono :
  le_m (parse_factor_body MAX_ID_LENGTH pf pe pi pa)
       (parse_factor_body MAX_ID_LENGTH pf' pe' pi' pa').
Proof. unfold parse_factor_body. mono. Qed.

End ExpressionFuel.

Section Fuel.

Context (MAX_ID_LENGTH : Z).

Local Abbreviation parse_factor := (parse_factor MAX_ID_LENGTH).
Local Abbreviation parse_term := (parse_term MAX_ID_LENGTH).
Local Abbreviation parse_simple := (parse_simple MAX_ID_LENGTH).
Local Abbreviation parse_expr := (parse_expr MAX_ID_LENGTH).
Local Abbreviation parse_index := (parse_index MAX_ID_LENGTH).
Local Abbreviation parse_arglist := (parse_arglist MAX_ID_LENGTH).

Lemma expressions_step n :
  le_m (parse_factor n) (parse_factor (S n))
  /\ le_m (parse_term n) (parse_term (S n))
  /\ le_m (parse_simple n) (parse_simple (S n))
  /\ le_m (parse_expr n) (parse_expr (S n))
  /\ (forall id, le_m (parse_index n id) (parse_index (S n) id))
  /\ (forall id pos, le_m (parse_arglist n id pos) (parse_arglist (S n) id pos)).
Proof.
  induction n as [|n (IHf & IHt & IHs & IHe & IHi & IHa)].
  - split_and!; intros; apply le_m_bottom.
  - split_and!; intros; intros s.
    + apply (parse_factor_body_mono MAX_ID_LENGTH _ _ _ _ _ _ _ _ IHf IHe IHi IHa).
    + apply (parse_term_body_mono MAX_ID_LENGTH _ _ n (S n) IHf); lia.
    + apply (parse_simple_body_mono MAX_ID_LENGTH _ _ n (S n) IHt); lia.
    + apply (parse_expr_body_mono MAX_ID_LENGTH _ _ IHs).
    + apply (parse_index_body_mono MAX_ID_LENGTH _ _ IHs).
    + apply (parse_arglist_body_mono MAX_ID_LENGTH _ _ n (S n) IHe); lia.
Qed.

Lemma expressions_mono n m :
  (n <= m)%nat ->
  le_m (parse_factor n) (parse_factor m)
  /\ le_m (parse_term n) (parse_term m)
  /\ le_m (parse_simple n) (parse_simple m)
  /\ le_m (parse_expr n) (parse_expr m)
  /\ (forall id, le_m (parse_index n id) (parse_index m id))
  /\ (forall id pos, le_m (parse_arglist n id pos) (parse_arglist m id pos)).
Proof.
  induction 1 as [|m Hle (IHf & IHt & IHs & IHe & IHi & IHa)].
  - split_and!; intros; apply le_m_refl.
  - destruct (expressions_step m) as (Sf & St & Ss & Se & Si & Sa).
    split_and!; intros; eapply le_m_trans; eauto.
Qed.

(** A factor, term, simple expression or expression that is parsed with
    some fuel is parsed the same way with more. *)
Lemma parse_factor_fuel n m s t s' :
  (n <= m)%nat -> parse_factor n s = Ok t s' -> parse_factor m s = Ok t s'.
Proof. intros Hle. apply le_m_ok. by apply expressions_mono. Qed.

Lemma parse_term_fuel n m s t s' :
  (n <= m)%nat -> parse_term n s = Ok t s' -> parse_term m s = Ok t s'.
Proof. intros Hle. apply le_m_ok. by apply expressions_mono. Qed.

Lemma parse_simple_fuel n m s t s' :
  (n <= m)%nat -> parse_simple n s = Ok t s' -> parse_simple m s = Ok t s'.
Proof. intros Hle. apply le_m_ok. by apply expressions_mono. Qed.

Lemma parse_expr_fuel n m s t s' :
  (n <= m)%nat -> parse_expr n s = Ok t s' -> parse_expr m s = Ok t s'.
Proof. intros Hle. apply le_m_ok. by apply expressions_mono. Qed.

End Fuel.

(** ** Frame properties of the parser *)

Lemma frame_refl s : frame s s.
Proof. unfold frame. split_and!; try done. exists []. by rewrite app_nil_r. Qed.

Lemma frame_trans s1 s2 s3 : frame s1 s2 -> frame s2 s3 -> frame s1 s3.
Proof.
  intros (R1 & T1 & [c1 C1] & S1 & O1) (R2 & T2 & [c2 C2] & S2 & O2).
  unfold frame. split_and!; try congruence.
  exists (c1 ++ c2). by rewrite C2, C1, app_assoc.
Qed.

Create HintDb frame.

Ltac frame_same :=
  unfold frame; simpl; split_and!; try done; exists []; by rewrite app_nil_r.

Lemma preserves_ret {A} (a : A) : preserves (ret a).
Proof. intros s a' s' [= _ <-]. apply frame_refl. Qed.

Lemma preserves_bind {A B} (m : M State A) (f : A -> M State B) :
  preserves m -> (forall a, preserves (f a)) -> preserves (bind m f).
Proof.
  intros Hm Hf s b s' H. unfold bind in H. destruct (m s) as [a s1| | |] eqn:E; try done.
  eapply frame_trans; [by eapply Hm|by eapply Hf].
Qed.

Lemma preserves_loop {A B} n (body : A -> M State (A + B)) :
  (forall a, preserves (body a)) -> forall a, preserves (loop n body a).
Proof.
  intros Hb. induction n as [|n IH]; intros a; [by intros s b s' H|].
  simpl. apply preserves_bind; [apply Hb|].
  intros [a'|b]; [apply IH|apply preserves_ret].
Qed.

Lemma preserves_gets {A} (f : State -> A) : preserves (gets f).
Proof. intros s a s' [= _ <-]. apply frame_refl. Qed.

Lemma preserves_while {A} n (cond : A -> State -> bool) (body : A -> M State A) :
  (forall a, preserves (body a)) -> forall a, preserves (while_ n cond body a).
Proof.
  intros Hb a. unfold while_. apply preserves_loop. intros a0.
  apply preserves_bind; [apply preserves_gets|]. intros [|]; [|apply preserves_ret].
  apply preserves_bind; [apply Hb|]. intros a'. apply preserves_ret.
Qed.

Lemma preserves_undef {A} w : preserves (@undef State A w).
Proof. by intros s a s' H. Qed.

Lemma preserves_deref {A} w (p : option A) : preserves (deref w p).
Proof. destruct p; [apply preserves_ret|apply preserves_undef]. Qed.

Lemma preserves_token_value : preserves token_value.
Proof.
  unfold token_value. apply preserves_bind; [apply preserves_gets|].
  intros v. apply preserves_deref.
Qed.

Lemma preserves_token_lexeme : preserves token_lexeme.
Proof.
  unfold token_lexeme. apply preserves_bind; [apply preserves_gets|].
  intros v. apply preserves_deref.
Qed.

Lemma preserves_token_string : preserves token_string.
Proof.
  unfold token_string. apply preserves_bind; [apply preserves_gets|].
  intros v. apply preserves_deref.
Qed.

Lemma preserves_lift_lex {A} (m : M LexState A) : preserves (lift_lex m).
Proof.
  intros s a s' H. unfold lift_lex in H. destruct (m (lex s)); try done.
  inversion H; subst. frame_same.
Qed.

Lemma preserves_set_position p : preserves (set_position p).
Proof. intros s a s' [= _ <-]. frame_same. Qed.

Lemma preserves_find_name id : preserves (find_name_ id).
Proof.
  intros s a s' H. unfold find_name_, lift_sym in H.
  destruct (find_name id (symtab s)) as [r|]; simpl in H; [|done].
  inversion H; subst. frame_same.
Qed.

Lemma preserves_abort_c {A} err args : preserves (@abort_c A err args).
Proof. intros s a s' H. unfold abort_c in H. by destruct (abort_message _ _ _). Qed.

Lemma preserves_abort_at {A} pos err args : preserves (@abort_at A pos err args).
Proof.
  unfold abort_at. apply preserves_bind; [apply preserves_set_position|].
  intros _. apply preserves_abort_c.
Qed.

Lemma preserves_check_types f e pos ctx : preserves (check_types f e pos ctx).
Proof.
  unfold check_types. destruct (negb (f =? e)); [by intros s a s' H|apply preserves_ret].
Qed.

Lemma preserves_lift_cg f : appends f -> preserves (lift_cg f).
Proof.
  intros Hf s a s' [= _ <-]. destruct (Hf (cg s)) as (Hc & Hs & Ho).
  unfold frame. simpl. by split_and!.
Qed.

Lemma appends_emit i : appends (cg_emit i).
Proof. intros g. simpl. split_and!; try done. by exists [i]. Qed.

Lemma appends_gen_cmp c : appends (gen_cmp c).
Proof.
  intros g. unfold gen_cmp. simpl. split_and!; try done.
  eexists. rewrite <- !app_assoc. reflexivity.
Qed.

Lemma appends_gen_print_string str : appends (gen_print_string str).
Proof. intros g. unfold gen_print_string. simpl. split_and!; try done. by eexists. Qed.

Lemma preserves_new_label : preserves new_label.
Proof.
  intros s a s' H. unfold new_label in H. simpl in H. inversion H; subst.
  unfold frame. simpl. split_and!; try done. exists []. by rewrite app_nil_r.
Qed.

Section ParserFrame.

Context (MAX_ID_LENGTH : Z).

Local Abbreviation next_token := (next_token MAX_ID_LENGTH).
Local Abbreviation expect := (expect MAX_ID_LENGTH).
Local Abbreviation expect_id := (expect_id MAX_ID_LENGTH).
Local Abbreviation parse_factor_body := (parse_factor_body MAX_ID_LENGTH).
Local Abbreviation parse_term_body := (parse_term_body MAX_ID_LENGTH).
Local Abbreviation parse_simple_body := (parse_simple_body MAX_ID_LENGTH).
Local Abbreviation parse_expr_body := (parse_expr_body MAX_ID_LENGTH).
Local Abbreviation parse_index_body := (parse_index_body MAX_ID_LENGTH).
Local Abbreviation parse_arglist_body := (parse_arglist_body MAX_ID_LENGTH).
Local Abbreviation addop_round := (addop_round MAX_ID_LENGTH).
Local Abbreviation mulop_round := (mulop_round MAX_ID_LENGTH).
Local Abbreviation parse_factor := (parse_factor MAX_ID_LENGTH).
Local Abbreviation parse_term := (parse_term MAX_ID_LENGTH).
Local Abbreviation parse_simple := (parse_simple MAX_ID_LENGTH).
Local Abbreviation parse_expr := (parse_expr MAX_ID_LENGTH).
Local Abbreviation parse_index := (parse_index MAX_ID_LENGTH).
Local Abbreviation parse_arglist := (parse_arglist MAX_ID_LENGTH).

Lemma preserves_expect t : preserves (expect t).
Proof.
  unfold expect. apply preserves_bind; [apply preserves_gets|]. intros t0.
  destruct (tok_eqb t0 t); [apply preserves_lift_lex|apply preserves_abort_c].
Qed.

Lemma preserves_expect_id : preserves expect_id.
Proof.
  unfold expect_id. apply preserves_bind; [apply preserves_gets|]. intros t0.
  destruct (tok_eqb t0 TOK_ID); [|apply preserves_abort_c].
  apply preserves_bind; [apply preserves_token_lexeme|]. intros id.
  apply preserves_bind; [apply preserves_lift_lex|]. intros _. apply preserves_ret.
Qed.

Lemma preserves_fuel {A} : preserves (fun _ : State => @OutOfFuel State A).
Proof. by intros s a s' H. Qed.

Lemma preserves_fatal {A} pos e : preserves (fun _ : State => @Fatal State A pos e).
Proof. by intros s a s' H. Qed.

Hint Resolve preserves_ret preserves_gets preserves_undef preserves_deref
  preserves_token_value preserves_token_lexeme preserves_token_string
  preserves_lift_lex preserves_set_position preserves_find_name preserves_abort_c
  preserves_abort_at preserves_check_types preserves_new_label preserves_expect
  preserves_expect_id preserves_fuel preserves_fatal appends_emit appends_gen_cmp
  appends_gen_print_string : frame.

(** Step through a computation built from frame-preserving parts. *)
Ltac framing :=
  repeat first
    [ assumption
    | solve [unfold tok, get_position, next_token, emit1, emit2, emit_branch,
               emit_label, param_at, gen_1, gen_2, gen_2_label, gen_label,
               gen_newarray, gen_call, gen_print, gen_read;
             eauto using preserves_lift_cg with frame nocore]
    | apply preserves_bind; [|intros ?]
    | apply preserves_while; intros ?
    | match goal with
      | |- preserves (if ?c then _ else _) => destruct c
      | |- preserves (match ?x with _ => _ end) => destruct x
      | H : forall a, preserves (?f a) |- preserves (?f _) => apply H
      | H : forall a b, preserves (?f a b) |- preserves (?f _ _) => apply H
      end ].

Section ExpressionFrame.

Context (pf pt ps pe : M State ValType).
Context (pi : string -> M State unit).
Context (pa : string -> SourcePos -> M State unit).
Context (n : nat).
Context (Hpf : preserves pf) (Hpt : preserves pt) (Hps : preserves ps) (Hpe : preserves pe).
Context (Hpi : forall id, preserves (pi id)).
Context (Hpa : forall id pos, preserves (pa id pos)).

Lemma parse_index_body_frame id : preserves (parse_index_body ps id).
Proof. unfold parse_index_body. framing. Qed.

Lemma parse_arglist_body_frame id pos :
  preserves (parse_arglist_body pe n id pos).
Proof. unfold parse_arglist_body. framing. Qed.

Lemma parse_expr_body_frame : preserves (parse_expr_body ps).
Proof. unfold parse_expr_body. framing. Qed.

Lemma addop_round_frame t0 : preserves (addop_round pt t0).
Proof. unfold addop_round. framing. Qed.

Lemma parse_simple_body_frame : preserves (parse_simple_body pt n).
Proof. unfold parse_simple_body. pose proof addop_round_frame. framing. Qed.

Lemma mulop_round_frame t0 : preserves (mulop_round pf t0).
Proof. unfold mulop_round. framing. Qed.

Lemma parse_term_body_frame : preserves (parse_term_body pf n).
Proof. unfold parse_term_body. pose proof mulop_round_frame. framing. Qed.

Lemma parse_factor_body_frame :
  preserves (parse_factor_body pf pe pi pa).
Proof. unfold parse_factor_body. framing. Qed.

End ExpressionFrame.

(** Parsing an expression leaves the return type and the symbol table
    alone and only appends instructions. *)
Lemma expressions_frame n :
  preserves (parse_factor n)
  /\ preserves (parse_term n)
  /\ preserves (parse_simple n)
  /\ preserves (parse_expr n)
  /\ (forall id, preserves (parse_index n id))
  /\ (forall id pos, preserves (parse_arglist n id pos)).
Proof.
  induction n as [|n (IHf & IHt & IHs & IHe & IHi & IHa)].
  - split_and!; intros; apply preserves_fuel.
  - split_and!; intros; intros s.
    + by apply parse_factor_body_frame.
    + by apply parse_term_body_frame.
    + by apply parse_simple_body_frame.
    + by apply parse_expr_body_frame.
    + by apply parse_index_body_frame.
    + by apply parse_arglist_body_frame.
Qed.

Lemma parse_factor_frame n : preserves (parse_factor n).
Proof. apply expressions_frame. Qed.
Lemma parse_term_frame n : preserves (parse_term n).
Proof. apply expressions_frame. Qed.
Lemma parse_simple_frame n : preserves (parse_simple n).
Proof. apply expressions_frame. Qed.
Lemma parse_expr_frame n : preserves (parse_expr n).
Proof. apply expressions_frame. Qed.
Lemma parse_index_frame n id : preserves (parse_index n id).
Proof. apply expressions_frame. Qed.
Lemma parse_arglist_frame n id pos : preserves (parse_arglist n id pos).
Proof. apply expressions_frame. Qed.

Hint Resolve parse_factor_frame parse_term_frame parse_simple_frame parse_expr_frame
  parse_index_frame parse_arglist_frame : frame.

Local Abbreviation parse_exit := (parse_exit MAX_ID_LENGTH).
Local Abbreviation parse_name := (parse_name MAX_ID_LENGTH).
Local Abbreviation parse_read := (parse_read MAX_ID_LENGTH).
Local Abbreviation write_item := (write_item MAX_ID_LENGTH).
Local Abbreviation parse_write := (parse_write MAX_ID_LENGTH).
Local Abbreviation parse_statements_body := (parse_statements_body MAX_ID_LENGTH).
Local Abbreviation parse_statement_body := (parse_statement_body MAX_ID_LENGTH).
Local Abbreviation parse_if_body := (parse_if_body MAX_ID_LENGTH).
Local Abbreviation parse_while_body := (parse_while_body MAX_ID_LENGTH).
Local Abbreviation parse_statements := (parse_statements MAX_ID_LENGTH).
Local Abbreviation parse_statement := (parse_statement MAX_ID_LENGTH).
Local Abbreviation parse_if := (parse_if MAX_ID_LENGTH).
Local Abbreviation parse_while := (parse_while MAX_ID_LENGTH).

Lemma parse_exit_frame n : preserves (parse_exit n).
Proof. unfold parse_exit. framing. Qed.

Lemma parse_name_frame n : preserves (parse_name n).
Proof. unfold parse_name. framing. Qed.

Lemma parse_read_frame n : preserves (parse_read n).
Proof. unfold parse_read. framing. Qed.

Lemma write_item_frame n pos what : preserves (write_item n pos what).
Proof. unfold write_item. framing. Qed.

Lemma parse_write_frame n : preserves (parse_write n).
Proof. unfold parse_write. pose proof write_item_frame. framing. Qed.

Hint Resolve parse_exit_frame parse_name_frame parse_read_frame parse_write_frame : frame.

Section StatementFrame.

Context (pst psts pif pwh : M State unit).
Context (n : nat).
Context (Hpst : preserves pst) (Hpsts : preserves psts).
Context (Hpif : preserves pif) (Hpwh : preserves pwh).

Lemma parse_statements_body_frame : preserves (parse_statements_body pst n).
Proof. unfold parse_statements_body. framing. Qed.

Lemma parse_statement_body_frame : preserves (parse_statement_body pif pwh n).
Proof. unfold parse_statement_body. framing. Qed.

Lemma parse_if_body_frame : preserves (parse_if_body psts n).
Proof. unfold parse_if_body. framing. Qed.

Lemma parse_while_body_frame : preserves (parse_while_body psts n).
Proof. unfold parse_while_body. framing. Qed.

End StatementFrame.

(** Parsing statements leaves the return type and the symbol table
    alone and only appends instructions. *)
Lemma statements_frame n :
  preserves (parse_statements n)
  /\ preserves (parse_statement n)
  /\ preserves (parse_if n)
  /\ preserves (parse_while n).
Proof.
  induction n as [|n (IHs & IHst & IHi & IHw)].
  - split_and!; intros; apply preserves_fuel.
  - split_and!; intros s.
    + by apply parse_statements_body_frame.
    + by apply parse_statement_body_frame.
    + by apply parse_if_body_frame.
    + by apply parse_while_body_frame.
Qed.

(** ** Conjunction and disjunction *)

Lemma bind_ok {S A B} (m : M S A) (f : A -> M S B) s a s1 :
  m s = Ok a s1 -> bind m f s = f a s1.
Proof. intros H. unfold bind. by rewrite H. Qed.

Lemma mulop_round_and pf s1 s1' s2 :
  tok_type (token (lex s1)) = TOK_AND ->
  next_token s1 = Ok tt s1' ->
  pf s1' = Ok TYPE_BOOLEAN s2 ->
  mulop_round pf TYPE_BOOLEAN s1 = Ok tt (set_cg (gen_1 JVM_IAND (cg s2)) s2).
Proof.
  intros Htok Hnext Hpf. unfold mulop_round.
  rewrite (bind_ok tok _ s1 TOK_AND s1) by (unfold tok, gets; by rewrite Htok).
  rewrite (bind_ok get_position _ s1 (position (lex s1)) s1) by reflexivity.
  rewrite (bind_ok _ _ s1 tt s1' Hnext).
  rewrite (bind_ok _ _ s1' TYPE_BOOLEAN s2 Hpf).
  reflexivity.
Qed.

Lemma addop_round_or pt s1 s1' s2 :
  tok_type (token (lex s1)) = TOK_OR ->
  next_token s1 = Ok tt s1' ->
  pt s1' = Ok TYPE_BOOLEAN s2 ->
  addop_round pt TYPE_BOOLEAN s1 = Ok tt (set_cg (gen_1 JVM_IOR (cg s2)) s2).
Proof.
  intros Htok Hnext Hpt. unfold addop_round.
  rewrite (bind_ok tok _ s1 TOK_OR s1) by (unfold tok, gets; by rewrite Htok).
  rewrite (bind_ok get_position _ s1 (position (lex s1)) s1) by reflexivity.
  rewrite (bind_ok _ _ s1 tt s1' Hnext).
  rewrite (bind_ok _ _ s1' TYPE_BOOLEAN s2 Hpt).
  reflexivity.
Qed.

Lemma parse_factor_pos n s t s' : parse_factor n s = Ok t s' -> (1 <= n)%nat.
Proof. destruct n; [done|lia]. Qed.

Lemma parse_term_pos n s t s' : parse_term n s = Ok t s' -> (1 <= n)%nat.
Proof. destruct n; [done|lia]. Qed.

(** A factor starts with one of the six tokens of [STARTS_FACTOR]. *)
Lemma parse_factor_starts n s t s' :
  parse_factor n s = Ok t s' -> STARTS_FACTOR (tok_type (token (lex s))) = true.
Proof.
  destruct n as [|n]; [done|].
  change (parse_factor (S n) s)
    with (parse_factor_body (parse_factor n) (parse_expr n) (parse_index n)
            (parse_arglist n) s).
  unfold parse_factor_body, bind, tok, gets. cbv beta.
  destruct (tok_type (token (lex s))) eqn:E; try reflexivity;
    unfold abort_c; cbv beta; rewrite E; simpl; done.
Qed.

(** A term never starts with a minus sign. *)
Lemma parse_term_not_minus n s t s' :
  parse_term n s = Ok t s' -> tok_eqb (tok_type (token (lex s))) TOK_MINUS = false.
Proof.
  destruct n as [|n]; [done|].
  change (parse_term (S n) s) with (parse_term_body (parse_factor n) n s).
  unfold parse_term_body, bind at 1.
  destruct (parse_factor n s) as [t0 s0| | |] eqn:E; try done.
  intros _. apply parse_factor_starts in E.
  by destruct (tok_type (token (lex s))).
Qed.

Lemma emitted_frame s s' : frame s s' -> exists c, emitted s s' c.
Proof. intros (_ & _ & Hc & _). exact Hc. Qed.

Lemma next_token_cg s s' : next_token s = Ok tt s' -> cg s' = cg s.
Proof.
  unfold next_token, lift_lex. destruct (get_token _ _); try done.
  intros H. inversion H; subst. reflexivity.
Qed.

Lemma while_stop {S A} n (cond : A -> S -> bool) (body : A -> M S A) a s :
  cond a s = false -> while_ (Datatypes.S n) cond body a s = Ok a s.
Proof. intros H. by rewrite while_unfold, H. Qed.

(** The loop of [parse_term] along a row of [and] operands. *)
Lemma mulop_loop_run pf pf' s cs s' :
  (forall s1 s2, pf s1 = Ok TYPE_BOOLEAN s2 -> pf' s1 = Ok TYPE_BOOLEAN s2) ->
  operand_run MAX_ID_LENGTH pf TOK_AND JVM_IAND s cs s' ->
  IS_MULOP (tok_type (token (lex s'))) = false ->
  forall k, (length cs < k)%nat ->
    while_ k (fun _ s => IS_MULOP (tok_type (token (lex s))))
      (fun _ => mulop_round pf' TYPE_BOOLEAN) tt s = Ok tt s'
    /\ code (cg s') = code (cg s) ++ run_code JVM_IAND cs.
Proof.
  intros Hpf Hrun Hstop. induction Hrun as [s|s s1 s2 c cs s' Htok Hnext Hop Hc Hrun IH];
    intros k Hk.
  - destruct k as [|k]; [simpl in Hk; lia|].
    split; [by apply while_stop|]. unfold run_code. simpl. by rewrite app_nil_r.
  - destruct k as [|k]; [simpl in Hk; lia|]. simpl in Hk.
    destruct (IH Hstop k ltac:(lia)) as [Hw Hcode]. split.
    + rewrite while_unfold, Htok. change (IS_MULOP TOK_AND) with true. cbv iota.
      rewrite (mulop_round_and pf' s s1 s2 Htok Hnext (Hpf _ _ Hop)). exact Hw.
    + rewrite Hcode. simpl. unfold emitted in Hc. rewrite Hc, (next_token_cg _ _ Hnext).
      unfold run_code. simpl. by rewrite <- !app_assoc.
Qed.

(** The loop of [parse_simple] along a row of [or] operands. *)
Lemma addop_loop_run pt pt' s cs s' :
  (forall s1 s2, pt s1 = Ok TYPE_BOOLEAN s2 -> pt' s1 = Ok TYPE_BOOLEAN s2) ->
  operand_run MAX_ID_LENGTH pt TOK_OR JVM_IOR s cs s' ->
  IS_ADDOP (tok_type (token (lex s'))) = false ->
  forall k, (length cs < k)%nat ->
    while_ k (fun _ s => IS_ADDOP (tok_type (token (lex s))))
      (fun _ => addop_round pt' TYPE_BOOLEAN) tt s = Ok tt s'
    /\ code (cg s') = code (cg s) ++ run_code JVM_IOR cs.
Proof.
  intros Hpt Hrun Hstop. induction Hrun as [s|s s1 s2 c cs s' Htok Hnext Hop Hc Hrun IH];
    intros k Hk.
  - destruct k as [|k]; [simpl in Hk; lia|].
    split; [by apply while_stop|]. unfold run_code. simpl. by rewrite app_nil_r.
  - destruct k as [|k]; [simpl in Hk; lia|]. simpl in Hk.
    destruct (IH Hstop k ltac:(lia)) as [Hw Hcode]. split.
    + rewrite while_unfold, Htok. change (IS_ADDOP TOK_OR) with true. cbv iota.
      rewrite (addop_round_or pt' s s1 s2 Htok Hnext (Hpt _ _ Hop)). exact Hw.
    + rewrite Hcode. simpl. unfold emitted in Hc. rewrite Hc, (next_token_cg _ _ Hnext).
      unfold run_code. simpl. by rewrite <- !app_assoc.
Qed.

(** C9.  A conjunction of boolean operands, however many, is lowered to
    the code of the first operand and then, for each further operand in
    turn, the code of that operand followed by one [IAND]; a disjunction
    likewise with [IOR].  In [e1 and e2] the code of [e1] (itself such a
    row when [e1] is a conjunction) is followed by the code of [e2] and
    one [IAND]: nothing is emitted between the two operands and no
    branch is among the instructions that join them, so both are always
    evaluated.  The result holds for all sufficient fuel. *)
Theorem and_or_no_short_circuit :
  (forall n s0 s1 c1 cs s',
     parse_factor n s0 = Ok TYPE_BOOLEAN s1 ->
     emitted s0 s1 c1 ->
     operand_run MAX_ID_LENGTH (parse_factor n) TOK_AND JVM_IAND s1 cs s' ->
     IS_MULOP (tok_type (token (lex s'))) = false ->
     forall m, (n + length cs + 2 <= m)%nat ->
       parse_term m s0 = Ok TYPE_BOOLEAN s'
       /\ code (cg s') = code (cg s0) ++ c1 ++ run_code JVM_IAND cs)
  /\ (forall n s0 s1 c1 cs s',
        parse_term n s0 = Ok TYPE_BOOLEAN s1 ->
        emitted s0 s1 c1 ->
        operand_run MAX_ID_LENGTH (parse_term n) TOK_OR JVM_IOR s1 cs s' ->
        IS_ADDOP (tok_type (token (lex s'))) = false ->
        forall m, (n + length cs + 2 <= m)%nat ->
          parse_simple m s0 = Ok TYPE_BOOLEAN s'
          /\ code (cg s') = code (cg s0) ++ c1 ++ run_code JVM_IOR cs)
  /\ (forall i c1 c2 cs,
        c1 ++ run_code i (cs ++ [c2]) = (c1 ++ run_code i cs) ++ c2 ++ [Op1 i]).
Proof.
  split; [|split].
  - intros n s0 s1 c1 cs s' H1 Hc1 Hrun Hstop m Hm.
    destruct m as [|m]; [lia|].
    destruct (mulop_loop_run (parse_factor n) (parse_factor m) s1 cs s'
                ltac:(intros; apply (parse_factor_fuel MAX_ID_LENGTH n); [lia|done])
                Hrun Hstop m ltac:(lia)) as [Hw Hcode].
    split.
    + change (parse_term (S m) s0) with (parse_term_body (parse_factor m) m s0).
      unfold parse_term_body.
      rewrite (bind_ok _ _ s0 TYPE_BOOLEAN s1)
        by (apply (parse_factor_fuel MAX_ID_LENGTH n); [lia|done]).
      rewrite (bind_ok tok _ s1 (tok_type (token (lex s1))) s1) by reflexivity.
      change (IS_ARRAY TYPE_BOOLEAN) with false. rewrite andb_false_r.
      rewrite (bind_ok (ret tt) _ s1 tt s1) by reflexivity.
      rewrite (bind_ok _ _ s1 tt s' Hw). reflexivity.
    + rewrite Hcode. unfold emitted in Hc1. rewrite Hc1. by rewrite <- app_assoc.
  - intros n s0 s1 c1 cs s' H1 Hc1 Hrun Hstop m Hm.
    destruct m as [|m]; [lia|].
    destruct (addop_loop_run (parse_term n) (parse_term m) s1 cs s'
                ltac:(intros; apply (parse_term_fuel MAX_ID_LENGTH n); [lia|done])
                Hrun Hstop m ltac:(lia)) as [Hw Hcode].
    split.
    + change (parse_simple (S m) s0) with (parse_simple_body (parse_term m) m s0).
      unfold parse_simple_body.
      rewrite (bind_ok tok _ s0 (tok_type (token (lex s0))) s0) by reflexivity.
      rewrite (parse_term_not_minus _ _ _ _ H1).
      rewrite (bind_ok _ _ s0 TYPE_BOOLEAN s1)
        by (apply (parse_term_fuel MAX_ID_LENGTH n); [lia|done]).
      rewrite (bind_ok tok _ s1 (tok_type (token (lex s1))) s1) by reflexivity.
      change (IS_ARRAY TYPE_BOOLEAN) with false. rewrite andb_false_r.
      rewrite (bind_ok (ret tt) _ s1 tt s1) by reflexivity.
      rewrite (bind_ok _ _ s1 tt s' Hw). reflexivity.
    + rewrite Hcode. unfold emitted in Hc1. rewrite Hc1. by rewrite <- app_assoc.
  - intros i c1 c2 cs. unfold run_code.
    rewrite map_app, concat_app. simpl. rewrite app_nil_r. by rewrite <- !app_assoc.
Qed.

(** ** The return type in the main body *)

Local Abbreviation parse_type := (parse_type MAX_ID_LENGTH).
Local Abbreviation declare_variable := (declare_variable MAX_ID_LENGTH).
Local Abbreviation parse_vardef := (parse_vardef MAX_ID_LENGTH).
Local Abbreviation parse_body := (parse_body MAX_ID_LENGTH).
Local Abbreviation parse_funcdef := (parse_funcdef MAX_ID_LENGTH).
Local Abbreviation parse_program := (parse_program MAX_ID_LENGTH).
Local Abbreviation program_header := (program_header MAX_ID_LENGTH).
Local Abbreviation exit_in_main := (exit_in_main MAX_ID_LENGTH).
Local Abbreviation main_statement_body := (main_statement_body MAX_ID_LENGTH).
Local Abbreviation main_statements := (main_statements MAX_ID_LENGTH).
Local Abbreviation main_statement := (main_statement MAX_ID_LENGTH).
Local Abbreviation main_if := (main_if MAX_ID_LENGTH).
Local Abbreviation main_while := (main_while MAX_ID_LENGTH).
Local Abbreviation main_body := (main_body MAX_ID_LENGTH).
Local Abbreviation main_program := (main_program MAX_ID_LENGTH).
Local Abbreviation compile := (compile MAX_ID_LENGTH).
Local Abbreviation compile_main := (compile_main MAX_ID_LENGTH).

Lemma keeps_rt_frame {A} (m : M State A) : preserves m -> keeps_rt m.
Proof. intros H s a s' Hm. by destruct (H s a s' Hm). Qed.

Lemma keeps_rt_bind {A B} (m : M State A) (f : A -> M State B) :
  keeps_rt m -> (forall a, keeps_rt (f a)) -> keeps_rt (bind m f).
Proof.
  intros Hm Hf s b s' H. unfold bind in H. destruct (m s) as [a s1| | |] eqn:E; try done.
  rewrite (Hf a s1 b s' H). by eapply Hm.
Qed.

Lemma keeps_rt_ret {A} (a : A) : keeps_rt (ret a).
Proof. by intros s a' s' [= _ <-]. Qed.

Lemma keeps_rt_loop {A B} n (body : A -> M State (A + B)) :
  (forall a, keeps_rt (body a)) -> forall a, keeps_rt (loop n body a).
Proof.
  intros Hb. induction n as [|n IH]; intros a; [by intros s b s' H|].
  simpl. apply keeps_rt_bind; [apply Hb|].
  intros [a'|b]; [apply IH|apply keeps_rt_ret].
Qed.

Lemma keeps_rt_while {A} n (cond : A -> State -> bool) (body : A -> M State A) :
  (forall a, keeps_rt (body a)) -> forall a, keeps_rt (while_ n cond body a).
Proof.
  intros Hb a. unfold while_. apply keeps_rt_loop. intros a0.
  apply keeps_rt_bind; [by intros s x s' [= _ <-]|]. intros [|]; [|apply keeps_rt_ret].
  apply keeps_rt_bind; [apply Hb|]. intros a'. apply keeps_rt_ret.
Qed.

Lemma keeps_rt_lift_sym {A} (f : SymTab -> option (A * SymTab)) : keeps_rt (lift_sym f).
Proof.
  intros s a s' H. unfold lift_sym in H. destruct (f (symtab s)) as [[x t]|]; [|done].
  by inversion H; subst.
Qed.

Lemma keeps_rt_lift_cg f : keeps_rt (lift_cg f).
Proof. by intros s a s' [= _ <-]. Qed.

Ltac keeping :=
  repeat first
    [ assumption
    | solve [apply keeps_rt_frame; unfold variables_width; eauto with frame nocore]
    | apply keeps_rt_ret
    | apply keeps_rt_lift_sym
    | apply keeps_rt_lift_cg
    | apply keeps_rt_bind; [|intros ?]
    | apply keeps_rt_while; intros ?
    | match goal with
      | |- keeps_rt (if ?c then _ else _) => destruct c
      | |- keeps_rt (match ?x with _ => _ end) => destruct x
      | H : forall a, keeps_rt (?f a) |- keeps_rt (?f _) => apply H
      end ].

Lemma parse_type_keeps t0 : keeps_rt (parse_type t0).
Proof. unfold parse_type. keeping. Qed.

Lemma declare_variable_keeps t1 : keeps_rt (declare_variable t1).
Proof. unfold declare_variable, insert_name_. keeping. Qed.

Lemma parse_vardef_keeps n : keeps_rt (parse_vardef n).
Proof.
  unfold parse_vardef. pose proof parse_type_keeps. pose proof declare_variable_keeps.
  keeping.
Qed.

Lemma parse_statements_keeps n : keeps_rt (parse_statements n).
Proof. apply keeps_rt_frame, statements_frame. Qed.

Lemma parse_statement_keeps n : keeps_rt (parse_statement n).
Proof. apply keeps_rt_frame, statements_frame. Qed.

Lemma parse_body_keeps n : keeps_rt (parse_body n).
Proof.
  unfold parse_body. pose proof parse_vardef_keeps. pose proof parse_statements_keeps.
  keeping.
Qed.

Lemma ends_none_bind {A B} (m : M State A) (f : A -> M State B) :
  (forall a, ends_none (f a)) -> ends_none (bind m f).
Proof.
  intros Hf s b s' H. unfold bind in H. destruct (m s) as [a s1| | |] eqn:E; try done.
  by eapply Hf.
Qed.

Lemma ends_none_abort {A} pos err args : ends_none (@abort_at A pos err args).
Proof.
  intros s a s' H. unfold abort_at, bind, set_position, modify, abort_c in H.
  by destruct (abort_message _ _ _).
Qed.

(** Every function definition leaves the return type at [TYPE_NONE]. *)
Lemma parse_funcdef_ends_none n : ends_none (parse_funcdef n).
Proof.
  unfold parse_funcdef.
  repeat first
    [ apply ends_none_bind; intros ?
    | apply ends_none_abort
    | match goal with
      | |- ends_none (if ?c then _ else _) => destruct c
      end ].
  all: by intros s a' s' [= _ <-].
Qed.

Lemma keeps_none_bind {A B} (m : M State A) (f : A -> M State B) :
  keeps_none m -> (forall a, keeps_none (f a)) -> keeps_none (bind m f).
Proof.
  intros Hm Hf s b s' Hs H. unfold bind in H.
  destruct (m s) as [a s1| | |] eqn:E; try done.
  apply (Hf a s1 b s'); [|done]. by eapply Hm.
Qed.

Lemma keeps_none_of_keeps {A} (m : M State A) : keeps_rt m -> keeps_none m.
Proof. intros H s a s' Hs Hm. by rewrite (H s a s' Hm). Qed.

Lemma funcdefs_none n k (cond : unit -> State -> bool) :
  keeps_none (while_ k cond (fun _ => parse_funcdef n) tt).
Proof.
  induction k as [|k IH]; intros s a s' Hs H; [done|].
  rewrite while_unfold in H. destruct (cond tt s); [|by inversion H; subst].
  destruct (parse_funcdef n s) as [[] s1| | |] eqn:E; try done.
  apply (IH s1 a s'); [|done]. by eapply parse_funcdef_ends_none.
Qed.

(** The main body starts with the return type [TYPE_NONE]. *)
Lemma program_header_none n : keeps_none (program_header n).
Proof.
  unfold program_header.
  apply keeps_none_bind; [apply keeps_none_of_keeps; keeping|]. intros _.
  apply keeps_none_bind; [apply keeps_none_of_keeps; keeping|]. intros class.
  apply keeps_none_bind; [apply keeps_none_of_keeps; keeping|]. intros _.
  apply keeps_none_bind; [apply funcdefs_none|]. intros _.
  apply keeps_none_of_keeps; keeping.
Qed.

(** [parse_program] is the header, the main body and the footer. *)
Lemma parse_program_split n s :
  parse_program n s = (program_header n >> parse_body n >> program_footer) s.
Proof.
  unfold parse_program, program_header, program_footer, bind.
  destruct (expect TOK_PROGRAM s) as [[] s1| | |]; try reflexivity.
  destruct (expect_id s1) as [class s2| | |]; try reflexivity.
  destruct (lift_cg (set_class_name class) s2) as [[] s3| | |]; try reflexivity.
  destruct (while_ n _ _ tt s3) as [[] s4| | |]; try reflexivity.
Qed.

Lemma next_token_state s s' :
  next_token s = Ok tt s' -> exists l, s' = set_lex l s.
Proof.
  unfold next_token, lift_lex. destruct (get_token _ _) as [[] l| | |]; try done.
  intros H. inversion H; subst. by exists l.
Qed.

(** [exit] followed by the start of an expression, with no subroutine
    open: only the [exit] token is consumed. *)
Lemma parse_exit_none n s s' :
  return_type s = TYPE_NONE ->
  tok_type (token (lex s)) = TOK_EXIT ->
  next_token s = Ok tt s' ->
  STARTS_EXPR (tok_type (token (lex s'))) = true ->
  parse_exit n s = Ok tt s'.
Proof.
  intros Hrt Htok Hnext Hstart.
  destruct (next_token_state s s' Hnext) as [l Hs'].
  assert (Hrt' : return_type s' = TYPE_NONE) by (by subst s').
  unfold parse_exit.
  rewrite (bind_ok get_position _ s (position (lex s)) s) by reflexivity.
  rewrite (bind_ok (expect TOK_EXIT) _ s tt s').
  - rewrite (bind_ok tok _ s' (tok_type (token (lex s'))) s') by reflexivity.
    rewrite (bind_ok (gets return_type) _ s' TYPE_NONE s')
      by (unfold gets; by rewrite Hrt').
    by rewrite Hstart.
  - unfold expect. rewrite (bind_ok tok _ s TOK_EXIT s)
      by (unfold tok, gets; by rewrite Htok).
    exact Hnext.
Qed.

(** *** The main body against [main_body] *)

Lemma agree_refl {A} (m : M State A) : agree m m.
Proof. by intros s _. Qed.

Lemma agree_bind {A B} (m m' : M State A) (f f' : A -> M State B) :
  agree m m' -> keeps_none m -> (forall a, agree (f a) (f' a)) ->
  agree (bind m f) (bind m' f').
Proof.
  intros Hm Hk Hf s Hs. unfold bind. rewrite <- (Hm s Hs).
  destruct (m s) as [a s1| | |] eqn:E; try done.
  apply Hf. by eapply Hk.
Qed.

Lemma keeps_none_loop {A B} n (body : A -> M State (A + B)) :
  (forall a, keeps_none (body a)) -> forall a, keeps_none (loop n body a).
Proof.
  intros Hb. induction n as [|n IH]; intros a; [by intros s b s' _ H|].
  simpl. apply keeps_none_bind; [apply Hb|].
  intros [a'|b]; [apply IH|apply keeps_none_of_keeps, keeps_rt_ret].
Qed.

Lemma agree_loop {A B} n (body body' : A -> M State (A + B)) :
  (forall a, agree (body a) (body' a)) -> (forall a, keeps_none (body a)) ->
  forall a, agree (loop n body a) (loop n body' a).
Proof.
  intros Hb Hk. induction n as [|n IH]; intros a; [by intros s _|].
  simpl. apply agree_bind; [apply Hb|apply Hk|].
  intros [a'|b]; [apply IH|apply agree_refl].
Qed.

Lemma agree_while {A} n (cond : A -> State -> bool) (body body' : A -> M State A) :
  (forall a, agree (body a) (body' a)) -> (forall a, keeps_none (body a)) ->
  forall a, agree (while_ n cond body a) (while_ n cond body' a).
Proof.
  intros Hb Hk a. unfold while_. apply agree_loop.
  - intros a0. apply agree_bind; [apply agree_refl| |].
    + apply keeps_none_of_keeps. by intros s x s' [= _ <-].
    + intros [|]; [|apply agree_refl].
      apply agree_bind; [apply Hb|apply Hk|]. intros a'. apply agree_refl.
  - intros a0. apply keeps_none_bind.
    + apply keeps_none_of_keeps. by intros s x s' [= _ <-].
    + intros [|]; [|apply keeps_none_of_keeps, keeps_rt_ret].
      apply keeps_none_bind; [apply Hk|]. intros a'.
      apply keeps_none_of_keeps, keeps_rt_ret.
Qed.

(** Step through two computations that differ only in parts known to
    agree. *)
Ltac agreeing :=
  repeat first
    [ assumption
    | apply agree_refl
    | apply agree_bind;
      [ | solve [ apply keeps_none_of_keeps, keeps_rt_frame; framing
                | apply keeps_none_of_keeps; keeping ]
        | intros ? ]
    | apply agree_while;
      [ intros ?
      | intros ?;
        solve [ apply keeps_none_of_keeps, keeps_rt_frame; framing
              | apply keeps_none_of_keeps; keeping ] ]
    | match goal with
      | |- agree (if ?c then _ else _) (if ?c then _ else _) => destruct c
      end ].

(** With the return type [TYPE_NONE], [parse_exit] is [exit_in_main]:
    neither the error of a procedure nor the branch of a function is
    taken. *)
Lemma parse_exit_agree n : agree (parse_exit n) exit_in_main.
Proof.
  intros s Hs. unfold parse_exit, exit_in_main.
  rewrite (bind_ok get_position _ s (position (lex s)) s) by reflexivity.
  destruct (expect TOK_EXIT s) as [[] s1| | |] eqn:E.
  2-4: by unfold bind; rewrite E.
  assert (Hs1 : return_type s1 = TYPE_NONE).
  { rewrite <- Hs. by destruct (preserves_expect TOK_EXIT s tt s1 E). }
  rewrite !(bind_ok (expect TOK_EXIT) _ s tt s1 E).
  rewrite !(bind_ok tok _ s1 (tok_type (token (lex s1))) s1) by reflexivity.
  rewrite (bind_ok (gets return_type) _ s1 TYPE_NONE s1)
    by (unfold gets; by rewrite Hs1).
  reflexivity.
Qed.

Section StatementAgree.

Context (pst pst' psts psts' pif pif' pwh pwh' : M State unit).
Context (n : nat).
Context (Hst : agree pst pst') (Hsts : agree psts psts').
Context (Hif : agree pif pif') (Hwh : agree pwh pwh').
Context (Fst : preserves pst) (Fsts : preserves psts).

Lemma parse_statements_body_agree :
  agree (parse_statements_body pst n) (parse_statements_body pst' n).
Proof. unfold parse_statements_body. agreeing. Qed.

Lemma parse_statement_body_agree :
  agree (parse_statement_body pif pwh n) (main_statement_body pif' pwh' n).
Proof.
  unfold parse_statement_body, main_statement_body.
  apply agree_bind; [apply agree_refl|apply keeps_none_of_keeps, keeps_rt_frame; framing|].
  intros t. destruct t; try apply agree_refl; try assumption.
  apply parse_exit_agree.
Qed.

Lemma parse_if_body_agree : agree (parse_if_body psts n) (parse_if_body psts' n).
Proof. unfold parse_if_body. agreeing. Qed.

Lemma parse_while_body_agree :
  agree (parse_while_body psts n) (parse_while_body psts' n).
Proof. unfold parse_while_body. agreeing. Qed.

End StatementAgree.

(** In a state with the return type [TYPE_NONE] the statements are
    parsed as by the productions over [exit_in_main]. *)
Lemma statements_agree n :
  agree (parse_statements n) (main_statements n)
  /\ agree (parse_statement n) (main_statement n)
  /\ agree (parse_if n) (main_if n)
  /\ agree (parse_while n) (main_while n).
Proof.
  induction n as [|n (IH1 & IH2 & IH3 & IH4)].
  - split_and!; by intros s Hs.
  - split_and!; intros s Hs.
    + exact (parse_statements_body_agree _ _ n IH2 (proj1 (proj2 (statements_frame n))) s Hs).
    + exact (parse_statement_body_agree _ _ _ _ n IH3 IH4 s Hs).
    + exact (parse_if_body_agree _ _ n IH1 (proj1 (statements_frame n)) s Hs).
    + exact (parse_while_body_agree _ _ n IH1 (proj1 (statements_frame n)) s Hs).
Qed.

Lemma parse_body_agree n : agree (parse_body n) (main_body n).
Proof.
  unfold parse_body, main_body.
  pose proof parse_vardef_keeps. pose proof parse_statements_keeps.
  destruct (statements_agree n) as (Hsts & _). agreeing.
Qed.

Lemma parse_program_agree n : agree (parse_program n) (main_program n).
Proof.
  intros s Hs. rewrite parse_program_split. revert s Hs.
  unfold main_program.
  apply agree_bind; [apply agree_refl|apply program_header_none|]. intros _.
  apply agree_bind; [apply parse_body_agree| |intros _; apply agree_refl].
  apply keeps_none_of_keeps, parse_body_keeps.
Qed.

Lemma compile_agree source n : compile source n = compile_main source n.
Proof.
  unfold compile, compile_main.
  assert (H : agree
    (lift_lex (init_scanner source) >>
     lift_sym (fun t => t' ← init_symbol_table t; Some (tt, t')) >>
     lift_cg (fun _ => init_code_generation) >> next_token >> parse_program n)
    (lift_lex (init_scanner source) >>
     lift_sym (fun t => t' ← init_symbol_table t; Some (tt, t')) >>
     lift_cg (fun _ => init_code_generation) >> next_token >> main_program n)).
  { pose proof (parse_program_agree n). agreeing. }
  by apply H.
Qed.

(** C10.  No subroutine is open while the main body is parsed: the
    return type is [TYPE_NONE] when [parse_program] reaches the body,
    nothing that a body contains changes it, and [TYPE_NONE] is neither
    a procedure nor a function type.  So an [exit] there that is
    followed by the start of an expression consumes the [exit] token
    and nothing else: the state after [parse_exit] is the state after
    that one [get_token], with the expression still ahead, nothing
    emitted and no error raised.  This holds for every [exit] that the
    main body reaches, at any depth of [if] and [while]: on every input
    the body, the program and the whole compilation come out as with
    [main_body], in which an [exit] before an expression only takes its
    token. *)
Theorem exit_in_main_body :
  (return_type state_zero = TYPE_NONE
   /\ IS_PROCEDURE TYPE_NONE = false /\ IS_FUNCTION TYPE_NONE = false)
  /\ (forall n s,
        parse_program n s = (program_header n >> parse_body n >> program_footer) s)
  /\ (forall n s s1,
        return_type s = TYPE_NONE -> program_header n s = Ok tt s1 ->
        return_type s1 = TYPE_NONE)
  /\ (forall n s s',
        parse_vardef n s = Ok tt s' \/ parse_statements n s = Ok tt s'
        \/ parse_statement n s = Ok tt s' ->
        return_type s' = return_type s)
  /\ (forall n s s',
        return_type s = TYPE_NONE ->
        tok_type (token (lex s)) = TOK_EXIT ->
        next_token s = Ok tt s' ->
        STARTS_EXPR (tok_type (token (lex s'))) = true ->
        parse_exit n s = Ok tt s'
        /\ parse_statement (S n) s = Ok tt s'
        /\ cg s' = cg s)
  /\ (forall n s,
        return_type s = TYPE_NONE ->
        parse_statements n s = main_statements n s
        /\ parse_body n s = main_body n s
        /\ parse_program n s = main_program n s)
  /\ (forall source n, compile source n = compile_main source n).
Proof.
  split; [by split_and!|]. split; [apply parse_program_split|].
  split; [intros n s s1 Hs H; by eapply program_header_none|]. split; [|split].
  - intros n s s' [H|[H|H]].
    + by eapply parse_vardef_keeps.
    + by eapply parse_statements_keeps.
    + by eapply parse_statement_keeps.
  - intros n s s' Hrt Htok Hnext Hstart.
    pose proof (parse_exit_none n s s' Hrt Htok Hnext Hstart) as Hexit.
    split; [done|]. split; [|by eapply next_token_cg].
    change (parse_statement (S n) s)
      with (parse_statement_body (parse_if n) (parse_while n) n s).
    unfold parse_statement_body.
    rewrite (bind_ok tok _ s TOK_EXIT s) by (unfold tok, gets; by rewrite Htok).
    exact Hexit.
  - split.
    + intros n s Hs. split_and!.
      * by apply statements_agree.
      * by apply parse_body_agree.
      * by apply parse_program_agree.
    + apply compile_agree.
Qed.
End ParserFrame.

(** ** The compiler on concrete programs

    Identifiers are limited to 32 characters in these runs. *)

(** C9, on rows of three operands: each further operand is followed by
    its own [IAND] or [IOR]. *)
Lemma and_or_no_short_circuit_witness :
  (exists s', parse_term 32 5 (parser_at 32 "true and false and true")
              = Ok TYPE_BOOLEAN s'
              /\ code (cg s') = [Op2 JVM_LDC 1; Op2 JVM_LDC 0; Op1 JVM_IAND;
                                 Op2 JVM_LDC 1; Op1 JVM_IAND])
  /\ (exists s', parse_simple 32 6 (parser_at 32 "false or true or false")
                 = Ok TYPE_BOOLEAN s'
                 /\ code (cg s') = [Op2 JVM_LDC 0; Op2 JVM_LDC 1; Op1 JVM_IOR;
                                    Op2 JVM_LDC 0; Op1 JVM_IOR]).
Proof.
  split.
  - assert (Hrun : exists s1 s',
              parse_factor 32 1 (parser_at 32 "true and false and true")
              = Ok TYPE_BOOLEAN s1
              /\ emitted (parser_at 32 "true and false and true") s1 [Op2 JVM_LDC 1]
              /\ operand_run 32 (parse_factor 32 1) TOK_AND JVM_IAND s1
                   [[Op2 JVM_LDC 0]; [Op2 JVM_LDC 1]] s'
              /\ IS_MULOP (tok_type (token (lex s'))) = false).
    { eexists. eexists. split; [vm_compute; reflexivity|].
      split; [vm_compute; reflexivity|]. split.
      - eapply run_step; [vm_compute; reflexivity ..|].
        eapply run_step; [vm_compute; reflexivity ..|].
        apply run_end.
      - vm_compute. reflexivity. }
    destruct Hrun as (s1 & s' & H1 & Hc1 & Hrun & Hstop).
    destruct (proj1 (and_or_no_short_circuit 32) 1%nat _ s1 _ _ s' H1 Hc1 Hrun Hstop
                5%nat ltac:(simpl; lia)) as [Hp Hcode].
    exists s'. split; [exact Hp|]. rewrite Hcode. reflexivity.
  - assert (Hrun : exists s1 s',
              parse_term 32 2 (parser_at 32 "false or true or false")
              = Ok TYPE_BOOLEAN s1
              /\ emitted (parser_at 32 "false or true or false") s1 [Op2 JVM_LDC 0]
              /\ operand_run 32 (parse_term 32 2) TOK_OR JVM_IOR s1
                   [[Op2 JVM_LDC 1]; [Op2 JVM_LDC 0]] s'
              /\ IS_ADDOP (tok_type (token (lex s'))) = false).
    { eexists. eexists. split; [vm_compute; reflexivity|].
      split; [vm_compute; reflexivity|]. split.
      - eapply run_step; [vm_compute; reflexivity ..|].
        eapply run_step; [vm_compute; reflexivity ..|].
        apply run_end.
      - vm_compute. reflexivity. }
    destruct Hrun as (s1 & s' & H1 & Hc1 & Hrun & Hstop).
    destruct (proj1 (proj2 (and_or_no_short_circuit 32)) 2%nat _ s1 _ _ s' H1 Hc1 Hrun
                Hstop 6%nat ltac:(simpl; lia)) as [Hp Hcode].
    exists s'. split; [exact Hp|]. rewrite Hcode. reflexivity.
Defined.

(** The scenario of the specification: no short circuit. *)
Example compile_true_and_false :
  compiled_code (compile 32 "program C begin boolean b; b <- true and false end" 50)
    = Some [[Op2 JVM_LDC 1; Op2 JVM_LDC 0; Op1 JVM_IAND; Op2 JVM_ISTORE 1;
             Op1 JVM_RETURN]].
Proof. by vm_compute. Qed.

Lemma exit_in_main_body_witness :
  parsed (parse_exit 32 5 (parser_at 32 "exit 5 end")) = Some (tt, TOK_NUM, [])
  /\ (exists s1, program_header 32 10 (parser_at 32 "program P begin exit 5 end")
                 = Ok tt s1 /\ return_type s1 = TYPE_NONE)
  /\ (exists s', parse_statements 32 10 (parser_at 32 "write 1; write 2 end") = Ok tt s'
                 /\ return_type s' = TYPE_NONE)
  /\ parse_body 32 10 (parser_at 32 "begin if true then exit 5 end end")
     = main_body 32 10 (parser_at 32 "begin if true then exit 5 end end").
Proof.
  destruct (exit_in_main_body 32) as (_ & _ & Hhdr & Hkeep & Hexit & Hmain & _).
  split; [|split; [|split]].
  - edestruct (Hexit 5%nat (parser_at 32 "exit 5 end")) as (H1 & _ & _).
    + reflexivity.
    + reflexivity.
    + vm_compute. reflexivity.
    + reflexivity.
    + rewrite H1. reflexivity.
  - eexists. split.
    + vm_compute. reflexivity.
    + eapply (Hhdr 10%nat (parser_at 32 "program P begin exit 5 end")).
      * reflexivity.
      * vm_compute. reflexivity.
  - eexists. split.
    + vm_compute. reflexivity.
    + erewrite (Hkeep 10%nat (parser_at 32 "write 1; write 2 end")).
      * reflexivity.
      * right. left. vm_compute. reflexivity.
  - exact (proj1 (proj2 (Hmain 10%nat
             (parser_at 32 "begin if true then exit 5 end end") eq_refl))).
Defined.

(** An [exit] with an expression inside an [if] of the main body: the
    [exit] is passed over and the expression is what stops the parser. *)
Example compile_exit_in_main_if :
  diagnostic (compile 32 "program P begin if true then exit 5 end end" 50)
    = Some (mk_pos 1 35, "expected 'end', but found number").
Proof. by vm_compute. Qed.

(** In the main body the expression after [exit] is left for the parser
    of the body, which reports the token it did not expect. *)
Example compile_exit_in_main :
  diagnostic (compile 32 "program P begin exit 5 end" 50)
    = Some (mk_pos 1 22, "expected 'end', but found number").
Proof. by vm_compute. Qed.

(** C1.  With two [elsif] clauses the label [1] (the second of the three
    labels of [parse_if]) is placed twice, each time in front of the
    guard whose branch-if-zero targets it; the [else] arm carries no
    label of its own. *)
Theorem parse_if_elsif_labels :
  compiled_code
    (compile 32
       "program P begin if false then chill elsif false then chill elsif true then chill else chill end end"
       50)
  = Some [[Op2 JVM_LDC 0; Op2Label JVM_IFEQ 0; Op2Label JVM_GOTO 2; LabelDef 0;
           LabelDef 1; Op2 JVM_LDC 0; Op2Label JVM_IFEQ 1; Op2Label JVM_GOTO 2;
           LabelDef 1; Op2 JVM_LDC 1; Op2Label JVM_IFEQ 1; Op2Label JVM_GOTO 2;
           LabelDef 2; Op1 JVM_RETURN]].
Proof. by vm_compute. Qed.

(** C3.  After a leading minus [parse_simple] parses one term and
    returns: on [- 1 + 2] the lookahead is left at [+], and the
    assignment that contains it is rejected, while [1 + 2] is parsed
    whole. *)
Theorem parse_simple_minus_stops :
  parsed (parse_simple 32 5 (parser_at 32 "- 1 + 2"))
    = Some (TYPE_INTEGER, TOK_PLUS, [Op2 JVM_LDC 1; Op1 JVM_INEG])
  /\ parsed (parse_simple 32 5 (parser_at 32 "1 + 2"))
     = Some (TYPE_INTEGER, TOK_EOF, [Op2 JVM_LDC 1; Op2 JVM_LDC 2; Op1 JVM_IADD])
  /\ diagnostic (compile 32 "program P begin integer a; a <- - 1 + 2 end" 50)
     = Some (mk_pos 1 37, "expected 'end', but found '+'").
Proof. by vm_compute. Qed.

(** C4.  The array reference is loaded only when the index starts with
    a number: for [a[i] <- 1] the emitted store is index, value,
    [IASTORE], without [ALOAD]; for [a[0] <- 2] the [ALOAD] is there. *)
Theorem parse_index_aload_only_for_number :
  compiled_code
    (compile 32
       "program P begin integer array a; integer i; a <- array 3; i <- 0; a[i] <- 1; a[0] <- 2 end"
       50)
  = Some [[Op2 JVM_LDC 3; NewArray T_INT; Op2 JVM_ASTORE 1;
           Op2 JVM_LDC 0; Op2 JVM_ISTORE 2;
           Op2 JVM_ILOAD 2; Op2 JVM_LDC 1; Op1 JVM_IASTORE;
           Op2 JVM_ALOAD 1; Op2 JVM_LDC 0; Op2 JVM_LDC 2; Op1 JVM_IASTORE;
           Op1 JVM_RETURN]].
Proof. by vm_compute. Qed.

(** C5, seen from a whole program: a variable called [x] stops the
    scanner at the read past the reserved-word array, while [v] is an
    identifier like any other. *)
Example compile_identifier_past_write :
  compile 32 "program P begin integer x; chill end" 50
    = Undef "reserved[mid] read outside the array"
  /\ compiled_code (compile 32 "program P begin integer v; chill end" 50)
     = Some [[Op1 JVM_RETURN]].
Proof. by vm_compute. Qed.

(** * Further properties *)

(** ** hashtable.c *)

Lemma entry_of_perm k es es' :
  NoDup (key <$> es) -> es ≡ₚ es' -> entry_of k es = entry_of k es'.
Proof.
  intros Hnd Hp.
  assert (Hnd' : NoDup (key <$> es')) by (by rewrite <- Hp).
  destruct (entry_of k es) as [v|] eqn:E.
  - apply entry_of_in in E. rewrite Hp in E.
    symmetry. exact (entry_of_some es' (mk_entry k v) Hnd' E).
  - symmetry. apply entry_of_none. apply entry_of_none in E. by rewrite <- Hp.
Qed.

Lemma entry_of_cons_ne k k' v es :
  k' <> k -> entry_of k' (mk_entry k v :: es) = entry_of k' es.
Proof.
  intros Hne. simpl. destruct (String.eqb k' k) eqn:E; [|done].
  by apply String.eqb_eq in E.
Qed.

Lemma entry_of_cons_eq k v es : entry_of k (mk_entry k v :: es) = Some v.
Proof. simpl. by rewrite String.eqb_refl. Qed.

Lemma not_has_key n es : has_key n es = false -> n ∉ (key <$> es).
Proof. intros H Hin. apply has_key_spec in Hin. congruence. Qed.

(** X1.  On a well-formed table [ht_search] answers for the whole table,
    not only for a bucket: it finds a value exactly when the table holds
    that entry, reports a miss exactly when no entry has the key, and
    never indexes outside the bucket array. *)
Theorem ht_search_exact (ht : HashTab) (k : string) :
  ht_wf ht ->
  (forall v, ht_search ht k = Some (Some v) <-> mk_entry k v ∈ ht_entries ht)
  /\ (ht_search ht k = Some None <-> k ∉ ht_keys ht)
  /\ ht_search ht k <> None.
Proof.
  intros W. rewrite (ht_search_entry_of ht k W). split; [|split; [|done]].
  - intros v. split.
    + intros [= H]. by apply entry_of_in.
    + intros H. f_equal.
      exact (entry_of_some (ht_entries ht) (mk_entry k v) (wf_nodup ht W) H).
  - split.
    + intros [= H]. by apply entry_of_none.
    + intros H. f_equal. by apply entry_of_none.
Qed.

Lemma ht_search_exact_witness :
  ht_search (default ht_zero example_table) "z" = Some None
  /\ ht_search (default ht_zero example_table) "c" <> None.
Proof.
  assert (W : ht_wf (default ht_zero example_table))
    by (apply ht_wfb_sound; reflexivity).
  destruct (ht_search_exact (default ht_zero example_table) "c" W) as (_ & _ & Hc).
  destruct (ht_search_exact (default ht_zero example_table) "z" W) as (_ & Hz & _).
  split; [|exact Hc].
  apply Hz. apply not_has_key. reflexivity.
Defined.

(** X2.  Inserting a key that the table does not hold succeeds, also
    when the insertion makes the table grow: the table stays well formed,
    a search for the key then yields the inserted value, the answer for
    every other key is what it was, and the count has gone up by one. *)
Theorem ht_insert_then_search (ht : HashTab) (k : string) (v : IDprop) :
  ht_wf ht -> ht_num_entries ht < HT_CAPACITY -> k ∉ ht_keys ht ->
  exists ht', ht_insert ht k v = Some (EXIT_SUCCESS, ht')
    /\ ht_wf ht'
    /\ ht_search ht' k = Some (Some v)
    /\ (forall k', k' <> k -> ht_search ht' k' = ht_search ht k')
    /\ ht_num_entries ht' = ht_num_entries ht + 1.
Proof.
  intros W Hcap Hk.
  destruct (ht_insert_fresh ht k v W Hcap Hk) as (ht' & Hi & W' & Hp & Hn).
  exists ht'. split; [done|]. split; [done|].
  assert (He : forall n, entry_of n (ht_entries ht')
                         = entry_of n (mk_entry k v :: ht_entries ht)).
  { intros n. apply entry_of_perm; [apply (wf_nodup ht' W')|done]. }
  split; [|split; [|done]].
  - by rewrite (ht_search_entry_of ht' k W'), He, entry_of_cons_eq.
  - intros k' Hne.
    rewrite (ht_search_entry_of ht' k' W'), (ht_search_entry_of ht k' W), He.
    by rewrite entry_of_cons_ne.
Qed.

Lemma ht_insert_then_search_witness :
  exists ht', ht_insert (default ht_zero example_table) "j" proc_prop
              = Some (EXIT_SUCCESS, ht')
    /\ ht_size (default ht_zero example_table) = 13 /\ ht_size ht' = 31
    /\ ht_search ht' "j" = Some (Some proc_prop)
    /\ ht_search ht' "c" = Some (Some int_var).
Proof.
  assert (W : ht_wf (default ht_zero example_table))
    by (apply ht_wfb_sound; reflexivity).
  destruct (ht_insert_then_search (default ht_zero example_table) "j" proc_prop W)
    as (ht' & Hi & _ & Hj & Hother & _).
  - reflexivity.
  - apply not_has_key. reflexivity.
  - exists ht'. split; [exact Hi|]. split; [reflexivity|].
    split; [|split; [exact Hj|]].
    + assert (E : Some (EXIT_SUCCESS, ht')
                  = ht_insert (default ht_zero example_table) "j" proc_prop)
        by (by rewrite Hi).
      vm_compute in E. by inversion E.
    + rewrite (Hother "c"); [reflexivity|discriminate].
Defined.

(** X3.  Inserting a key that the table already holds changes nothing:
    [ht_insert] answers [HASH_TABLE_KEY_VALUE_PAIR_EXISTS], the table
    (count included) is the one passed in, and a search still yields the
    value stored first. *)
Theorem ht_insert_existing_key (ht : HashTab) (k : string) (v0 v : IDprop) :
  ht_wf ht -> mk_entry k v0 ∈ ht_entries ht ->
  ht_insert ht k v = Some (HASH_TABLE_KEY_VALUE_PAIR_EXISTS, ht)
  /\ ht_search ht k = Some (Some v0).
Proof.
  intros W He. split.
  - apply ht_insert_exists; [done|].
    change k with (key (mk_entry k v0)). by apply list_elem_of_fmap_2.
  - exact (ht_search_found ht (mk_entry k v0) W He).
Qed.

Lemma ht_insert_existing_key_witness :
  ht_insert (default ht_zero example_table) "c" proc_prop
    = Some (HASH_TABLE_KEY_VALUE_PAIR_EXISTS, default ht_zero example_table)
  /\ ht_search (default ht_zero example_table) "c" = Some (Some int_var).
Proof.
  apply ht_insert_existing_key.
  - apply ht_wfb_sound. reflexivity.
  - apply entry_of_in. reflexivity.
Defined.

(** X4.  [rehash] moves every entry to the bucket of its hash in a table
    of the next prime size: the size grows, the delta index goes up by
    one, the count is left alone, the entries are the same, and every
    search answers as before. *)
Theorem rehash_keeps_entries (ht : HashTab) (n : Z) :
  ht_wf ht -> ht_idx ht < IDX_LIMIT ->
  exists ht2,
    rehash (mk_hashtab (ht_table ht) (ht_size ht) n (ht_idx ht)) = Some ht2
    /\ ht_idx ht2 = ht_idx ht + 1
    /\ delta_at (ht_idx ht2) = Some (2 ^ ht_idx ht2 - ht_size ht2)
    /\ ht_size ht < ht_size ht2
    /\ ht_num_entries ht2 = n
    /\ ht_entries ht2 ≡ₚ ht_entries ht
    /\ forall k, ht_search ht2 k = ht_search ht k.
Proof.
  intros W Hlim.
  destruct (wf_size_eq ht W) as (d0 & Hd0 & Hsz & Hd0a & Hd0b & Hp16).
  pose proof (wf_idx ht W) as Hidx.
  set (ht1 := mk_hashtab (ht_table ht) (ht_size ht) n (ht_idx ht)).
  destruct (rehash_spec ht1 d0) as
    (ht2 & d1 & Hr & Hi2 & Hd1 & Hd1a & Hd1b & Hs2 & Hn2 & Hl2 & Hb2 & Hp2);
    [simpl; lia|done|done|].
  simpl in *. change (ht_entries ht1) with (ht_entries ht) in Hp2.
  assert (Hpow : 2 ^ (ht_idx ht + 1) = 2 * 2 ^ ht_idx ht) by (rewrite Z.pow_add_r; lia).
  exists ht2. split; [exact Hr|]. split; [exact Hi2|].
  split; [rewrite Hi2, Hd1; f_equal; lia|].
  split; [lia|]. split; [exact Hn2|]. split; [exact Hp2|].
  intros k.
  set (ht3 := mk_hashtab (ht_table ht2) (ht_size ht2)
                (Z.of_nat (length (ht_entries ht2))) (ht_idx ht2)).
  assert (W3 : ht_wf ht3).
  { constructor; simpl.
    - unfold IDX_LIMIT in *. lia.
    - rewrite Hi2, Hd1. f_equal. lia.
    - exact Hl2.
    - reflexivity.
    - change (ht_entries ht3) with (ht_entries ht2). rewrite Hp2.
      pose proof (wf_count ht W). pose proof (wf_load ht W). lia.
    - exact Hb2.
    - change (ht_keys ht3) with (key <$> ht_entries ht2). rewrite Hp2.
      apply (wf_nodup ht W). }
  change (ht_search ht2 k) with (ht_search ht3 k).
  rewrite (ht_search_entry_of ht3 k W3), (ht_search_entry_of ht k W).
  f_equal. change (ht_entries ht3) with (ht_entries ht2).
  symmetry. apply entry_of_perm; [apply (wf_nodup ht W)|done].
Qed.

Lemma rehash_keeps_entries_witness :
  exists ht2,
    rehash (default ht_zero example_table) = Some ht2
    /\ ht_size ht2 = 31
    /\ ht_search ht2 "c" = Some (Some int_var).
Proof.
  destruct (rehash_keeps_entries (default ht_zero example_table) 9)
    as (ht2 & Hr & _ & _ & _ & _ & _ & Hs).
  - apply ht_wfb_sound. reflexivity.
  - reflexivity.
  - exists ht2. split; [exact Hr|]. split.
    + assert (E : Some ht2 = rehash (default ht_zero example_table))
        by (by rewrite <- Hr).
      vm_compute in E. by inversion E.
    + rewrite Hs. reflexivity.
Defined.

(** X5.  A new table has thirteen buckets and holds nothing: it is well
    formed, and a search for any key reports a miss. *)
Theorem ht_init_empty :
  exists ht, ht_init = Some ht
    /\ ht_size ht = 13 /\ ht_num_entries ht = 0 /\ ht_wf ht
    /\ forall k, ht_search ht k = Some None.
Proof.
  destruct ht_init_wf as (ht & Hi & W & He).
  exists ht. split; [exact Hi|].
  split; [by vm_compute in Hi; inversion Hi|].
  split; [by vm_compute in Hi; inversion Hi|].
  split; [exact W|].
  intros k. apply ht_search_missing; [exact W|].
  unfold ht_keys. rewrite He. apply not_elem_of_nil.
Qed.

(** ** symboltable.c *)

Lemma scope_entries_load h p ht : load h p = Some ht -> scope_entries h p = ht_entries ht.
Proof. intros H. unfold scope_entries. by rewrite H. Qed.

Lemma scope_room_capacity st t :
  load (heap st) (table st) = Some t -> ht_wf t -> scope_room 1 st = true ->
  ht_num_entries t < HT_CAPACITY.
Proof.
  intros Ht Wt Hroom. unfold scope_room, active_entries, scope_entries in Hroom.
  rewrite Ht in Hroom. apply Z.ltb_lt in Hroom. rewrite (wf_count t Wt). lia.
Qed.

(** The state that a successful [insert_name] leaves: the current table
    with the entry linked, stored back at its address. *)
Lemma insert_name_shape st n prop :
  symtab_wf st -> scope_room 1 st = true -> visible n st = false ->
  let prop' := if IS_VARIABLE (ip_type prop)
               then with_offset prop (curr_offset st) else prop in
  exists p t t' c,
    table st = Some p /\ heap st !! p = Some (Some t) /\ ht_wf t /\ ht_wf t'
    /\ ht_entries t' ≡ₚ mk_entry n prop' :: ht_entries t
    /\ insert_name n prop st
       = Some (true, prop', mk_symtab (store (heap st) p t') (Some p) (saved_table st) c).
Proof.
  intros W Hroom Hv prop'.
  destruct (find_name_visible st n W) as [w Hf]. rewrite Hv in Hf.
  pose proof W as [(t & Ht & Wt) _].
  destruct (load_Some _ _ _ Ht) as (p & Hp & Hhp).
  assert (Hk : n ∉ ht_keys t).
  { unfold visible in Hv. apply orb_false_iff in Hv as [Hv _].
    intros Hin. apply has_key_spec in Hin.
    unfold active_entries, scope_entries in Hv. rewrite Ht in Hv. congruence. }
  pose proof (scope_room_capacity st t Ht Wt Hroom) as Hcap.
  destruct (ht_insert_fresh t n prop' Wt Hcap Hk) as (t' & Hi & Wt' & Hperm & Hn).
  assert (Ht' : load (heap st) (Some p) = Some t) by (by rewrite <- Hp).
  exists p, t, t'. unfold insert_name. rewrite Hf. simpl. rewrite Hp. simpl.
  rewrite Ht'. simpl. fold prop'. rewrite Hi. simpl.
  destruct (IS_VARIABLE (ip_type prop)); eexists; split_and!; try done.
Qed.

(** A successful [insert_name], with what [find_name] sees after it. *)
Lemma insert_name_lookup (st : SymTab) (n : string) (prop : IDprop) :
  symtab_wf st -> scope_room 1 st = true -> visible n st = false ->
  exists prop' st',
    insert_name n prop st = Some (true, prop', st')
    /\ prop' = (if IS_VARIABLE (ip_type prop)
                then with_offset prop (curr_offset st) else prop)
    /\ symtab_wf st'
    /\ find_name n st' = Some (true, Some prop')
    /\ forall m, m <> n -> find_name m st' = find_name m st.
Proof.
  intros W Hroom Hv.
  destruct (insert_name_shape st n prop W Hroom Hv)
    as (p & t & t' & c & Hp & Hhp & Wt & Wt' & Hperm & Hrun).
  set (prop' := if IS_VARIABLE (ip_type prop)
                then with_offset prop (curr_offset st) else prop) in *.
  set (st' := mk_symtab (store (heap st) p t') (Some p) (saved_table st) c) in *.
  assert (W' : symtab_wf st') by (by eapply symtab_wf_store).
  assert (Hact' : active_entries st' = ht_entries t').
  { apply scope_entries_load. simpl. by eapply load_store_eq. }
  assert (Hact : active_entries st = ht_entries t).
  { apply scope_entries_load. rewrite Hp. unfold load. simpl. by rewrite Hhp. }
  assert (He : forall m, entry_of m (ht_entries t')
                         = entry_of m (mk_entry n prop' :: ht_entries t)).
  { intros m. apply entry_of_perm; [apply (wf_nodup t' Wt')|done]. }
  exists prop', st'. split_and!; try done.
  - rewrite (find_name_spec st' n W'), Hact', He. by rewrite entry_of_cons_eq.
  - intros m Hne.
    rewrite (find_name_spec st' m W'), (find_name_spec st m W), Hact', Hact, He.
    rewrite (entry_of_cons_ne n m prop' _ Hne).
    destruct (entry_of m (ht_entries t)) eqn:Em; [done|].
    unfold global_entries. simpl.
    destruct (saved_table st) as [q|] eqn:Hq; [|done].
    destruct (decide (p = q)) as [<-|Hpq].
    + rewrite (scope_entries_load _ _ t'); [|by eapply load_store_eq].
      rewrite (scope_entries_load _ _ t); [|unfold load; simpl; by rewrite Hhp].
      by rewrite He, (entry_of_cons_ne n m prop' _ Hne), Em.
    + unfold scope_entries. by rewrite load_store_ne.
Qed.

(** X6.  After a successful [insert_name] the name is found with the
    properties as stored (the slot filled in for a variable), and
    [find_name] answers for every other name as it did before. *)
Theorem insert_name_then_find (st : SymTab) (n : string) (prop : IDprop) :
  symtab_wf st -> scope_room 1 st = true -> visible n st = false ->
  exists prop' st',
    insert_name n prop st = Some (true, prop', st')
    /\ prop' = (if IS_VARIABLE (ip_type prop)
                then with_offset prop (curr_offset st) else prop)
    /\ symtab_wf st'
    /\ find_name n st' = Some (true, Some prop')
    /\ forall m, m <> n -> find_name m st' = find_name m st.
Proof. apply insert_name_lookup. Qed.

Lemma insert_name_then_find_witness :
  exists st',
    insert_name "b" int_var (default symtab_zero example_in_scope)
      = Some (true, with_offset int_var 2, st')
    /\ find_name "b" st' = Some (true, Some (with_offset int_var 2))
    /\ find_name "a" st' = Some (true, Some (with_offset int_var 1)).
Proof.
  destruct (insert_name_then_find (default symtab_zero example_in_scope) "b" int_var)
    as (prop' & st' & Hi & -> & _ & Hb & Hother).
  - apply symtab_ok_sound. reflexivity.
  - reflexivity.
  - reflexivity.
  - exists st'. split; [exact Hi|]. split; [exact Hb|].
    rewrite (Hother "a"); [reflexivity|discriminate].
Defined.

Local Opaque ht_init.

(** X7.  [open_subroutine] with a name that the current table does not
    hold: the callable is entered there, that table becomes the saved
    one, and the new current table is empty with the slot counter back
    at 1.  In the new scope the subroutine's own name is found (when its
    type is callable, as [parse_funcdef] passes it), and of the names of
    the enclosing table exactly the callables are. *)
Theorem open_subroutine_fresh (st : SymTab) (id : string) (prop : IDprop) :
  symtab_wf st -> scope_room 1 st = true ->
  has_key id (active_entries st) = false ->
  exists st',
    open_subroutine id prop st = Some (true, st')
    /\ symtab_wf st'
    /\ saved_table st' = table st
    /\ active_entries st' = []
    /\ get_variables_width st' = 1
    /\ find_name id st' = Some (IS_CALLABLE_TYPE (ip_type prop), Some prop)
    /\ forall n, n <> id ->
         find_name n st' =
           Some (match entry_of n (active_entries st) with
                 | Some v => (IS_CALLABLE_TYPE (ip_type v), Some v)
                 | None => (false, None)
                 end).
Proof.
  intros W Hroom Hk.
  pose proof W as [(t & Ht & Wt) _].
  destruct (load_Some _ _ _ Ht) as (p & Hp & Hhp).
  pose proof (scope_room_capacity st t Ht Wt Hroom) as Hcap.
  assert (Hact : active_entries st = ht_entries t) by (by apply scope_entries_load).
  assert (Hfresh : id ∉ ht_keys t).
  { apply not_has_key. by rewrite <- Hact. }
  destruct (ht_insert_fresh t id prop Wt Hcap Hfresh) as (t' & Hi & Wt' & Hperm & _).
  destruct ht_init_wf as (fresh & Hinit & Wf & Hempty).
  set (h1 := store (heap st) p t').
  set (st' := mk_symtab (h1 ++ [Some fresh]) (Some (length h1)) (Some p) 1).
  assert (Hrun : open_subroutine id prop st = Some (true, st')).
  { unfold open_subroutine. rewrite Hp. simpl. rewrite <- Hp, Ht. simpl.
    rewrite Hi. simpl. rewrite Hinit. simpl. by rewrite Hp. }
  assert (Hl1 : load (heap st') (table st') = Some fresh) by apply load_app_new.
  assert (Hl2 : load (heap st') (Some p) = Some t').
  { apply load_app_old. by eapply load_store_eq. }
  assert (W' : symtab_wf st').
  { split; simpl; [by exists fresh|by exists t']. }
  assert (Hact' : active_entries st' = []).
  { unfold active_entries. by rewrite (scope_entries_load _ _ fresh Hl1). }
  assert (Hglob' : global_entries st' = ht_entries t').
  { unfold global_entries. by apply scope_entries_load. }
  assert (He : forall m, entry_of m (ht_entries t')
                         = entry_of m (mk_entry id prop :: ht_entries t)).
  { intros m. apply entry_of_perm; [apply (wf_nodup t' Wt')|done]. }
  exists st'. split_and!; try done.
  - by rewrite (find_name_spec st' id W'), Hact', Hglob', He, entry_of_cons_eq.
  - intros n Hne. rewrite (find_name_spec st' n W'), Hact', Hglob', He, Hact.
    by rewrite (entry_of_cons_ne id n prop _ Hne).
Qed.

Local Transparent ht_init.

Lemma open_subroutine_fresh_witness :
  exists st',
    open_subroutine "f" proc_prop (default symtab_zero example_global)
      = Some (true, st')
    /\ find_name "f" st' = Some (true, Some proc_prop)
    /\ find_name "g" st' = Some (false, Some (with_offset int_var 1))
    /\ get_variables_width st' = 1.
Proof.
  destruct (open_subroutine_fresh (default symtab_zero example_global) "f" proc_prop)
    as (st' & Hrun & _ & _ & _ & Hw & Hf & Hother).
  - apply symtab_ok_sound. reflexivity.
  - reflexivity.
  - reflexivity.
  - exists st'. split; [exact Hrun|]. split; [exact Hf|]. split; [|exact Hw].
    rewrite (Hother "g"); [reflexivity|discriminate].
Defined.

(** X8.  [open_subroutine] with a name that the current table already
    holds answers [FALSE] and leaves the symbol table as it was: no
    scope is opened and the counter is not reset. *)
Theorem open_subroutine_duplicate (st : SymTab) (id : string) (prop : IDprop) :
  symtab_wf st -> has_key id (active_entries st) = true ->
  open_subroutine id prop st = Some (false, st).
Proof.
  intros W Hk.
  pose proof W as [(t & Ht & Wt) _].
  destruct (load_Some _ _ _ Ht) as (p & Hp & Hhp).
  assert (Hact : active_entries st = ht_entries t) by (by apply scope_entries_load).
  assert (Hin : id ∈ ht_keys t).
  { apply has_key_spec. by rewrite <- Hact. }
  unfold open_subroutine. rewrite Hp. simpl. rewrite <- Hp, Ht. simpl.
  rewrite (ht_insert_exists t id prop Wt Hin). simpl.
  assert (E : store (heap st) p t = heap st) by (by apply list_insert_id).
  rewrite E. by destruct st.
Qed.

Lemma open_subroutine_duplicate_witness :
  open_subroutine "g" proc_prop (default symtab_zero example_global)
    = Some (false, default symtab_zero example_global).
Proof.
  apply open_subroutine_duplicate.
  - apply symtab_ok_sound. reflexivity.
  - reflexivity.
Defined.

(** X9.  [close_subroutine] with a subroutine scope open frees the
    subroutine's table and makes the saved table current again: every
    name of that table, variable or callable, is found, the names that
    were only in the subroutine's table are not, and the slot counter
    keeps the value the subroutine left. *)
Theorem close_subroutine_restores (st : SymTab) :
  symtab_wf st -> subroutine_open st = true ->
  exists st',
    close_subroutine st = Some st'
    /\ symtab_wf st'
    /\ table st' = saved_table st /\ saved_table st' = saved_table st
    /\ load (heap st') (table st) = None
    /\ active_entries st' = global_entries st
    /\ get_variables_width st' = get_variables_width st
    /\ forall n, find_name n st' =
         Some (match entry_of n (global_entries st) with
               | Some v => (true, Some v)
               | None => (false, None)
               end).
Proof.
  intros W Hopen.
  pose proof W as [(t & Ht & Wt) Hs].
  destruct (load_Some _ _ _ Ht) as (p & Hp & Hhp).
  unfold subroutine_open in Hopen. rewrite Hp in Hopen.
  destruct (saved_table st) as [q|] eqn:Hq; [|done].
  apply negb_true_iff, Nat.eqb_neq in Hopen.
  destruct Hs as (g & Hg & Wg).
  set (st' := mk_symtab (<[p := None]> (heap st)) (Some q) (Some q) (curr_offset st)).
  assert (Hrun : close_subroutine st = Some st').
  { unfold close_subroutine. rewrite Hp. simpl. rewrite <- Hp, Ht. simpl.
    by rewrite Hq. }
  assert (Hlq : load (heap st') (Some q) = Some g).
  { unfold load in *. simpl in *. by rewrite list_lookup_insert_ne. }
  assert (W' : symtab_wf st') by (split; simpl; by exists g).
  assert (Hact' : active_entries st' = global_entries st).
  { unfold active_entries, global_entries. rewrite Hq.
    change (table st') with (Some q).
    by rewrite (scope_entries_load _ _ g Hlq), (scope_entries_load _ _ g Hg). }
  exists st'. split_and!; try done.
  - rewrite Hp. unfold load. simpl.
    rewrite list_lookup_insert_eq; [done|]. by eapply lookup_lt_Some.
  - intros n. rewrite (find_name_spec st' n W'), Hact'.
    destruct (entry_of n (global_entries st)) eqn:E; [done|].
    assert (Hglob' : global_entries st' = global_entries st).
    { unfold global_entries. rewrite Hq. change (saved_table st') with (Some q).
      by rewrite (scope_entries_load _ _ g Hlq), (scope_entries_load _ _ g Hg). }
    by rewrite Hglob', E.
Qed.

Lemma close_subroutine_restores_witness :
  exists st',
    close_subroutine (default symtab_zero example_in_scope) = Some st'
    /\ find_name "g" st' = Some (true, Some (with_offset int_var 1))
    /\ find_name "a" st' = Some (false, None)
    /\ get_variables_width st' = 2.
Proof.
  destruct (close_subroutine_restores (default symtab_zero example_in_scope))
    as (st' & Hrun & _ & _ & _ & _ & _ & Hw & Hf).
  - apply symtab_ok_sound. reflexivity.
  - reflexivity.
  - exists st'. split; [exact Hrun|].
    split; [rewrite Hf; reflexivity|]. split; [rewrite Hf; reflexivity|].
    rewrite Hw. reflexivity.
Defined.

(** X10.  [init_symbol_table] leaves an empty current table, no saved
    table and the slot counter at 1, whatever the state before: the
    result is well formed and no name is found in it. *)
Theorem init_symbol_table_fresh (st0 : SymTab) :
  exists st,
    init_symbol_table st0 = Some st
    /\ symtab_wf st
    /\ saved_table st = None
    /\ active_entries st = []
    /\ get_variables_width st = 1
    /\ forall n, find_name n st = Some (false, None).
Proof.
  destruct ht_init_wf as (fresh & Hinit & Wf & Hempty).
  set (st := mk_symtab (heap st0 ++ [Some fresh]) (Some (length (heap st0))) None 1).
  assert (Hl : load (heap st) (table st) = Some fresh) by apply load_app_new.
  assert (W : symtab_wf st) by (split; simpl; [by exists fresh|done]).
  assert (Hact : active_entries st = []).
  { unfold active_entries. by rewrite (scope_entries_load _ _ fresh Hl). }
  exists st. split_and!; try done.
  - unfold init_symbol_table. by rewrite Hinit.
  - intros n. by rewrite (find_name_spec st n W), Hact.
Qed.

(** ** scanner.c: words *)

Lemma string_compare_lt_trans a b c :
  String.compare a b = Lt -> String.compare b c = Lt -> String.compare a c = Lt.
Proof.
  intros Hab Hbc.
  rewrite String.compare_antisym in Hab. rewrite String.compare_antisym in Hbc.
  rewrite String.compare_antisym.
  destruct (String.compare b a) eqn:E1; try done.
  destruct (String.compare c b) eqn:E2; try done.
  by rewrite (string_compare_gt_trans c b a E2 E1).
Qed.

Lemma string_compare_flip a b : String.compare a b = Lt -> String.compare b a = Gt.
Proof.
  intros H. rewrite String.compare_antisym, H. done.
Qed.

Lemma reserved_at_nat i w :
  reserved_at i = Some w -> 0 <= i /\ reserved !! Z.to_nat i = Some w /\ i <= 22.
Proof.
  unfold reserved_at. destruct (0 <=? i) eqn:E; [|done]. intros H.
  split; [lia|]. split; [done|].
  apply lookup_lt_Some in H. change (length reserved) with 23%nat in H. lia.
Qed.

Lemma reserved_at_some i : 0 <= i <= 22 -> exists w, reserved_at i = Some w.
Proof.
  intros H. unfold reserved_at. destruct (0 <=? i) eqn:E; [|lia].
  apply lookup_lt_is_Some. change (length reserved) with 23%nat. lia.
Qed.

(** The table of reserved words is in strictly increasing order. *)
Lemma reserved_sorted i j wi wj :
  reserved_at i = Some wi -> reserved_at j = Some wj -> i < j ->
  String.compare (fst wi) (fst wj) = Lt.
Proof.
  intros Hi Hj Hlt.
  apply reserved_at_nat in Hi as (Hi0 & Hi & Hi1).
  apply reserved_at_nat in Hj as (Hj0 & Hj & Hj1).
  assert (Hall : forallb (fun a => forallb (fun b =>
            if (a <? b)%nat then
              match reserved !! a, reserved !! b with
              | Some wa, Some wb =>
                  match String.compare (fst wa) (fst wb) with Lt => true | _ => false end
              | _, _ => true
              end
            else true) (seq 0 23)) (seq 0 23) = true) by (vm_compute; reflexivity).
  rewrite forallb_forall in Hall.
  specialize (Hall (Z.to_nat i)). rewrite forallb_forall in Hall.
  specialize (Hall ltac:(apply in_seq; lia) (Z.to_nat j) ltac:(apply in_seq; lia)).
  rewrite Hi, Hj in Hall.
  destruct (Z.to_nat i <? Z.to_nat j)%nat eqn:E; [|apply Nat.ltb_ge in E; lia].
  by destruct (String.compare (fst wi) (fst wj)).
Qed.

Lemma word_search_step_down lexeme low mid high w (s : LexState) :
  (low <=? high) = true ->
  reserved_at mid = Some w ->
  String.compare lexeme (fst w) = Lt ->
  word_search_step lexeme (low, mid, high) s
    = Ok (inl (low, Z.quot (low + (mid - 1)) 2, mid - 1)) s.
Proof.
  intros Hle Hw Hlt. unfold word_search_step, strcmp. by rewrite Hle, Hw, Hlt.
Qed.

Lemma word_search_step_hit lexeme low mid high w (s : LexState) :
  (low <=? high) = true ->
  reserved_at mid = Some w ->
  String.compare lexeme (fst w) = Eq ->
  word_search_step lexeme (low, mid, high) s = Ok (inr (low, mid, high)) s.
Proof.
  intros Hle Hw Heq. unfold word_search_step, strcmp. by rewrite Hle, Hw, Heq.
Qed.

Lemma word_search_step_out lexeme low mid high (s : LexState) :
  (low <=? high) = false ->
  word_search_step lexeme (low, mid, high) s = Ok (inr (low, mid, high)) s.
Proof. intros Hle. unfold word_search_step. by rewrite Hle. Qed.

(** The loop of the search, from any point that it can reach. *)
Lemma word_search_loop lexeme (s : LexState) : forall fuel low high,
  0 <= low -> high <= 23 -> low <= high + 1 ->
  (Z.to_nat (high - low + 1) < fuel)%nat ->
  (forall i w, reserved_at i = Some w -> i < low ->
               String.compare lexeme (fst w) = Gt) ->
  (forall i w, reserved_at i = Some w -> high < i ->
               String.compare lexeme (fst w) = Lt) ->
  String.compare lexeme "write" <> Gt ->
  exists l m h,
    loop fuel (word_search_step lexeme) (low, Z.quot (low + high) 2, high) s
      = Ok (l, m, h) s
    /\ ((l <= h /\ exists t, reserved_at m = Some (lexeme, t))
        \/ (l > h /\ lexeme ∉ (fst <$> reserved))).
Proof.
  induction fuel as [|fuel IH]; intros low high Hlow Hhigh Hord Hfuel Hbelow Habove Hw;
    [lia|].
  cbn [loop]. unfold bind at 1.
  destruct (low <=? high) eqn:Hle.
  - (* a probe at [mid] *)
    apply Z.leb_le in Hle.
    set (mid := Z.quot (low + high) 2).
    assert (Hmid : low <= mid <= high /\ 2 * mid <= low + high).
    { unfold mid. rewrite Z.quot_div_nonneg by lia.
      pose proof (Z.div_mod (low + high) 2 ltac:(lia)).
      pose proof (Z.mod_pos_bound (low + high) 2 ltac:(lia)). lia. }
    assert (Hm22 : mid <= 22).
    { destruct (decide (mid = 23)) as [E|]; [|lia]. exfalso. apply Hw.
      apply (Hbelow 22 ("write", TOK_WRITE)); [reflexivity|lia]. }
    destruct (reserved_at_some mid ltac:(lia)) as [w Hwm].
    destruct (String.compare lexeme (fst w)) eqn:Hc.
    + rewrite (word_search_step_hit lexeme low mid high w s); [|lia|done|done].
      exists low, mid, high. split; [done|]. left. split; [lia|].
      apply String.compare_eq_iff in Hc. subst lexeme. exists (snd w). by destruct w.
    + rewrite (word_search_step_down lexeme low mid high w s); [|lia|done|done].
      apply IH; [lia|lia|lia|lia|done| |done].
      intros i wi Hi Hgt. destruct (decide (i = mid)) as [->|Hne].
      * rewrite Hwm in Hi. by inversion Hi; subst.
      * destruct (decide (i <= high)) as [Hih|Hih]; [|apply (Habove i wi Hi); lia].
        apply (string_compare_lt_trans _ (fst w)); [done|].
        apply (reserved_sorted mid i); [done|done|lia].
    + rewrite (word_search_step_up lexeme low mid high w s); [|lia|done|done].
      apply IH; [lia|lia|lia|lia| |done|done].
      intros i wi Hi Hlt. destruct (decide (i = mid)) as [->|Hne].
      * rewrite Hwm in Hi. by inversion Hi; subst.
      * destruct (decide (low <= i)) as [Hil|Hil]; [|apply (Hbelow i wi Hi); lia].
        apply (string_compare_gt_trans _ (fst w)); [done|].
        apply string_compare_flip. apply (reserved_sorted i mid); [done|done|lia].
  - (* the range is empty *)
    rewrite word_search_step_out by done. apply Z.leb_gt in Hle.
    eexists _, _, _. split; [reflexivity|]. right. split; [lia|].
    intros Hin. apply list_elem_of_fmap in Hin as ([w t] & Heq & Hin). simpl in Heq.
    apply list_elem_of_lookup in Hin as [i Hi].
    assert (Hat : reserved_at (Z.of_nat i) = Some (w, t)).
    { unfold reserved_at. destruct (0 <=? Z.of_nat i) eqn:E; [|apply Z.leb_gt in E; lia].
      by rewrite Nat2Z.id. }
    assert (Hne : String.compare lexeme w <> Eq).
    { destruct (decide (Z.of_nat i < low)) as [Hl|Hl].
      - pose proof (Hbelow _ _ Hat Hl) as Hc. simpl in Hc. by rewrite Hc.
      - pose proof (Habove _ _ Hat ltac:(lia)) as Hc. simpl in Hc. by rewrite Hc. }
    apply Hne. subst w. apply string_compare_refl.
Qed.

(** The search from its initial range. *)
Lemma word_search_result (lexeme : string) (s : LexState) :
  strcmp lexeme "write" <= 0 ->
  exists low mid high,
    word_search lexeme s = Ok (low, mid, high) s
    /\ ((low <= high /\ exists t, reserved_at mid = Some (lexeme, t))
        \/ (low > high /\ lexeme ∉ (fst <$> reserved))).
Proof.
  intros Hle.
  assert (Hw : String.compare lexeme "write" <> Gt).
  { intros E. unfold strcmp in Hle. rewrite E in Hle. lia. }
  unfold word_search.
  change (Z.to_nat (NUM_RESERVED_WORDS - 0 + 2)) with 25%nat.
  change NUM_RESERVED_WORDS with 23.
  apply word_search_loop; try lia; [| |done].
  - intros i w Hi Hneg. apply reserved_at_nat in Hi. lia.
  - intros i w Hi Hbig. apply reserved_at_nat in Hi. lia.
Qed.

(** X11.  For a lexeme that does not sort after the last reserved word,
    the binary search of [process_word] stays inside the table and
    decides membership: it ends either with [low <= high] and the lexeme
    at [reserved[mid]], or with [low > high] and the lexeme not in the
    table. *)
Theorem word_search_finds (lexeme : string) (s : LexState) :
  strcmp lexeme "write" <= 0 ->
  exists low mid high,
    word_search lexeme s = Ok (low, mid, high) s
    /\ ((low <= high /\ exists t, reserved_at mid = Some (lexeme, t))
        \/ (low > high /\ lexeme ∉ (fst <$> reserved))).
Proof. apply word_search_result. Qed.

Lemma word_search_finds_witness :
  (exists low mid high,
     word_search "then" lex_zero = Ok (low, mid, high) lex_zero
     /\ ((low <= high /\ exists t, reserved_at mid = Some ("then", t))
         \/ (low > high /\ "then" ∉ (fst <$> reserved))))
  /\ (exists low mid high,
        word_search "count" lex_zero = Ok (low, mid, high) lex_zero
        /\ ((low <= high /\ exists t, reserved_at mid = Some ("count", t))
            \/ (low > high /\ "count" ∉ (fst <$> reserved)))).
Proof.
  split.
  - apply (word_search_finds "then" lex_zero). by vm_compute.
  - apply (word_search_finds "count" lex_zero). by vm_compute.
Defined.

Lemma code_of_range c : 0 <= code_of c <= 255.
Proof.
  unfold code_of. pose proof (N_ascii_bounded c). lia.
Qed.

Lemma char_of_code c : char_of (code_of c) = c.
Proof.
  unfold char_of. rewrite Z.mod_small by (pose proof (code_of_range c); lia).
  unfold code_of. rewrite N2Z.id. apply ascii_N_embedding.
Qed.

Lemma next_char_col s s' :
  next_char s = Ok tt s' -> col (position s') = col (position s).
Proof.
  unfold next_char. destruct (src s); intros [= <-]; simpl; [done|].
  by destruct (last_read s =? 10).
Qed.

Lemma reading_ends_word rest s :
  ends_word rest = true -> reading rest s -> is_word_char (ch s) = false.
Proof.
  destruct rest as [|c rest]; simpl; intros He [-> _]; [reflexivity|].
  by apply negb_true_iff.
Qed.

Lemma keyword_at mid w t : reserved_at mid = Some (w, t) -> keyword w = Some t.
Proof.
  intros H. apply reserved_at_nat in H as (_ & H & _).
  revert H. generalize (Z.to_nat mid) as n. intros n H.
  do 23 (destruct n as [|n]; [by inversion H|]). done.
Qed.

Lemma keyword_none w : w ∉ (fst <$> reserved) -> keyword w = None.
Proof.
  unfold keyword. induction reserved as [|[w' t] l IH]; simpl; [done|].
  intros Hn. apply not_elem_of_cons in Hn as [Hne Hn].
  destruct (String.eqb w w') eqn:E; [by apply String.eqb_eq in E|by apply IH].
Qed.

Section Words.

Context (MAX_ID_LENGTH : Z).

(** The loop of [process_word] over the index and the buffer. *)
Local Abbreviation word_loop fuel :=
  (while_ fuel (fun _ s => isdigit (ch s) || isalpha (ch s) || (ch s =? 95))
     (fun '(i, lexeme) =>
        (if i =? MAX_ID_LENGTH then leprintf "identifier too long" else ret tt) >>
        let* c := gets ch in
        next_char >>
        ret (i + 1, (lexeme ++ String (char_of c) EmptyString)%string))).

Lemma string_app_assoc_char (acc : string) c w :
  ((acc ++ String c EmptyString) ++ w)%string = (acc ++ String c w)%string.
Proof. induction acc as [|a acc IH]; simpl; [done|]. by rewrite IH. Qed.

Lemma string_app_nil (acc : string) : (acc ++ "")%string = acc.
Proof. induction acc as [|a acc IH]; simpl; [done|]. by rewrite IH. Qed.

Lemma word_loop_spec w : forall rest s i acc fuel,
  reading (w ++ rest) s -> all_word_chars w = true -> ends_word rest = true ->
  (String.length w < fuel)%nat ->
  MAX_ID_LENGTH < i \/ i + Z.of_nat (String.length w) <= MAX_ID_LENGTH ->
  exists s',
    word_loop fuel (i, acc) s
      = Ok (i + Z.of_nat (String.length w), (acc ++ w)%string) s'
    /\ reading rest s' /\ token s' = token s
    /\ col (position s') = col (position s).
Proof.
  induction w as [|c w IH]; intros rest s i acc fuel Hr Hw He Hfuel Hlen;
    (destruct fuel as [|fuel]; [simpl in Hfuel; lia|]).
  - simpl in Hr. rewrite while_unfold.
    pose proof (reading_ends_word rest s He Hr) as Hc. unfold is_word_char in Hc.
    rewrite Hc. exists s. rewrite string_app_nil. simpl.
    replace (i + Z.of_nat 0) with i by lia. done.
  - simpl in Hw. apply andb_true_iff in Hw as [Hc Hw].
    change (String c w ++ rest)%string with (String c (w ++ rest)) in Hr.
    destruct (next_char_step _ c s Hr) as (s1 & Hn & Hr1 & Ht1).
    pose proof (next_char_col s s1 Hn) as Hcol.
    destruct Hr as [Hch _].
    rewrite while_unfold. unfold is_word_char in Hc. rewrite Hch, Hc.
    simpl String.length in *.
    assert (Hi : (i =? MAX_ID_LENGTH) = false) by (apply Z.eqb_neq; lia).
    unfold bind at 1. rewrite Hi. unfold ret at 1. unfold bind at 1. unfold gets at 1.
    unfold bind at 1. rewrite Hn. unfold ret at 1. rewrite Hch, char_of_code.
    destruct (IH rest s1 (i + 1) (acc ++ String c EmptyString)%string fuel Hr1 Hw He
                ltac:(lia) ltac:(lia)) as (s' & Hrun & Hr' & Ht' & Hcol').
    exists s'. rewrite Hrun, string_app_assoc_char.
    replace (i + 1 + Z.of_nat (String.length w))
      with (i + Z.of_nat (S (String.length w))) by lia.
    split; [done|]. split; [done|]. split; congruence.
Qed.

Lemma word_loop_long w : forall rest s i acc fuel,
  reading (w ++ rest) s -> all_word_chars w = true ->
  (String.length w < fuel)%nat ->
  i <= MAX_ID_LENGTH < i + Z.of_nat (String.length w) ->
  exists pos,
    word_loop fuel (i, acc) s = Fatal pos (Message "identifier too long")
    /\ col pos = col (position s).
Proof.
  induction w as [|c w IH]; intros rest s i acc fuel Hr Hw Hfuel Hlen;
    (destruct fuel as [|fuel]; [simpl in Hfuel; lia|]); [simpl in Hlen; lia|].
  simpl in Hw. apply andb_true_iff in Hw as [Hc Hw].
  change (String c w ++ rest)%string with (String c (w ++ rest)) in Hr.
  destruct (next_char_step _ c s Hr) as (s1 & Hn & Hr1 & Ht1).
  pose proof (next_char_col s s1 Hn) as Hcol.
  destruct Hr as [Hch _].
  rewrite while_unfold. unfold is_word_char in Hc. rewrite Hch, Hc.
  simpl String.length in *.
  unfold bind at 1.
  destruct (i =? MAX_ID_LENGTH) eqn:Hi.
  - exists (position s). done.
  - apply Z.eqb_neq in Hi.
    unfold ret at 1. unfold bind at 1. unfold gets at 1.
    unfold bind at 1. rewrite Hn. unfold ret at 1.
    destruct (IH rest s1 (i + 1) (acc ++ String (char_of (ch s)) EmptyString)%string
                fuel Hr1 Hw ltac:(lia) ltac:(lia)) as (pos & Hrun & Hcol').
    exists pos. rewrite Hrun. split; [done|congruence].
Qed.

End Words.

Lemma reading_fuel w rest s :
  reading (w ++ rest) s -> (String.length w < input_fuel s)%nat.
Proof.
  unfold input_fuel. destruct w as [|c w]; simpl; [lia|].
  intros [_ ->]. rewrite string_length_app. lia.
Qed.

(** X12.  [process_word] on a word of at most [MAX_ID_LENGTH] characters
    that does not sort after the last reserved word: the word is read to
    its end, a reserved word yields its own token type and leaves the
    payload of the token alone, any other word yields an identifier
    token whose lexeme is the word, and the token position is the column
    where the word starts. *)
Theorem process_word_classifies (MAX_ID_LENGTH : Z) (w rest : string) (s : LexState) :
  reading (w ++ rest) s ->
  all_word_chars w = true -> ends_word rest = true ->
  Z.of_nat (String.length w) <= MAX_ID_LENGTH ->
  strcmp w "write" <= 0 ->
  exists s',
    process_word MAX_ID_LENGTH s = Ok tt s'
    /\ reading rest s'
    /\ col (position s') = column_number s
    /\ match keyword w with
       | Some t => tok_type (token s') = t
                   /\ tok_payload (token s') = tok_payload (token s)
       | None => tok_type (token s') = TOK_ID /\ tok_lexeme (token s') = Some w
       end.
Proof.
  intros Hr Hw He Hlen Hle.
  set (s1 := lex_set_col (column_number s) s).
  assert (Hr1 : reading (w ++ rest) s1) by exact Hr.
  destruct (word_loop_spec MAX_ID_LENGTH w rest s1 0 EmptyString (input_fuel s1) Hr1 Hw He
              (reading_fuel w rest s1 Hr1) ltac:(lia))
    as (s2 & Hloop & Hr2 & Ht2 & Hc2).
  destruct (word_search_result w s2 Hle) as (low & mid & high & Hs & Hres).
  unfold process_word. unfold bind at 1, gets at 1.
  unfold bind at 1, modify at 1. fold s1. unfold bind at 1, gets at 1.
  rewrite (bind_ok _ _ _ _ _ Hloop). simpl. rewrite (bind_ok _ _ _ _ _ Hs).
  destruct Hres as [[Hlh (t & Hat)]|[Hlh Hnot]].
  - assert (Hgt : (low >? high) = false) by lia. rewrite Hgt, Hat.
    eexists. split; [reflexivity|]. rewrite (keyword_at mid w t Hat).
    split; [by destruct rest|]. simpl. split; [exact Hc2|].
    split; [done|]. by rewrite Ht2.
  - assert (Hgt : (low >? high) = true) by lia. rewrite Hgt.
    eexists. split; [reflexivity|]. rewrite (keyword_none w Hnot).
    split; [by destruct rest|]. simpl. split; [exact Hc2|]. done.
Qed.

Lemma process_word_classifies_witness :
  exists s1 s2,
    process_word 32 (mk_lex "hile v" 119 1 119 (mk_pos 1 1) (token lex_zero))
      = Ok tt s1
    /\ tok_type (token s1) = TOK_WHILE
    /\ process_word 32 (mk_lex "alue;" 118 1 118 (mk_pos 1 1) (token lex_zero))
       = Ok tt s2
    /\ tok_type (token s2) = TOK_ID /\ tok_lexeme (token s2) = Some "value".
Proof.
  destruct (process_word_classifies 32 "while" " v"
              (mk_lex "hile v" 119 1 119 (mk_pos 1 1) (token lex_zero)))
    as (s1 & H1 & _ & _ & Hk1); [done|done|done|simpl; lia|by vm_compute|].
  destruct (process_word_classifies 32 "value" ";"
              (mk_lex "alue;" 118 1 118 (mk_pos 1 1) (token lex_zero)))
    as (s2 & H2 & _ & _ & Hk2); [done|done|done|simpl; lia|by vm_compute|].
  exists s1, s2. split; [exact H1|].
  split; [exact (proj1 Hk1)|]. split; [exact H2|]. exact Hk2.
Defined.

(** X13.  [process_word] on a word of more than [MAX_ID_LENGTH]
    characters stops with the fatal error "identifier too long",
    reported at the column where the word starts. *)
Theorem process_word_too_long (MAX_ID_LENGTH : Z) (w rest : string) (s : LexState) :
  reading (w ++ rest) s ->
  all_word_chars w = true ->
  0 <= MAX_ID_LENGTH < Z.of_nat (String.length w) ->
  exists pos,
    process_word MAX_ID_LENGTH s = Fatal pos (Message "identifier too long")
    /\ col pos = column_number s.
Proof.
  intros Hr Hw Hlen.
  set (s1 := lex_set_col (column_number s) s).
  assert (Hr1 : reading (w ++ rest) s1) by exact Hr.
  destruct (word_loop_long MAX_ID_LENGTH w rest s1 0 EmptyString (input_fuel s1) Hr1 Hw
              (reading_fuel w rest s1 Hr1) ltac:(lia))
    as (pos & Hloop & Hc).
  exists pos. split; [|exact Hc].
  unfold process_word. unfold bind at 1, gets at 1.
  unfold bind at 1, modify at 1. fold s1. unfold bind at 1, gets at 1.
  unfold bind at 1. by rewrite Hloop.
Qed.

Lemma process_word_too_long_witness :
  exists pos,
    process_word 4 (mk_lex "ount + 1" 99 7 99 (mk_pos 1 1) (token lex_zero))
      = Fatal pos (Message "identifier too long")
    /\ col pos = 7.
Proof.
  apply (process_word_too_long 4 "count" " + 1"
           (mk_lex "ount + 1" 99 7 99 (mk_pos 1 1) (token lex_zero)));
    [done|done|simpl; lia].
Defined.
(** ** scanner.c: strings *)

(** One round of the loop of [process_string]. *)
Local Abbreviation string_round start_pos :=
  (fun v : nat * nat * Buffer =>
     let '(i, nstring0, str0) := v in
     let nstring := if (i =? nstring0)%nat then (nstring0 * 2)%nat else nstring0 in
     let str := if (i =? nstring0)%nat then realloc str0 nstring else str0 in
     let* c := gets ch in
     if c =? EOF then
       modify (lex_set_position start_pos) >> leprintf "string not closed"
     else if c =? 34 then
       next_char >> ret (inr str)
     else if c =? 92 then
       next_char >>
       let* c2 := gets ch in
       if (c2 =? 110) || (c2 =? 116) || (c2 =? 34) || (c2 =? 92) then
         let* str1 := store_char str i 92 in
         let* str2 := store_char str1 (i + 1) c2 in
         next_char >>
         ret (inl (i + 1 + 1, nstring, str2)%nat)
       else
         let* column2 := gets column_number in
         modify (lex_set_col (column2 - 1)) >>
         leprintf ("illegal escape code '\" ++ String (char_of c2) "' in string")
     else if isascii c && isprint c then
       let* str1 := store_char str i c in
       next_char >> ret (inl (i + 1, nstring, str1)%nat)
     else
       let* column2 := gets column_number in
       modify (lex_set_col column2) >>
       leprintf ("non-printable character (ASCII #" ++ string_of_Z c ++ ") in string")).

Lemma string_app_assoc_two (acc : string) c1 c2 w :
  ((acc ++ String c1 (String c2 EmptyString)) ++ w)%string
  = (acc ++ String c1 (String c2 w))%string.
Proof. induction acc as [|a acc IH]; simpl; [done|]. by rewrite IH. Qed.

Lemma loop_unfold {S A B} n (body : A -> M S (A + B)) a s :
  loop (Datatypes.S n) body a s =
    match body a s with
    | Ok (inl a') s' => loop n body a' s'
    | Ok (inr b) s' => Ok b s'
    | Fatal pos e => Fatal pos e
    | Undef w => Undef w
    | OutOfFuel => OutOfFuel
    end.
Proof.
  cbn [loop]. unfold bind. destruct (body a s) as [[a'|b] s'| | |]; reflexivity.
Qed.

Lemma cells_length text : length (cells text) = String.length text.
Proof. induction text as [|c text IH]; simpl; [done|]. by rewrite IH. Qed.

Lemma cells_app a b : cells (a ++ b) = cells a ++ cells b.
Proof. induction a as [|c a IH]; simpl; [done|]. by rewrite IH. Qed.

Lemma filled_length n text :
  (String.length text <= n)%nat -> length (filled n text) = n.
Proof.
  intros H. unfold filled. rewrite length_app, cells_length, length_replicate. lia.
Qed.

(** Storing the next character of an array that is filled up to it. *)
Lemma store_char_filled {S} n text c (s : S) :
  (String.length text < n)%nat ->
  store_char (filled n text) (String.length text) (code_of c) s
  = Ok (filled n (text ++ String c EmptyString)) s.
Proof.
  intros H. unfold store_char. rewrite filled_length by lia.
  destruct (String.length text <? n)%nat eqn:E; [|apply Nat.ltb_ge in E; lia].
  unfold ret. f_equal. unfold filled, Buffer.
  rewrite insert_app_r_alt by (rewrite cells_length; lia).
  rewrite cells_length, Nat.sub_diag, cells_app, string_length_app. simpl.
  destruct (n - String.length text)%nat as [|k] eqn:Ek; [lia|].
  replace (n - (String.length text + 1))%nat with k by lia.
  simpl. by rewrite char_of_code, <- app_assoc.
Qed.

Section StringLoop.

Context (N : nat) (start_pos : SourcePos).

(** A round on a character that is copied. *)
Lemma string_round_plain acc c s s1 :
  (String.length acc < N)%nat ->
  reading_char c s -> is_plain_char (code_of c) = true ->
  next_char s = Ok tt s1 ->
  string_round start_pos (String.length acc, N, filled N acc) s
  = Ok (inl (String.length (acc ++ String c ""), N, filled N (acc ++ String c "")))
       s1.
Proof.
  unfold reading_char. intros Hfit Hch Hp Hn1. cbv beta iota.
  assert (Hi : (String.length acc =? N)%nat = false) by (apply Nat.eqb_neq; lia).
  rewrite Hi. cbv iota zeta.
  pose proof (code_of_range c) as Hrange.
  unfold bind at 1, gets at 1. rewrite Hch.
  assert (Heof : (code_of c =? EOF) = false) by (unfold EOF; lia).
  rewrite Heof. unfold is_plain_char in Hp.
  apply andb_true_iff in Hp as [Hp Hprint].
  apply andb_true_iff in Hp as [Hp Hascii].
  apply andb_true_iff in Hp as [Hq Hbs].
  apply negb_true_iff in Hq. apply negb_true_iff in Hbs.
  rewrite Hq, Hbs, Hascii, Hprint. change (true && true) with true. cbv iota.
  rewrite (bind_ok _ _ _ _ _ (store_char_filled N acc c s ltac:(lia))).
  rewrite (bind_ok _ _ _ _ _ Hn1). unfold ret.
  by rewrite string_length_app.
Qed.

(** A round on an escape pair. *)
Lemma string_round_escape acc c c2 s s1 s2 :
  (String.length acc + 1 < N)%nat ->
  reading_char c s -> code_of c = 92 -> next_char s = Ok tt s1 ->
  reading_char c2 s1 -> is_escape_char (code_of c2) = true ->
  next_char s1 = Ok tt s2 ->
  string_round start_pos (String.length acc, N, filled N acc) s
  = Ok (inl (String.length (acc ++ String c (String c2 "")), N,
             filled N (acc ++ String c (String c2 ""))))
       s2.
Proof.
  unfold reading_char. intros Hfit Hch Hbs Hn1 Hch1 He Hn2. cbv beta iota.
  assert (Hi : (String.length acc =? N)%nat = false) by (apply Nat.eqb_neq; lia).
  rewrite Hi. cbv iota zeta.
  unfold bind at 1, gets at 1. rewrite Hch, Hbs.
  change (92 =? EOF) with false. change (92 =? 34) with false.
  change (92 =? 92) with true. cbv iota.
  rewrite (bind_ok _ _ _ _ _ Hn1). unfold bind at 1, gets at 1.
  rewrite Hch1. unfold is_escape_char in He. rewrite He.
  pose proof (store_char_filled N acc c s1 ltac:(lia)) as Hst1.
  rewrite Hbs in Hst1. rewrite (bind_ok _ _ _ _ _ Hst1).
  replace (String.length acc + 1)%nat
    with (String.length (acc ++ String c EmptyString)%string)
    by (rewrite string_length_app; simpl; lia).
  rewrite (bind_ok _ _ _ _ _
             (store_char_filled N (acc ++ String c EmptyString)%string c2 s1
                ltac:(rewrite string_length_app; simpl; lia))).
  rewrite (bind_ok _ _ _ _ _ Hn2). unfold ret.
  rewrite string_app_assoc_char. do 4 f_equal.
  rewrite !string_length_app. simpl. lia.
Qed.

(** A run of the loop over text that belongs to the literal and fits
    the array. *)
Lemma string_loop_prefix n : forall body tail s acc fuel,
  (String.length body <= n)%nat ->
  reading (body ++ tail) s -> string_text body = true ->
  (String.length body < fuel)%nat ->
  (String.length acc + String.length body <= N)%nat ->
  exists fuel' s',
    (0 < fuel')%nat
    /\ loop fuel (string_round start_pos) (String.length acc, N, filled N acc) s
       = loop fuel' (string_round start_pos)
           (String.length (acc ++ body), N, filled N (acc ++ body)%string) s'
    /\ reading tail s' /\ token s' = token s.
Proof.
  induction n as [|n IH]; intros body tail s acc fuel Hn Hr Hb Hfuel Hfit.
  - destruct body; [|simpl in Hn; lia]. exists fuel, s.
    rewrite string_app_nil. simpl in Hfuel. done.
  - destruct body as [|c body].
    { exists fuel, s. rewrite string_app_nil. simpl in Hfuel. done. }
    destruct fuel as [|fuel]; [simpl in Hfuel; lia|].
    change (String c body ++ tail)%string with (String c (body ++ tail)) in Hr.
    destruct (next_char_step _ c s Hr) as (s1 & Hn1 & Hr1 & Ht1).
    assert (Hch : reading_char c s) by (by destruct Hr).
    simpl in Hb, Hfit. rewrite loop_unfold.
    destruct (code_of c =? 92) eqn:Hbs.
    + (* an escape pair *)
      destruct body as [|c2 body]; [done|].
      apply andb_true_iff in Hb as [He Hb].
      change (String c2 body ++ tail)%string with (String c2 (body ++ tail)) in Hr1.
      destruct (next_char_step _ c2 s1 Hr1) as (s2 & Hn2 & Hr2 & Ht2).
      assert (Hch1 : reading_char c2 s1) by (by destruct Hr1).
      simpl in Hn, Hfuel, Hfit. apply Z.eqb_eq in Hbs.
      rewrite (string_round_escape acc c c2 s s1 s2 ltac:(lia) Hch Hbs Hn1 Hch1 He Hn2).
      destruct (IH body tail s2 (acc ++ String c (String c2 ""))%string
                  fuel ltac:(lia) Hr2 Hb ltac:(lia)
                  ltac:(rewrite string_length_app; simpl; lia))
        as (fuel' & s' & Hf & Hrun & Hr' & Ht').
      exists fuel', s'. rewrite Hrun, string_app_assoc_two.
      split; [done|]. split; [done|]. split; [done|congruence].
    + (* a plain character *)
      apply andb_true_iff in Hb as [Hp Hb].
      simpl in Hn, Hfuel.
      rewrite (string_round_plain acc c s s1 ltac:(lia) Hch Hp Hn1).
      destruct (IH body tail s1 (acc ++ String c "")%string
                  fuel ltac:(lia) Hr1 Hb ltac:(lia)
                  ltac:(rewrite string_length_app; simpl; lia))
        as (fuel' & s' & Hf & Hrun & Hr' & Ht').
      exists fuel', s'. rewrite Hrun, string_app_assoc_char.
      split; [done|]. split; [done|]. split; [done|congruence].
Qed.

End StringLoop.

Lemma process_string_run s :
  process_string s =
    match loop (input_fuel s)
            (string_round (mk_pos (line (position s)) (column_number s - 1)))
            (0%nat, MAX_INITIAL_STRLEN, malloc MAX_INITIAL_STRLEN) s with
    | Ok str s2 =>
        Ok tt (lex_set_token (tok_set_string str (tok_set_type TOK_STR (token s2))) s2)
    | Fatal pos e => Fatal pos e
    | Undef w => Undef w
    | OutOfFuel => OutOfFuel
    end.
Proof. reflexivity. Qed.

Lemma malloc_filled n : malloc n = filled n EmptyString.
Proof. unfold malloc, filled. simpl. by rewrite Nat.sub_0_r. Qed.

(** The loop of [process_string] from its start over the text [body]. *)
Lemma string_loop_body body tail s :
  reading (body ++ tail) s -> string_text body = true ->
  (String.length body <= MAX_INITIAL_STRLEN)%nat ->
  exists fuel' s',
    loop (input_fuel s)
      (string_round (mk_pos (line (position s)) (column_number s - 1)))
      (0%nat, MAX_INITIAL_STRLEN, malloc MAX_INITIAL_STRLEN) s
    = loop (S fuel')
        (string_round (mk_pos (line (position s)) (column_number s - 1)))
        (String.length body, MAX_INITIAL_STRLEN, filled MAX_INITIAL_STRLEN body) s'
    /\ reading tail s' /\ token s' = token s.
Proof.
  intros Hr Hb Hfit.
  destruct (string_loop_prefix MAX_INITIAL_STRLEN
              (mk_pos (line (position s)) (column_number s - 1))
              (String.length body) body tail s EmptyString
              (input_fuel s) ltac:(lia) Hr Hb (reading_fuel _ _ s Hr) Hfit)
    as (fuel' & s1 & Hf & Hrun & Hr1 & Ht1).
  destruct fuel' as [|fuel']; [lia|].
  exists fuel', s1. rewrite malloc_filled. done.
Qed.

(** The characters of a literal are not NUL, so reading the array as a
    C string runs into the first cell that holds nothing. *)
Lemma c_string_cells n : forall body rest,
  (String.length body <= n)%nat -> string_text body = true ->
  c_string (cells body ++ None :: rest) = None.
Proof.
  induction n as [|n IH]; intros body rest Hn Hb.
  - destruct body; [done|simpl in Hn; lia].
  - destruct body as [|c body]; [done|].
    simpl in Hb, Hn. cbn [cells app c_string].
    destruct (code_of c =? 92) eqn:Hbs.
    + destruct body as [|c2 body]; [done|].
      apply andb_true_iff in Hb as [He Hb]. simpl in Hn.
      assert (H1 : N.eqb (N_of_ascii c) 0 = false).
      { apply N.eqb_neq. unfold code_of in Hbs. lia. }
      assert (H2 : N.eqb (N_of_ascii c2) 0 = false).
      { apply N.eqb_neq. unfold is_escape_char, code_of in He. lia. }
      cbn [cells app c_string]. rewrite H1, H2, (IH body rest ltac:(lia) Hb). done.
    + apply andb_true_iff in Hb as [Hp Hb].
      assert (H1 : N.eqb (N_of_ascii c) 0 = false).
      { apply N.eqb_neq. unfold is_plain_char, isprint, code_of in Hp. lia. }
      rewrite H1, (IH body rest ltac:(lia) Hb). done.
Qed.

Lemma c_string_filled n body :
  (String.length body < n)%nat -> string_text body = true ->
  c_string (filled n body) = None.
Proof.
  intros Hn Hb. unfold filled.
  destruct (n - String.length body)%nat as [|k] eqn:E; [lia|].
  simpl. by apply (c_string_cells (String.length body)).
Qed.

Lemma realloc_filled n body :
  String.length body = n -> realloc (filled n body) (n * 2) = filled (n * 2) body.
Proof.
  intros H. unfold realloc. rewrite filled_length by lia. unfold filled.
  rewrite H, Nat.sub_diag. simpl. rewrite app_nil_r.
  by replace (n * 2 - n)%nat with n by lia.
Qed.

(** X14.  [process_string] on a literal's text up to its closing quote,
    made of printable characters and of the escapes backslash-n,
    backslash-t, backslash-quote and backslash-backslash, and short
    enough for the array as first allocated.  The token is a string
    token whose array holds the source text between the quotes in its
    first cells, character for character, the escapes kept as two
    characters each; no other cell is written.  The array has
    [MAX_INITIAL_STRLEN] cells, or twice as many when the text has
    exactly that many characters, so a cell follows the text, and
    nothing is stored in it: the array carries no terminating NUL, and
    what it is when read as a C string is not defined.  The scanner
    stands behind the closing quote.

    The second store of an escape is not tested against the size: when
    the backslash goes into the last cell, the character after it is
    stored outside the array. *)
Theorem process_string_verbatim (body rest : string) (s : LexState) :
  string_text body = true ->
  (reading (body ++ String (char_of 34) rest) s ->
   (String.length body <= MAX_INITIAL_STRLEN)%nat ->
   let n := if (String.length body =? MAX_INITIAL_STRLEN)%nat
            then (MAX_INITIAL_STRLEN * 2)%nat else MAX_INITIAL_STRLEN in
   exists s',
     process_string s = Ok tt s'
     /\ tok_type (token s') = TOK_STR
     /\ tok_string (token s') = Some (filled n body)
     /\ (String.length body < n)%nat
     /\ c_string (filled n body) = None
     /\ reading rest s')
  /\ (forall c,
        reading (body ++ String (char_of 92) (String c rest)) s ->
        is_escape_char (code_of c) = true ->
        (String.length body + 1)%nat = MAX_INITIAL_STRLEN ->
        process_string s = Undef "character stored outside the array").
Proof.
  intros Hb. split.
  - intros Hr Hfit n.
    destruct (string_loop_body body _ s Hr Hb Hfit) as (fuel' & s1 & Hrun & Hr1 & Ht1).
    destruct (next_char_step _ _ s1 Hr1) as (s2 & Hn2 & Hr2 & Ht2).
    assert (Hch : ch s1 = 34) by (by destruct Hr1).
    rewrite process_string_run, Hrun, loop_unfold. cbv beta iota zeta.
    unfold bind at 1, gets at 1. rewrite Hch.
    change (34 =? EOF) with false. change (34 =? 34) with true. cbv iota.
    rewrite (bind_ok _ _ _ _ _ Hn2). unfold ret at 1.
    assert (Hstr : (if (String.length body =? MAX_INITIAL_STRLEN)%nat
                    then realloc (filled MAX_INITIAL_STRLEN body)
                           (if (String.length body =? MAX_INITIAL_STRLEN)%nat
                            then (MAX_INITIAL_STRLEN * 2)%nat
                            else MAX_INITIAL_STRLEN)
                    else filled MAX_INITIAL_STRLEN body) = filled n body).
    { subst n. destruct (String.length body =? MAX_INITIAL_STRLEN)%nat eqn:E; [|done].
      apply Nat.eqb_eq in E. by apply realloc_filled. }
    rewrite Hstr.
    assert (Hlt : (String.length body < n)%nat).
    { subst n. destruct (String.length body =? MAX_INITIAL_STRLEN)%nat eqn:E.
      - apply Nat.eqb_eq in E. unfold MAX_INITIAL_STRLEN in *. lia.
      - apply Nat.eqb_neq in E. lia. }
    eexists. split; [reflexivity|].
    split; [done|]. split; [done|]. split; [exact Hlt|].
    split; [by apply c_string_filled|]. by destruct rest.
  - intros c Hr He Hlen.
    destruct (string_loop_body body _ s Hr Hb ltac:(lia)) as (fuel' & s1 & Hrun & Hr1 & Ht1).
    destruct (next_char_step _ _ s1 Hr1) as (s2 & Hn2 & Hr2 & Ht2).
    assert (Hch : ch s1 = 92) by (by destruct Hr1).
    assert (Hch2 : ch s2 = code_of c) by (by destruct Hr2).
    rewrite process_string_run, Hrun, loop_unfold. cbv beta iota.
    assert (Hi : (String.length body =? MAX_INITIAL_STRLEN)%nat = false)
      by (apply Nat.eqb_neq; lia).
    rewrite Hi. cbv iota zeta.
    unfold bind at 1, gets at 1. rewrite Hch.
    change (92 =? EOF) with false. change (92 =? 34) with false.
    change (92 =? 92) with true. cbv iota.
    rewrite (bind_ok _ _ _ _ _ Hn2). unfold bind at 1, gets at 1.
    rewrite Hch2. unfold is_escape_char in He. rewrite He.
    pose proof (store_char_filled MAX_INITIAL_STRLEN body (char_of 92) s2 ltac:(lia))
      as Hst1.
    change (code_of (char_of 92)) with 92 in Hst1.
    rewrite (bind_ok _ _ _ _ _ Hst1).
    unfold store_char at 1.
    rewrite filled_length by (rewrite string_length_app; simpl; lia).
    assert (Hout : (String.length body + 1 <? MAX_INITIAL_STRLEN)%nat = false)
      by (apply Nat.ltb_ge; lia).
    rewrite Hout. reflexivity.
Qed.

Lemma process_string_verbatim_witness :
  (exists s',
     process_string
       (mk_lex ("i\n" ++ String (char_of 34) " & x") 104 8 104 (mk_pos 1 7)
          (token lex_zero))
       = Ok tt s'
     /\ tok_string (token s') = Some (filled 1024 "hi\n")
     /\ c_string (filled 1024 "hi\n") = None
     /\ reading " & x" s')
  /\ process_string
       (mk_lex (string_of_list_ascii (replicate 1022 "a"%char) ++ "\n" ++
                String (char_of 34) "")
          97 8 97 (mk_pos 1 7) (token lex_zero))
     = Undef "character stored outside the array".
Proof.
  split.
  - destruct (proj1 (process_string_verbatim "hi\n" " & x"
                (mk_lex ("i\n" ++ String (char_of 34) " & x") 104 8 104 (mk_pos 1 7)
                   (token lex_zero)) eq_refl))
      as (s' & Hrun & _ & Hstr & _ & Hc & Hrest);
      [split; reflexivity|unfold MAX_INITIAL_STRLEN; simpl; lia|].
    exists s'. split; [exact Hrun|]. split; [exact Hstr|]. split; [exact Hc|exact Hrest].
  - apply (proj2 (process_string_verbatim
                    (string_of_list_ascii (replicate 1023 "a"%char))
                    (String (char_of 34) "")
                    (mk_lex (string_of_list_ascii (replicate 1022 "a"%char) ++ "\n" ++
                             String (char_of 34) "")
                       97 8 97 (mk_pos 1 7) (token lex_zero))
                    ltac:(vm_compute; reflexivity)) "n"%char).
    + split; vm_compute; reflexivity.
    + reflexivity.
    + vm_compute. reflexivity.
Defined.



(** X16.  Inside a literal, a character that is not printable ASCII (a
    line break, a tab, a byte above 127) stops the scanner with the
    fatal error "non-printable character (ASCII #n) in string", and a
    backslash followed by a character other than n, t, the quote and the
    backslash stops it with "illegal escape code '\c' in string".  The
    text before the character is taken to fit the buffer as first
    allocated. *)
Theorem process_string_bad_character (body rest : string) (c : ascii) (s : LexState) :
  string_text body = true ->
  (String.length body <= MAX_INITIAL_STRLEN)%nat ->
  (reading (body ++ String c rest) s ->
   isascii (code_of c) && isprint (code_of c) = false ->
   exists pos,
     process_string s
       = Fatal pos (Message ("non-printable character (ASCII #"
                             ++ string_of_Z (code_of c) ++ ") in string")))
  /\ (reading (body ++ String (char_of 92) (String c rest)) s ->
      is_escape_char (code_of c) = false ->
      exists pos,
        process_string s
          = Fatal pos (Message ("illegal escape code '\" ++ String c "' in string"))).
Proof.
  intros Hb Hfit. split; intros Hr Hc.
  - destruct (string_loop_body body _ s Hr Hb Hfit) as (fuel' & s1 & Hrun & Hr1 & Ht1).
    assert (Hch : ch s1 = code_of c) by (by destruct Hr1).
    pose proof (code_of_range c) as Hrange.
    rewrite process_string_run, Hrun, loop_unfold. cbv beta iota zeta.
    unfold bind at 1, gets at 1. rewrite Hch.
    assert (Heof : (code_of c =? EOF) = false) by (unfold EOF; lia).
    assert (Hq : (code_of c =? 34) = false).
    { apply Z.eqb_neq. intros E. rewrite E in Hc. done. }
    assert (Hbs : (code_of c =? 92) = false).
    { apply Z.eqb_neq. intros E. rewrite E in Hc. done. }
    rewrite Heof, Hq, Hbs, Hc. eexists. reflexivity.
  - destruct (string_loop_body body _ s Hr Hb Hfit) as (fuel' & s1 & Hrun & Hr1 & Ht1).
    assert (Hch : ch s1 = 92) by (by destruct Hr1).
    destruct (next_char_step _ _ s1 Hr1) as (s2 & Hn2 & Hr2 & Ht2).
    assert (Hch2 : ch s2 = code_of c) by (by destruct Hr2).
    rewrite process_string_run, Hrun, loop_unfold. cbv beta iota zeta.
    unfold bind at 1, gets at 1. rewrite Hch.
    change (92 =? EOF) with false. change (92 =? 34) with false.
    change (92 =? 92) with true. cbv iota.
    rewrite (bind_ok _ _ _ _ _ Hn2). unfold bind at 1, gets at 1.
    rewrite Hch2. unfold is_escape_char in Hc. rewrite Hc, char_of_code.
    eexists. reflexivity.
Qed.

Lemma process_string_bad_character_witness :
  (exists pos,
     process_string
       (mk_lex ("i" ++ String (char_of 10) "there") 104 8 104 (mk_pos 1 7)
          (token lex_zero))
       = Fatal pos (Message "non-printable character (ASCII #10) in string"))
  /\ (exists pos,
        process_string (mk_lex "i\q" 104 8 104 (mk_pos 1 7) (token lex_zero))
          = Fatal pos (Message "illegal escape code '\q' in string")).
Proof.
  split.
  - apply (proj1 (process_string_bad_character "hi" "there" (char_of 10)
                    (mk_lex ("i" ++ String (char_of 10) "there") 104 8 104 (mk_pos 1 7)
                       (token lex_zero)) eq_refl
                    ltac:(unfold MAX_INITIAL_STRLEN; simpl; lia))); done.
  - apply (proj2 (process_string_bad_character "hi" "" "q"%char
                    (mk_lex "i\q" 104 8 104 (mk_pos 1 7) (token lex_zero)) eq_refl
                    ltac:(unfold MAX_INITIAL_STRLEN; simpl; lia)));
      done.
Defined.

(** A string literal in a program: [parse_write] hands the array of the
    token to the emitter as a C string, and the array has no
    terminator. *)
Example compile_write_string :
  compile 32
    ("program P begin write " ++ String (char_of 34) ("hi" ++ String (char_of 34) " end"))
    50
  = Undef "token.string read beyond the characters stored".
Proof. by vm_compute. Qed.
(** ** scanner.c: comments *)

(** One round of the loop of [skip_comment], over the function called
    for a nested comment. *)
Local Abbreviation comment_round nested :=
  (fun _ : unit =>
     let* c := gets ch in
     if negb (c =? EOF) then
       if c =? 42 then
         next_char >>
         let* c2 := gets ch in
         if c2 =? 41 then next_char >> ret (inr true)
         else ret (inl tt)
       else if c =? 40 then
         next_char >>
         let* c2 := gets ch in
         if c2 =? 42 then
           next_char >> nested >> ret (inl tt)
         else next_char >> ret (inl tt)
       else next_char >> ret (inl tt)
     else ret (inr false)).

Lemma skip_comment_run n s :
  skip_comment (S n) s =
    match loop n (comment_round (skip_comment n)) tt s with
    | Ok true s' => Ok tt s'
    | Ok false s' => Fatal (opening_pair s) (Message "comment not closed")
    | Fatal pos e => Fatal pos e
    | Undef w => Undef w
    | OutOfFuel => OutOfFuel
    end.
Proof.
  cbn [skip_comment]. unfold bind at 1, gets at 1. unfold bind at 1, gets at 1.
  unfold bind at 1.
  destruct (loop n (comment_round (skip_comment n)) tt s) as [[|] s'| | |]; reflexivity.
Qed.

(** *** Steps of the scanner *)

Lemma next_char_ok s : exists s', next_char s = Ok tt s'.
Proof. unfold next_char. destruct (src s); eauto. Qed.

Lemma advance_S k s : advance (S k) s = advance k (advance 1 s).
Proof. destruct (next_char_ok s) as [s' H]. simpl. by rewrite H. Qed.

Lemma advance_add a b s : advance (a + b) s = advance b (advance a s).
Proof.
  revert s. induction a as [|a IH]; intros s; [done|].
  change (S a + b)%nat with (S (a + b)).
  by rewrite (advance_S (a + b)), (advance_S a), IH.
Qed.

Lemma advance_step c t s :
  reading (String c t) s ->
  next_char s = Ok tt (advance 1 s) /\ reading t (advance 1 s)
  /\ token (advance 1 s) = token s.
Proof.
  intros Hr. destruct (next_char_step _ _ s Hr) as (s1 & Hn & Hr1 & Ht).
  simpl. rewrite Hn. done.
Qed.

Lemma advance_two c c2 r s :
  reading (String c (String c2 r)) s ->
  next_char s = Ok tt (advance 1 s)
  /\ ch (advance 1 s) = code_of c2
  /\ next_char (advance 1 s) = Ok tt (advance 2 s)
  /\ reading r (advance 2 s)
  /\ token (advance 2 s) = token s.
Proof.
  intros Hr. destruct (advance_step _ _ _ Hr) as (Hn1 & Hr1 & Ht1).
  destruct (advance_step _ _ _ Hr1) as (Hn2 & Hr2 & Ht2).
  change 2%nat with (1 + 1)%nat. rewrite advance_add.
  split; [done|]. split; [by destruct Hr1|]. split; [done|]. split; [done|congruence].
Qed.

Section CommentRounds.

Context (nested : M LexState unit).

Lemma comment_step_eof m s :
  reading EmptyString s -> loop (S m) (comment_round nested) tt s = Ok false s.
Proof.
  intros [Hch _]. rewrite loop_unfold. unfold bind at 1, gets at 1. by rewrite Hch.
Qed.

(** An asterisk and the closing parenthesis. *)
Lemma comment_step_close m c c2 r s :
  reading (String c (String c2 r)) s ->
  code_of c = 42 -> code_of c2 = 41 ->
  loop (S m) (comment_round nested) tt s = Ok true (advance 2 s).
Proof.
  intros Hr Hc Hc2. destruct (advance_two _ _ _ _ Hr) as (Hn1 & Hch1 & Hn2 & _).
  assert (Hch : ch s = 42) by (destruct Hr; congruence).
  rewrite loop_unfold. unfold bind at 1, gets at 1. rewrite Hch.
  change (negb (42 =? EOF)) with true. change (42 =? 42) with true. cbv iota.
  rewrite (bind_ok _ _ _ _ _ Hn1). unfold bind at 1, gets at 1. rewrite Hch1, Hc2.
  change (41 =? 41) with true. cbv iota.
  by rewrite (bind_ok _ _ _ _ _ Hn2).
Qed.

(** An asterisk with anything else behind it: the character behind it
    is looked at again in the next round. *)
Lemma comment_step_star m c t s :
  reading (String c t) s -> code_of c = 42 ->
  match t with String c2 _ => code_of c2 <> 41 | EmptyString => True end ->
  loop (S m) (comment_round nested) tt s
  = loop m (comment_round nested) tt (advance 1 s).
Proof.
  intros Hr Hc Hc2. destruct (advance_step _ _ _ Hr) as (Hn1 & Hr1 & _).
  assert (Hch : ch s = 42) by (destruct Hr; congruence).
  assert (Hch1 : (ch (advance 1 s) =? 41) = false).
  { destruct t as [|c2 r]; destruct Hr1 as [-> _]; [reflexivity|].
    by apply Z.eqb_neq. }
  rewrite loop_unfold. unfold bind at 1, gets at 1. rewrite Hch.
  change (negb (42 =? EOF)) with true. change (42 =? 42) with true. cbv iota.
  rewrite (bind_ok _ _ _ _ _ Hn1). unfold bind at 1, gets at 1. by rewrite Hch1.
Qed.

(** An opening parenthesis and an asterisk: a comment inside. *)
Lemma comment_step_open m c c2 r s :
  reading (String c (String c2 r)) s ->
  code_of c = 40 -> code_of c2 = 42 ->
  loop (S m) (comment_round nested) tt s
  = match nested (advance 2 s) with
    | Ok _ s' => loop m (comment_round nested) tt s'
    | Fatal pos e => Fatal pos e
    | Undef w => Undef w
    | OutOfFuel => OutOfFuel
    end.
Proof.
  intros Hr Hc Hc2. destruct (advance_two _ _ _ _ Hr) as (Hn1 & Hch1 & Hn2 & _).
  assert (Hch : ch s = 40) by (destruct Hr; congruence).
  rewrite loop_unfold. unfold bind at 1, gets at 1. rewrite Hch.
  change (negb (40 =? EOF)) with true. change (40 =? 42) with false.
  change (40 =? 40) with true. cbv iota.
  rewrite (bind_ok _ _ _ _ _ Hn1). unfold bind at 1, gets at 1. rewrite Hch1, Hc2.
  change (42 =? 42) with true. cbv iota.
  rewrite (bind_ok _ _ _ _ _ Hn2). unfold bind at 1.
  by destruct (nested (advance 2 s)).
Qed.

(** An opening parenthesis and any other character: both are passed. *)
Lemma comment_step_pair m c c2 r s :
  reading (String c (String c2 r)) s ->
  code_of c = 40 -> code_of c2 <> 42 ->
  loop (S m) (comment_round nested) tt s
  = loop m (comment_round nested) tt (advance 2 s).
Proof.
  intros Hr Hc Hc2. destruct (advance_two _ _ _ _ Hr) as (Hn1 & Hch1 & Hn2 & _).
  assert (Hch : ch s = 40) by (destruct Hr; congruence).
  rewrite loop_unfold. unfold bind at 1, gets at 1. rewrite Hch.
  change (negb (40 =? EOF)) with true. change (40 =? 42) with false.
  change (40 =? 40) with true. cbv iota.
  rewrite (bind_ok _ _ _ _ _ Hn1). unfold bind at 1, gets at 1. rewrite Hch1.
  apply Z.eqb_neq in Hc2. rewrite Hc2.
  by rewrite (bind_ok _ _ _ _ _ Hn2).
Qed.

(** An opening parenthesis as the last character of the file. *)
Lemma comment_step_last m c s :
  reading (String c EmptyString) s -> code_of c = 40 ->
  exists s', loop (S (S m)) (comment_round nested) tt s = Ok false s'.
Proof.
  intros Hr Hc. destruct (advance_step _ _ _ Hr) as (Hn1 & Hr1 & _).
  assert (Hch : ch s = 40) by (destruct Hr; congruence).
  destruct (next_char_ok (advance 1 s)) as [s2 Hn2].
  assert (Hr2 : reading EmptyString s2).
  { destruct Hr1 as [Hch1 Hsrc1]. unfold next_char in Hn2. rewrite Hsrc1 in Hn2.
    inversion Hn2; subst s2. by simpl. }
  exists s2. rewrite loop_unfold. unfold bind at 1, gets at 1. rewrite Hch.
  change (negb (40 =? EOF)) with true. change (40 =? 42) with false.
  change (40 =? 40) with true. cbv iota.
  rewrite (bind_ok _ _ _ _ _ Hn1). unfold bind at 1, gets at 1.
  destruct Hr1 as [-> _]. change (EOF =? 42) with false. cbv iota.
  rewrite (bind_ok _ _ _ _ _ Hn2). unfold ret at 1.
  by apply comment_step_eof.
Qed.

(** Any other character. *)
Lemma comment_step_other m c t s :
  reading (String c t) s -> code_of c <> 42 -> code_of c <> 40 ->
  loop (S m) (comment_round nested) tt s
  = loop m (comment_round nested) tt (advance 1 s).
Proof.
  intros Hr Hc Hc'. destruct (advance_step _ _ _ Hr) as (Hn1 & _).
  pose proof (code_of_range c) as Hrange.
  assert (Hch : ch s = code_of c) by (by destruct Hr).
  rewrite loop_unfold. unfold bind at 1, gets at 1. rewrite Hch.
  assert (Heof : (code_of c =? EOF) = false) by (unfold EOF; lia).
  apply Z.eqb_neq in Hc, Hc'. rewrite Heof, Hc, Hc'. change (negb false) with true.
  cbv iota. by rewrite (bind_ok _ _ _ _ _ Hn1).
Qed.

End CommentRounds.

(** *** The loop of one comment against the scan

    The loop of a comment whose body began at [start], met [k]
    characters into the text, ends in one of three ways: with the
    closing pair of this comment, where the scan goes on with the
    comments around it; at the end of the file; or inside a comment
    further in, with the error of that comment. *)
Lemma comment_loop_scan n : forall text s fuel m outer start k,
  (String.length text <= n)%nat -> reading text s ->
  (String.length text <= fuel)%nat -> (String.length text + 1 <= m)%nat ->
  (exists pre r1,
     text = (pre ++ r1)%string /\ (0 < String.length pre)%nat
     /\ loop m (comment_round (skip_comment fuel)) tt s
        = Ok true (advance (String.length pre) s)
     /\ comment_scan outer start k text
        = match outer with
          | [] => Closed r1
          | o :: os => comment_scan os o (k + String.length pre) r1
          end)
  \/ (exists s1,
        loop m (comment_round (skip_comment fuel)) tt s = Ok false s1
        /\ comment_scan outer start k text = Unclosed start)
  \/ (exists j,
        loop m (comment_round (skip_comment fuel)) tt s
        = Fatal (opening_pair (advance j s)) (Message "comment not closed")
        /\ comment_scan outer start k text = Unclosed (k + j)).
Proof.
  induction n as [|n IH]; intros text s fuel m outer start k Hn Hr Hfuel Hm.
  { destruct text; [|simpl in Hn; lia]. right. left. exists s.
    destruct m as [|m]; [simpl in Hm; lia|]. split; [by apply comment_step_eof|done]. }
  destruct text as [|c t].
  { right. left. exists s.
    destruct m as [|m]; [simpl in Hm; lia|]. split; [by apply comment_step_eof|done]. }
  simpl in Hn, Hfuel, Hm. destruct m as [|m]; [lia|].
  destruct (advance_step _ _ _ Hr) as (_ & Hr1 & _).
  (* the rest of the loop after one character *)
  assert (Hone : forall outer' start',
    comment_scan outer start k (String c t) = comment_scan outer' start' (k + 1) t ->
    loop (S m) (comment_round (skip_comment fuel)) tt s
    = loop m (comment_round (skip_comment fuel)) tt (advance 1 s) ->
    outer' = outer -> start' = start ->
    (exists pre r1,
       String c t = (pre ++ r1)%string /\ (0 < String.length pre)%nat
       /\ loop (S m) (comment_round (skip_comment fuel)) tt s
          = Ok true (advance (String.length pre) s)
       /\ comment_scan outer start k (String c t)
          = match outer with
            | [] => Closed r1
            | o :: os => comment_scan os o (k + String.length pre) r1
            end)
    \/ (exists s1,
          loop (S m) (comment_round (skip_comment fuel)) tt s = Ok false s1
          /\ comment_scan outer start k (String c t) = Unclosed start)
    \/ (exists j,
          loop (S m) (comment_round (skip_comment fuel)) tt s
          = Fatal (opening_pair (advance j s)) (Message "comment not closed")
          /\ comment_scan outer start k (String c t) = Unclosed (k + j))).
  { intros outer' start' Hscan Hloop -> ->. rewrite Hscan, Hloop.
    destruct (IH t (advance 1 s) fuel m outer start (k + 1)%nat
                ltac:(lia) Hr1 ltac:(lia) ltac:(lia))
      as [(pre & r1 & Ht & Hp & Hl & Hs)|[(s1 & Hl & Hs)|(j & Hl & Hs)]].
    - left. exists (String c pre), r1. simpl String.length.
      split; [simpl; by rewrite Ht|]. split; [lia|].
      rewrite (advance_S (String.length pre)). split; [done|]. rewrite Hs.
      destruct outer; [done|]. f_equal. lia.
    - right. left. eauto.
    - right. right. exists (S j). rewrite (advance_S j). split; [done|].
      rewrite Hs. f_equal. lia. }
  (* the rest of the loop after two characters *)
  assert (Htwo : forall c2 r, t = String c2 r ->
    comment_scan outer start k (String c t) = comment_scan outer start (k + 2) r ->
    loop (S m) (comment_round (skip_comment fuel)) tt s
    = loop m (comment_round (skip_comment fuel)) tt (advance 2 s) ->
    (exists pre r1,
       String c t = (pre ++ r1)%string /\ (0 < String.length pre)%nat
       /\ loop (S m) (comment_round (skip_comment fuel)) tt s
          = Ok true (advance (String.length pre) s)
       /\ comment_scan outer start k (String c t)
          = match outer with
            | [] => Closed r1
            | o :: os => comment_scan os o (k + String.length pre) r1
            end)
    \/ (exists s1,
          loop (S m) (comment_round (skip_comment fuel)) tt s = Ok false s1
          /\ comment_scan outer start k (String c t) = Unclosed start)
    \/ (exists j,
          loop (S m) (comment_round (skip_comment fuel)) tt s
          = Fatal (opening_pair (advance j s)) (Message "comment not closed")
          /\ comment_scan outer start k (String c t) = Unclosed (k + j))).
  { intros c2 r -> Hscan Hloop. rewrite Hscan, Hloop.
    destruct (advance_two _ _ _ _ Hr) as (_ & _ & _ & Hr2 & _).
    simpl in Hn, Hfuel, Hm.
    destruct (IH r (advance 2 s) fuel m outer start (k + 2)%nat
                ltac:(lia) Hr2 ltac:(lia) ltac:(lia))
      as [(pre & r1 & Ht & Hp & Hl & Hs)|[(s1 & Hl & Hs)|(j & Hl & Hs)]].
    - left. exists (String c (String c2 pre)), r1. simpl String.length.
      split; [simpl; by rewrite Ht|]. split; [lia|].
      change (S (S (String.length pre))) with (2 + String.length pre)%nat.
      rewrite advance_add. split; [done|]. rewrite Hs.
      destruct outer; [done|]. f_equal. lia.
    - right. left. eauto.
    - right. right. exists (2 + j)%nat. rewrite advance_add. split; [done|].
      rewrite Hs. f_equal. lia. }
  destruct (code_of c =? 42) eqn:Hstar.
  - apply Z.eqb_eq in Hstar. destruct t as [|c2 r].
    + (* an asterisk at the end of the file *)
      apply (Hone outer start); try done.
      * simpl. apply Z.eqb_eq in Hstar. by rewrite Hstar.
      * exact (comment_step_star (skip_comment fuel) m c "" s Hr Hstar I).
    + destruct (code_of c2 =? 41) eqn:Hrp.
      * (* the closing pair *)
        apply Z.eqb_eq in Hrp. left. exists (String c (String c2 "")), r.
        split; [done|]. split; [simpl; lia|].
        split; [exact (comment_step_close (skip_comment fuel) m c c2 r s Hr Hstar Hrp)|].
        simpl. apply Z.eqb_eq in Hstar, Hrp. rewrite Hstar, Hrp.
        destruct outer; [done|]. done.
      * apply Z.eqb_neq in Hrp. apply (Hone outer start); try done.
        -- simpl. apply Z.eqb_eq in Hstar. apply Z.eqb_neq in Hrp.
           by rewrite Hstar, Hrp.
        -- exact (comment_step_star (skip_comment fuel) m c (String c2 r) s Hr Hstar Hrp).
  - apply Z.eqb_neq in Hstar. destruct (code_of c =? 40) eqn:Hlp.
    + apply Z.eqb_eq in Hlp. destruct t as [|c2 r].
      * (* an opening parenthesis at the end of the file *)
        right. left. destruct m as [|m]; [simpl in Hm; lia|].
        destruct (comment_step_last (skip_comment fuel) m c s Hr Hlp) as [s1 Hl].
        exists s1. split; [done|].
        simpl. apply Z.eqb_neq in Hstar. apply Z.eqb_eq in Hlp. by rewrite Hstar, Hlp.
      * destruct (code_of c2 =? 42) eqn:Hst2.
        -- (* a comment inside *)
           apply Z.eqb_eq in Hst2.
           destruct (advance_two _ _ _ _ Hr) as (_ & _ & _ & Hr2 & _).
           simpl in Hn, Hfuel, Hm.
           assert (Hscan : comment_scan outer start k (String c (String c2 r))
                           = comment_scan (start :: outer) (k + 2) (k + 2) r).
           { simpl. apply Z.eqb_neq in Hstar. apply Z.eqb_eq in Hlp, Hst2.
             by rewrite Hstar, Hlp, Hst2. }
           rewrite Hscan.
           rewrite (comment_step_open (skip_comment fuel) m c c2 r s Hr Hlp Hst2).
           destruct fuel as [|fuel]; [lia|]. rewrite skip_comment_run.
           destruct (IH r (advance 2 s) fuel fuel (start :: outer) (k + 2)%nat
                       (k + 2)%nat ltac:(lia) Hr2 ltac:(lia) ltac:(lia))
             as [(pre & r1 & Ht & Hp & Hl & Hs)|[(s1 & Hl & Hs)|(j & Hl & Hs)]].
           ++ (* the inner comment is closed: on with this one *)
              rewrite Hl, Hs.
              assert (Hr3 : reading r1 (advance (String.length pre) (advance 2 s))).
              { clear -Hr2 Ht. subst r. revert Hr2. generalize (advance 2 s).
                induction pre as [|a pre IHp]; intros s0 Hr0; [done|].
                simpl String.length. rewrite (advance_S (String.length pre)). apply IHp.
                by destruct (advance_step _ _ _ Hr0) as (_ & ? & _). }
              assert (Hlen : String.length r
                             = (String.length pre + String.length r1)%nat)
                by (rewrite Ht; apply string_length_app).
              destruct (IH r1 (advance (String.length pre) (advance 2 s)) (S fuel) m
                          outer start (k + 2 + String.length pre)%nat
                          ltac:(lia) Hr3 ltac:(lia) ltac:(lia))
                as [(pre2 & r2 & Ht2 & Hp2 & Hl2 & Hs2)|[(s1 & Hl2 & Hs2)
                                                        |(j & Hl2 & Hs2)]].
              ** left. exists (String c (String c2 (pre ++ pre2))), r2.
                 split.
                 { simpl. rewrite Ht, Ht2. f_equal. f_equal.
                   clear. induction pre as [|a pre IHp]; simpl; [done|].
                   by rewrite IHp. }
                 simpl String.length. rewrite string_length_app.
                 split; [lia|]. split.
                 { rewrite Hl2.
                   change (S (S (String.length pre + String.length pre2)))
                     with (2 + (String.length pre + String.length pre2))%nat.
                   by rewrite !advance_add. }
                 rewrite Hs2. destruct outer; [done|]. f_equal. lia.
              ** right. left. exists s1. split; [done|]. by rewrite Hs2.
              ** right. right. exists (2 + (String.length pre + j))%nat.
                 rewrite !advance_add. split; [done|]. rewrite Hs2. f_equal. lia.
           ++ (* the inner comment runs to the end of the file *)
              rewrite Hl, Hs. right. right. exists 2%nat. split; [done|]. done.
           ++ (* a comment further in runs to the end of the file *)
              rewrite Hl, Hs. right. right. exists (2 + j)%nat.
              rewrite advance_add. split; [done|]. f_equal. lia.
        -- (* a parenthesis and the character it takes along *)
           apply Z.eqb_neq in Hst2. apply (Htwo c2 r); try done.
           ++ simpl. apply Z.eqb_neq in Hstar, Hst2. apply Z.eqb_eq in Hlp.
              by rewrite Hstar, Hlp, Hst2.
           ++ exact (comment_step_pair (skip_comment fuel) m c c2 r s Hr Hlp Hst2).
    + (* any other character *)
      apply Z.eqb_neq in Hlp. apply (Hone outer start); try done.
      * simpl. apply Z.eqb_neq in Hstar, Hlp. by rewrite Hstar, Hlp.
      * exact (comment_step_other (skip_comment fuel) m c t s Hr Hstar Hlp).
Qed.

Lemma reading_advance pre : forall rest s,
  reading (pre ++ rest) s ->
  reading rest (advance (String.length pre) s)
  /\ token (advance (String.length pre) s) = token s.
Proof.
  induction pre as [|c pre IH]; intros rest s Hr; [done|].
  simpl String.length. rewrite (advance_S (String.length pre)).
  change (String c pre ++ rest)%string with (String c (pre ++ rest)) in Hr.
  destruct (advance_step _ _ _ Hr) as (_ & Hr1 & Ht1).
  destruct (IH rest _ Hr1) as [Hr2 Ht2]. split; [done|congruence].
Qed.

(** [skip_comment] against the scan of the text behind the opening
    pair. *)
Lemma skip_comment_scan text s n :
  reading text s -> (String.length text + 2 <= n)%nat ->
  match comment_scan [] 0 0 text with
  | Closed rest =>
      exists pre, text = (pre ++ rest)%string
                  /\ skip_comment n s = Ok tt (advance (String.length pre) s)
  | Unclosed k =>
      skip_comment n s
      = Fatal (opening_pair (advance k s)) (Message "comment not closed")
  end.
Proof.
  intros Hr Hn. destruct n as [|n]; [lia|]. rewrite skip_comment_run.
  destruct (comment_loop_scan (String.length text) text s n n [] 0%nat 0%nat
              ltac:(lia) Hr ltac:(lia) ltac:(lia))
    as [(pre & r1 & Ht & Hp & Hl & Hs)|[(s1 & Hl & Hs)|(j & Hl & Hs)]].
  - rewrite Hs, Hl. by exists pre.
  - by rewrite Hs, Hl.
  - by rewrite Hs, Hl.
Qed.

(** X17.  [skip_comment], called behind the opening pair of a comment,
    goes through the text as a scan with a stack of open comments does:
    an asterisk followed by a closing parenthesis closes the innermost
    open comment, an opening parenthesis followed by an asterisk opens
    one, and the character behind any other opening parenthesis is
    passed unexamined, so that it neither opens nor closes a comment.
    Whenever that scan finds the end of the comment, [skip_comment]
    returns with exactly the text up to and including that closing pair
    read and the token untouched.  Comments nested to any depth are
    skipped whole; an asterisk behind two opening parentheses in a row
    starts no comment, since the second parenthesis is passed with the
    first. *)
Theorem skip_comment_nests (text rest : string) (s : LexState) (n : nat) :
  reading text s -> comment_scan [] 0 0 text = Closed rest ->
  (String.length text + 2 <= n)%nat ->
  exists pre,
    text = (pre ++ rest)%string
    /\ skip_comment n s = Ok tt (advance (String.length pre) s)
    /\ reading rest (advance (String.length pre) s)
    /\ token (advance (String.length pre) s) = token s.
Proof.
  intros Hr Hs Hn. pose proof (skip_comment_scan text s n Hr Hn) as H.
  rewrite Hs in H. destruct H as (pre & Ht & Hrun). exists pre.
  split; [done|]. split; [done|]. apply reading_advance. by rewrite <- Ht.
Qed.

Lemma skip_comment_nests_witness :
  (exists s',
     skip_comment 30
       (mk_lex "a (* b (* c *) *) d *) v" 32 3 32 (mk_pos 1 1) (token lex_zero))
       = Ok tt s'
     /\ reading " v" s')
  /\ (exists s',
        skip_comment 30
          (mk_lex "a ((* b *) c *)" 32 3 32 (mk_pos 1 1) (token lex_zero))
          = Ok tt s'
        /\ reading " c *)" s').
Proof.
  split.
  - destruct (skip_comment_nests " a (* b (* c *) *) d *) v" " v"
                (mk_lex "a (* b (* c *) *) d *) v" 32 3 32 (mk_pos 1 1)
                   (token lex_zero)) 30)
      as (pre & _ & Hrun & Hr & _);
      [split; reflexivity|reflexivity|simpl; lia|].
    eexists. exact (conj Hrun Hr).
  - destruct (skip_comment_nests " a ((* b *) c *)" " c *)"
                (mk_lex "a ((* b *) c *)" 32 3 32 (mk_pos 1 1) (token lex_zero)) 30)
      as (pre & _ & Hrun & Hr & _);
      [split; reflexivity|reflexivity|simpl; lia|].
    eexists. exact (conj Hrun Hr).
Defined.

(** X18.  On a comment that runs to the end of the file [skip_comment]
    stops with the fatal error "comment not closed".  The error is that
    of the innermost comment still open at the end of the file, and its
    position is taken where the scanner enters that comment: the line
    it is on, and two columns before the column it has reached.  That
    is the place of the comment's opening pair (one column before it
    when the file ends right behind the pair, where the column is not
    advanced).  It is the opening pair of the comment [skip_comment]
    was called for only when every comment inside that one is closed. *)
Theorem skip_comment_unclosed (text : string) (k : nat) (s : LexState) (n : nat) :
  reading text s -> comment_scan [] 0 0 text = Unclosed k ->
  (String.length text + 2 <= n)%nat ->
  skip_comment n s
    = Fatal (opening_pair (advance k s)) (Message "comment not closed").
Proof.
  intros Hr Hs Hn. pose proof (skip_comment_scan text s n Hr Hn) as H.
  by rewrite Hs in H.
Qed.

Lemma skip_comment_unclosed_witness :
  skip_comment 20 (mk_lex "a (* b *) note" 32 3 32 (mk_pos 2 1) (token lex_zero))
    = Fatal (mk_pos 2 1) (Message "comment not closed")
  /\ skip_comment 20 (mk_lex "a (* b" 32 3 32 (mk_pos 1 1) (token lex_zero))
     = Fatal (mk_pos 1 6) (Message "comment not closed").
Proof.
  split.
  - exact (skip_comment_unclosed " a (* b *) note" 0
             (mk_lex "a (* b *) note" 32 3 32 (mk_pos 2 1) (token lex_zero)) 20
             (conj eq_refl eq_refl) eq_refl ltac:(simpl; lia)).
  - exact (skip_comment_unclosed " a (* b" 5
             (mk_lex "a (* b" 32 3 32 (mk_pos 1 1) (token lex_zero)) 20
             (conj eq_refl eq_refl) eq_refl ltac:(simpl; lia)).
Defined.
(** ** scanner.c: the payload of the token *)

Lemma ensures_bind {A B} (m : M LexState A) (f : A -> M LexState B) :
  (forall a, ensures (f a)) -> ensures (bind m f).
Proof.
  intros Hf s b s' H. unfold bind in H. destruct (m s) as [a s1| | |]; try done.
  by eapply Hf.
Qed.

Lemma ensures_then {A B} (m : M LexState A) (m' : M LexState B) :
  ensures m -> keeps_token m' -> ensures (m >> m').
Proof.
  intros Hm Hk s b s' H. unfold bind in H.
  destruct (m s) as [a s1| | |] eqn:E; try done.
  rewrite (Hk _ _ _ H). by eapply Hm.
Qed.

Lemma keeps_token_next_char : keeps_token next_char.
Proof.
  intros s a s' H. unfold next_char in H. destruct (src s); by inversion H.
Qed.

Lemma ensures_modify (f : LexState -> LexState) :
  (forall s, token_holds (token (f s))) -> ensures (modify f).
Proof. intros Hf s a s' [= _ <-]. apply Hf. Qed.

Lemma ensures_set_type t : plain_kind t = true -> ensures (modify (lex_set_type t)).
Proof.
  intros Ht. apply ensures_modify. intros s. unfold token_holds. simpl.
  by destruct t.
Qed.

Lemma ensures_leprintf {A} msg : ensures (@leprintf A msg).
Proof. by intros s a s' H. Qed.

Lemma ensures_undef {A} w : ensures (@undef LexState A w).
Proof. by intros s a s' H. Qed.

Lemma reserved_plain mid w : reserved_at mid = Some w -> plain_kind (snd w) = true.
Proof.
  unfold reserved_at. destruct (0 <=? mid); [|done]. intros H.
  assert (Hall : Forall (fun w => plain_kind (snd w) = true) reserved)
    by (unfold reserved; repeat constructor).
  rewrite Forall_lookup in Hall. by eapply Hall.
Qed.

Lemma process_number_ensures : ensures process_number.
Proof.
  unfold process_number. repeat (apply ensures_bind; intros ?).
  apply ensures_modify. intros s. unfold token_holds. simpl. by eexists.
Qed.

Lemma process_string_ensures : ensures process_string.
Proof.
  unfold process_string. repeat (apply ensures_bind; intros ?).
  apply ensures_modify. intros s. unfold token_holds. simpl. by eexists.
Qed.

Lemma process_word_ensures MAX_ID_LENGTH : ensures (process_word MAX_ID_LENGTH).
Proof.
  unfold process_word. repeat (apply ensures_bind; intros ?).
  destruct a2 as [i lexeme]. apply ensures_bind. intros [[low mid] high].
  destruct (low >? high).
  - apply ensures_modify. intros s. unfold token_holds. simpl. by eexists.
  - destruct (reserved_at mid) as [w|] eqn:E; [|apply ensures_undef].
    apply ensures_set_type. by eapply reserved_plain.
Qed.

(** Step through the branches of [get_token]. *)
Ltac ensuring :=
  repeat first
    [ assumption
    | apply ensures_leprintf
    | apply ensures_then;
      [apply ensures_set_type; reflexivity|apply keeps_token_next_char]
    | apply ensures_set_type; reflexivity
    | apply process_number_ensures
    | apply process_string_ensures
    | apply process_word_ensures
    | apply ensures_bind; intros ?
    | match goal with
      | |- ensures (if ?c then _ else _) => destruct c
      end ].

Lemma get_token_fuel_ensures MAX_ID_LENGTH n :
  ensures (get_token_fuel MAX_ID_LENGTH n).
Proof.
  induction n as [|n IH]; [by intros s a s' H|].
  cbn [get_token_fuel]. ensuring.
Qed.

(** Every token that [get_token] stores holds the payload of its kind:
    an identifier its lexeme, a number its value, a string its array. *)
Lemma get_token_payload MAX_ID_LENGTH s s' :
  get_token MAX_ID_LENGTH s = Ok tt s' -> token_holds (token s').
Proof.
  intros H. unfold get_token in H.
  apply (ensures_bind _ _ (fun fuel => get_token_fuel_ensures MAX_ID_LENGTH fuel) s tt s' H).
Qed.

Lemma next_token_payload MAX_ID_LENGTH s s' :
  next_token MAX_ID_LENGTH s = Ok tt s' -> token_holds (token (lex s')).
Proof.
  unfold next_token, lift_lex. intros H.
  destruct (get_token MAX_ID_LENGTH (lex s)) as [[] l| | |] eqn:E; try done.
  inversion H; subst s'. simpl. by eapply get_token_payload.
Qed.

(** The parser is started on a token with its payload. *)
Lemma parser_at_payload MAX_ID_LENGTH source s :
  (lift_lex (init_scanner source) >> next_token MAX_ID_LENGTH) state_zero = Ok tt s ->
  token_holds (token (lex s)).
Proof.
  intros H. unfold bind in H.
  destruct (lift_lex (init_scanner source) state_zero) as [[] s0| | |]; try done.
  by eapply next_token_payload.
Qed.

(** ** scanner.c: [get_token] *)

Lemma space_loop ws : forall tail s fuel,
  reading (ws ++ tail) s -> all_space ws = true ->
  (forall s', reading tail s' -> isspace (ch s') = false) ->
  (String.length ws < fuel)%nat ->
  exists s',
    while_ fuel (fun _ s => isspace (ch s)) (fun _ : unit => next_char) tt s = Ok tt s'
    /\ reading tail s' /\ token s' = token s
    /\ col (position s') = col (position s).
Proof.
  induction ws as [|c ws IH]; intros tail s fuel Hr Hw Htail Hfuel;
    (destruct fuel as [|fuel]; [simpl in Hfuel; lia|]).
  - simpl in Hr. rewrite while_unfold, (Htail s Hr). by exists s.
  - simpl in Hw. apply andb_true_iff in Hw as [Hc Hw].
    change (String c ws ++ tail)%string with (String c (ws ++ tail)) in Hr.
    destruct (next_char_step _ c s Hr) as (s1 & Hn & Hr1 & Ht1).
    pose proof (next_char_col s s1 Hn) as Hcol.
    destruct Hr as [Hch _]. rewrite while_unfold, Hch, Hc, Hn.
    simpl in Hfuel.
    destruct (IH tail s1 fuel Hr1 Hw Htail ltac:(lia)) as (s' & Hrun & Hr' & Ht' & Hc').
    exists s'. split; [done|]. split; [done|]. split; congruence.
Qed.

(** X19.  At the end of the input, after any white space that is left,
    [get_token] yields the end-of-file token; the payload of the token
    keeps what it held. *)
Theorem get_token_end_of_file (MAX_ID_LENGTH : Z) (ws : string) (s : LexState) :
  reading ws s -> all_space ws = true ->
  exists s',
    get_token MAX_ID_LENGTH s = Ok tt s'
    /\ token s' = tok_set_type TOK_EOF (token s)
    /\ reading EmptyString s'.
Proof.
  intros Hr Hw.
  assert (Hr0 : reading (ws ++ "") s) by (by rewrite string_app_nil).
  destruct (space_loop ws EmptyString s (input_fuel s) Hr0 Hw) as (s1 & Hloop & Hr1 & Ht1 & _).
  { by intros s' [-> _]. }
  { exact (reading_fuel ws EmptyString s Hr0). }
  unfold get_token. unfold bind at 1, gets at 1.
  unfold input_fuel at 1. cbn [get_token_fuel].
  unfold bind at 1, gets at 1. rewrite (bind_ok _ _ _ _ _ Hloop).
  unfold bind at 1, gets at 1. unfold bind at 1, modify at 1.
  unfold bind at 1, gets at 1.
  assert (Hch : ch (lex_set_col (column_number s1) s1) = EOF) by (by destruct Hr1).
  rewrite Hch. change (negb (EOF =? EOF)) with false. cbv iota.
  eexists. split; [reflexivity|]. split; [simpl; by rewrite Ht1|].
  by destruct Hr1.
Qed.

Lemma get_token_end_of_file_witness :
  exists s',
    get_token 32 (mk_lex (String (char_of 10) " ") 32 9 59 (mk_pos 4 1)
                    (mk_token TOK_END (Lexeme "v")))
      = Ok tt s'
    /\ token s' = mk_token TOK_EOF (Lexeme "v").
Proof.
  destruct (get_token_end_of_file 32 (String (char_of 32) (String (char_of 10) " "))
              (mk_lex (String (char_of 10) " ") 32 9 59 (mk_pos 4 1)
                 (mk_token TOK_END (Lexeme "v"))))
    as (s' & Hrun & Ht & _); [split; reflexivity|reflexivity|].
  exists s'. exact (conj Hrun Ht).
Defined.

(** X20.  A character that is neither white space nor the first
    character of a word, a number, a string, an operator or a comment
    stops [get_token] with the fatal error "illegal character", which
    names the character and its code and is reported at its column. *)
Theorem get_token_illegal_character (MAX_ID_LENGTH : Z) (c : ascii) (s : LexState) :
  ch s = code_of c ->
  isspace (code_of c) = false -> starts_token (code_of c) = false ->
  get_token MAX_ID_LENGTH s
    = Fatal (mk_pos (line (position s)) (column_number s))
        (Message ("illegal character '" ++ String c "' (ASCII #"
                  ++ string_of_Z (code_of c) ++ ")")).
Proof.
  intros Hch Hsp Hst. pose proof (code_of_range c) as Hrange.
  unfold starts_token, is_word_char in Hst. simpl existsb in Hst.
  repeat match goal with
         | H : (_ || _) = false |- _ => apply orb_false_iff in H as [? ?]
         end.
  unfold get_token. unfold bind at 1, gets at 1.
  unfold input_fuel at 1. cbn [get_token_fuel].
  unfold bind at 1, gets at 1. unfold input_fuel at 1.
  rewrite (bind_ok _ _ _ tt s); [|by rewrite while_unfold, Hch, Hsp].
  unfold bind at 1, gets at 1. unfold bind at 1, modify at 1.
  unfold bind at 1, gets at 1.
  change (ch (lex_set_col (column_number s) s)) with (ch s). rewrite Hch.
  assert (Heof : negb (code_of c =? EOF) = true).
  { apply negb_true_iff, Z.eqb_neq. unfold EOF. lia. }
  rewrite Heof. cbv iota.
  repeat match goal with
         | H : (code_of c =? _) = false |- _ => rewrite H; clear H
         | H : isdigit (code_of c) = false |- _ => rewrite H; clear H
         | H : isalpha (code_of c) = false |- _ => rewrite H; clear H
         end.
  cbv iota. simpl orb. cbv iota. by rewrite char_of_code.
Qed.

Lemma get_token_illegal_character_witness :
  get_token 32 (mk_lex " b" 33 5 33 (mk_pos 2 1) (token lex_zero))
    = Fatal (mk_pos 2 5) (Message "illegal character '!' (ASCII #33)").
Proof.
  apply (get_token_illegal_character 32 "!"%char
           (mk_lex " b" 33 5 33 (mk_pos 2 1) (token lex_zero)));
    reflexivity.
Defined.

Lemma reading_ch c text s : reading (String c text) s -> ch s = code_of c.
Proof. by intros [H _]. Qed.

(** X21.  The operators [<], [>] and [-] take the next character with
    them when it completes [<=], [<-], [>=] or [->], whatever follows
    and without regard to spacing ([a<-1] is an assignment); otherwise
    the token is the single character and the character after it is
    left unread. *)
Theorem get_token_longest_operator (MAX_ID_LENGTH : Z) (c1 : ascii) (text : string)
    (t1 : TokenType) (s : LexState) :
  reading (String c1 text) s ->
  operator_start (code_of c1) = Some t1 ->
  exists s',
    get_token MAX_ID_LENGTH s = Ok tt s'
    /\ col (position s') = column_number s
    /\ match text with
       | String c2 rest =>
           match operator_pair (code_of c1) (code_of c2) with
           | Some t => tok_type (token s') = t /\ reading rest s'
           | None => tok_type (token s') = t1 /\ reading text s'
           end
       | EmptyString => tok_type (token s') = t1 /\ reading text s'
       end.
Proof.
  intros Hr Hstart.
  pose proof (reading_ch _ _ _ Hr) as Hch.
  set (s0 := lex_set_col (column_number s) s).
  assert (Hr0 : reading (String c1 text) s0) by exact Hr.
  destruct (next_char_step _ _ s0 Hr0) as (s1 & Hn1 & Hr1 & Ht1).
  pose proof (next_char_col _ _ Hn1) as Hc1.
  assert (Hsp : isspace (code_of c1) = false).
  { unfold operator_start in Hstart.
    destruct (code_of c1 =? 60) eqn:E1; [apply Z.eqb_eq in E1; by rewrite E1|].
    destruct (code_of c1 =? 62) eqn:E2; [apply Z.eqb_eq in E2; by rewrite E2|].
    destruct (code_of c1 =? 45) eqn:E3; [apply Z.eqb_eq in E3; by rewrite E3|done]. }
  unfold get_token. unfold bind at 1, gets at 1.
  unfold input_fuel at 1. cbn [get_token_fuel].
  unfold bind at 1, gets at 1. unfold input_fuel at 1.
  rewrite (bind_ok _ _ _ tt s); [|by rewrite while_unfold, Hch, Hsp].
  unfold bind at 1, gets at 1. unfold bind at 1, modify at 1. fold s0.
  unfold bind at 1, gets at 1.
  change (ch s0) with (ch s). rewrite Hch.
  unfold operator_start in Hstart.
  destruct (code_of c1 =? 60) eqn:E1.
  - (* [<] *)
    apply Z.eqb_eq in E1. rewrite E1 in *. inversion Hstart; subst t1.
    change (negb (60 =? EOF)) with true. cbv iota. simpl.
    rewrite (bind_ok _ _ _ _ _ Hn1). unfold bind at 1, gets at 1.
    destruct text as [|c2 rest].
    + destruct Hr1 as [Hch1 Hsrc1]. rewrite Hch1. simpl.
      eexists. split; [reflexivity|]. simpl. done.
    + rewrite (reading_ch _ _ _ Hr1). unfold operator_pair. simpl.
      destruct (next_char_step _ _ s1 Hr1) as (s2 & Hn2 & Hr2 & Ht2).
      destruct (code_of c2 =? 61) eqn:F1.
      * unfold bind, modify.
        assert (Hn2' : next_char (lex_set_type TOK_LE s1) = Ok tt (lex_set_type TOK_LE s2)).
        { revert Hn2. unfold next_char. simpl. destruct (src s1); intros [= <-]; done. }
        rewrite Hn2'. eexists. split; [reflexivity|]. simpl.
        split; [by rewrite (next_char_col _ _ Hn2)|]. split; [done|by destruct rest].
      * destruct (code_of c2 =? 45) eqn:F2.
        -- unfold bind, modify.
           assert (Hn2' : next_char (lex_set_type TOK_GETS s1)
                          = Ok tt (lex_set_type TOK_GETS s2)).
           { revert Hn2. unfold next_char. simpl. destruct (src s1); intros [= <-]; done. }
           rewrite Hn2'. eexists. split; [reflexivity|]. simpl.
           split; [by rewrite (next_char_col _ _ Hn2)|]. split; [done|by destruct rest].
        -- eexists. split; [reflexivity|]. simpl. done.
  - destruct (code_of c1 =? 62) eqn:E2.
    + (* [>] *)
      apply Z.eqb_eq in E2. rewrite E2 in *. inversion Hstart; subst t1.
      change (negb (62 =? EOF)) with true. cbv iota. simpl.
      rewrite (bind_ok _ _ _ _ _ Hn1). unfold bind at 1, gets at 1.
      destruct text as [|c2 rest].
      * destruct Hr1 as [Hch1 Hsrc1]. rewrite Hch1. simpl.
        eexists. split; [reflexivity|]. simpl. done.
      * rewrite (reading_ch _ _ _ Hr1). unfold operator_pair. simpl.
        destruct (next_char_step _ _ s1 Hr1) as (s2 & Hn2 & Hr2 & Ht2).
        destruct (code_of c2 =? 61) eqn:F1.
        -- unfold bind, modify.
           assert (Hn2' : next_char (lex_set_type TOK_GE s1)
                          = Ok tt (lex_set_type TOK_GE s2)).
           { revert Hn2. unfold next_char. simpl. destruct (src s1); intros [= <-]; done. }
           rewrite Hn2'. eexists. split; [reflexivity|]. simpl.
           split; [by rewrite (next_char_col _ _ Hn2)|]. split; [done|by destruct rest].
        -- eexists. split; [reflexivity|]. simpl. done.
    + destruct (code_of c1 =? 45) eqn:E3; [|done].
      (* [-] *)
      apply Z.eqb_eq in E3. rewrite E3 in *. inversion Hstart; subst t1.
      change (negb (45 =? EOF)) with true. cbv iota. simpl.
      rewrite (bind_ok _ _ _ _ _ Hn1). unfold bind at 1, gets at 1.
      destruct text as [|c2 rest].
      * destruct Hr1 as [Hch1 Hsrc1]. rewrite Hch1. simpl.
        eexists. split; [reflexivity|]. simpl. done.
      * rewrite (reading_ch _ _ _ Hr1). unfold operator_pair. simpl.
        destruct (next_char_step _ _ s1 Hr1) as (s2 & Hn2 & Hr2 & Ht2).
        destruct (code_of c2 =? 62) eqn:F1.
        -- unfold bind, modify.
           assert (Hn2' : next_char (lex_set_type TOK_TO s1)
                          = Ok tt (lex_set_type TOK_TO s2)).
           { revert Hn2. unfold next_char. simpl. destruct (src s1); intros [= <-]; done. }
           rewrite Hn2'. eexists. split; [reflexivity|]. simpl.
           split; [by rewrite (next_char_col _ _ Hn2)|]. split; [done|by destruct rest].
        -- eexists. split; [reflexivity|]. simpl. done.
Qed.

Lemma get_token_longest_operator_witness :
  (exists s',
     get_token 32 (mk_lex "-1" 60 2 60 (mk_pos 1 1) (token lex_zero)) = Ok tt s'
     /\ tok_type (token s') = TOK_GETS /\ reading "1" s')
  /\ (exists s',
        get_token 32 (mk_lex " -1" 60 2 60 (mk_pos 1 1) (token lex_zero)) = Ok tt s'
        /\ tok_type (token s') = TOK_LT /\ reading " -1" s').
Proof.
  split.
  - destruct (get_token_longest_operator 32 "<"%char "-1" TOK_LT
                (mk_lex "-1" 60 2 60 (mk_pos 1 1) (token lex_zero)))
      as (s' & Hrun & _ & Hres); [split; reflexivity|reflexivity|].
    exists s'. exact (conj Hrun Hres).
  - destruct (get_token_longest_operator 32 "<"%char " -1" TOK_LT
                (mk_lex " -1" 60 2 60 (mk_pos 1 1) (token lex_zero)))
      as (s' & Hrun & _ & Hres); [split; reflexivity|reflexivity|].
    exists s'. exact (conj Hrun Hres).
Defined.

(** ** simplc.c: statements and declarations *)

Lemma expect_ok MAX_ID_LENGTH t s s' :
  tok_type (token (lex s)) = t -> next_token MAX_ID_LENGTH s = Ok tt s' ->
  expect MAX_ID_LENGTH t s = Ok tt s'.
Proof.
  intros Htok Hnext. unfold expect.
  rewrite (bind_ok tok _ s t s) by (unfold tok, gets; by rewrite Htok).
  assert (E : tok_eqb t t = true) by (unfold tok_eqb; apply Z.eqb_refl).
  by rewrite E.
Qed.

(** X22.  Parsing statements or an expression leaves the symbol table
    as it is and does not touch the instructions emitted before or the
    subroutines already closed: whatever it emits is appended to the
    buffer of the open subroutine. *)
Theorem statements_only_append (MAX_ID_LENGTH : Z) (n : nat) (s s' : State) :
  parse_statements MAX_ID_LENGTH n s = Ok tt s'
  \/ parse_statement MAX_ID_LENGTH n s = Ok tt s'
  \/ (exists t, parse_expr MAX_ID_LENGTH n s = Ok t s') ->
  symtab s' = symtab s
  /\ (exists c, code (cg s') = code (cg s) ++ c)
  /\ subroutines (cg s') = subroutines (cg s)
  /\ sub_open (cg s') = sub_open (cg s).
Proof.
  intros H.
  assert (Hf : frame s s').
  { destruct (statements_frame MAX_ID_LENGTH n) as (Hs & Hst & _ & _).
    destruct H as [H|[H|[t H]]].
    - exact (Hs s tt s' H).
    - exact (Hst s tt s' H).
    - exact (parse_expr_frame MAX_ID_LENGTH n s t s' H). }
  destruct Hf as (_ & Hsym & Hcode & Hsubs & Hopen). done.
Qed.

Lemma statements_only_append_witness :
  exists s',
    parse_statements 32 10 (parser_at 32 "write 1; write 2 end") = Ok tt s'
    /\ symtab s' = symtab (parser_at 32 "write 1; write 2 end")
    /\ subroutines (cg s') = subroutines (cg (parser_at 32 "write 1; write 2 end")).
Proof.
  assert (Hrun : exists s',
            parse_statements 32 10 (parser_at 32 "write 1; write 2 end") = Ok tt s')
    by (eexists; vm_compute; reflexivity).
  destruct Hrun as [s' Hrun]. exists s'. split; [exact Hrun|].
  destruct (statements_only_append 32 10 (parser_at 32 "write 1; write 2 end") s'
              (or_introl Hrun)) as (Hsym & _ & Hsubs & _).
  exact (conj Hsym Hsubs).
Defined.

(** X23.  [exit] inside a subroutine.  In a procedure an expression
    after [exit] is the error "an exit expression is not allowed for a
    procedure"; in a function a missing expression is the error
    "missing exit expression for a function", reported at the [exit]
    token; without an expression and outside a function the return
    instruction is emitted; and in a function the expression is
    compiled, the typed return instruction follows it, and its type must
    be the function's type without the callable bit. *)
Theorem parse_exit_in_subroutine (MAX_ID_LENGTH : Z) (n : nat) (s s1 : State) :
  tok_type (token (lex s)) = TOK_EXIT ->
  next_token MAX_ID_LENGTH s = Ok tt s1 ->
  (STARTS_EXPR (tok_type (token (lex s1))) = true ->
   IS_PROCEDURE (return_type s) = true ->
   parse_exit MAX_ID_LENGTH n s
     = Fatal (position (lex s1))
         (Message "an exit expression is not allowed for a procedure"))
  /\ (STARTS_EXPR (tok_type (token (lex s1))) = false ->
      IS_FUNCTION (return_type s) = true ->
      parse_exit MAX_ID_LENGTH n s
        = Fatal (position (lex s)) (Message "missing exit expression for a function"))
  /\ (STARTS_EXPR (tok_type (token (lex s1))) = false ->
      IS_FUNCTION (return_type s) = false ->
      parse_exit MAX_ID_LENGTH n s = Ok tt (set_cg (gen_1 JVM_RETURN (cg s1)) s1))
  /\ (STARTS_EXPR (tok_type (token (lex s1))) = true ->
      IS_FUNCTION (return_type s) = true ->
      forall t1 s2,
        parse_expr MAX_ID_LENGTH n s1 = Ok t1 s2 ->
        parse_exit MAX_ID_LENGTH n s
          = if t1 =? SET_RETURN_TYPE (return_type s) then
              Ok tt (set_cg (gen_1 (if IS_ARRAY_TYPE (return_type s)
                                    then JVM_ARETURN else JVM_IRETURN) (cg s2)) s2)
            else
              Fatal (position (lex s1))
                (Incompatible (SET_RETURN_TYPE (return_type s)) t1
                   "for 'exit' statement")).
Proof.
  intros Htok Hnext.
  destruct (next_token_state MAX_ID_LENGTH s s1 Hnext) as [l Hs1].
  assert (Hrt : return_type s1 = return_type s) by (by subst s1).
  assert (Hrun : forall k,
    parse_exit MAX_ID_LENGTH n s
    = (let* t := tok in let* rt := gets return_type in k t rt) s1 ->
    parse_exit MAX_ID_LENGTH n s
    = k (tok_type (token (lex s1))) (return_type s) s1).
  { intros k ->. unfold bind, tok, gets. by rewrite Hrt. }
  assert (Hstart : parse_exit MAX_ID_LENGTH n s
    = (let* t := tok in
       let* rt := gets return_type in
       if STARTS_EXPR t then
         if IS_PROCEDURE rt then
           abort_c ERR_EXIT_EXPRESSION_NOT_ALLOWED_FOR_PROCEDURE []
         else if IS_FUNCTION rt then
           let* pos := get_position in
           let* t1 := parse_expr MAX_ID_LENGTH n in
           (if IS_ARRAY_TYPE rt then emit1 JVM_ARETURN else emit1 JVM_IRETURN) >>
           let t2 := SET_RETURN_TYPE rt in
           check_types t1 t2 pos "for 'exit' statement"
         else ret tt
       else if IS_FUNCTION rt then
         abort_at (position (lex s)) ERR_MISSING_EXIT_EXPRESSION_FOR_FUNCTION []
       else emit1 JVM_RETURN) s1).
  { unfold parse_exit.
    rewrite (bind_ok get_position _ s (position (lex s)) s) by reflexivity.
    by rewrite (bind_ok _ _ s tt s1 (expect_ok MAX_ID_LENGTH TOK_EXIT s s1 Htok Hnext)). }
  apply Hrun in Hstart. clear Hrun.
  split_and!.
  - intros Hse Hp. by rewrite Hstart, Hse, Hp.
  - intros Hse Hf. by rewrite Hstart, Hse, Hf.
  - intros Hse Hf. by rewrite Hstart, Hse, Hf.
  - intros Hse Hf t1 s2 He.
    assert (Hp : IS_PROCEDURE (return_type s) = false).
    { unfold IS_FUNCTION in Hf. apply andb_true_iff in Hf as [_ Hf].
      by apply negb_true_iff in Hf. }
    rewrite Hstart, Hse, Hp, Hf.
    rewrite (bind_ok get_position _ s1 (position (lex s1)) s1) by reflexivity.
    rewrite (bind_ok _ _ s1 t1 s2 He).
    unfold check_types.
    destruct (IS_ARRAY_TYPE (return_type s)); unfold bind, emit1, lift_cg, modify;
      by destruct (t1 =? SET_RETURN_TYPE (return_type s)).
Qed.

Lemma parse_exit_in_subroutine_witness :
  parse_exit 32 5 (set_return_type TYPE_CALLABLE (parser_at 32 "exit 5 end"))
    = Fatal (mk_pos 1 6) (Message "an exit expression is not allowed for a procedure")
  /\ parse_exit 32 5 (set_return_type 12 (parser_at 32 "exit end"))
     = Fatal (mk_pos 1 1) (Message "missing exit expression for a function")
  /\ parsed (parse_exit 32 5 (set_return_type TYPE_CALLABLE (parser_at 32 "exit end")))
     = Some (tt, TOK_END, [Op1 JVM_RETURN])
  /\ parsed (parse_exit 32 5 (set_return_type 12 (parser_at 32 "exit 5 end")))
     = Some (tt, TOK_END, [Op2 JVM_LDC 5; Op1 JVM_IRETURN]).
Proof.
  split_and!.
  - edestruct (parse_exit_in_subroutine 32 5
                 (set_return_type TYPE_CALLABLE (parser_at 32 "exit 5 end")))
      as (H & _); [reflexivity|vm_compute; reflexivity|].
    rewrite H; reflexivity.
  - edestruct (parse_exit_in_subroutine 32 5
                 (set_return_type 12 (parser_at 32 "exit end")))
      as (_ & H & _); [reflexivity|vm_compute; reflexivity|].
    rewrite H; reflexivity.
  - edestruct (parse_exit_in_subroutine 32 5
                 (set_return_type TYPE_CALLABLE (parser_at 32 "exit end")))
      as (_ & _ & H & _); [reflexivity|vm_compute; reflexivity|].
    rewrite H; reflexivity.
  - edestruct (parse_exit_in_subroutine 32 5
                 (set_return_type 12 (parser_at 32 "exit 5 end")))
      as (_ & _ & _ & H); [reflexivity|vm_compute; reflexivity|].
    erewrite H; [| reflexivity | reflexivity | vm_compute; reflexivity].
    reflexivity.
Defined.

Lemma tok_eqb_eq a b : tok_eqb a b = true <-> a = b.
Proof.
  split; [|intros ->; unfold tok_eqb; apply Z.eqb_refl].
  unfold tok_eqb. intros H. apply Z.eqb_eq in H. by destruct a, b.
Qed.

(** X24.  [parse_type] reads [boolean] or [integer] and, when the token
    [array] follows, that token as well; it yields the value it was
    given with the bit of the base type added, and with the array bit
    added exactly when [array] was read, and it reads no further.  Any
    other token in the place of the base type is the error "expected
    type", reported at that token.  From no bits (a declaration or a
    parameter) the result is one of the four variable types; from the
    callable bit (the type behind the arrow of a function) it is a
    function type, never the procedure type, whose return type is a
    variable type. *)
Theorem parse_type_result (MAX_ID_LENGTH : Z) (t0 : ValType) (s : State) :
  match base_type (tok_type (token (lex s))) with
  | None =>
      parse_type MAX_ID_LENGTH t0 s
      = Fatal (position (lex s))
          (Message ("expected type, but found "
                    ++ get_token_string (tok_type (token (lex s)))))
  | Some base =>
      (forall s1,
         next_token MAX_ID_LENGTH s = Ok tt s1 ->
         tok_type (token (lex s1)) <> TOK_ARRAY ->
         parse_type MAX_ID_LENGTH t0 s = Ok (Z.lor t0 base) s1)
      /\ (forall s1 s2,
            next_token MAX_ID_LENGTH s = Ok tt s1 ->
            tok_type (token (lex s1)) = TOK_ARRAY ->
            next_token MAX_ID_LENGTH s1 = Ok tt s2 ->
            parse_type MAX_ID_LENGTH t0 s = Ok (Z.lor (Z.lor t0 base) TYPE_ARRAY) s2)
      /\ (forall t,
            t = Z.lor 0 base \/ t = Z.lor (Z.lor 0 base) TYPE_ARRAY ->
            IS_VARIABLE t = true /\ IS_CALLABLE_TYPE t = false)
      /\ (forall t,
            t = Z.lor TYPE_CALLABLE base
            \/ t = Z.lor (Z.lor TYPE_CALLABLE base) TYPE_ARRAY ->
            IS_FUNCTION t = true /\ IS_PROCEDURE t = false
            /\ IS_VARIABLE (SET_RETURN_TYPE t) = true)
  end.
Proof.
  assert (Hstart : forall base,
    (tok_type (token (lex s)) = TOK_BOOLEAN /\ base = TYPE_BOOLEAN
     \/ tok_type (token (lex s)) = TOK_INTEGER /\ base = TYPE_INTEGER) ->
    forall s1, next_token MAX_ID_LENGTH s = Ok tt s1 ->
    parse_type MAX_ID_LENGTH t0 s
    = (let* t2 := tok in
       if tok_eqb t2 TOK_ARRAY
       then next_token MAX_ID_LENGTH >> ret (Z.lor (Z.lor t0 base) TYPE_ARRAY)
       else ret (Z.lor t0 base)) s1).
  { intros base Hb s1 Hn. unfold parse_type.
    rewrite (bind_ok tok _ s _ s eq_refl).
    destruct Hb as [[-> ->]|[-> ->]].
    - change (tok_eqb TOK_BOOLEAN TOK_BOOLEAN) with true. cbv iota.
      rewrite (bind_ok (ret (Z.lor t0 TYPE_BOOLEAN)) _ s _ s eq_refl).
      by rewrite (bind_ok _ _ s tt s1 Hn).
    - change (tok_eqb TOK_INTEGER TOK_BOOLEAN) with false.
      change (tok_eqb TOK_INTEGER TOK_INTEGER) with true. cbv iota.
      rewrite (bind_ok (ret (Z.lor t0 TYPE_INTEGER)) _ s _ s eq_refl).
      by rewrite (bind_ok _ _ s tt s1 Hn). }
  destruct (base_type (tok_type (token (lex s)))) as [base|] eqn:Hbase.
  - assert (Hb : tok_type (token (lex s)) = TOK_BOOLEAN /\ base = TYPE_BOOLEAN
                 \/ tok_type (token (lex s)) = TOK_INTEGER /\ base = TYPE_INTEGER).
    { destruct (tok_type (token (lex s))); try discriminate;
        inversion Hbase; [by left|by right]. }
    split; [|split; [|split]].
    + intros s1 Hn Harr. rewrite (Hstart base Hb s1 Hn).
      rewrite (bind_ok tok _ s1 _ s1 eq_refl).
      destruct (tok_eqb (tok_type (token (lex s1))) TOK_ARRAY) eqn:E; [|done].
      by apply tok_eqb_eq in E.
    + intros s1 s2 Hn Harr Hn2. rewrite (Hstart base Hb s1 Hn).
      rewrite (bind_ok tok _ s1 _ s1 eq_refl), Harr.
      change (tok_eqb TOK_ARRAY TOK_ARRAY) with true. cbv iota.
      by rewrite (bind_ok _ _ s1 tt s2 Hn2).
    + intros t Ht. destruct Hb as [[_ ->]|[_ ->]], Ht as [->| ->]; by vm_compute.
    + intros t Ht. destruct Hb as [[_ ->]|[_ ->]], Ht as [->| ->]; by vm_compute.
  - unfold parse_type. rewrite (bind_ok tok _ s _ s eq_refl).
    assert (E1 : tok_eqb (tok_type (token (lex s))) TOK_BOOLEAN = false)
      by (by destruct (tok_type (token (lex s)))).
    assert (E2 : tok_eqb (tok_type (token (lex s))) TOK_INTEGER = false)
      by (by destruct (tok_type (token (lex s)))).
    rewrite E1, E2. unfold bind at 1, abort_c. reflexivity.
Qed.

Lemma parse_type_result_witness :
  (exists s2, parse_type 32 0 (parser_at 32 "integer array v;") = Ok 5 s2
              /\ tok_type (token (lex s2)) = TOK_ID)
  /\ (exists s1, parse_type 32 TYPE_CALLABLE (parser_at 32 "boolean begin") = Ok 10 s1
                 /\ tok_type (token (lex s1)) = TOK_BEGIN)
  /\ IS_FUNCTION 10 = true /\ IS_PROCEDURE 10 = false
  /\ parse_type 32 0 (parser_at 32 "array v;")
     = Fatal (mk_pos 1 1) (Message "expected type, but found 'array'").
Proof.
  pose proof (parse_type_result 32 0 (parser_at 32 "integer array v;")) as H1.
  pose proof (parse_type_result 32 TYPE_CALLABLE (parser_at 32 "boolean begin")) as H2.
  pose proof (parse_type_result 32 0 (parser_at 32 "array v;")) as H3.
  change (base_type (tok_type (token (lex (parser_at 32 "integer array v;")))))
    with (Some TYPE_INTEGER) in H1.
  change (base_type (tok_type (token (lex (parser_at 32 "boolean begin")))))
    with (Some TYPE_BOOLEAN) in H2.
  change (base_type (tok_type (token (lex (parser_at 32 "array v;")))))
    with (@None ValType) in H3.
  destruct H1 as (_ & H1 & _). destruct H2 as (H2 & _ & _ & Hf).
  split; [|split; [|split; [|split]]].
  - eexists. split.
    + eapply H1; [vm_compute; reflexivity|reflexivity|vm_compute; reflexivity].
    + reflexivity.
  - eexists. split.
    + eapply H2; [vm_compute; reflexivity|discriminate].
    + reflexivity.
  - exact (proj1 (Hf 10 (or_introl eq_refl))).
  - exact (proj1 (proj2 (Hf 10 (or_introl eq_refl)))).
  - exact H3.
Defined.

Lemma expect_id_ok MAX_ID_LENGTH s s' x :
  tok_type (token (lex s)) = TOK_ID -> tok_lexeme (token (lex s)) = Some x ->
  next_token MAX_ID_LENGTH s = Ok tt s' ->
  expect_id MAX_ID_LENGTH s = Ok x s'.
Proof.
  intros Htok Hx Hnext. unfold expect_id.
  rewrite (bind_ok tok _ s TOK_ID s) by (unfold tok, gets; by rewrite Htok).
  change (tok_eqb TOK_ID TOK_ID) with true. cbv iota.
  rewrite (bind_ok token_lexeme _ s x s)
    by (unfold token_lexeme, bind, gets; by rewrite Hx).
  by rewrite (bind_ok _ _ _ _ _ Hnext).
Qed.

Lemma find_name_run id s r :
  find_name id (symtab s) = Some r -> find_name_ id s = Ok r s.
Proof.
  intros H. unfold find_name_, lift_sym. rewrite H. simpl. by destruct s.
Qed.

Lemma next_token_symtab MAX_ID_LENGTH s s' :
  next_token MAX_ID_LENGTH s = Ok tt s' -> symtab s' = symtab s.
Proof. intros H. destruct (next_token_state _ _ _ H) as [l ->]. done. Qed.

(** X25.  The declaration of one variable in [parse_vardef], at an
    identifier token with the lexeme [x] (every identifier that
    [get_token] stores holds its lexeme: [next_token_payload]).  A name
    that [find_name] sees (a name of the current scope, or a callable of
    the enclosing one, the subroutine's own name included) is the error
    "multiple definition of" that name, reported at the name; any other
    name is entered with the declared type and the next free slot, and
    the width grows by one. *)
Theorem declare_variable_spec (MAX_ID_LENGTH : Z) (t1 : ValType) (s s1 : State) :
  tok_type (token (lex s)) = TOK_ID ->
  next_token MAX_ID_LENGTH s = Ok tt s1 ->
  symtab_wf (symtab s) -> scope_room 1 (symtab s) = true ->
  IS_VARIABLE t1 = true ->
  forall x, tok_lexeme (token (lex s)) = Some x ->
  if visible x (symtab s) then
    declare_variable MAX_ID_LENGTH t1 s
      = Fatal (position (lex s)) (Message ("multiple definition of '" ++ x ++ "'"))
  else
    exists st',
      declare_variable MAX_ID_LENGTH t1 s = Ok tt (set_symtab st' s1)
      /\ symtab_wf st'
      /\ find_name x st'
         = Some (true, Some (make_idprop t1 (get_variables_width (symtab s)) 0 []))
      /\ get_variables_width st'
         = (get_variables_width (symtab s) + 1) mod UINT_WRAP
      /\ forall m, m <> x -> find_name m st' = find_name m (symtab s).
Proof.
  intros Htok Hnext W Hroom Hvar x Hx.
  pose proof (next_token_symtab _ _ _ Hnext) as Hsym.
  destruct (find_name_visible (symtab s) x W) as [w Hf].
  assert (Hstart : declare_variable MAX_ID_LENGTH t1 s
    = (let* '(found, _) := find_name_ x in
       (if (found : bool)
        then abort_at (position (lex s)) ERR_MULTIPLE_DEFINITION [ArgStr x]
        else ret tt) >>
       let* width := variables_width in
       let prop := make_idprop t1 width 0 [] in
       let* '(inserted, _) := insert_name_ x prop in
       if negb inserted
       then abort_at (position (lex s)) ERR_MULTIPLE_DEFINITION [ArgStr x]
       else ret tt) s1).
  { unfold declare_variable.
    rewrite (bind_ok get_position _ s (position (lex s)) s) by reflexivity.
    by rewrite (bind_ok _ _ s _ s1 (expect_id_ok MAX_ID_LENGTH s s1 x Htok Hx Hnext)). }
  rewrite Hstart. clear Hstart.
  rewrite (bind_ok _ _ s1 _ s1 (find_name_run x s1 _ ltac:(rewrite Hsym; exact Hf))).
  destruct (visible x (symtab s)) eqn:Hv.
  - reflexivity.
  - destruct (insert_name_lookup (symtab s) x (make_idprop t1 (curr_offset (symtab s)) 0 [])
                W Hroom Hv) as (prop' & st' & Hi & Hprop & W' & Hfx & Hother).
    simpl ip_type in Hprop. rewrite Hvar in Hprop.
    pose proof (insert_name_spec (symtab s) x
                  (make_idprop t1 (curr_offset (symtab s)) 0 []) W Hroom) as Hspec.
    simpl in Hspec. rewrite Hv, Hvar in Hspec.
    destruct Hspec as (st2 & Hi2 & _ & _ & _ & _ & Hoff).
    assert (st2 = st') by congruence. subst st2.
    exists st'. split; [|split; [done|split; [|split; [exact Hoff|exact Hother]]]].
    + unfold ret at 1. unfold bind at 1.
      unfold bind at 1, variables_width at 1, gets at 1.
      unfold get_variables_width. rewrite Hsym.
      unfold bind at 1, insert_name_, lift_sym. rewrite Hsym, Hi. reflexivity.
    + rewrite Hfx, Hprop. reflexivity.
Qed.

Lemma declare_variable_spec_witness :
  declare_variable 32 TYPE_INTEGER
      (parser_in 32 (default symtab_zero example_in_scope) "f; a <- 1")
    = Fatal (mk_pos 1 1) (Message "multiple definition of 'f'")
  /\ (exists st' s1,
        declare_variable 32 TYPE_INTEGER
            (parser_in 32 (default symtab_zero example_in_scope) "b; a <- 1")
          = Ok tt (set_symtab st' s1)
        /\ find_name "b" st' = Some (true, Some (make_idprop TYPE_INTEGER 2 0 []))
        /\ get_variables_width st' = 3).
Proof.
  split.
  - epose proof (declare_variable_spec 32 TYPE_INTEGER
                   (parser_in 32 (default symtab_zero example_in_scope) "f; a <- 1") _
                   eq_refl ltac:(vm_compute; reflexivity)
                   (symtab_ok_sound (default symtab_zero example_in_scope) eq_refl)
                   eq_refl eq_refl "f" eq_refl) as H.
    exact H.
  - epose proof (declare_variable_spec 32 TYPE_INTEGER
                   (parser_in 32 (default symtab_zero example_in_scope) "b; a <- 1") _
                   eq_refl ltac:(vm_compute; reflexivity)
                   (symtab_ok_sound (default symtab_zero example_in_scope) eq_refl)
                   eq_refl eq_refl "b" eq_refl) as H.
    destruct H as (st' & Hrun & _ & Hf & Hw & _).
    exists st'. eexists. split; [exact Hrun|]. split; [exact Hf|exact Hw].
Defined.

(** X26.  Two edges of [parse_arglist].  An empty argument list is
    accepted whatever the number of parameters of the routine: the
    count of arguments is compared with it only when there is at least
    one argument.  And an argument handed to a routine without
    parameters is the error "takes no arguments", reported at the
    routine's name, in which the name stands first and the kind of
    routine is quoted. *)
Theorem parse_arglist_edges (MAX_ID_LENGTH : Z) (n : nat) (id : string)
    (idpos : SourcePos) (p : IDprop) (s s1 : State) :
  find_name id (symtab s) = Some (true, Some p) ->
  tok_type (token (lex s)) = TOK_LPAR ->
  next_token MAX_ID_LENGTH s = Ok tt s1 ->
  (tok_type (token (lex s1)) = TOK_RPAR ->
   forall s2, next_token MAX_ID_LENGTH s1 = Ok tt s2 ->
     parse_arglist MAX_ID_LENGTH (S n) id idpos s = Ok tt s2)
  /\ (STARTS_EXPR (tok_type (token (lex s1))) = true -> ip_nparams p = 0 ->
      parse_arglist MAX_ID_LENGTH (S n) id idpos s
        = Fatal idpos
            (Message (id ++ " '"
                      ++ (if IS_FUNCTION (ip_type p) then "function" else "procedure")
                      ++ "' takes no arguments"))).
Proof.
  intros Hf Htok Hnext.
  assert (Hstart : parse_arglist MAX_ID_LENGTH (S n) id idpos s
    = (let routine := if IS_FUNCTION (ip_type p) then "function" else "procedure" in
       let* t := tok in
       (if STARTS_EXPR t then
          (if ip_nparams p =? 0 then
             abort_at idpos ERR_TAKES_NO_ARGUMENTS [ArgStr id; ArgStr routine]
           else ret tt) >>
          let* pos := get_position in
          let* t1 := parse_expr MAX_ID_LENGTH n in
          let* expected := param_at p 0 in
          check_types t1 expected pos
            ("for parameter " ++ string_of_Z 1 ++ " of call to '" ++ id ++ "'") >>
          let* i :=
            while_ n (fun _ s => tok_eqb (tok_type (token (lex s))) TOK_COMMA)
              (fun i =>
                 (if ip_nparams p <=? i then abort_c ERR_TOO_MANY_ARGUMENTS [ArgStr id]
                  else ret tt) >>
                 next_token MAX_ID_LENGTH >>
                 let* pos := get_position in
                 let* t1 := parse_expr MAX_ID_LENGTH n in
                 let* expected := param_at p i in
                 check_types t1 expected pos
                   ("for parameter " ++ string_of_Z (i + 1) ++ " of call to '"
                    ++ id ++ "'") >>
                 ret (i + 1))
              1 in
          if i <? ip_nparams p then abort_c ERR_TOO_FEW_ARGUMENTS [ArgStr id]
          else ret tt
        else ret tt) >>
       expect MAX_ID_LENGTH TOK_RPAR) s1).
  { cbn [parse_arglist]. unfold parse_arglist_body.
    rewrite (bind_ok _ _ s _ s (find_name_run id s _ Hf)).
    change (negb true) with false. cbv iota.
    unfold ret at 1. unfold bind at 1. unfold deref at 1. unfold ret at 1.
    unfold bind at 1.
    by rewrite (bind_ok _ _ s tt s1 (expect_ok MAX_ID_LENGTH TOK_LPAR s s1 Htok Hnext)). }
  rewrite Hstart. clear Hstart. cbv zeta.
  split.
  - intros Hrp s2 Hnext2. unfold bind at 1, tok at 1, gets at 1. rewrite Hrp.
    change (STARTS_EXPR TOK_RPAR) with false. cbv iota.
    unfold ret at 1. unfold bind at 1.
    exact (expect_ok MAX_ID_LENGTH TOK_RPAR s1 s2 Hrp Hnext2).
  - intros Hse Hnp. unfold bind at 1, tok at 1, gets at 1.
    rewrite Hse, Hnp. change (0 =? 0) with true. cbv iota.
    reflexivity.
Qed.

Lemma parse_arglist_edges_witness :
  ip_nparams two_param_proc = 2
  /\ (exists s2,
        parse_arglist 32 5 "f" (mk_pos 1 1)
          (parser_in 32 (default symtab_zero example_declared) "() end")
          = Ok tt s2)
  /\ parse_arglist 32 5 "f" (mk_pos 1 1)
       (parser_in 32 (default symtab_zero example_resumed) "(1) end")
     = Fatal (mk_pos 1 1) (Message "f 'procedure' takes no arguments").
Proof.
  split; [reflexivity|]. split.
  - epose proof (parse_arglist_edges 32 4 "f" (mk_pos 1 1) two_param_proc
                   (parser_in 32 (default symtab_zero example_declared) "() end") _
                   eq_refl eq_refl ltac:(vm_compute; reflexivity)) as [H _].
    eexists. apply H; [reflexivity|vm_compute; reflexivity].
  - epose proof (parse_arglist_edges 32 4 "f" (mk_pos 1 1) proc_prop
                   (parser_in 32 (default symtab_zero example_resumed) "(1) end") _
                   eq_refl eq_refl ltac:(vm_compute; reflexivity)) as [_ H].
    apply H; reflexivity.
Defined.

(** ** simplc.c: expressions *)

(** X27.  A comparison [e1 op e2].  Neither operand may be an array;
    [=] and [#] accept operands of any one type, the second checked
    against the first; the four order comparisons accept integers only,
    the left operand checked first; every diagnostic is reported at the
    operator.  When the types fit, the comparison is handed to the
    emitter after the code of both operands and the result is
    boolean. *)
Theorem parse_expr_relational (MAX_ID_LENGTH : Z) (n : nat) (s0 s1 s1' s2 : State)
    (t1 t2 : ValType) (op : TokenType) (c : Bytecode) :
  parse_simple MAX_ID_LENGTH n s0 = Ok t1 s1 ->
  tok_type (token (lex s1)) = op -> relop_code op = Some c ->
  next_token MAX_ID_LENGTH s1 = Ok tt s1' ->
  parse_simple MAX_ID_LENGTH n s1' = Ok t2 s2 ->
  parse_expr MAX_ID_LENGTH (S n) s0 =
    if IS_ARRAY t1 || IS_ARRAY t2 then
      Fatal (position (lex s1))
        (Message (get_token_string op ++ " is an illegal array operation"))
    else if tok_eqb op TOK_EQ || tok_eqb op TOK_NE then
      if t2 =? t1 then Ok TYPE_BOOLEAN (set_cg (gen_cmp c (cg s2)) s2)
      else Fatal (position (lex s1)) (Incompatible t1 t2 (op_context op))
    else if negb (t1 =? TYPE_INTEGER) then
      Fatal (position (lex s1)) (Incompatible TYPE_INTEGER t1 (op_context op))
    else if negb (t2 =? TYPE_INTEGER) then
      Fatal (position (lex s1)) (Incompatible TYPE_INTEGER t2 (op_context op))
    else Ok TYPE_BOOLEAN (set_cg (gen_cmp c (cg s2)) s2).
Proof.
  intros Hs1 Hop Hc Hnext Hs2.
  assert (Hrel : IS_RELOP op = true) by (by destruct op).
  cbn [parse_expr]. unfold parse_expr_body.
  rewrite (bind_ok _ _ s0 t1 s1 Hs1).
  rewrite (bind_ok tok _ s1 op s1) by (unfold tok, gets; by rewrite Hop).
  rewrite Hrel.
  destruct (IS_ARRAY t1) eqn:Ha1.
  { unfold bind at 1. unfold abort_c. simpl abort_message. reflexivity. }
  unfold ret at 1. unfold bind at 1.
  rewrite (bind_ok get_position _ s1 (position (lex s1)) s1) by reflexivity.
  rewrite (bind_ok _ _ s1 tt s1' Hnext).
  rewrite (bind_ok _ _ s1' t2 s2 Hs2).
  destruct (IS_ARRAY t2) eqn:Ha2.
  { unfold bind at 1. reflexivity. }
  unfold ret at 1. unfold bind at 1. simpl orb.
  unfold check_types.
  destruct op; try discriminate Hc; inversion Hc; subst c; simpl;
    unfold bind, ret, lift_cg, modify;
    repeat match goal with
           | |- context [negb (?a =? ?b)] => destruct (a =? b); simpl
           | |- context [?a =? ?b] => destruct (a =? b); simpl
           end; reflexivity.
Qed.

Lemma parse_expr_relational_witness :
  parsed (parse_expr 32 5 (parser_at 32 "1 <= 2"))
    = Some (TYPE_BOOLEAN, TOK_EOF,
            [Op2 JVM_LDC 1; Op2 JVM_LDC 2; Op2Label JVM_IF_ICMPLE 0; Op2 JVM_LDC 0;
             Op2Label JVM_GOTO 1; LabelDef 0; Op2 JVM_LDC 1; LabelDef 1])
  /\ parse_expr 32 5 (parser_at 32 "true < 2")
     = Fatal (mk_pos 1 6)
         (Incompatible TYPE_INTEGER TYPE_BOOLEAN "for operator '<'")
  /\ parsed (parse_expr 32 5 (parser_at 32 "true = false"))
     = Some (TYPE_BOOLEAN, TOK_EOF,
             [Op2 JVM_LDC 1; Op2 JVM_LDC 0; Op2Label JVM_IF_ICMPEQ 0; Op2 JVM_LDC 0;
              Op2Label JVM_GOTO 1; LabelDef 0; Op2 JVM_LDC 1; LabelDef 1]).
Proof.
  split_and!.
  - erewrite (parse_expr_relational 32 4 (parser_at 32 "1 <= 2"));
      [| vm_compute; reflexivity | reflexivity | reflexivity
       | vm_compute; reflexivity | vm_compute; reflexivity ].
    reflexivity.
  - erewrite (parse_expr_relational 32 4 (parser_at 32 "true < 2"));
      [| vm_compute; reflexivity | reflexivity | reflexivity
       | vm_compute; reflexivity | vm_compute; reflexivity ].
    reflexivity.
  - erewrite (parse_expr_relational 32 4 (parser_at 32 "true = false"));
      [| vm_compute; reflexivity | reflexivity | reflexivity
       | vm_compute; reflexivity | vm_compute; reflexivity ].
    reflexivity.
Defined.

Lemma next_token_set_cg MAX_ID_LENGTH g s s' :
  next_token MAX_ID_LENGTH s = Ok tt s' ->
  next_token MAX_ID_LENGTH (set_cg g s) = Ok tt (set_cg g s').
Proof.
  unfold next_token, lift_lex. simpl.
  destruct (get_token MAX_ID_LENGTH (lex s)) as [[] l| | |]; try done.
  intros H. by inversion H.
Qed.

(** X28.  The code of a [while] statement.  Two labels are drawn before
    anything is read; the first is placed in front of the code of the
    guard, the branch-if-zero to the second follows the guard, the
    jump back to the first follows the body, and the second label
    ends the statement.  A guard that is not boolean is reported at the
    guard's first token, after its code has been emitted. *)
Theorem parse_while_layout (MAX_ID_LENGTH : Z) (n : nat)
    (s s1 s2 s3 s4 s5 : State) (t1 : ValType) :
  let l1 := next_label (cg s) in
  let l2 := next_label (cg s) + 1 in
  let g2 := snd (get_label (snd (get_label (cg s)))) in
  tok_type (token (lex s)) = TOK_WHILE ->
  next_token MAX_ID_LENGTH s = Ok tt s1 ->
  parse_expr MAX_ID_LENGTH n (set_cg (gen_label l1 g2) s1) = Ok t1 s2 ->
  (t1 <> TYPE_BOOLEAN ->
   parse_while MAX_ID_LENGTH (S n) s
     = Fatal (position (lex s1)) (Incompatible TYPE_BOOLEAN t1 "for 'while' guard"))
  /\ (t1 = TYPE_BOOLEAN ->
      tok_type (token (lex s2)) = TOK_DO ->
      next_token MAX_ID_LENGTH s2 = Ok tt s3 ->
      parse_statements MAX_ID_LENGTH n (set_cg (gen_2_label JVM_IFEQ l2 (cg s2)) s3)
        = Ok tt s4 ->
      tok_type (token (lex s4)) = TOK_END ->
      next_token MAX_ID_LENGTH s4 = Ok tt s5 ->
      exists guard body,
        code (cg s2) = code (cg s) ++ [LabelDef l1] ++ guard
        /\ code (cg s4) = code (cg s2) ++ [Op2Label JVM_IFEQ l2] ++ body
        /\ parse_while MAX_ID_LENGTH (S n) s
           = Ok tt (set_cg (gen_label l2 (gen_2_label JVM_GOTO l1 (cg s5))) s5)
        /\ code (gen_label l2 (gen_2_label JVM_GOTO l1 (cg s5)))
           = code (cg s) ++ [LabelDef l1] ++ guard ++ [Op2Label JVM_IFEQ l2]
             ++ body ++ [Op2Label JVM_GOTO l1; LabelDef l2]).
Proof.
  intros l1 l2 g2 Htok Hn1 He.
  assert (Hstart : parse_while MAX_ID_LENGTH (S n) s
    = (emit_branch JVM_IFEQ l2 >>
       check_types t1 TYPE_BOOLEAN (position (lex s1)) "for 'while' guard" >>
       expect MAX_ID_LENGTH TOK_DO >>
       parse_statements MAX_ID_LENGTH n >>
       expect MAX_ID_LENGTH TOK_END >>
       emit_branch JVM_GOTO l1 >>
       emit_label l2) s2).
  { cbn [parse_while]. unfold parse_while_body.
    unfold bind at 1, new_label at 1. cbn [get_label].
    unfold bind at 1, new_label at 1. cbn [get_label cg set_cg next_label].
    match goal with
    | |- context [bind (expect MAX_ID_LENGTH TOK_WHILE) ?k ?st] =>
        rewrite (bind_ok (expect MAX_ID_LENGTH TOK_WHILE) k st tt (set_cg (cg st) s1))
    end.
    - unfold bind at 1, get_position at 1, gets at 1.
      unfold bind at 1, emit_label at 1, lift_cg at 1, modify at 1.
      cbn [lex set_cg cg].
      match goal with
      | |- context [bind (parse_expr MAX_ID_LENGTH n) ?k ?st] =>
          rewrite (bind_ok (parse_expr MAX_ID_LENGTH n) k st t1 s2 He)
      end.
      reflexivity.
    - apply expect_ok; [exact Htok|].
      exact (next_token_set_cg MAX_ID_LENGTH _ s s1 Hn1). }
  split.
  - intros Hne. apply Z.eqb_neq in Hne. rewrite Hstart.
    unfold bind at 1, emit_branch at 1, lift_cg at 1, modify at 1.
    unfold bind at 1, check_types at 1. by rewrite Hne.
  - intros -> Hdo Hn2 Hb Hend Hn3. rewrite Hstart.
    unfold bind at 1, emit_branch at 1, lift_cg at 1, modify at 1.
    unfold bind at 1, check_types at 1.
    change (negb (TYPE_BOOLEAN =? TYPE_BOOLEAN)) with false. cbv iota.
    unfold ret at 1.
    match goal with
    | |- context [bind (expect MAX_ID_LENGTH TOK_DO) ?k ?st] =>
        rewrite (bind_ok (expect MAX_ID_LENGTH TOK_DO) k st tt (set_cg (cg st) s3))
    end.
    2:{ apply expect_ok; [exact Hdo|].
        exact (next_token_set_cg MAX_ID_LENGTH _ s2 s3 Hn2). }
    cbn [cg set_cg].
    rewrite (bind_ok _ _ _ tt s4 Hb).
    rewrite (bind_ok _ _ _ tt s5 (expect_ok MAX_ID_LENGTH TOK_END s4 s5 Hend Hn3)).
    destruct (parse_expr_frame MAX_ID_LENGTH n _ _ _ He) as (_ & _ & [guard Hg] & _).
    destruct (statements_frame MAX_ID_LENGTH n) as (Hsts & _).
    destruct (Hsts _ _ _ Hb) as (_ & _ & [body Hbd] & _).
    pose proof (next_token_cg MAX_ID_LENGTH s4 s5 Hn3) as Hc5.
    pose proof (next_token_cg MAX_ID_LENGTH s2 s3 Hn2) as Hc3.
    pose proof (next_token_cg MAX_ID_LENGTH s s1 Hn1) as Hc1.
    simpl in Hg, Hbd.
    exists guard, body. split_and!.
    + rewrite Hg. by rewrite <- !app_assoc.
    + rewrite Hbd. by rewrite <- !app_assoc.
    + reflexivity.
    + simpl. rewrite Hc5, Hbd, Hg. by rewrite <- !app_assoc.
Qed.

Lemma parse_while_layout_witness :
  parsed (parse_while 32 9 (parser_at 32 "while true do write 1 end"))
    = Some (tt, TOK_EOF,
            [LabelDef 0; Op2 JVM_LDC 1; Op2Label JVM_IFEQ 1;
             Op2 JVM_LDC 1; Print TYPE_INTEGER;
             Op2Label JVM_GOTO 0; LabelDef 1])
  /\ parse_while 32 6 (parser_at 32 "while 1 do chill end")
     = Fatal (mk_pos 1 7) (Incompatible TYPE_BOOLEAN TYPE_INTEGER "for 'while' guard").
Proof.
  split.
  - epose proof (parse_while_layout 32 8 (parser_at 32 "while true do write 1 end")
                   _ _ _ _ _ TYPE_BOOLEAN eq_refl
                   ltac:(vm_compute; reflexivity) ltac:(vm_compute; reflexivity))
      as [_ H].
    specialize (H eq_refl eq_refl).
    edestruct H as (guard & body & _ & _ & Hrun & _);
      [ vm_compute; reflexivity | vm_compute; reflexivity
      | reflexivity | vm_compute; reflexivity | ].
    rewrite Hrun. reflexivity.
  - epose proof (parse_while_layout 32 5 (parser_at 32 "while 1 do chill end")
                   _ _ (parser_at 32 "") (parser_at 32 "") (parser_at 32 "")
                   TYPE_INTEGER eq_refl
                   ltac:(vm_compute; reflexivity) ltac:(vm_compute; reflexivity))
      as [H _].
    rewrite H; [reflexivity|discriminate].
Defined.

Lemma abort_at_message {A} pos err args msg (s : State) :
  abort_message err args (tok_type (token (lex s))) = Some msg ->
  @abort_at A pos err args s = Fatal pos (Message msg).
Proof.
  intros H. unfold abort_at, bind, set_position, modify, abort_c. simpl. by rewrite H.
Qed.

(** X29.  An identifier as a factor, at an identifier token with the
    lexeme [x].  A name that [find_name] does not
    see (a global variable inside a subroutine among them) is the error
    "unknown identifier"; a function named without an argument list is
    the error "missing argument list for function"; any other name that
    is followed by neither a bracket nor a parenthesis is loaded from its
    slot, as a reference for an array and as an integer otherwise, and
    the factor has the type of the name. *)
Theorem parse_factor_identifier (MAX_ID_LENGTH : Z) (n : nat) (s s1 : State) :
  tok_type (token (lex s)) = TOK_ID ->
  next_token MAX_ID_LENGTH s = Ok tt s1 ->
  forall x, tok_lexeme (token (lex s)) = Some x ->
  (forall w, find_name x (symtab s) = Some (false, w) ->
     parse_factor MAX_ID_LENGTH (S n) s
       = Fatal (position (lex s)) (Message ("unknown identifier '" ++ x ++ "'")))
  /\ (forall p, find_name x (symtab s) = Some (true, Some p) ->
        tok_type (token (lex s1)) <> TOK_LBRACK ->
        tok_type (token (lex s1)) <> TOK_LPAR ->
        parse_factor MAX_ID_LENGTH (S n) s
          = if IS_FUNCTION (ip_type p) then
              Fatal (position (lex s))
                (Message ("missing argument list for function '" ++ x ++ "'"))
            else
              Ok (ip_type p)
                (set_cg (gen_2 (if IS_ARRAY_TYPE (ip_type p) then JVM_ALOAD
                                else JVM_ILOAD) (ip_offset p) (cg s1)) s1)).
Proof.
  intros Htok Hnext x Hx.
  pose proof (next_token_symtab _ _ _ Hnext) as Hsym.
  assert (Hstart : forall r, find_name x (symtab s) = Some r ->
    parse_factor MAX_ID_LENGTH (S n) s
    = (let '(found, prop) := r in
       let* t2 := tok in
       if negb found
       then abort_at (position (lex s)) ERR_UNKNOWN_IDENTIFIER [ArgStr x]
       else
         let* p := deref "prop read uninitialised" prop in
         if tok_eqb t2 TOK_LBRACK then
           (if negb (IS_ARRAY (ip_type p)) then
              abort_at (position (lex s)) ERR_NOT_AN_ARRAY [ArgStr x]
            else ret tt) >>
           let t0 := Z.land (ip_type p) 6 in
           parse_index MAX_ID_LENGTH n x >>
           emit1 JVM_IALOAD >>
           ret t0
         else if tok_eqb t2 TOK_LPAR then
           (if negb (IS_FUNCTION (ip_type p)) then
              abort_at (position (lex s)) ERR_NOT_A_FUNCTION [ArgStr x]
            else ret tt) >>
           let t0 := Z.lxor (ip_type p) TYPE_CALLABLE in
           parse_arglist MAX_ID_LENGTH n x (position (lex s)) >>
           lift_cg (gen_call x p) >>
           ret t0
         else if IS_FUNCTION (ip_type p) then
           abort_at (position (lex s)) ERR_MISSING_FUNCTION_ARGUMENT_LIST [ArgStr x]
         else
           let t0 := ip_type p in
           (if IS_ARRAY_TYPE t0 then emit2 JVM_ALOAD (ip_offset p)
            else emit2 JVM_ILOAD (ip_offset p)) >>
           ret t0) s1).
  { intros r Hr. cbn [parse_factor]. unfold parse_factor_body.
    rewrite (bind_ok tok _ s TOK_ID s) by (unfold tok, gets; by rewrite Htok).
    rewrite (bind_ok get_position _ s (position (lex s)) s) by reflexivity.
    rewrite (bind_ok _ _ s _ s1 (expect_id_ok MAX_ID_LENGTH s s1 x Htok Hx Hnext)).
    rewrite (bind_ok _ _ s1 _ s1 (find_name_run x s1 r ltac:(by rewrite Hsym))).
    by destruct r. }
  split.
  - intros w Hf. rewrite (Hstart _ Hf).
    unfold bind at 1, tok at 1, gets at 1. change (negb false) with true. cbv iota.
    by apply abort_at_message.
  - intros p Hf Hlb Hlp. rewrite (Hstart _ Hf).
    unfold bind at 1, tok at 1, gets at 1. change (negb true) with false. cbv iota.
    unfold bind at 1, deref at 1, ret at 1.
    destruct (tok_eqb (tok_type (token (lex s1))) TOK_LBRACK) eqn:E1;
      [by apply tok_eqb_eq in E1|].
    destruct (tok_eqb (tok_type (token (lex s1))) TOK_LPAR) eqn:E2;
      [by apply tok_eqb_eq in E2|].
    destruct (IS_FUNCTION (ip_type p)); [by apply abort_at_message|].
    by destruct (IS_ARRAY_TYPE (ip_type p)).
Qed.

Lemma parse_factor_identifier_witness :
  parse_factor 32 5 (parser_in 32 (default symtab_zero example_in_scope) "g + 1")
    = Fatal (mk_pos 1 1) (Message "unknown identifier 'g'")
  /\ parsed (parse_factor 32 5
               (parser_in 32 (default symtab_zero example_in_scope) "a + 1"))
     = Some (TYPE_INTEGER, TOK_PLUS, [Op2 JVM_ILOAD 1]).
Proof.
  split.
  - epose proof (parse_factor_identifier 32 4
                   (parser_in 32 (default symtab_zero example_in_scope) "g + 1") _
                   eq_refl ltac:(vm_compute; reflexivity) "g" eq_refl) as [H _].
    eapply H. vm_compute. reflexivity.
  - epose proof (parse_factor_identifier 32 4
                   (parser_in 32 (default symtab_zero example_in_scope) "a + 1") _
                   eq_refl ltac:(vm_compute; reflexivity) "a" eq_refl) as [_ H].
    rewrite (H (with_offset int_var 1));
      [reflexivity|vm_compute; reflexivity|discriminate|discriminate].
Defined.




